(** * QuickHull convex hull builder and its queries

    A shallow embedding of the [ConvexHull] class (the port of three.js'
    QuickHull that the client bundles), with its helper classes [Face],
    [HalfEdge], [VertexNode] and [VertexList].

    Conventions of the embedding.
    - JavaScript numbers are idealised as exact rationals ([Q]): rounding,
      signed zeros and overflow are outside the model.  The one indeterminate
      form the code can reach, the [0 / 0] of a line segment of length zero,
      is kept as [NaN] and makes every comparison false, as in JavaScript.
      [Math.sqrt] stays a parameter of the development.
    - Objects are addressed by handles: a vertex by its index in
      [this.vertices], a face and a half-edge by their index in an arena that
      grows by allocation.  [null] and [undefined] are [None]; reading a
      property of them raises [TypeError].
    - Loops over linked structures carry a bound taken from the size of the
      structure; running past it is reported as [Diverge]. *)

From Stdlib Require Import QArith Qabs Lqa ZArith List ListDec Lia String Bool.
From stdpp Require Import base list.

Local Open Scope Q_scope.

(** ** Numbers *)

Module Num.

(** [a > b], [a < b], [a <= b], [a === b] on numbers. *)
Definition gtb (a b : Q) : bool := negb (Qle_bool a b).
Definition ltb (a b : Q) : bool := gtb b a.
Definition leb (a b : Q) : bool := Qle_bool a b.
Definition eqb (a b : Q) : bool := Qeq_bool a b.

(** [Math.max], [Math.min], [Math.abs], [Number.EPSILON] (2^-52). *)
Definition max (a b : Q) : Q := if gtb b a then b else a.
Definition min (a b : Q) : Q := if ltb b a then b else a.
Definition abs (a : Q) : Q := Qabs a.
Definition EPSILON : Q := 1 # (2 ^ 52).

(** A number that may be [NaN]; comparisons with [NaN] are false. *)
Definition nan_gtb (a : option Q) (b : Q) : bool :=
  match a with Some a => gtb a b | None => false end.

(** Numbers extended with the two infinities, for interval bounds that
    start at [-Infinity] and [Infinity]. *)
Inductive ext := NegInf | Fin (q : Q) | PosInf.

Definition ext_gtb (a b : ext) : bool :=
  match a, b with
  | NegInf, _ => false
  | _, PosInf => false
  | Fin a, Fin b => gtb a b
  | Fin _, NegInf => true
  | PosInf, _ => true
  end.

Definition ext_min (a b : ext) : ext := if ext_gtb a b then b else a.
Definition ext_max (a b : ext) : ext := if ext_gtb b a then b else a.

Definition is_neg_inf (a : ext) : bool :=
  match a with NegInf => true | _ => false end.

End Num.

(** ** The geometric primitives of the three.js library that the hull uses *)

Module Vector3.

Record t := mk { x : Q; y : Q; z : Q }.

Definition zero : t := mk 0 0 0.

Definition getComponent (v : t) (i : nat) : Q :=
  match i with O => x v | S O => y v | _ => z v end.

Definition setComponent (v : t) (i : nat) (q : Q) : t :=
  match i with
  | O => mk q (y v) (z v)
  | S O => mk (x v) q (z v)
  | _ => mk (x v) (y v) q
  end.

Definition add (a b : t) : t := mk (x a + x b) (y a + y b) (z a + z b).
Definition sub (a b : t) : t := mk (x a - x b) (y a - y b) (z a - z b).
Definition multiplyScalar (a : t) (s : Q) : t := mk (x a * s) (y a * s) (z a * s).
Definition dot (a b : t) : Q := x a * x b + y a * y b + z a * z b.
Definition cross (a b : t) : t :=
  mk (y a * z b - z a * y b) (z a * x b - x a * z b) (x a * y b - y a * x b).
Definition lengthSq (a : t) : Q := dot a a.
Definition distanceToSquared (a b : t) : Q := lengthSq (sub a b).

Section WithSqrt.
Variable sqrt : Q -> Q.

Definition length (a : t) : Q := sqrt (lengthSq a).

(** [divideScalar (length () || 1)]: a zero length divides by one. *)
Definition normalize (a : t) : t :=
  let l := length a in
  multiplyScalar a (1 / (if Num.eqb l 0 then 1 else l)).
End WithSqrt.

End Vector3.

Module Line3.

Record t := mk { start : Vector3.t; end_ : Vector3.t }.

Definition delta (l : t) : Vector3.t := Vector3.sub (end_ l) (start l).

(** [MathUtils.clamp (t, 0, 1)]. *)
Definition clamp01 (q : Q) : Q := Num.max 0 (Num.min 1 q).

(** The quotient is [0 / 0], hence [NaN], exactly when the segment has no
    length: the numerator is a dot product with the same zero vector. *)
Definition closestPointToPointParameter (l : t) (p : Vector3.t) (clampToLine : bool)
  : option Q :=
  let startP := Vector3.sub p (start l) in
  let startEnd := Vector3.sub (end_ l) (start l) in
  let startEnd2 := Vector3.dot startEnd startEnd in
  let startEnd_startP := Vector3.dot startEnd startP in
  if Num.eqb startEnd2 0 then None
  else
    let q := startEnd_startP / startEnd2 in
    Some (if clampToLine then clamp01 q else q).

Definition closestPointToPoint (l : t) (p : Vector3.t) (clampToLine : bool)
  : option Vector3.t :=
  match closestPointToPointParameter l p clampToLine with
  | Some q => Some (Vector3.add (Vector3.multiplyScalar (delta l) q) (start l))
  | None => None
  end.

End Line3.

Module Plane.

Record t := mk { normal : Vector3.t; constant : Q }.

Definition distanceToPoint (pl : t) (p : Vector3.t) : Q :=
  Vector3.dot (normal pl) p + constant pl.

Section WithSqrt.
Variable sqrt : Q -> Q.

Definition setFromCoplanarPoints (a b c : Vector3.t) : t :=
  let n := Vector3.normalize sqrt (Vector3.cross (Vector3.sub c b) (Vector3.sub a b)) in
  mk n (- Vector3.dot a n).
End WithSqrt.

End Plane.

Module Triangle.

Definition getMidpoint (a b c : Vector3.t) : Vector3.t :=
  Vector3.multiplyScalar (Vector3.add (Vector3.add a b) c) (1 / 3).

Section WithSqrt.
Variable sqrt : Q -> Q.

Definition getNormal (a b c : Vector3.t) : Vector3.t :=
  let n := Vector3.cross (Vector3.sub c b) (Vector3.sub a b) in
  let l2 := Vector3.lengthSq n in
  if Num.gtb l2 0 then Vector3.multiplyScalar n (1 / sqrt l2) else Vector3.zero.

Definition getArea (a b c : Vector3.t) : Q :=
  Vector3.length sqrt (Vector3.cross (Vector3.sub c b) (Vector3.sub a b)) * (1 # 2).
End WithSqrt.

End Triangle.

(** [ray.origin] and [ray.direction]. *)
Module Ray.

Record t := mk { origin : Vector3.t; direction : Vector3.t }.

Definition at_ (r : t) (q : Q) : Vector3.t :=
  Vector3.add (Vector3.multiplyScalar (direction r) q) (origin r).

End Ray.

(** ** The objects of the hull *)

Inductive Mark := Visible | Deleted.

Definition Mark_eqb (a b : Mark) : bool :=
  match a, b with Visible, Visible | Deleted, Deleted => true | _, _ => false end.

(** A vertex as a doubly linked list node. *)
Module VertexNode.

Record t := mk {
  point : Vector3.t;
  prev : option nat;
  next : option nat;
  face : option nat }.

Definition new (p : Vector3.t) : t := mk p None None None.

Definition set_prev (o : option nat) (v : t) : t := mk (point v) o (next v) (face v).
Definition set_next (o : option nat) (v : t) : t := mk (point v) (prev v) o (face v).
Definition set_face (o : option nat) (v : t) : t := mk (point v) (prev v) (next v) o.

End VertexNode.

(** An entity of the doubly connected edge list. *)
Module HalfEdge.

Record t := mk {
  vertex : nat;
  prev : option nat;
  next : option nat;
  twin : option nat;
  face : nat }.

Definition new (v f : nat) : t := mk v None None None f.

Definition set_prev (o : option nat) (e : t) : t := mk (vertex e) o (next e) (twin e) (face e).
Definition set_next (o : option nat) (e : t) : t := mk (vertex e) (prev e) o (twin e) (face e).
Definition set_twin (o : option nat) (e : t) : t := mk (vertex e) (prev e) (next e) o (face e).

End HalfEdge.

Module Face.

Record t := mk {
  normal : Vector3.t;
  midpoint : Vector3.t;
  area : Q;
  constant : Q;
  outside : option nat;
  mark : Mark;
  edge : option nat }.

Definition new : t := mk Vector3.zero Vector3.zero 0 0 None Visible None.

Definition set_outside (o : option nat) (f : t) : t :=
  mk (normal f) (midpoint f) (area f) (constant f) o (mark f) (edge f).
Definition set_mark (m : Mark) (f : t) : t :=
  mk (normal f) (midpoint f) (area f) (constant f) (outside f) m (edge f).
Definition set_edge (o : option nat) (f : t) : t :=
  mk (normal f) (midpoint f) (area f) (constant f) (outside f) (mark f) o.
Definition set_plane (n m : Vector3.t) (a c : Q) (f : t) : t :=
  mk n m a c (outside f) (mark f) (edge f).

Definition distanceToPoint (f : t) (p : Vector3.t) : Q :=
  Vector3.dot (normal f) p - constant f.

End Face.

(** A doubly linked list of vertex nodes: the two ends only, the links are in
    the nodes. *)
Module VertexList.

Record t := mk { head : option nat; tail : option nat }.

Definition new : t := mk None None.
Definition first (l : t) : option nat := head l.
Definition last (l : t) : option nat := tail l.
Definition clear (l : t) : t := mk None None.
Definition isEmpty (l : t) : bool :=
  match head l with None => true | Some _ => false end.
Definition set_head (o : option nat) (l : t) : t := mk o (tail l).
Definition set_tail (o : option nat) (l : t) : t := mk (head l) o.

End VertexList.

(** ** The state of a hull under construction *)

Module ConvexHull.

(** The fields of a [ConvexHull] object and the two arenas that hold the faces
    and half-edges it has allocated. *)
Record hull := mkHull {
  tolerance : Q;
  faces : list nat;
  newFaces : list nat;
  assigned : VertexList.t;
  unassigned : VertexList.t;
  vertices : list VertexNode.t;
  faceHeap : list Face.t;
  edgeHeap : list HalfEdge.t }.

Definition set_tolerance (q : Q) (h : hull) : hull :=
  mkHull q (faces h) (newFaces h) (assigned h) (unassigned h) (vertices h)
         (faceHeap h) (edgeHeap h).
Definition set_faces (l : list nat) (h : hull) : hull :=
  mkHull (tolerance h) l (newFaces h) (assigned h) (unassigned h) (vertices h)
         (faceHeap h) (edgeHeap h).
Definition set_newFaces (l : list nat) (h : hull) : hull :=
  mkHull (tolerance h) (faces h) l (assigned h) (unassigned h) (vertices h)
         (faceHeap h) (edgeHeap h).
Definition set_assigned (l : VertexList.t) (h : hull) : hull :=
  mkHull (tolerance h) (faces h) (newFaces h) l (unassigned h) (vertices h)
         (faceHeap h) (edgeHeap h).
Definition set_unassigned (l : VertexList.t) (h : hull) : hull :=
  mkHull (tolerance h) (faces h) (newFaces h) (assigned h) l (vertices h)
         (faceHeap h) (edgeHeap h).
Definition set_vertices (l : list VertexNode.t) (h : hull) : hull :=
  mkHull (tolerance h) (faces h) (newFaces h) (assigned h) (unassigned h) l
         (faceHeap h) (edgeHeap h).
Definition set_faceHeap (l : list Face.t) (h : hull) : hull :=
  mkHull (tolerance h) (faces h) (newFaces h) (assigned h) (unassigned h) (vertices h)
         l (edgeHeap h).
Definition set_edgeHeap (l : list HalfEdge.t) (h : hull) : hull :=
  mkHull (tolerance h) (faces h) (newFaces h) (assigned h) (unassigned h) (vertices h)
         (faceHeap h) l.

(** [new ConvexHull ()]. *)
Definition new : hull :=
  mkHull (-1) [] [] VertexList.new VertexList.new [] [] [].

(** *** Computations that read and write the hull and may throw *)

Inductive error := TypeError | Diverge.

Inductive outcome (A : Type) :=
| Ok (a : A) (h : hull)
| Throw (e : error) (h : hull).
Arguments Ok {A} a h.
Arguments Throw {A} e h.

Definition M (A : Type) : Type := hull -> outcome A.

Definition ret {A} (a : A) : M A := fun h => Ok a h.
Definition bind {A B} (c : M A) (k : A -> M B) : M B :=
  fun h => match c h with Ok a h' => k a h' | Throw e h' => Throw e h' end.
Definition throw {A} (e : error) : M A := fun h => Throw e h.
Definition gets {A} (f : hull -> A) : M A := fun h => Ok (f h) h.
Definition modify (f : hull -> hull) : M unit := fun h => Ok tt (f h).

Declare Scope hull_scope.
Delimit Scope hull_scope with hull.
Notation "'let*' x ':=' c 'in' k" := (bind c (fun x => k))
  (at level 10, x pattern, c at level 100, k at level 200) : hull_scope.
Notation "c ;; k" := (bind c (fun _ => k))
  (at level 100, k at level 200, right associativity) : hull_scope.
Local Open Scope hull_scope.

(** The state an outcome ends in, and whether it is a normal return. *)
Definition final {A} (o : outcome A) : hull :=
  match o with Ok _ h => h | Throw _ h => h end.
Definition thrown {A} (o : outcome A) : option error :=
  match o with Ok _ _ => None | Throw e _ => Some e end.

(** Reading a property of [null] or [undefined]. *)
Definition deref {A} (o : option A) : M A :=
  match o with Some a => ret a | None => throw TypeError end.

Definition getVertex (v : nat) : M VertexNode.t :=
  let* vs := gets vertices in deref (vs !! v).
Definition getFace (f : nat) : M Face.t :=
  let* fs := gets faceHeap in deref (fs !! f).
Definition getEdge (e : nat) : M HalfEdge.t :=
  let* es := gets edgeHeap in deref (es !! e).

Definition modVertex (v : nat) (g : VertexNode.t -> VertexNode.t) : M unit :=
  let* n := getVertex v in modify (fun h => set_vertices (<[v := g n]> (vertices h)) h).
Definition modFace (f : nat) (g : Face.t -> Face.t) : M unit :=
  let* x := getFace f in modify (fun h => set_faceHeap (<[f := g x]> (faceHeap h)) h).
Definition modEdge (e : nat) (g : HalfEdge.t -> HalfEdge.t) : M unit :=
  let* x := getEdge e in modify (fun h => set_edgeHeap (<[e := g x]> (edgeHeap h)) h).

(** [o.f = x] where [o] may be [null]. *)
Definition modVertexAt (o : option nat) (g : VertexNode.t -> VertexNode.t) : M unit :=
  let* v := deref o in modVertex v g.
Definition modEdgeAt (o : option nat) (g : HalfEdge.t -> HalfEdge.t) : M unit :=
  let* e := deref o in modEdge e g.

Definition option_nat_eqb (a b : option nat) : bool :=
  match a, b with
  | Some a, Some b => Nat.eqb a b
  | None, None => true
  | _, _ => false
  end.

(** *** [VertexList] methods, on either of the two lists of the hull *)

Record ledger := mkLedger {
  lget : hull -> VertexList.t;
  lset : VertexList.t -> hull -> hull }.

Definition assignedL : ledger := mkLedger assigned set_assigned.
Definition unassignedL : ledger := mkLedger unassigned set_unassigned.

Definition setHead (L : ledger) (o : option nat) : M unit :=
  modify (fun h => lset L (VertexList.set_head o (lget L h)) h).
Definition setTail (L : ledger) (o : option nat) : M unit :=
  modify (fun h => lset L (VertexList.set_tail o (lget L h)) h).

Definition VertexList_clear (L : ledger) : M unit :=
  modify (fun h => lset L (VertexList.clear (lget L h)) h).

Definition VertexList_insertBefore (L : ledger) (target vertex : nat) : M unit :=
  let* t := getVertex target in
  modVertex vertex (VertexNode.set_prev (VertexNode.prev t)) ;;
  modVertex vertex (VertexNode.set_next (Some target)) ;;
  let* v := getVertex vertex in
  match VertexNode.prev v with
  | None => setHead L (Some vertex)
  | Some p => modVertex p (VertexNode.set_next (Some vertex))
  end ;;
  modVertex target (VertexNode.set_prev (Some vertex)).

Definition VertexList_insertAfter (L : ledger) (target vertex : nat) : M unit :=
  let* t := getVertex target in
  modVertex vertex (VertexNode.set_prev (Some target)) ;;
  modVertex vertex (VertexNode.set_next (VertexNode.next t)) ;;
  let* v := getVertex vertex in
  match VertexNode.next v with
  | None => setTail L (Some vertex)
  | Some n => modVertex n (VertexNode.set_prev (Some vertex))
  end ;;
  modVertex target (VertexNode.set_next (Some vertex)).

Definition VertexList_append (L : ledger) (vertex : nat) : M unit :=
  let* l := gets (lget L) in
  match VertexList.head l with
  | None => setHead L (Some vertex)
  | Some _ => modVertexAt (VertexList.tail l) (VertexNode.set_next (Some vertex))
  end ;;
  let* l := gets (lget L) in
  modVertex vertex (VertexNode.set_prev (VertexList.tail l)) ;;
  modVertex vertex (VertexNode.set_next None) ;;
  setTail L (Some vertex).

(** [while (vertex.next !== null) vertex = vertex.next]. *)
Fixpoint lastOfChain (fuel : nat) (vertex : nat) : M nat :=
  match fuel with
  | O => throw Diverge
  | S fuel =>
      let* v := getVertex vertex in
      match VertexNode.next v with
      | None => ret vertex
      | Some n => lastOfChain fuel n
      end
  end.

Definition VertexList_appendChain (L : ledger) (vertex : nat) : M unit :=
  let* l := gets (lget L) in
  match VertexList.head l with
  | None => setHead L (Some vertex)
  | Some _ => modVertexAt (VertexList.tail l) (VertexNode.set_next (Some vertex))
  end ;;
  let* l := gets (lget L) in
  modVertex vertex (VertexNode.set_prev (VertexList.tail l)) ;;
  let* n := gets (fun h => length (vertices h)) in
  let* e := lastOfChain (S n) vertex in
  setTail L (Some e).

Definition VertexList_remove (L : ledger) (vertex : nat) : M unit :=
  let* v := getVertex vertex in
  match VertexNode.prev v with
  | None => setHead L (VertexNode.next v)
  | Some p => modVertex p (VertexNode.set_next (VertexNode.next v))
  end ;;
  let* v := getVertex vertex in
  match VertexNode.next v with
  | None => setTail L (VertexNode.prev v)
  | Some n => modVertex n (VertexNode.set_prev (VertexNode.prev v))
  end.

Definition VertexList_removeSubList (L : ledger) (a b : nat) : M unit :=
  let* va := getVertex a in
  let* vb := getVertex b in
  match VertexNode.prev va with
  | None => setHead L (VertexNode.next vb)
  | Some p => modVertex p (VertexNode.set_next (VertexNode.next vb))
  end ;;
  let* va := getVertex a in
  let* vb := getVertex b in
  match VertexNode.next vb with
  | None => setTail L (VertexNode.prev va)
  | Some n => modVertex n (VertexNode.set_prev (VertexNode.prev va))
  end.


(** *** Iteration *)

Fixpoint forM {A} (l : list A) (f : A -> M unit) : M unit :=
  match l with
  | [] => ret tt
  | a :: l => f a ;; forM l f
  end.

Fixpoint foldM {A B} (f : B -> A -> M B) (l : list A) (b : B) : M B :=
  match l with
  | [] => ret b
  | a :: l => let* b' := f b a in foldM f l b'
  end.

(** *** [HalfEdge] methods *)

Definition HalfEdge_head (e : nat) : M nat :=
  let* he := getEdge e in ret (HalfEdge.vertex he).

Definition HalfEdge_tail (e : nat) : M (option nat) :=
  let* he := getEdge e in
  match HalfEdge.prev he with
  | Some p => let* hp := getEdge p in ret (Some (HalfEdge.vertex hp))
  | None => ret None
  end.

Definition HalfEdge_setTwin (this : nat) (edge : option nat) : M unit :=
  modEdge this (HalfEdge.set_twin edge) ;;
  modEdgeAt edge (HalfEdge.set_twin (Some this)).

(** *** [Face] methods *)

Fixpoint walkNext (n : nat) (edge : option nat) : M (option nat) :=
  match n with
  | O => ret edge
  | S n => let* e := deref edge in let* he := getEdge e in walkNext n (HalfEdge.next he)
  end.

Fixpoint walkPrev (n : nat) (edge : option nat) : M (option nat) :=
  match n with
  | O => ret edge
  | S n => let* e := deref edge in let* he := getEdge e in walkPrev n (HalfEdge.prev he)
  end.

Definition Face_getEdge (f : nat) (i : Z) : M (option nat) :=
  let* fa := getFace f in
  if (0 <? i)%Z then walkNext (Z.to_nat i) (Face.edge fa)
  else walkPrev (Z.to_nat (- i)) (Face.edge fa).

Definition pointOf (v : nat) : M Vector3.t :=
  let* n := getVertex v in ret (VertexNode.point n).

Section Build.

Variable sqrt : Q -> Q.

Definition Face_compute (f : nat) : M nat :=
  let* fa := getFace f in
  let* e := deref (Face.edge fa) in
  let* a := HalfEdge_tail e in
  let* b := HalfEdge_head e in
  let* he := getEdge e in
  let* en := deref (HalfEdge.next he) in
  let* c := HalfEdge_head en in
  let* a := deref a in
  let* pa := pointOf a in
  let* pb := pointOf b in
  let* pc := pointOf c in
  let n := Triangle.getNormal sqrt pa pb pc in
  let m := Triangle.getMidpoint pa pb pc in
  modFace f (Face.set_plane n m (Triangle.getArea sqrt pa pb pc) (Vector3.dot n m)) ;;
  ret f.

Definition allocFace : M nat :=
  fun h => Ok (length (faceHeap h)) (set_faceHeap (faceHeap h ++ [Face.new]) h).

Definition allocEdge (v f : nat) : M nat :=
  fun h => Ok (length (edgeHeap h)) (set_edgeHeap (edgeHeap h ++ [HalfEdge.new v f]) h).

Definition Face_create (a b c : nat) : M nat :=
  let* face := allocFace in
  let* e0 := allocEdge a face in
  let* e1 := allocEdge b face in
  let* e2 := allocEdge c face in
  modEdge e2 (HalfEdge.set_prev (Some e1)) ;;
  modEdge e0 (HalfEdge.set_next (Some e1)) ;;
  modEdge e0 (HalfEdge.set_prev (Some e2)) ;;
  modEdge e1 (HalfEdge.set_next (Some e2)) ;;
  modEdge e1 (HalfEdge.set_prev (Some e0)) ;;
  modEdge e2 (HalfEdge.set_next (Some e0)) ;;
  modFace face (Face.set_edge (Some e0)) ;;
  Face_compute face.

(** *** Queries *)

(** The face objects that [this.faces] refers to. *)
Definition faceObjects (h : hull) : list Face.t :=
  omap (fun f => faceHeap h !! f) (faces h).

Fixpoint containsPoint_loop (tol : Q) (fs : list Face.t) (point : Vector3.t) : bool :=
  match fs with
  | [] => true
  | face :: fs =>
      if Num.gtb (Face.distanceToPoint face point) tol then false
      else containsPoint_loop tol fs point
  end.

Definition containsPoint (h : hull) (point : Vector3.t) : bool :=
  containsPoint_loop (tolerance h) (faceObjects h) point.

(** The result is the parameter [t] of the point [ray.at (t, target)] that is
    returned, or [None] for [null]. *)
Fixpoint intersectRay_loop (fs : list Face.t) (ray : Ray.t) (tNear tFar : Num.ext)
  : option Num.ext :=
  match fs with
  | [] => Some (if negb (Num.is_neg_inf tNear) then tNear else tFar)
  | face :: fs =>
      let vN := Face.distanceToPoint face (Ray.origin ray) in
      let vD := Vector3.dot (Face.normal face) (Ray.direction ray) in
      if Num.gtb vN 0 && Num.leb 0 vD then None
      else
        let t := if negb (Num.eqb vD 0) then - vN / vD else 0 in
        if Num.leb t 0 then intersectRay_loop fs ray tNear tFar
        else
          let tFar' := if Num.gtb vD 0 then Num.ext_min (Num.Fin t) tFar else tFar in
          let tNear' := if Num.gtb vD 0 then tNear else Num.ext_max (Num.Fin t) tNear in
          if Num.ext_gtb tNear' tFar' then None
          else intersectRay_loop fs ray tNear' tFar'
  end.

Definition intersectRay (h : hull) (ray : Ray.t) : option Num.ext :=
  intersectRay_loop (faceObjects h) ray Num.NegInf Num.PosInf.

Definition intersectsRay (h : hull) (ray : Ray.t) : bool :=
  match intersectRay h ray with Some _ => true | None => false end.

(** *** Building *)

(** [makeEmpty] drops the faces and the vertices; the faces and half-edges of
    an earlier build are no longer reachable from the hull, and the arenas
    start afresh. *)
Definition makeEmpty : M unit :=
  modify (set_faces []) ;;
  modify (set_vertices []) ;;
  modify (set_faceHeap []) ;;
  modify (set_edgeHeap []).

(** Adds a vertex to the assigned list and assigns it to the given face. *)
Definition addVertexToFace (vertex face : nat) : M unit :=
  modVertex vertex (VertexNode.set_face (Some face)) ;;
  let* fa := getFace face in
  match Face.outside fa with
  | None => VertexList_append assignedL vertex
  | Some o => VertexList_insertBefore assignedL o vertex
  end ;;
  modFace face (Face.set_outside (Some vertex)).

(** Removes a vertex from the assigned list and from the given face. *)
Definition removeVertexFromFace (vertex : nat) (face : option nat) : M unit :=
  let* f := deref face in
  let* fa := getFace f in
  (if option_nat_eqb (Some vertex) (Face.outside fa) then
     let* v := getVertex vertex in
     match VertexNode.next v with
     | Some n =>
         let* vn := getVertex n in
         if option_nat_eqb (VertexNode.face vn) (Some f)
         then modFace f (Face.set_outside (Some n))
         else modFace f (Face.set_outside None)
     | None => modFace f (Face.set_outside None)
     end
   else ret tt) ;;
  VertexList_remove assignedL vertex.

(** [while (end.next !== null && end.next.face === face) end = end.next]. *)
Fixpoint lastOfFace (fuel : nat) (face : nat) (end_ : nat) : M nat :=
  match fuel with
  | O => throw Diverge
  | S fuel =>
      let* v := getVertex end_ in
      match VertexNode.next v with
      | None => ret end_
      | Some n =>
          let* vn := getVertex n in
          if option_nat_eqb (VertexNode.face vn) (Some face)
          then lastOfFace fuel face n
          else ret end_
      end
  end.

(** Removes all the vertices that a face can see from the assigned list; the
    result is the first of them, or [None] for [undefined]. *)
Definition removeAllVerticesFromFace (face : nat) : M (option nat) :=
  let* fa := getFace face in
  match Face.outside fa with
  | Some start =>
      let* n := gets (fun h => length (vertices h)) in
      let* end_ := lastOfFace (S n) face start in
      VertexList_removeSubList assignedL start end_ ;;
      modVertex end_ (VertexNode.set_next None) ;;
      modVertex start (VertexNode.set_prev None) ;;
      modFace face (Face.set_outside None) ;;
      ret (Some start)
  | None => ret None
  end.

(** The [do ... while (vertex !== null)] loop of [deleteFaceVertices]. *)
Fixpoint absorbVertices (fuel : nat) (absorbingFace : nat) (vertex : nat) : M unit :=
  match fuel with
  | O => throw Diverge
  | S fuel =>
      let* v := getVertex vertex in
      let nextVertex := VertexNode.next v in
      let* fa := getFace absorbingFace in
      let distance := Face.distanceToPoint fa (VertexNode.point v) in
      let* tol := gets tolerance in
      (if Num.gtb distance tol then addVertexToFace vertex absorbingFace
       else VertexList_append unassignedL vertex) ;;
      match nextVertex with
      | Some n => absorbVertices fuel absorbingFace n
      | None => ret tt
      end
  end.

Definition deleteFaceVertices (face : nat) (absorbingFace : option nat) : M unit :=
  let* faceVertices := removeAllVerticesFromFace face in
  match faceVertices with
  | Some fv =>
      match absorbingFace with
      | None => VertexList_appendChain unassignedL fv
      | Some af =>
          let* n := gets (fun h => length (vertices h)) in
          absorbVertices (S n) af fv
      end
  | None => ret tt
  end.

(** The scan of the new faces for one vertex, with its early exit. *)
Fixpoint scanNewFaces (fs : list nat) (p : Vector3.t) (maxDistance : Q)
  (maxFace : option nat) : M (option nat) :=
  match fs with
  | [] => ret maxFace
  | f :: fs =>
      let* fa := getFace f in
      if Mark_eqb (Face.mark fa) Visible then
        let distance := Face.distanceToPoint fa p in
        let maxDistance' := if Num.gtb distance maxDistance then distance else maxDistance in
        let maxFace' := if Num.gtb distance maxDistance then Some f else maxFace in
        let* tol := gets tolerance in
        if Num.gtb maxDistance' (1000 * tol) then ret maxFace'
        else scanNewFaces fs p maxDistance' maxFace'
      else scanNewFaces fs p maxDistance maxFace
  end.

Fixpoint resolveLoop (fuel : nat) (fs : list nat) (vertex : nat) : M unit :=
  match fuel with
  | O => throw Diverge
  | S fuel =>
      let* v := getVertex vertex in
      let nextVertex := VertexNode.next v in
      let* tol := gets tolerance in
      let* maxFace := scanNewFaces fs (VertexNode.point v) tol None in
      match maxFace with
      | Some f => addVertexToFace vertex f
      | None => ret tt
      end ;;
      match nextVertex with
      | Some n => resolveLoop fuel fs n
      | None => ret tt
      end
  end.

(** Reassigns as many vertices as possible from the unassigned list to the
    new faces. *)
Definition resolveUnassignedPoints (fs : list nat) : M unit :=
  let* u := gets unassigned in
  match VertexList.first u with
  | Some vertex =>
      let* n := gets (fun h => length (vertices h)) in
      resolveLoop (S n) fs vertex
  | None => ret tt
  end.

(** The extreme vertices per axis, as returned by [computeExtremes]. *)
Record extremes := mkExtremes { ex_min : list nat; ex_max : list nat }.

Definition axes : list nat := [0; 1; 2]%nat.

Definition updateMin (vertex : nat) (point : Vector3.t)
  (acc : Vector3.t * list nat) (j : nat) : Vector3.t * list nat :=
  if Num.ltb (Vector3.getComponent point j) (Vector3.getComponent (fst acc) j)
  then (Vector3.setComponent (fst acc) j (Vector3.getComponent point j),
        <[j := vertex]> (snd acc))
  else acc.

Definition updateMax (vertex : nat) (point : Vector3.t)
  (acc : Vector3.t * list nat) (j : nat) : Vector3.t * list nat :=
  if Num.gtb (Vector3.getComponent point j) (Vector3.getComponent (fst acc) j)
  then (Vector3.setComponent (fst acc) j (Vector3.getComponent point j),
        <[j := vertex]> (snd acc))
  else acc.

(** The scan of all vertices; [i] is the index of the head of [vs]. *)
Fixpoint scanExtremes (vs : list VertexNode.t) (i : nat)
  (mn mx : Vector3.t * list nat) : (Vector3.t * list nat) * (Vector3.t * list nat) :=
  match vs with
  | [] => (mn, mx)
  | vertex :: vs =>
      let point := VertexNode.point vertex in
      let mn' := fold_left (updateMin i point) axes mn in
      let mx' := fold_left (updateMax i point) axes mx in
      scanExtremes vs (S i) mn' mx'
  end.

Definition toleranceOf (mn mx : Vector3.t) : Q :=
  3 * Num.EPSILON *
    (Num.max (Num.abs (Vector3.x mn)) (Num.abs (Vector3.x mx)) +
     Num.max (Num.abs (Vector3.y mn)) (Num.abs (Vector3.y mx)) +
     Num.max (Num.abs (Vector3.z mn)) (Num.abs (Vector3.z mx))).

(** Computes the extremes of a simplex which will be the initial hull, and
    the tolerance. *)
Definition computeExtremes : M extremes :=
  let* vs := gets vertices in
  let* p0 := pointOf 0 in
  let '(mn, mx) := scanExtremes vs 0 (p0, [0; 0; 0]%nat) (p0, [0; 0; 0]%nat) in
  modify (set_tolerance (toleranceOf (fst mn) (fst mx))) ;;
  ret (mkExtremes (snd mn) (snd mx)).

(** Step 1 of [computeInitialHull]: the axis of greatest separation. *)
Definition pickAxis (ex : extremes) : M nat :=
  let* r := foldM (fun (acc : Q * nat) (i : nat) =>
      let* vmax := deref (ex_max ex !! i) in
      let* vmin := deref (ex_min ex !! i) in
      let* pmax := pointOf vmax in
      let* pmin := pointOf vmin in
      let distance := Vector3.getComponent pmax i - Vector3.getComponent pmin i in
      ret (if Num.gtb distance (fst acc) then (distance, i) else acc))
    axes (0, 0%nat) in
  ret (snd r).

(** [line3.closestPointToPoint (point, true, closestPoint)] followed by
    [closestPoint.distanceToSquared (point)]. *)
Definition distanceToSegmentSq (line3 : Line3.t) (point : Vector3.t) : option Q :=
  match Line3.closestPointToPoint line3 point true with
  | Some closestPoint => Some (Vector3.distanceToSquared closestPoint point)
  | None => None
  end.

(** Step 2: the vertex farthest from the segment [v0 v1]. *)
Fixpoint findV2 (line3 : Line3.t) (v0 v1 : nat) (vs : list VertexNode.t) (i : nat)
  (maxDistance : Q) (v2 : option nat) : option nat :=
  match vs with
  | [] => v2
  | vertex :: vs =>
      if negb (Nat.eqb i v0) && negb (Nat.eqb i v1) then
        let distance := distanceToSegmentSq line3 (VertexNode.point vertex) in
        if Num.nan_gtb distance maxDistance
        then findV2 line3 v0 v1 vs (S i) (default 0 distance) (Some i)
        else findV2 line3 v0 v1 vs (S i) maxDistance v2
      else findV2 line3 v0 v1 vs (S i) maxDistance v2
  end.

(** Step 3: the vertex farthest from the plane through [v0], [v1], [v2]. *)
Fixpoint findV3 (plane : Plane.t) (v0 v1 v2 : nat) (vs : list VertexNode.t) (i : nat)
  (maxDistance : Q) (v3 : option nat) : option nat :=
  match vs with
  | [] => v3
  | vertex :: vs =>
      if negb (Nat.eqb i v0) && negb (Nat.eqb i v1) && negb (Nat.eqb i v2) then
        let distance := Num.abs (Plane.distanceToPoint plane (VertexNode.point vertex)) in
        if Num.gtb distance maxDistance
        then findV3 plane v0 v1 v2 vs (S i) distance (Some i)
        else findV3 plane v0 v1 v2 vs (S i) maxDistance v3
      else findV3 plane v0 v1 v2 vs (S i) maxDistance v3
  end.

(** [a.getEdge (i).setTwin (b.getEdge (j))] on faces of the local array. *)
Definition joinFaces (fs : list nat) (a : nat) (i : Z) (b : nat) (j : Z) : M unit :=
  let* fa := deref (fs !! a) in
  let* ea := Face_getEdge fa i in
  let* fb := deref (fs !! b) in
  let* eb := Face_getEdge fb j in
  let* this := deref ea in
  HalfEdge_setTwin this eb.

(** The initial assignment of one vertex to the face of the tetrahedron that
    sees it best. *)
Definition assignInitial (vertex : nat) : M unit :=
  let* p := pointOf vertex in
  let* tol := gets tolerance in
  let* r := foldM (fun (acc : Q * option nat) (j : nat) =>
      let* fs := gets faces in
      let* f := deref (fs !! j) in
      let* fa := getFace f in
      let distance := Face.distanceToPoint fa p in
      ret (if Num.gtb distance (fst acc) then (distance, Some f) else acc))
    [0; 1; 2; 3]%nat (tol, None) in
  match snd r with
  | Some maxFace => addVertexToFace vertex maxFace
  | None => ret tt
  end.

(** The four vertices of the initial simplex and the plane through the first
    three of them. *)
Record simplex := mkSimplex {
  sv0 : nat; sv1 : nat; sv2 : nat; sv3 : nat; splane : Plane.t }.

(** Steps 1 to 3 of [computeInitialHull]; an [undefined] [v2] or [v3] throws
    when its point is read. *)
Definition initialSimplex : M simplex :=
  let* vs := gets vertices in
  let* ex := computeExtremes in
  let* index := pickAxis ex in
  let* v0 := deref (ex_min ex !! index) in
  let* v1 := deref (ex_max ex !! index) in
  let* p0 := pointOf v0 in
  let* p1 := pointOf v1 in
  let v2 := findV2 (Line3.mk p0 p1) v0 v1 vs 0 0 None in
  let* v2 := deref v2 in
  let* p2 := pointOf v2 in
  let plane := Plane.setFromCoplanarPoints sqrt p0 p1 p2 in
  let v3 := findV3 plane v0 v1 v2 vs 0 (-1) None in
  let* v3 := deref v3 in
  ret (mkSimplex v0 v1 v2 v3 plane).

(** The four faces of the tetrahedron in one of the two windings, joined
    along their six edges. *)
Definition buildTetrahedron (s : simplex) : M (list nat) :=
  let v0 := sv0 s in
  let v1 := sv1 s in
  let v2 := sv2 s in
  let v3 := sv3 s in
  let* p3 := pointOf v3 in
  if Num.ltb (Plane.distanceToPoint (splane s) p3) 0 then
    let* f0 := Face_create v0 v1 v2 in
    let* f1 := Face_create v3 v1 v0 in
    let* f2 := Face_create v3 v2 v1 in
    let* f3 := Face_create v3 v0 v2 in
    let fs := [f0; f1; f2; f3] in
    forM axes (fun i =>
      let j := ((i + 1) mod 3)%nat in
      joinFaces fs (i + 1) 2 0 (Z.of_nat j) ;;
      joinFaces fs (i + 1) 1 (j + 1) 0) ;;
    ret fs
  else
    let* f0 := Face_create v0 v2 v1 in
    let* f1 := Face_create v3 v0 v1 in
    let* f2 := Face_create v3 v1 v2 in
    let* f3 := Face_create v3 v2 v0 in
    let fs := [f0; f1; f2; f3] in
    forM axes (fun i =>
      let j := ((i + 1) mod 3)%nat in
      joinFaces fs (i + 1) 2 0 (Z.of_nat ((3 - i) mod 3)) ;;
      joinFaces fs (i + 1) 0 (j + 1) 1) ;;
    ret fs.

(** Computes the initial simplex, assigning to its faces all the points that
    are candidates to form part of the hull. *)
Definition computeInitialHull : M unit :=
  let* s := initialSimplex in
  let* fs := buildTetrahedron s in
  modify (fun h => set_faces (faces h ++ fs) h) ;;
  let* vs := gets vertices in
  forM (seq 0 (length vs)) (fun i =>
    if negb (Nat.eqb i (sv0 s)) && negb (Nat.eqb i (sv1 s)) && negb (Nat.eqb i (sv2 s))
       && negb (Nat.eqb i (sv3 s))
    then assignInitial i
    else ret tt).

(** Removes inactive faces. *)
Definition reindexFaces : M unit :=
  let* fs := gets faces in
  let* activeFaces := foldM (fun (acc : list nat) (f : nat) =>
      let* fa := getFace f in
      ret (if Mark_eqb (Face.mark fa) Visible then acc ++ [f] else acc)) fs [] in
  modify (set_faces activeFaces).

(** The [do ... while (vertex !== null && vertex.face === eyeFace)] loop of
    [nextVertexToAdd]. *)
Fixpoint farthestOfFace (fuel : nat) (eyeFace : nat) (vertex : option nat)
  (maxDistance : Q) (eyeVertex : option nat) : M (option nat) :=
  match fuel with
  | O => throw Diverge
  | S fuel =>
      let* v := deref vertex in
      let* n := getVertex v in
      let* fa := getFace eyeFace in
      let distance := Face.distanceToPoint fa (VertexNode.point n) in
      let maxDistance' := if Num.gtb distance maxDistance then distance else maxDistance in
      let eyeVertex' := if Num.gtb distance maxDistance then Some v else eyeVertex in
      match VertexNode.next n with
      | Some v' =>
          let* n' := getVertex v' in
          if option_nat_eqb (VertexNode.face n') (Some eyeFace)
          then farthestOfFace fuel eyeFace (Some v') maxDistance' eyeVertex'
          else ret eyeVertex'
      | None => ret eyeVertex'
      end
  end.

(** Finds the next vertex to create faces with the current hull; [None] is
    [undefined]. *)
Definition nextVertexToAdd : M (option nat) :=
  let* a := gets assigned in
  match VertexList.first a with
  | Some first =>
      let* n := getVertex first in
      let* eyeFace := deref (VertexNode.face n) in
      let* fa := getFace eyeFace in
      let* len := gets (fun h => length (vertices h)) in
      farthestOfFace (S len) eyeFace (Face.outside fa) 0 None
  | None => ret None
  end.

(** The [do ... while (edge !== crossEdge)] loop of [computeHorizon]; [rec] is
    the recursive call. *)
Fixpoint horizonLoop (rec : nat -> nat -> list nat -> M (list nat)) (fuel : nat)
  (eyePoint : Vector3.t) (edge crossEdge : nat) (horizon : list nat) : M (list nat) :=
  match fuel with
  | O => throw Diverge
  | S fuel =>
      let* he := getEdge edge in
      let* twinEdge := deref (HalfEdge.twin he) in
      let* ht := getEdge twinEdge in
      let oppositeFace := HalfEdge.face ht in
      let* fo := getFace oppositeFace in
      let* tol := gets tolerance in
      let* horizon' :=
        if Mark_eqb (Face.mark fo) Visible then
          if Num.gtb (Face.distanceToPoint fo eyePoint) tol
          then rec twinEdge oppositeFace horizon
          else ret (horizon ++ [edge])
        else ret horizon in
      let* he := getEdge edge in
      let* next := deref (HalfEdge.next he) in
      if Nat.eqb next crossEdge then ret horizon'
      else horizonLoop rec fuel eyePoint next crossEdge horizon'
  end.

(** Computes a chain of half edges in CCW order called the horizon. *)
Fixpoint computeHorizon (fuel : nat) (eyePoint : Vector3.t) (crossEdge : option nat)
  (face : nat) (horizon : list nat) : M (list nat) :=
  match fuel with
  | O => throw Diverge
  | S fuel =>
      deleteFaceVertices face None ;;
      modFace face (Face.set_mark Deleted) ;;
      let* start :=
        match crossEdge with
        | None =>
            let* e := Face_getEdge face 0 in
            let* e := deref e in ret (e, e)
        | Some c =>
            let* hc := getEdge c in
            let* e := deref (HalfEdge.next hc) in ret (e, c)
        end in
      let* n := gets (fun h => length (edgeHeap h)) in
      horizonLoop (fun c f hz => computeHorizon fuel eyePoint (Some c) f hz)
                  (S n) eyePoint (fst start) (snd start) horizon
  end.

(** Creates a face with the vertices [eyeVertex], [horizonEdge.tail ()] and
    [horizonEdge.head ()] in CCW order. *)
Definition addAdjoiningFace (eyeVertex horizonEdge : nat) : M (option nat) :=
  let* tail := HalfEdge_tail horizonEdge in
  let* head := HalfEdge_head horizonEdge in
  let* tail := deref tail in
  let* face := Face_create eyeVertex tail head in
  modify (fun h => set_faces (faces h ++ [face]) h) ;;
  let* e := Face_getEdge face (-1) in
  let* e := deref e in
  let* hh := getEdge horizonEdge in
  HalfEdge_setTwin e (HalfEdge.twin hh) ;;
  Face_getEdge face 0.

(** [edge.next.setTwin (other)]. *)
Definition joinNext (edge other : option nat) : M unit :=
  let* e := deref edge in
  let* he := getEdge e in
  let* n := deref (HalfEdge.next he) in
  HalfEdge_setTwin n other.

(** Adds [horizon.length] faces to the hull, each face linked with the
    horizon opposite face and the face on the left/right. *)
Definition addNewFaces (eyeVertex : nat) (horizon : list nat) : M unit :=
  modify (set_newFaces []) ;;
  let* r := foldM (fun (acc : option nat * option nat) (horizonEdge : nat) =>
      let* sideEdge := addAdjoiningFace eyeVertex horizonEdge in
      let* firstSideEdge :=
        match fst acc with
        | None => ret sideEdge
        | Some _ => joinNext sideEdge (snd acc) ;; ret (fst acc)
        end in
      let* se := deref sideEdge in
      let* hs := getEdge se in
      modify (fun h => set_newFaces (newFaces h ++ [HalfEdge.face hs]) h) ;;
      ret (firstSideEdge, sideEdge))
    horizon (None, None) in
  joinNext (fst r) (snd r).

(** Adds a vertex to the hull. *)
Definition addVertexToHull (eyeVertex : nat) : M unit :=
  VertexList_clear unassignedL ;;
  let* ev := getVertex eyeVertex in
  removeVertexFromFace eyeVertex (VertexNode.face ev) ;;
  let* ev := getVertex eyeVertex in
  let* eyeFace := deref (VertexNode.face ev) in
  let* n := gets (fun h => length (faceHeap h)) in
  let* horizon := computeHorizon (S n) (VertexNode.point ev) None eyeFace [] in
  addNewFaces eyeVertex horizon ;;
  let* nf := gets newFaces in
  resolveUnassignedPoints nf.

Definition cleanup : M unit :=
  VertexList_clear assignedL ;;
  VertexList_clear unassignedL ;;
  modify (set_newFaces []).

(** [while ((vertex = this.nextVertexToAdd ()) !== undefined)]. *)
Fixpoint growLoop (fuel : nat) : M unit :=
  match fuel with
  | O => throw Diverge
  | S fuel =>
      let* vertex := nextVertexToAdd in
      match vertex with
      | Some v => addVertexToHull v ;; growLoop fuel
      | None => ret tt
      end
  end.

Definition compute : M unit :=
  computeInitialHull ;;
  let* n := gets (fun h => length (vertices h)) in
  growLoop (S n) ;;
  reindexFaces ;;
  cleanup.

Definition fewPoints : string :=
  "THREE.ConvexHull: The algorithm needs at least four points.".

(** The result pairs what the call writes with [console.error] with the
    outcome of the build; a complaint does not stop the build. *)
Definition setFromPoints (points : list Vector3.t) (h : hull)
  : list string * outcome unit :=
  let console := if (length points <? 4)%nat then [fewPoints] else [] in
  (console,
   (makeEmpty ;;
    forM points
      (fun p => modify (fun h => set_vertices (vertices h ++ [VertexNode.new p]) h)) ;;
    compute) h).

End Build.

End ConvexHull.

(** ** Notions used to state the properties *)

Module Spec.

Import ConvexHull.

(** [m] is the least, resp. the greatest, number of the list [l]. *)
Definition least (l : list Q) (m : Q) : Prop := In m l /\ forall y, In y l -> m <= y.
Definition greatest (l : list Q) (m : Q) : Prop := In m l /\ forall y, In y l -> y <= m.

(** The coordinates of the point cloud along axis [j]. *)
Definition coords (j : nat) (vs : list VertexNode.t) : list Q :=
  map (fun v => Vector3.getComponent (VertexNode.point v) j) vs.

(** The ray test in the words of its description: the signed distance of
    the origin to the plane of a face, the direction against its normal,
    the interval narrowed by one face, and whether it was ever empty. *)
Definition vN (ray : Ray.t) (f : Face.t) : Q := Face.distanceToPoint f (Ray.origin ray).
Definition vD (ray : Ray.t) (f : Face.t) : Q := Vector3.dot (Face.normal f) (Ray.direction ray).

Definition outsideAndAway (ray : Ray.t) (f : Face.t) : bool :=
  Num.gtb (vN ray f) 0 && Num.leb 0 (vD ray f).

Definition hitParameter (ray : Ray.t) (f : Face.t) : Q :=
  if Num.eqb (vD ray f) 0 then 0 else - vN ray f / vD ray f.

Definition narrow (ray : Ray.t) (iv : Num.ext * Num.ext) (f : Face.t) : Num.ext * Num.ext :=
  let t := hitParameter ray f in
  if Num.leb t 0 then iv
  else if Num.gtb (vD ray f) 0 then (fst iv, Num.ext_min (Num.Fin t) (snd iv))
  else (Num.ext_max (Num.Fin t) (fst iv), snd iv).

Definition inverted (iv : Num.ext * Num.ext) : bool := Num.ext_gtb (fst iv) (snd iv).

Fixpoint everInverted (ray : Ray.t) (iv : Num.ext * Num.ext) (fs : list Face.t) : bool :=
  match fs with
  | [] => false
  | f :: fs => inverted (narrow ray iv f) || everInverted ray (narrow ray iv f) fs
  end.

Definition whole : Num.ext * Num.ext := (Num.NegInf, Num.PosInf).

(** The result as the code gives it: the near end when it was set, else the
    far end, whatever it is. *)
Definition select (iv : Num.ext * Num.ext) : option Num.ext :=
  match fst iv with
  | Num.NegInf => Some (snd iv)
  | tNear => Some tNear
  end.

Definition intersectRay_spec (fs : list Face.t) (ray : Ray.t) : option Num.ext :=
  if existsb (outsideAndAway ray) fs || everInverted ray whole fs then None
  else select (fold_left (narrow ray) fs whole).

(** The result as described: the near end if finite and positive, else the
    far end if there is one, else [null]. *)
Definition intersectRay_described (fs : list Face.t) (ray : Ray.t) : option Num.ext :=
  if existsb (outsideAndAway ray) fs || everInverted ray whole fs then None
  else
    let iv := fold_left (narrow ray) fs whole in
    match fst iv, snd iv with
    | Num.Fin t, _ => if Num.gtb t 0 then Some (Num.Fin t) else None
    | _, Num.Fin t => Some (Num.Fin t)
    | _, _ => None
    end.

Definition positive (t : Num.ext) : Prop :=
  match t with Num.Fin q => 0 < q | Num.PosInf => True | Num.NegInf => False end.

(** How a build ends: with one of the two failures of the described error
    taxonomy, with an exception of the runtime, or with a hull. *)
Inductive report := InvalidInput | DegenerateGeometry | Crash (e : error) | Built.

Definition reportOf (o : outcome unit) : report :=
  match o with Ok _ _ => Built | Throw e _ => Crash e end.

(** The points of a cloud all lie in one plane. *)
Definition coplanar (points : list Vector3.t) : Prop :=
  exists (n : Vector3.t) (c : Q),
    ~ (Vector3.x n == 0 /\ Vector3.y n == 0 /\ Vector3.z n == 0) /\
    forall p, In p points -> Vector3.dot n p == c.

End Spec.

(** A square root rounded down to a multiple of [2^-64], to run the builder
    on examples. *)
Definition Qsqrt (q : Q) : Q :=
  Z.sqrt (Qnum q * 4 ^ 64 / Zpos (Qden q)) # (2 ^ 64).

Definition P (a b c : Z) : Vector3.t := Vector3.mk (inject_Z a) (inject_Z b) (inject_Z c).

(** The corners of a tetrahedron and of a cube. *)
Definition tetrahedron : list Vector3.t := [P 0 0 0; P 1 0 0; P 0 1 0; P 0 0 1].
Definition cube : list Vector3.t :=
  [P 0 0 0; P 1 0 0; P 0 1 0; P 0 0 1; P 1 1 0; P 1 0 1; P 0 1 1; P 1 1 1].

(** The four corners of a unit square, and four points of a line. *)
Definition unitSquare : list Vector3.t := [P 0 0 0; P 1 0 0; P 1 1 0; P 0 1 0].
Definition fourInLine : list Vector3.t := [P 0 0 0; P 1 0 0; P 2 0 0; P 3 0 0].

(** Five points that span the space, but only just at their scale: two ends
    [2^51] apart, a small triangle at one end and a point half way.  The
    tolerance is a little more than [3/4]. *)
Definition needle : list Vector3.t :=
  [P (- 2 ^ 50) 0 0; P (2 ^ 50) 0 0; P (2 ^ 50) 0 1; P (2 ^ 50) 1 0; P 0 1 1].

(** ** Notions used in the proofs *)

Module Aux.

Import ConvexHull.

(** The coordinate of vertex [k] along axis [j]. *)
Definition coord (vs : list VertexNode.t) (k j : nat) : Q :=
  match vs !! k with
  | Some v => Vector3.getComponent (VertexNode.point v) j
  | None => 0
  end.

(** The extreme vertices recorded for axis [j] are vertices of the cloud that
    carry the extreme coordinates [mn] and [mx]. *)
Definition extreme_at (vs : list VertexNode.t) (mn mx : Vector3.t * list nat) (j : nat)
  : Prop :=
  exists kmin kmax vmin vmax,
    snd mn !! j = Some kmin /\ snd mx !! j = Some kmax /\
    vs !! kmin = Some vmin /\ vs !! kmax = Some vmax /\
    Vector3.getComponent (VertexNode.point vmin) j = Vector3.getComponent (fst mn) j /\
    Vector3.getComponent (VertexNode.point vmax) j = Vector3.getComponent (fst mx) j.

(** The separation of the extremes along axis [j]. *)
Definition separation (vs : list VertexNode.t) (ex : extremes) (j : nat) : Q :=
  match ex_max ex !! j, ex_min ex !! j with
  | Some kmax, Some kmin => coord vs kmax j - coord vs kmin j
  | _, _ => 0
  end.

(** One step of the scan for the axis of greatest separation. *)
Definition pickStep (vs : list VertexNode.t) (ex : extremes) (acc : Q * nat) (i : nat)
  : Q * nat :=
  if Num.gtb (separation vs ex i) (fst acc) then (separation vs ex i, i) else acc.

Definition pickedAxis (vs : list VertexNode.t) (ex : extremes) : nat :=
  snd (fold_left (pickStep vs ex) axes (0, 0%nat)).

(** Componentwise equality of points and the points of a line. *)
Definition veq (a b : Vector3.t) : Prop :=
  Vector3.x a == Vector3.x b /\ Vector3.y a == Vector3.y b /\ Vector3.z a == Vector3.z b.

Definition onLine (a d p : Vector3.t) : Prop :=
  exists t : Q, veq p (Vector3.add a (Vector3.multiplyScalar d t)).

(** The hull as [setFromPoints] hands it to [compute]. *)
Definition prepared (points : list Vector3.t) (h : hull) : hull :=
  mkHull (tolerance h) [] (newFaces h) (assigned h) (unassigned h)
         (map VertexNode.new points) [] [].

(** The state when the choice of the simplex throws: only the tolerance may
    have been written. *)
Definition untouched (h h' : hull) : Prop :=
  faces h' = faces h /\ faceHeap h' = faceHeap h /\ edgeHeap h' = edgeHeap h /\
  vertices h' = vertices h /\
  assigned h' = assigned h /\ unassigned h' = unassigned h.

(** The outside set of face [f] as the ledger holds it: the vertices met from
    [v] on along the [next] links, up to the end of the list or to the first
    vertex that belongs to another face. *)
Inductive outsideRun (vs : list VertexNode.t) (f : nat) : nat -> list nat -> Prop :=
| run_end v n :
    vs !! v = Some n -> VertexNode.next n = None ->
    outsideRun vs f v [v]
| run_other v n v' n' :
    vs !! v = Some n -> VertexNode.next n = Some v' ->
    vs !! v' = Some n' -> VertexNode.face n' <> Some f ->
    outsideRun vs f v [v]
| run_next v n v' n' l :
    vs !! v = Some n -> VertexNode.next n = Some v' ->
    vs !! v' = Some n' -> VertexNode.face n' = Some f ->
    outsideRun vs f v' l ->
    outsideRun vs f v (v :: l).

(** The distance of vertex [u] from the plane of face [fa]. *)
Definition distanceOf (vs : list VertexNode.t) (fa : Face.t) (u : nat) : Q :=
  match vs !! u with
  | Some n => Face.distanceToPoint fa (VertexNode.point n)
  | None => 0
  end.

(** The first vertex of [l] that is farther than [maxDistance] and than all
    the vertices before it, and so on: the scan of [nextVertexToAdd]. *)
Fixpoint pickFarthest (vs : list VertexNode.t) (fa : Face.t) (l : list nat)
  (maxDistance : Q) (eyeVertex : option nat) : option nat :=
  match l with
  | [] => eyeVertex
  | u :: l =>
      if Num.gtb (distanceOf vs fa u) maxDistance
      then pickFarthest vs fa l (distanceOf vs fa u) (Some u)
      else pickFarthest vs fa l maxDistance eyeVertex
  end.

(** *** The mesh behind the ledgers *)

(** What the ledgers do not touch: the tolerance, the half-edges, and the
    faces but for their [outside] link. *)
Definition mesh (h : hull) : Q * list HalfEdge.t * list Face.t :=
  (tolerance h, edgeHeap h, map (Face.set_outside None) (faceHeap h)).

(** A computation that leaves the mesh as it is, however it ends. *)
Definition frames {A} (c : M A) : Prop := forall h, mesh (final (c h)) = mesh h.

(** A computation that only reads the hull. *)
Definition reads {A} (c : M A) : Prop := forall h a h', c h = Ok a h' -> h' = h.

Definition fmark (h : hull) (f : nat) : option Mark :=
  option_map Face.mark (faceHeap h !! f).

Definition visible (h : hull) (f : nat) : Prop := fmark h f = Some Visible.
Definition deleted (h : hull) (f : nat) : Prop := fmark h f = Some Deleted.

(** The face [f] can see the eye point. *)
Definition sees (h : hull) (eye : Vector3.t) (f : nat) : bool :=
  match faceHeap h !! f with
  | Some fa => Num.gtb (Face.distanceToPoint fa eye) (tolerance h)
  | None => false
  end.

(** *** The doubly connected edge list *)

(** The arenas grow by one face and its three half-edges at a time: face [f]
    owns the half-edges [3 f], [3 f + 1] and [3 f + 2], linked in this order. *)
Definition layout (h : hull) : Prop :=
  length (edgeHeap h) = (3 * length (faceHeap h))%nat /\
  forall f fa, faceHeap h !! f = Some fa ->
    Face.edge fa = Some (3 * f)%nat /\
    forall i, (i < 3)%nat -> exists he,
      edgeHeap h !! (3 * f + i)%nat = Some he /\ HalfEdge.face he = f /\
      HalfEdge.next he = Some (3 * f + (i + 1) mod 3)%nat /\
      HalfEdge.prev he = Some (3 * f + (i + 2) mod 3)%nat.

(** Every half-edge of a visible face has a twin on a visible face, which
    has it as its twin. *)
Definition twinned (h : hull) : Prop :=
  forall e he, edgeHeap h !! e = Some he -> visible h (HalfEdge.face he) ->
    exists t ht, HalfEdge.twin he = Some t /\ edgeHeap h !! t = Some ht /\
                 HalfEdge.twin ht = Some e /\ visible h (HalfEdge.face ht).

Definition dcel (h : hull) : Prop := layout h /\ twinned h.

(** The two properties in the words of the data model: [e.twin.twin == e] for
    every live half-edge, and [e.next.next.next == e] within one face. *)
Definition involution (h : hull) : Prop :=
  forall e he, edgeHeap h !! e = Some he -> visible h (HalfEdge.face he) ->
    exists t ht, HalfEdge.twin he = Some t /\ edgeHeap h !! t = Some ht /\
                 HalfEdge.twin ht = Some e.

Definition triangles (h : hull) : Prop :=
  forall e he, edgeHeap h !! e = Some he ->
    exists e1 e2 h1 h2,
      HalfEdge.next he = Some e1 /\ edgeHeap h !! e1 = Some h1 /\
      HalfEdge.next h1 = Some e2 /\ edgeHeap h !! e2 = Some h2 /\
      HalfEdge.next h2 = Some e /\
      HalfEdge.face h1 = HalfEdge.face he /\ HalfEdge.face h2 = HalfEdge.face he /\
      e1 <> e /\ e2 <> e /\ e1 <> e2.

(** The two invariants as checks on the arenas. *)
Definition edgeAt (h : hull) (f i : nat) : bool :=
  match edgeHeap h !! (3 * f + i)%nat with
  | Some he =>
      Nat.eqb (HalfEdge.face he) f
      && option_nat_eqb (HalfEdge.next he) (Some (3 * f + (i + 1) mod 3)%nat)
      && option_nat_eqb (HalfEdge.prev he) (Some (3 * f + (i + 2) mod 3)%nat)
  | None => false
  end.

Definition layoutb (h : hull) : bool :=
  Nat.eqb (length (edgeHeap h)) (3 * length (faceHeap h))
  && forallb (fun f =>
       match faceHeap h !! f with
       | Some fa =>
           option_nat_eqb (Face.edge fa) (Some (3 * f)%nat)
           && edgeAt h f 0 && edgeAt h f 1 && edgeAt h f 2
       | None => false
       end) (seq 0 (length (faceHeap h))).

Definition visibleb (h : hull) (f : nat) : bool :=
  match faceHeap h !! f with
  | Some fa => Mark_eqb (Face.mark fa) Visible
  | None => false
  end.

Definition twinnedb (h : hull) : bool :=
  forallb (fun e =>
    match edgeHeap h !! e with
    | Some he =>
        negb (visibleb h (HalfEdge.face he)) ||
        match HalfEdge.twin he with
        | Some t =>
            match edgeHeap h !! t with
            | Some ht =>
                option_nat_eqb (HalfEdge.twin ht) (Some e)
                && visibleb h (HalfEdge.face ht)
            | None => false
            end
        | None => false
        end
    | None => false
    end) (seq 0 (length (edgeHeap h))).

Definition dcelb (h : hull) : bool := layoutb h && twinnedb h.

(** *** The traversal that finds the horizon *)

(** The mesh with the marks erased. *)
Definition shape (h : hull) : Q * list HalfEdge.t * list Face.t :=
  (tolerance h, edgeHeap h,
   map (fun fa => Face.set_mark Visible (Face.set_outside None fa)) (faceHeap h)).

(** [h'] is a later state of a traversal that was in state [h]: the same
    mesh, but for faces that have been deleted on the way. *)
Definition during (h h' : hull) : Prop :=
  shape h' = shape h /\ forall f, deleted h f -> deleted h' f.

(** What the traversal relies on: the layout, and a twin for every half-edge
    of a visible face. *)
Definition ready (h : hull) : Prop :=
  layout h /\
  forall e he, edgeHeap h !! e = Some he -> visible h (HalfEdge.face he) ->
    exists t ht, HalfEdge.twin he = Some t /\ edgeHeap h !! t = Some ht /\
                 HalfEdge.twin ht = Some e /\ fmark h (HalfEdge.face ht) <> None.

(** The half-edge through which the traversal entered face [f], if any: one
    of the three of [f], lying against a deleted face. *)
Definition entered (h : hull) (f : nat) (crossEdge : option nat) : Prop :=
  match crossEdge with
  | None => True
  | Some c =>
      exists i hc t ht, (i < 3)%nat /\ c = (3 * f + i)%nat /\
        edgeHeap h !! c = Some hc /\ HalfEdge.twin hc = Some t /\
        edgeHeap h !! t = Some ht /\ deleted h (HalfEdge.face ht)
  end.

(** A half-edge of the horizon found between states [h] and [h']: it belongs
    to a face deleted on the way, and lies against a face that is still
    visible and cannot see the eye point. *)
Definition onHorizon (eye : Vector3.t) (h h' : hull) (e : nat) : Prop :=
  exists he t ht,
    edgeHeap h !! e = Some he /\ visible h (HalfEdge.face he) /\
    deleted h' (HalfEdge.face he) /\
    HalfEdge.twin he = Some t /\ edgeHeap h !! t = Some ht /\
    HalfEdge.twin ht = Some e /\
    visible h' (HalfEdge.face ht) /\ sees h eye (HalfEdge.face ht) = false.

(** Half-edge [i] of face [g] is accounted for: it is on the horizon, or it
    lies against a deleted face. *)
Definition settled (h h' : hull) (new : list nat) (g i : nat) : Prop :=
  In (3 * g + i)%nat new \/
  exists hd t ht, edgeHeap h !! (3 * g + i)%nat = Some hd /\ HalfEdge.twin hd = Some t /\
                  edgeHeap h !! t = Some ht /\ deleted h' (HalfEdge.face ht).

(** What a call of [computeHorizon] on face [f] has done between the states
    [h] and [h'], having appended the half-edges [new] to the horizon. *)
Record swept (eye : Vector3.t) (f : nat) (h h' : hull) (new : list nat) : Prop := {
  sw_during : during h h';
  sw_root : deleted h' f;
  sw_only : forall g, visible h g -> deleted h' g -> g = f \/ sees h eye g = true;
  sw_nodup : List.NoDup new;
  sw_horizon : forall e, In e new -> onHorizon eye h h' e;
  sw_complete : forall g, visible h g -> deleted h' g ->
                forall i, (i < 3)%nat -> settled h h' new g i }.

(** The same while the loop over the half-edges of [f] is running: [done]
    lists the half-edges of [f] that have been looked at. *)
Record sweeping (eye : Vector3.t) (f : nat) (h h' : hull) (new : list nat)
  (done : list nat) : Prop := {
  sg_during : during h h';
  sg_root : deleted h' f;
  sg_only : forall g, visible h g -> deleted h' g -> g = f \/ sees h eye g = true;
  sg_nodup : List.NoDup new;
  sg_horizon : forall e, In e new -> onHorizon eye h h' e;
  sg_mine : forall i, (i < 3)%nat -> In (3 * f + i)%nat new -> In i done;
  sg_others : forall g, g <> f -> visible h g -> deleted h' g ->
              forall i, (i < 3)%nat -> settled h h' new g i;
  sg_done : forall i, In i done -> settled h h' new f i }.

(** *** Stitching the new faces *)

(** Half-edge [e] and its twin point at each other, and the twin is live. *)
Definition paired (h : hull) (e : nat) : Prop :=
  exists he t ht,
    edgeHeap h !! e = Some he /\ HalfEdge.twin he = Some t /\
    edgeHeap h !! t = Some ht /\ HalfEdge.twin ht = Some e /\
    visible h (HalfEdge.face ht).

(** Half-edge [e] still points at a half-edge [d] of the horizon, which lies
    on a deleted face and waits for its new face. *)
Definition stale (h : hull) (rest : list nat) (e : nat) : Prop :=
  exists he d hd,
    edgeHeap h !! e = Some he /\ HalfEdge.twin he = Some d /\ In d rest /\
    edgeHeap h !! d = Some hd /\ HalfEdge.twin hd = Some e.

(** The mesh while the new faces are stitched in: [rest] is the part of the
    horizon that has no new face yet, [pend] lists the new half-edges that
    have no twin yet. *)
Record stitching (h : hull) (rest pend : list nat) : Prop := {
  st_layout : layout h;
  st_nodup : List.NoDup rest;
  st_rest : forall x, In x rest -> exists hx t ht,
      edgeHeap h !! x = Some hx /\ deleted h (HalfEdge.face hx) /\
      HalfEdge.twin hx = Some t /\ edgeHeap h !! t = Some ht /\
      HalfEdge.twin ht = Some x /\ visible h (HalfEdge.face ht);
  st_pend : forall e, In e pend -> exists he,
      edgeHeap h !! e = Some he /\ HalfEdge.twin he = None /\
      visible h (HalfEdge.face he);
  st_status : forall e he, edgeHeap h !! e = Some he -> visible h (HalfEdge.face he) ->
      paired h e \/ In e pend \/ stale h rest e }.

(** The two ends of the fan of new faces between two turns of the loop of
    [addNewFaces]: nothing yet, or the first side edge [3 * f0] and the
    previous one [3 * fp]; then [pend] holds the two half-edges that wait for
    a twin. *)
Definition seam (acc : option nat * option nat) (pend : list nat) : Prop :=
  (acc = (None, None) /\ pend = []) \/
  exists f0 fp, acc = (Some (3 * f0)%nat, Some (3 * fp)%nat) /\
                pend = [(3 * fp)%nat; (3 * f0 + 1)%nat].

(** The face that each vertex is assigned to, and a computation that leaves
    these assignments as they are when it returns. *)
Definition owners (h : hull) : list (option nat) := map VertexNode.face (vertices h).

Definition keeps {A} (c : M A) : Prop :=
  forall h a h', c h = Ok a h' -> owners h' = owners h.

(** The hulls that the operations which create or stitch faces lead to: the
    initial simplex on a hull without faces, then any number of times the new
    faces around a vertex, whose face is a live one.  [grown_faces] is the
    state right after [addNewFaces], [grown_vertex] the one that
    [addVertexToHull] returns. *)
Inductive grown (sqrt : Q -> Q) : hull -> Prop :=
| grown_initial h h' :
    faceHeap h = [] -> edgeHeap h = [] ->
    computeInitialHull sqrt h = Ok tt h' -> grown sqrt h'
| grown_faces fuel eyePoint eyeVertex f h horizon h1 h2 :
    grown sqrt h -> visible h f ->
    computeHorizon fuel eyePoint None f [] h = Ok horizon h1 ->
    addNewFaces sqrt eyeVertex horizon h1 = Ok tt h2 -> grown sqrt h2
| grown_vertex eye h h' :
    grown sqrt h ->
    (forall n, vertices h !! eye = Some n ->
       exists f, VertexNode.face n = Some f /\ visible h f) ->
    addVertexToHull sqrt eye h = Ok tt h' -> grown sqrt h'.

(** *** The two lists of vertices *)

(** The first of [L], or [q] when there is none; the last of [L], or [p]. *)
Definition hd_or (L : list nat) (q : option nat) : option nat :=
  match L with [] => q | w :: _ => Some w end.

Definition last_or (p : option nat) (L : list nat) : option nat :=
  fold_left (fun _ v => Some v) L p.

(** The vertices [L] are linked in this order by [prev] and [next], between a
    predecessor [p] and a successor [q]. *)
Fixpoint dll (vs : list VertexNode.t) (p : option nat) (L : list nat) (q : option nat)
  : Prop :=
  match L with
  | [] => True
  | v :: L' =>
      exists n, vs !! v = Some n /\ VertexNode.prev n = p /\
                VertexNode.next n = hd_or L' q /\ dll vs (Some v) L' q
  end.

(** The same for [next] alone. *)
Fixpoint chain (vs : list VertexNode.t) (L : list nat) (q : option nat) : Prop :=
  match L with
  | [] => True
  | v :: L' =>
      exists n, vs !! v = Some n /\ VertexNode.next n = hd_or L' q /\ chain vs L' q
  end.

(** One of the two lists of the hull, read and written through [lget] and
    [lset], which leave the vertices alone. *)
Record lawful (L : ledger) : Prop := {
  law_get_set : forall l h, lget L (lset L l h) = l;
  law_vertices : forall l h, vertices (lset L l h) = vertices h;
  law_get : forall vs h, lget L (set_vertices vs h) = lget L h }.

(** The list [L] of the hull [h] holds the vertices [Ls], in this order:
    [head] and [tail] are its ends, and the vertices are doubly linked. *)
Record holds (L : ledger) (h : hull) (Ls : list nat) : Prop := {
  ho_nodup : List.NoDup Ls;
  ho_dll : dll (vertices h) None Ls None;
  ho_head : VertexList.head (lget L h) = hd_or Ls None;
  ho_tail : VertexList.tail (lget L h) = last_or None Ls }.

(** A computation that leaves a part [proj] of the hull as it is when it
    returns. *)
Definition fixes {A B} (proj : hull -> B) (c : M A) : Prop :=
  forall h a h', c h = Ok a h' -> proj h' = proj h.

(** A computation leaves the part [proj] of the hull as it found it, whether
    it returns or throws. *)
Definition steady {A B} (proj : hull -> B) (c : M A) : Prop :=
  forall h, proj (final (c h)) = proj h.

(** A part [proj] of the hull that no write to a list, to a face or a
    half-edge, or to a link or the face of a vertex changes. *)
Record inert {B} (proj : hull -> B) : Prop := {
  in_faces : forall x h, proj (set_faces x h) = proj h;
  in_newFaces : forall x h, proj (set_newFaces x h) = proj h;
  in_assigned : forall x h, proj (set_assigned x h) = proj h;
  in_unassigned : forall x h, proj (set_unassigned x h) = proj h;
  in_faceHeap : forall x h, proj (set_faceHeap x h) = proj h;
  in_edgeHeap : forall x h, proj (set_edgeHeap x h) = proj h;
  in_vertex : forall v n n' h,
      vertices h !! v = Some n -> VertexNode.point n' = VertexNode.point n ->
      proj (set_vertices (<[v := n']> (vertices h)) h) = proj h }.

(** The points of the vertices, in the order of the vertex array. *)
Definition pointsOf (h : hull) : list Vector3.t := map VertexNode.point (vertices h).

(** *** The assigned list, face by face *)

(** What the links of the vertices and the two lists stand beside: the
    point and the face of each vertex, and the rest of the hull. *)
Definition tags (h : hull) : list (Vector3.t * option nat) :=
  map (fun n => (VertexNode.point n, VertexNode.face n)) (vertices h).

Definition core (h : hull)
  : Q * list nat * list nat * list Face.t * list HalfEdge.t * list (Vector3.t * option nat) :=
  (tolerance h, faces h, newFaces h, faceHeap h, edgeHeap h, tags h).

(** The vertices of [B] exist and belong to face [f]. *)
Definition owned (vs : list VertexNode.t) (f : nat) (B : list nat) : Prop :=
  forall v, In v B -> exists n, vs !! v = Some n /\ VertexNode.face n = Some f.

(** The vertices of a sequence of blocks, one block for each face. *)
Definition flat (bs : list (nat * list nat)) : list nat := concat (map snd bs).

(** The assigned list is made of the blocks [bs]: each block holds the
    vertices outside one visible face, the face points at the first of them,
    and a face without a block has no [outside] vertex. *)
Record sorted (h : hull) (bs : list (nat * list nat)) : Prop := {
  so_holds : holds assignedL h (flat bs);
  so_faces : List.NoDup (map fst bs);
  so_block : forall f B, In (f, B) bs ->
      B <> [] /\ owned (vertices h) f B /\ visible h f /\
      exists fa, faceHeap h !! f = Some fa /\ Face.outside fa = hd_or B None;
  so_free : forall f fa, faceHeap h !! f = Some fa -> ~ In f (map fst bs) ->
      Face.outside fa = None }.

(** The blocks after vertex [v] has been given to face [f]: in front of the
    block of [f], or as a new block at the end. *)
Fixpoint give (f v : nat) (bs : list (nat * list nat)) : list (nat * list nat) :=
  match bs with
  | [] => [(f, [v])]
  | (g, B) :: bs' => if Nat.eqb g f then (g, v :: B) :: bs' else (g, B) :: give f v bs'
  end.

(** What an operation on one of the two lists stands beside. *)
Definition besideAssigned (h : hull) := (core h, unassigned h).
Definition besideUnassigned (h : hull) := (core h, assigned h).

(** The block of face [f], if it has vertices. *)
Definition block (f : nat) (Bl : list nat) : list (nat * list nat) :=
  match Bl with [] => [] | _ => [(f, Bl)] end.

(** The blocks without the one of face [f], and the vertices of that one. *)
Definition without (f : nat) (bs : list (nat * list nat)) : list (nat * list nat) :=
  List.filter (fun b => negb (Nat.eqb (fst b) f)) bs.

Definition outsideOf (f : nat) (bs : list (nat * list nat)) : list nat :=
  flat (List.filter (fun b => Nat.eqb (fst b) f) bs).

(** The two lists while the horizon is computed: the assigned list in blocks,
    and beside it the unassigned list, which holds the vertices [U]. *)
Record ledgers (h : hull) (bs : list (nat * list nat)) (U : list nat) : Prop := {
  le_sorted : sorted h bs;
  le_unassigned : holds unassignedL h U;
  le_apart : forall w, In w U -> ~ In w (flat bs) }.

(** [h'] has the vertices and the lists of [h], and its faces with their
    marks and [outside] links; the faces it has besides are visible and have
    no [outside] vertex. *)
Definition extends (h h' : hull) : Prop :=
  vertices h' = vertices h /\ assigned h' = assigned h /\ unassigned h' = unassigned h /\
  (forall f fa, faceHeap h !! f = Some fa ->
     exists fa', faceHeap h' !! f = Some fa' /\
                 Face.outside fa' = Face.outside fa /\ Face.mark fa' = Face.mark fa) /\
  (forall f fa', faceHeap h' !! f = Some fa' -> faceHeap h !! f = None ->
     Face.outside fa' = None /\ Face.mark fa' = Visible).

(** A computation that only adds faces and half-edges and links them. *)
Definition grows {A} (c : M A) : Prop :=
  forall h a h', c h = Ok a h' -> extends h h'.

(** The two lists are in order, and hold only vertices of [pool]. *)
Definition within (pool : nat -> Prop) (h : hull) : Prop :=
  exists bs U, ledgers h bs U /\ forall w, In w (flat bs) \/ In w U -> pool w.

(** The face list and the size of the face arena; the list holds every face
    that has been created, in the order of creation. *)
Definition census (h : hull) : list nat * nat := (faces h, length (faceHeap h)).

Definition listed (h : hull) : Prop := faces h = seq 0 (length (faceHeap h)).

(** *** The vertices outside their faces *)

(** The tolerance is not negative, and every vertex that has been given to a
    face lies farther out from the plane of that face than the tolerance. *)
Definition far (h : hull) : Prop :=
  0 <= tolerance h /\
  forall v n f, vertices h !! v = Some n -> VertexNode.face n = Some f ->
    exists fa, faceHeap h !! f = Some fa /\
               tolerance h < Face.distanceToPoint fa (VertexNode.point n).

(** [h'] has the tolerance of [h], its faces with their planes, and its
    vertices with their points; a vertex of [h'] has the face it had in [h],
    or one that it lies farther out from than the tolerance. *)
Definition outward (h h' : hull) : Prop :=
  tolerance h' = tolerance h /\
  (forall f fa, faceHeap h !! f = Some fa ->
     exists fa', faceHeap h' !! f = Some fa' /\
                 Face.normal fa' = Face.normal fa /\ Face.constant fa' = Face.constant fa) /\
  (forall v n', vertices h' !! v = Some n' ->
     exists n, vertices h !! v = Some n /\ VertexNode.point n' = VertexNode.point n /\
       (VertexNode.face n' = VertexNode.face n \/
        exists f fa', VertexNode.face n' = Some f /\ faceHeap h' !! f = Some fa' /\
                      tolerance h' < Face.distanceToPoint fa' (VertexNode.point n'))).

Definition outwards {A} (c : M A) : Prop :=
  forall h a h', c h = Ok a h' -> outward h h'.

(** The states in which [compute] asks for the next vertex: the one that
    [computeInitialHull] leaves, on a hull without faces whose vertices are
    new and whose assigned list is empty, and then each one that
    [addVertexToHull] leaves when it is given the vertex that
    [nextVertexToAdd] has returned. *)
Inductive reached (sqrt : Q -> Q) : hull -> Prop :=
| reached_initial h h' :
    assigned h = VertexList.new -> faceHeap h = [] ->
    (forall n, In n (vertices h) -> VertexNode.face n = None) ->
    computeInitialHull sqrt h = Ok tt h' -> reached sqrt h'
| reached_vertex h eye h' :
    reached sqrt h ->
    nextVertexToAdd h = Ok (Some eye) h ->
    addVertexToHull sqrt eye h = Ok tt h' -> reached sqrt h'.

(** *** What a build overwrites *)

(** The outcome [o] with [g] applied to the hull it leaves. *)
Definition lift {A} (g : hull -> hull) (o : outcome A) : outcome A :=
  match o with Ok a h => Ok a (g h) | Throw e h => Throw e (g h) end.

(** A computation neither reads nor writes what [g] writes: it runs on
    [g h] as it runs on [h]. *)
Definition commutes {A} (g : hull -> hull) (c : M A) : Prop :=
  forall h, c (g h) = lift g (c h).

(** A computation overwrites what [g] has written before it reads it, or
    runs on [g h] as it runs on [h]. *)
Definition settles {A} (g : hull -> hull) (c : M A) : Prop :=
  forall h, c (g h) = c h \/ c (g h) = lift g (c h).

(** The writes to the list of new faces and to the unassigned list. *)
Inductive spare : (hull -> hull) -> Prop :=
| spare_newFaces x : spare (set_newFaces x)
| spare_unassigned u : spare (set_unassigned u).

(** The parts of a hull that a build on a hull with an empty assigned list
    reads or leaves: all but the list of new faces and the unassigned
    list. *)
Definition mould (h : hull)
  : Q * list nat * VertexList.t * list VertexNode.t * list Face.t * list HalfEdge.t :=
  (tolerance h, faces h, assigned h, vertices h, faceHeap h, edgeHeap h).

(** Two outcomes of the same kind, on hulls with the same parts. *)
Definition alike {A} (o1 o2 : outcome A) : Prop :=
  match o1, o2 with
  | Ok a1 h1, Ok a2 h2 => a1 = a2 /\ mould h1 = mould h2
  | Throw e1 h1, Throw e2 h2 => e1 = e2 /\ mould h1 = mould h2
  | _, _ => False
  end.

(** *** First found *)

(** Entry [i] of [l] has the greatest key, and no entry before it has a key
    as great.  [key j y] is the number that entry [y] at position [j] is
    judged by, or [None] when the scan passes it over: the entry is skipped,
    or its number is [NaN]. *)
Definition foremost {A} (key : nat -> A -> option Q) (l : list A) (i : nat) : Prop :=
  exists x d, l !! i = Some x /\ key i x = Some d /\
    (forall j y q, l !! j = Some y -> key j y = Some q -> q <= d) /\
    (forall j y q, (j < i)%nat -> l !! j = Some y -> key j y = Some q -> q < d).

(** What a scan for the greatest key that starts from [start] finds: the
    first of the entries with the greatest key, when that key is greater
    than [start], and nothing when no key is. *)
Definition firstBest {A} (key : nat -> A -> option Q) (start : Q) (l : list A)
  (r : option (nat * A)) : Prop :=
  match r with
  | None => forall j y q, l !! j = Some y -> key j y = Some q -> q <= start
  | Some (i, x) =>
      l !! i = Some x /\ foremost key l i /\
      exists d, key i x = Some d /\ start < d
  end.

(** The scan itself, as each loop of the build writes it: the entry replaces
    the one kept so far when its key is greater, not when it is equal. *)
Fixpoint scanBest {A} (key : nat -> A -> option Q) (l : list A) (i : nat) (best : Q)
  (r : option (nat * A)) : option (nat * A) :=
  match l with
  | [] => r
  | x :: l =>
      if Num.nan_gtb (key i x) best
      then scanBest key l (S i) (default 0 (key i x)) (Some (i, x))
      else scanBest key l (S i) best r
  end.

(** The keys of the scans of the build: a coordinate and its opposite, the
    separation along an axis, the distance from the segment [v0 v1], the
    distance from the plane through [v0], [v1], [v2], the distance of a point
    from a face, from a visible face, and of a vertex from a face. *)
Definition alongAxis (j : nat) (_ : nat) (v : VertexNode.t) : option Q :=
  Some (Vector3.getComponent (VertexNode.point v) j).

Definition againstAxis (j : nat) (_ : nat) (v : VertexNode.t) : option Q :=
  Some (- Vector3.getComponent (VertexNode.point v) j).

Definition axisKey (vs : list VertexNode.t) (ex : extremes) (_ : nat) (a : nat) : option Q :=
  Some (separation vs ex a).

Definition segmentKey (line3 : Line3.t) (v0 v1 : nat) (i : nat) (v : VertexNode.t)
  : option Q :=
  if negb (Nat.eqb i v0) && negb (Nat.eqb i v1)
  then distanceToSegmentSq line3 (VertexNode.point v) else None.

Definition planeKey (plane : Plane.t) (v0 v1 v2 : nat) (i : nat) (v : VertexNode.t)
  : option Q :=
  if negb (Nat.eqb i v0) && negb (Nat.eqb i v1) && negb (Nat.eqb i v2)
  then Some (Num.abs (Plane.distanceToPoint plane (VertexNode.point v))) else None.

Definition faceKey (h : hull) (p : Vector3.t) (_ : nat) (f : nat) : option Q :=
  match faceHeap h !! f with
  | Some fa => Some (Face.distanceToPoint fa p)
  | None => None
  end.

Definition visibleKey (h : hull) (p : Vector3.t) (_ : nat) (f : nat) : option Q :=
  match faceHeap h !! f with
  | Some fa =>
      if Mark_eqb (Face.mark fa) Visible then Some (Face.distanceToPoint fa p) else None
  | None => None
  end.

Definition vertexKey (vs : list VertexNode.t) (fa : Face.t) (_ : nat) (u : nat) : option Q :=
  Some (distanceOf vs fa u).

(** A hull as the constructor and [cleanup] leave it: both ledgers empty, no
    new faces. *)
Definition clean (h : hull) : Prop :=
  assigned h = VertexList.new /\ unassigned h = VertexList.new /\ newFaces h = [].

End Aux.

(** The points of a cloud all lie on one line; coincident points are the case
    of a direction zero. *)
Definition collinear (points : list Vector3.t) : Prop :=
  exists a d : Vector3.t, forall p, In p points -> Aux.onLine a d p.

(** The hull of the cube when the initial tetrahedron stands and the other
    corners are assigned to its faces. *)
Definition cubeStart : ConvexHull.hull :=
  ConvexHull.final (ConvexHull.computeInitialHull Qsqrt (Aux.prepared cube ConvexHull.new)).

(** A hull of three vertices; the assigned list holds vertices 0 and 1, in
    this order, and vertex 2 is in no list. *)
Definition linkedPair : ConvexHull.hull :=
  ConvexHull.set_assigned (VertexList.mk (Some 0%nat) (Some 1%nat))
    (ConvexHull.set_vertices
       [VertexNode.mk (P 0 0 0) None (Some 1%nat) None;
        VertexNode.mk (P 1 0 0) (Some 0%nat) None None;
        VertexNode.new (P 0 1 0)] ConvexHull.new).

(** A hull of one face and three vertices: vertices 0 and 1 are outside the
    face and make up the assigned list, vertex 2 is in no list. *)
Definition outsidePair : ConvexHull.hull :=
  ConvexHull.set_faceHeap [Face.set_outside (Some 0%nat) Face.new]
    (ConvexHull.set_assigned (VertexList.mk (Some 0%nat) (Some 1%nat))
       (ConvexHull.set_vertices
          [VertexNode.mk (P 0 0 1) None (Some 1%nat) (Some 0%nat);
           VertexNode.mk (P 1 0 1) (Some 0%nat) None (Some 0%nat);
           VertexNode.new (P 0 1 1)] ConvexHull.new)).

(** The points of a cloud are all the same point. *)
Definition coincident (points : list Vector3.t) : Prop :=
  forall p q, In p points -> In q points -> Aux.veq p q.

Definition fourFold : list Vector3.t := [P 1 2 3; P 1 2 3; P 1 2 3; P 1 2 3].

(** * Properties *)

Module Props.

Import ConvexHull Spec Aux.
Local Open Scope hull_scope.

(** ** Numbers *)

Lemma gtb_true (a b : Q) : Num.gtb a b = true <-> b < a.
Proof.
  unfold Num.gtb. rewrite negb_true_iff. split; intros H.
  - destruct (Qlt_le_dec b a) as [|L]; auto. apply Qle_bool_iff in L. congruence.
  - destruct (Qle_bool a b) eqn:E; auto. apply Qle_bool_iff in E. lra.
Qed.

Lemma gtb_false (a b : Q) : Num.gtb a b = false <-> a <= b.
Proof.
  unfold Num.gtb. rewrite negb_false_iff. apply Qle_bool_iff.
Qed.

Lemma leb_true (a b : Q) : Num.leb a b = true <-> a <= b.
Proof. apply Qle_bool_iff. Qed.

(** ** Point containment *)

Lemma containsPoint_loop_true tol fs p :
  containsPoint_loop tol fs p = true <->
  Forall (fun f => Face.distanceToPoint f p <= tol) fs.
Proof.
  induction fs as [|f fs IH]; simpl.
  - split; auto.
  - destruct (Num.gtb (Face.distanceToPoint f p) tol) eqn:E.
    + apply gtb_true in E. split; [discriminate|].
      intros H. inversion H; subst. lra.
    + apply gtb_false in E. rewrite IH. split.
      * intros H. constructor; auto.
      * intros H. inversion H; auto.
Qed.

Lemma containsPoint_loop_false tol fs p :
  containsPoint_loop tol fs p = false <->
  Exists (fun f => tol < Face.distanceToPoint f p) fs.
Proof.
  induction fs as [|f fs IH]; simpl.
  - split; [discriminate|]. intros H. inversion H.
  - destruct (Num.gtb (Face.distanceToPoint f p) tol) eqn:E.
    + apply gtb_true in E. split; auto.
    + apply gtb_false in E. rewrite IH. split.
      * intros H. now apply Exists_cons_tl.
      * intros H. inversion H; subst; auto. lra.
Qed.

(** C3: [containsPoint] answers true exactly when every face of the hull has
    the point within the tolerance of its plane, and false exactly when some
    face has it farther out than the tolerance. *)
Theorem containsPoint_iff (h : hull) (p : Vector3.t) :
  (containsPoint h p = true <->
     Forall (fun f => Face.distanceToPoint f p <= tolerance h) (faceObjects h)) /\
  (containsPoint h p = false <->
     Exists (fun f => tolerance h < Face.distanceToPoint f p) (faceObjects h)).
Proof.
  unfold containsPoint. split.
  - apply containsPoint_loop_true.
  - apply containsPoint_loop_false.
Qed.

(** C10: a hull without faces, a new one or one emptied by [makeEmpty],
    contains every point. *)
Theorem containsPoint_empty (p : Vector3.t) :
  containsPoint new p = true /\
  (forall h, faces (final (makeEmpty h)) = [] /\
             containsPoint (final (makeEmpty h)) p = true) /\
  (forall h, faces h = [] -> containsPoint h p = true).
Proof.
  split; [reflexivity|]. split.
  - intros h. split; reflexivity.
  - intros h H. unfold containsPoint, faceObjects. rewrite H. reflexivity.
Qed.

(** ** Ray intersection *)

Lemma intersectRay_loop_spec ray fs : forall tn tf,
  inverted (tn, tf) = false ->
  intersectRay_loop fs ray tn tf =
  if existsb (outsideAndAway ray) fs || everInverted ray (tn, tf) fs then None
  else select (fold_left (narrow ray) fs (tn, tf)).
Proof.
  induction fs as [|f fs IH]; intros tn tf Hiv.
  - unfold select. simpl. destruct tn; reflexivity.
  - cbn [intersectRay_loop existsb everInverted fold_left].
    change (Face.distanceToPoint f (Ray.origin ray)) with (vN ray f).
    change (Vector3.dot (Face.normal f) (Ray.direction ray)) with (vD ray f).
    change (Num.gtb (vN ray f) 0 && Num.leb 0 (vD ray f)) with (outsideAndAway ray f).
    destruct (outsideAndAway ray f); [reflexivity|]. cbn [orb].
    assert ((if negb (Num.eqb (vD ray f) 0) then - vN ray f / vD ray f else 0)
            = hitParameter ray f) as ->.
    { unfold hitParameter. destruct (Num.eqb _ _); reflexivity. }
    pose proof (eq_refl (narrow ray (tn, tf) f)) as Hn.
    unfold narrow at 2 in Hn. cbn [fst snd] in Hn.
    destruct (Num.leb (hitParameter ray f) 0).
    + rewrite Hn, Hiv. cbn [orb]. now apply IH.
    + destruct (Num.gtb (vD ray f) 0); rewrite Hn; unfold inverted at 1; cbn [fst snd];
        (destruct (Num.ext_gtb _ _) eqn:E5;
         [ rewrite orb_true_r; reflexivity | cbn [orb]; now apply IH ]).
Qed.

Lemma narrow_positive ray f iv :
  (fst iv = Num.NegInf \/ positive (fst iv)) -> positive (snd iv) ->
  (fst (narrow ray iv f) = Num.NegInf \/ positive (fst (narrow ray iv f))) /\
  positive (snd (narrow ray iv f)).
Proof.
  intros Hn Hf. unfold narrow.
  destruct (Num.leb (hitParameter ray f) 0) eqn:E; [auto|].
  assert (0 < hitParameter ray f) as Hpos.
  { destruct (Qlt_le_dec 0 (hitParameter ray f)) as [|L]; auto.
    apply leb_true in L. congruence. }
  destruct (Num.gtb (vD ray f) 0); simpl; split; auto.
  - unfold Num.ext_min. destruct (Num.ext_gtb _ _); auto.
  - right. unfold Num.ext_max. destruct (Num.ext_gtb _ _) eqn:E2; auto.
    destruct Hn as [Hn|Hn]; auto. rewrite Hn in E2. discriminate.
Qed.

Lemma fold_narrow_positive ray fs : forall iv,
  (fst iv = Num.NegInf \/ positive (fst iv)) -> positive (snd iv) ->
  (fst (fold_left (narrow ray) fs iv) = Num.NegInf \/
   positive (fst (fold_left (narrow ray) fs iv))) /\
  positive (snd (fold_left (narrow ray) fs iv)).
Proof.
  induction fs as [|f fs IH]; intros iv Hn Hf; simpl; auto.
  destruct (narrow_positive ray f iv Hn Hf). auto.
Qed.

(** C4, as the code has it: the result is [null] as soon as some face has the
    origin strictly outside its plane with the direction not moving towards
    it, and [null] when narrowing ever leaves [tNear > tFar]; otherwise it is
    the point at [tNear] when [tNear] was set (it is then finite and
    positive), else the point at [tFar], which may still be [Infinity]; the
    final step never answers [null]. *)
Theorem intersectRay_spec_ok (h : hull) (ray : Ray.t) :
  intersectRay h ray = intersectRay_spec (faceObjects h) ray /\
  (Exists (fun f => 0 < vN ray f /\ 0 <= vD ray f) (faceObjects h) ->
     intersectRay h ray = None) /\
  (everInverted ray whole (faceObjects h) = true -> intersectRay h ray = None) /\
  (forall t, intersectRay h ray = Some t -> positive t) /\
  (intersectRay h ray = None ->
     existsb (outsideAndAway ray) (faceObjects h) = true \/
     everInverted ray whole (faceObjects h) = true).
Proof.
  assert (intersectRay h ray = intersectRay_spec (faceObjects h) ray) as Heq.
  { unfold intersectRay, intersectRay_spec.
    apply (intersectRay_loop_spec ray (faceObjects h) Num.NegInf Num.PosInf eq_refl). }
  split; [exact Heq|]. rewrite Heq. unfold intersectRay_spec.
  repeat split.
  - intros Hex.
    assert (existsb (outsideAndAway ray) (faceObjects h) = true) as ->; [|reflexivity].
    apply existsb_exists. apply Exists_exists in Hex as (f & Hin & H1 & H2).
    exists f. split; [now apply list_elem_of_In|].
    unfold outsideAndAway. apply andb_true_iff. split.
    + now apply gtb_true.
    + now apply leb_true.
  - intros ->. rewrite orb_true_r. reflexivity.
  - intros t. destruct (_ || _); [discriminate|].
    destruct (fold_narrow_positive ray (faceObjects h) whole) as [Hn Hf];
      [left; reflexivity | exact I |].
    unfold select.
    destruct (fst (fold_left (narrow ray) (faceObjects h) whole)) eqn:E;
      intros [= <-]; auto; try exact I.
    destruct Hn as [Hn|Hn]; [discriminate | exact Hn].
  - destruct (existsb _ _); simpl; auto.
    destruct (everInverted _ _ _); auto.
    unfold select. destruct (fst _); discriminate.
Qed.

(** C4, counterexample to the last alternative of the description: on a hull
    without faces nothing narrows the interval, and the result is the point
    at [tFar = Infinity], not [null]. *)
Lemma intersectRay_not_described :
  intersectRay new (Ray.mk (P 0 0 0) (P 1 0 0)) = Some Num.PosInf /\
  intersectRay_described (faceObjects new) (Ray.mk (P 0 0 0) (P 1 0 0)) = None /\
  ~ (forall h ray, intersectRay h ray = intersectRay_described (faceObjects h) ray).
Proof.
  split; [reflexivity|]. split; [reflexivity|].
  intros H. specialize (H new (Ray.mk (P 0 0 0) (P 1 0 0))). discriminate H.
Qed.

(** ** The tolerance *)

Lemma ltb_true (a b : Q) : Num.ltb a b = true <-> a < b.
Proof. apply gtb_true. Qed.

Lemma ltb_false (a b : Q) : Num.ltb a b = false <-> b <= a.
Proof. apply gtb_false. Qed.

Lemma updateMin_component i p mn j :
  (j < 3)%nat ->
  Vector3.getComponent (fst (fold_left (updateMin i p) axes mn)) j =
  if Num.ltb (Vector3.getComponent p j) (Vector3.getComponent (fst mn) j)
  then Vector3.getComponent p j else Vector3.getComponent (fst mn) j.
Proof.
  intros Hj. destruct mn as [[mx my mz] l], p as [px py pz].
  unfold axes, updateMin.
  destruct j as [|[|[|j]]]; [| | | lia];
    cbn [fold_left fst snd Vector3.getComponent Vector3.x Vector3.y Vector3.z];
    destruct (Num.ltb px mx);
    cbn [fst snd Vector3.setComponent Vector3.getComponent Vector3.x Vector3.y Vector3.z];
    destruct (Num.ltb py my);
    cbn [fst snd Vector3.setComponent Vector3.getComponent Vector3.x Vector3.y Vector3.z];
    destruct (Num.ltb pz mz);
    cbn [fst snd Vector3.setComponent Vector3.getComponent Vector3.x Vector3.y Vector3.z];
    reflexivity.
Qed.

Lemma updateMax_component i p mx j :
  (j < 3)%nat ->
  Vector3.getComponent (fst (fold_left (updateMax i p) axes mx)) j =
  if Num.gtb (Vector3.getComponent p j) (Vector3.getComponent (fst mx) j)
  then Vector3.getComponent p j else Vector3.getComponent (fst mx) j.
Proof.
  intros Hj. destruct mx as [[mx my mz] l], p as [px py pz].
  unfold axes, updateMax.
  destruct j as [|[|[|j]]]; [| | | lia];
    cbn [fold_left fst snd Vector3.getComponent Vector3.x Vector3.y Vector3.z];
    destruct (Num.gtb px mx);
    cbn [fst snd Vector3.setComponent Vector3.getComponent Vector3.x Vector3.y Vector3.z];
    destruct (Num.gtb py my);
    cbn [fst snd Vector3.setComponent Vector3.getComponent Vector3.x Vector3.y Vector3.z];
    destruct (Num.gtb pz mz);
    cbn [fst snd Vector3.setComponent Vector3.getComponent Vector3.x Vector3.y Vector3.z];
    reflexivity.
Qed.

Lemma least_step l m q :
  least l m -> least (l ++ [q]) (if Num.ltb q m then q else m).
Proof.
  intros [Hin Hle]. destruct (Num.ltb q m) eqn:E.
  - apply ltb_true in E. split.
    + apply in_or_app. right. now left.
    + intros y Hy. apply in_app_or in Hy as [Hy|[<-|[]]]; [|lra].
      specialize (Hle y Hy). lra.
  - apply ltb_false in E. split.
    + apply in_or_app. now left.
    + intros y Hy. apply in_app_or in Hy as [Hy|[<-|[]]]; auto.
Qed.

Lemma greatest_step l m q :
  greatest l m -> greatest (l ++ [q]) (if Num.gtb q m then q else m).
Proof.
  intros [Hin Hle]. destruct (Num.gtb q m) eqn:E.
  - apply gtb_true in E. split.
    + apply in_or_app. right. now left.
    + intros y Hy. apply in_app_or in Hy as [Hy|[<-|[]]]; [|lra].
      specialize (Hle y Hy). lra.
  - apply gtb_false in E. split.
    + apply in_or_app. now left.
    + intros y Hy. apply in_app_or in Hy as [Hy|[<-|[]]]; auto.
Qed.

Lemma scanExtremes_extreme j (Hj : (j < 3)%nat) vs : forall i mn mx l,
  least l (Vector3.getComponent (fst mn) j) ->
  greatest l (Vector3.getComponent (fst mx) j) ->
  least (l ++ coords j vs)
        (Vector3.getComponent (fst (fst (scanExtremes vs i mn mx))) j) /\
  greatest (l ++ coords j vs)
        (Vector3.getComponent (fst (snd (scanExtremes vs i mn mx))) j).
Proof.
  induction vs as [|v vs IH]; intros i mn mx l Hmin Hmax.
  - simpl. rewrite app_nil_r. auto.
  - cbn [scanExtremes coords map].
    replace (l ++ Vector3.getComponent (VertexNode.point v) j :: map _ vs)
      with ((l ++ [Vector3.getComponent (VertexNode.point v) j]) ++ coords j vs)
      by (rewrite <- app_assoc; reflexivity).
    apply IH.
    + rewrite updateMin_component by assumption. now apply least_step.
    + rewrite updateMax_component by assumption. now apply greatest_step.
Qed.

Lemma least_drop q l m : In q l -> least (q :: l) m -> least l m.
Proof.
  intros Hq [Hin Hle]. split.
  - destruct Hin as [<-|]; auto.
  - intros y Hy. apply Hle. now right.
Qed.

Lemma greatest_drop q l m : In q l -> greatest (q :: l) m -> greatest l m.
Proof.
  intros Hq [Hin Hle]. split.
  - destruct Hin as [<-|]; auto.
  - intros y Hy. apply Hle. now right.
Qed.

Lemma computeExtremes_ok (h : hull) v vs :
  vertices h = v :: vs ->
  let r := scanExtremes (v :: vs) 0 (VertexNode.point v, [0; 0; 0]%nat)
                        (VertexNode.point v, [0; 0; 0]%nat) in
  computeExtremes h =
  Ok (mkExtremes (snd (fst r)) (snd (snd r)))
     (set_tolerance (toleranceOf (fst (fst r)) (fst (snd r))) h).
Proof.
  intros Hv. unfold computeExtremes, bind, gets, pointOf, getVertex, bind, gets, deref.
  rewrite Hv. cbn [lookup list_lookup ret].
  destruct (scanExtremes _ _ _ _) as [[mn a] [mx b]]. reflexivity.
Qed.

(** C6: for a cloud with at least one point, [computeExtremes] sets the
    tolerance to [3 * Number.EPSILON * (max (|min_x|, |max_x|) +
    max (|min_y|, |max_y|) + max (|min_z|, |max_z|))], where [min] and [max]
    hold the least and the greatest coordinate of the cloud on each axis. *)
Theorem computeExtremes_tolerance (h : hull) :
  vertices h <> [] ->
  exists ex mn mx,
    computeExtremes h = Ok ex (set_tolerance (toleranceOf mn mx) h) /\
    tolerance (set_tolerance (toleranceOf mn mx) h) =
      3 * Num.EPSILON *
        (Num.max (Num.abs (Vector3.x mn)) (Num.abs (Vector3.x mx)) +
         Num.max (Num.abs (Vector3.y mn)) (Num.abs (Vector3.y mx)) +
         Num.max (Num.abs (Vector3.z mn)) (Num.abs (Vector3.z mx))) /\
    Num.EPSILON * inject_Z (2 ^ 52) == 1 /\
    least (coords 0 (vertices h)) (Vector3.x mn) /\
    least (coords 1 (vertices h)) (Vector3.y mn) /\
    least (coords 2 (vertices h)) (Vector3.z mn) /\
    greatest (coords 0 (vertices h)) (Vector3.x mx) /\
    greatest (coords 1 (vertices h)) (Vector3.y mx) /\
    greatest (coords 2 (vertices h)) (Vector3.z mx).
Proof.
  intros Hne. destruct (vertices h) as [|v vs] eqn:Hv; [congruence|].
  pose proof (computeExtremes_ok h v vs Hv) as Hc. cbv zeta in Hc.
  set (r := scanExtremes (v :: vs) 0 (VertexNode.point v, [0; 0; 0]%nat)
                         (VertexNode.point v, [0; 0; 0]%nat)) in *.
  exists (mkExtremes (snd (fst r)) (snd (snd r))), (fst (fst r)), (fst (snd r)).
  split; [exact Hc|]. split; [reflexivity|]. split; [reflexivity|].
  assert (forall j, (j < 3)%nat ->
            least (coords j (v :: vs)) (Vector3.getComponent (fst (fst r)) j) /\
            greatest (coords j (v :: vs)) (Vector3.getComponent (fst (snd r)) j)) as H.
  { intros j Hj.
    destruct (scanExtremes_extreme j Hj (v :: vs) 0%nat
                (VertexNode.point v, [0; 0; 0]%nat) (VertexNode.point v, [0; 0; 0]%nat)
                [Vector3.getComponent (VertexNode.point v) j]) as [H1 H2].
    - split; [now left|]. intros y [<-|[]]. apply Qle_refl.
    - split; [now left|]. intros y [<-|[]]. apply Qle_refl.
    - fold r in H1, H2. split.
      + apply (least_drop (Vector3.getComponent (VertexNode.point v) j)); [now left|exact H1].
      + apply (greatest_drop (Vector3.getComponent (VertexNode.point v) j)); [now left|exact H2]. }
  destruct (H 0%nat ltac:(lia)) as [A0 B0].
  destruct (H 1%nat ltac:(lia)) as [A1 B1].
  destruct (H 2%nat ltac:(lia)) as [A2 B2].
  split; [exact A0|]. split; [exact A1|]. split; [exact A2|].
  split; [exact B0|]. split; [exact B1|exact B2].
Qed.

(** C6, witness: a cloud of three points. *)
Lemma computeExtremes_tolerance_witness :
  let h := set_vertices [VertexNode.new (P 1 (-2) 3); VertexNode.new (P (-4) 0 1);
                         VertexNode.new (P 2 5 (-6))] new in
  vertices h <> [] /\
  exists ex mn mx,
    computeExtremes h = Ok ex (set_tolerance (toleranceOf mn mx) h) /\
    least (coords 0 (vertices h)) (Vector3.x mn) /\
    greatest (coords 0 (vertices h)) (Vector3.x mx).
Proof.
  intros h.
  assert (vertices h <> []) as Hne by discriminate.
  split; [exact Hne|].
  destruct (computeExtremes_tolerance h Hne)
    as (ex & mn & mx & H1 & _ & _ & H2 & _ & _ & H3 & _).
  exists ex, mn, mx. auto.
Defined.

(** ** Running a computation *)

Lemma bind_Ok {A B} (c : M A) (k : A -> M B) h a h' :
  c h = Ok a h' -> bind c k h = k a h'.
Proof. intros H. unfold bind. rewrite H. reflexivity. Qed.

Lemma bind_Throw {A B} (c : M A) (k : A -> M B) h e h' :
  c h = Throw e h' -> bind c k h = Throw e h'.
Proof. intros H. unfold bind. rewrite H. reflexivity. Qed.

Lemma getVertex_Ok h v n : vertices h !! v = Some n -> getVertex v h = Ok n h.
Proof. intros H. unfold getVertex, bind, gets, deref. rewrite H. reflexivity. Qed.

Lemma pointOf_Ok h v n : vertices h !! v = Some n -> pointOf v h = Ok (VertexNode.point n) h.
Proof. intros H. unfold pointOf. rewrite (bind_Ok _ _ _ _ _ (getVertex_Ok h v n H)). reflexivity. Qed.

Lemma deref_Some {A} (a : A) h : deref (Some a) h = Ok a h.
Proof. reflexivity. Qed.

Lemma deref_None {A} h : deref (@None A) h = Throw TypeError h.
Proof. reflexivity. Qed.

Lemma foldM_pure {A B} (f : B -> A -> M B) (g : B -> A -> B) (l : list A) h :
  (forall b a, In a l -> f b a h = Ok (g b a) h) ->
  forall b, foldM f l b h = Ok (fold_left g l b) h.
Proof.
  induction l as [|a l IH]; intros Hf b; cbn [foldM fold_left].
  - reflexivity.
  - rewrite (bind_Ok _ _ _ _ _ (Hf b a (or_introl eq_refl))).
    apply IH. intros b' a' Hin. apply Hf. now right.
Qed.

(** ** The extremes and the axis of greatest separation *)

Lemma updateMin_handle i p mn j :
  (j < 3)%nat -> length (snd mn) = 3%nat ->
  length (snd (fold_left (updateMin i p) axes mn)) = 3%nat /\
  snd (fold_left (updateMin i p) axes mn) !! j =
  if Num.ltb (Vector3.getComponent p j) (Vector3.getComponent (fst mn) j)
  then Some i else snd mn !! j.
Proof.
  intros Hj Hl. destruct mn as [[mx my mz] l], p as [px py pz].
  destruct l as [|a [|b [|c [|]]]]; try discriminate Hl.
  unfold axes, updateMin.
  destruct j as [|[|[|j]]]; [| | | lia];
    cbn [fold_left fst snd Vector3.getComponent Vector3.x Vector3.y Vector3.z];
    destruct (Num.ltb px mx);
    cbn [fst snd Vector3.setComponent Vector3.getComponent Vector3.x Vector3.y Vector3.z];
    destruct (Num.ltb py my);
    cbn [fst snd Vector3.setComponent Vector3.getComponent Vector3.x Vector3.y Vector3.z];
    destruct (Num.ltb pz mz);
    cbn [fst snd Vector3.setComponent Vector3.getComponent Vector3.x Vector3.y Vector3.z];
    split; reflexivity.
Qed.

Lemma updateMax_handle i p mx j :
  (j < 3)%nat -> length (snd mx) = 3%nat ->
  length (snd (fold_left (updateMax i p) axes mx)) = 3%nat /\
  snd (fold_left (updateMax i p) axes mx) !! j =
  if Num.gtb (Vector3.getComponent p j) (Vector3.getComponent (fst mx) j)
  then Some i else snd mx !! j.
Proof.
  intros Hj Hl. destruct mx as [[mx my mz] l], p as [px py pz].
  destruct l as [|a [|b [|c [|]]]]; try discriminate Hl.
  unfold axes, updateMax.
  destruct j as [|[|[|j]]]; [| | | lia];
    cbn [fold_left fst snd Vector3.getComponent Vector3.x Vector3.y Vector3.z];
    destruct (Num.gtb px mx);
    cbn [fst snd Vector3.setComponent Vector3.getComponent Vector3.x Vector3.y Vector3.z];
    destruct (Num.gtb py my);
    cbn [fst snd Vector3.setComponent Vector3.getComponent Vector3.x Vector3.y Vector3.z];
    destruct (Num.gtb pz mz);
    cbn [fst snd Vector3.setComponent Vector3.getComponent Vector3.x Vector3.y Vector3.z];
    split; reflexivity.
Qed.

Lemma scanExtremes_handles all vs : forall pre i mn mx,
  all = pre ++ vs -> length pre = i ->
  length (snd mn) = 3%nat -> length (snd mx) = 3%nat ->
  (forall j, (j < 3)%nat -> extreme_at all mn mx j) ->
  forall j, (j < 3)%nat ->
    extreme_at all (fst (scanExtremes vs i mn mx)) (snd (scanExtremes vs i mn mx)) j.
Proof.
  induction vs as [|v vs IH]; intros pre i mn mx Hall Hi Hln Hlx Hex j Hj.
  - simpl. auto.
  - cbn [scanExtremes].
    assert (all !! i = Some v) as Hv.
    { subst all i. rewrite lookup_app_r by lia. now rewrite Nat.sub_diag. }
    apply (IH (pre ++ [v]) (S i)); auto.
    + rewrite <- app_assoc. exact Hall.
    + rewrite length_app. simpl. lia.
    + apply (updateMin_handle i (VertexNode.point v) mn 0); auto.
    + apply (updateMax_handle i (VertexNode.point v) mx 0); auto.
    + intros j' Hj'.
      destruct (Hex j' Hj') as (kmin & kmax & vmin & vmax & E1 & E2 & E3 & E4 & E5 & E6).
      destruct (updateMin_handle i (VertexNode.point v) mn j' Hj' Hln) as [_ Hmin].
      destruct (updateMax_handle i (VertexNode.point v) mx j' Hj' Hlx) as [_ Hmax].
      pose proof (updateMin_component i (VertexNode.point v) mn j' Hj') as Cmin.
      pose proof (updateMax_component i (VertexNode.point v) mx j' Hj') as Cmax.
      unfold extreme_at. rewrite Hmin, Hmax, Cmin, Cmax.
      destruct (Num.ltb _ _), (Num.gtb _ _); eauto 12.
Qed.

Lemma extremes_run (h : hull) v vs :
  vertices h = v :: vs ->
  exists mn mx ex,
    computeExtremes h = Ok ex (set_tolerance (toleranceOf mn mx) h) /\
    forall j, (j < 3)%nat ->
      exists kmin kmax vmin vmax,
        ex_min ex !! j = Some kmin /\ ex_max ex !! j = Some kmax /\
        vertices h !! kmin = Some vmin /\ vertices h !! kmax = Some vmax /\
        least (coords j (vertices h)) (Vector3.getComponent (VertexNode.point vmin) j) /\
        greatest (coords j (vertices h)) (Vector3.getComponent (VertexNode.point vmax) j).
Proof.
  intros Hv.
  pose proof (computeExtremes_ok h v vs Hv) as Hc. cbv zeta in Hc.
  set (start := (VertexNode.point v, [0; 0; 0]%nat)) in *.
  set (r := scanExtremes (v :: vs) 0 start start) in *.
  exists (fst (fst r)), (fst (snd r)), (mkExtremes (snd (fst r)) (snd (snd r))).
  split; [exact Hc|]. intros j Hj.
  assert (extreme_at (v :: vs) (fst r) (snd r) j) as Hex.
  { apply (scanExtremes_handles (v :: vs) (v :: vs) []); auto.
    intros j' Hj'. exists 0%nat, 0%nat, v, v. unfold start. simpl.
    destruct j' as [|[|[|j']]]; try lia; auto 10. }
  destruct (scanExtremes_extreme j Hj (v :: vs) 0%nat start start
              [Vector3.getComponent (VertexNode.point v) j]) as [H1 H2].
  { split; [now left|]. intros y [<-|[]]. apply Qle_refl. }
  { split; [now left|]. intros y [<-|[]]. apply Qle_refl. }
  fold r in H1, H2.
  apply (least_drop (Vector3.getComponent (VertexNode.point v) j)) in H1; [|now left].
  apply (greatest_drop (Vector3.getComponent (VertexNode.point v) j)) in H2; [|now left].
  destruct Hex as (kmin & kmax & vmin & vmax & E1 & E2 & E3 & E4 & E5 & E6).
  exists kmin, kmax, vmin, vmax. rewrite Hv. cbn [ex_min ex_max].
  rewrite E5, E6. auto 10.
Qed.

Lemma pickAxis_run (h : hull) (ex : extremes) :
  (forall j, (j < 3)%nat ->
     exists kmin kmax vmin vmax,
       ex_min ex !! j = Some kmin /\ ex_max ex !! j = Some kmax /\
       vertices h !! kmin = Some vmin /\ vertices h !! kmax = Some vmax) ->
  pickAxis ex h = Ok (pickedAxis (vertices h) ex) h.
Proof.
  intros Hex. unfold pickAxis, pickedAxis.
  assert (forall acc j, (j < 3)%nat ->
    (let* vmax := deref (ex_max ex !! j) in
     let* vmin := deref (ex_min ex !! j) in
     let* pmax := pointOf vmax in
     let* pmin := pointOf vmin in
     let distance := Vector3.getComponent pmax j - Vector3.getComponent pmin j in
     ret (if Num.gtb distance (fst acc) then (distance, j) else acc)) h
    = Ok (pickStep (vertices h) ex acc j) h) as Hstep.
  { intros acc j Hj.
    destruct (Hex j Hj) as (kmin & kmax & vmin & vmax & E1 & E2 & E3 & E4).
    rewrite E1, E2.
    rewrite (bind_Ok _ _ _ _ _ (deref_Some kmax h)).
    rewrite (bind_Ok _ _ _ _ _ (deref_Some kmin h)).
    rewrite (bind_Ok _ _ _ _ _ (pointOf_Ok h kmax vmax E4)).
    rewrite (bind_Ok _ _ _ _ _ (pointOf_Ok h kmin vmin E3)).
    unfold pickStep, separation, coord. rewrite E1, E2, E3, E4. reflexivity. }
  erewrite bind_Ok; [reflexivity|].
  apply (foldM_pure _ (pickStep (vertices h) ex)).
  intros acc j Hin. apply Hstep. unfold axes in Hin. simpl in Hin.
  destruct Hin as [<-|[<-|[<-|[]]]]; lia.
Qed.

Lemma pickedAxis_spec vs ex :
  let i := pickedAxis vs ex in
  (i < 3)%nat /\
  ((0 < separation vs ex i /\ forall j, (j < 3)%nat -> separation vs ex j <= separation vs ex i)
   \/ (forall j, (j < 3)%nat -> separation vs ex j <= 0)).
Proof.
  unfold pickedAxis, axes, pickStep. cbn [fold_left fst snd].
  destruct (Num.gtb (separation vs ex 0) 0) eqn:E0; cbn [fst snd];
    [apply gtb_true in E0 | apply gtb_false in E0];
    destruct (Num.gtb (separation vs ex 1) _) eqn:E1; cbn [fst snd];
    [apply gtb_true in E1 | apply gtb_false in E1
    |apply gtb_true in E1 | apply gtb_false in E1];
    destruct (Num.gtb (separation vs ex 2) _) eqn:E2; cbn [fst snd];
    [apply gtb_true in E2 | apply gtb_false in E2
    |apply gtb_true in E2 | apply gtb_false in E2
    |apply gtb_true in E2 | apply gtb_false in E2
    |apply gtb_true in E2 | apply gtb_false in E2];
    (split; [lia|]);
    try (left; split; [lra|]; intros [|[|[|j]]] Hj; try lia; lra);
    right; intros [|[|[|j]]] Hj; try lia; lra.
Qed.

(** ** The choice of the initial simplex *)

Lemma findV2_range line v0 v1 vs : forall i md acc k,
  findV2 line v0 v1 vs i md acc = Some k ->
  acc = Some k \/ ((i <= k < i + length vs)%nat /\ k <> v0 /\ k <> v1).
Proof.
  induction vs as [|v vs IH]; intros i md acc k H; cbn [findV2] in H.
  - now left.
  - destruct (negb (i =? v0)%nat && negb (i =? v1)%nat) eqn:E.
    + apply andb_true_iff in E as [E0 E1].
      apply negb_true_iff, Nat.eqb_neq in E0, E1.
      destruct (Num.nan_gtb _ _); apply IH in H as [H|H].
      * injection H as <-. right. cbn [length]. lia.
      * right. cbn [length]. lia.
      * now left.
      * right. cbn [length]. lia.
    + apply IH in H as [H|H]; [now left|]. right. cbn [length]. lia.
Qed.

Lemma findV2_blind line v0 v1 vs : forall i md acc,
  (forall v, In v vs ->
     Num.nan_gtb (distanceToSegmentSq line (VertexNode.point v)) md = false) ->
  findV2 line v0 v1 vs i md acc = acc.
Proof.
  induction vs as [|v vs IH]; intros i md acc H; cbn [findV2].
  - reflexivity.
  - rewrite (H v (or_introl eq_refl)).
    destruct (_ && _); apply IH; intros v' Hin; apply H; now right.
Qed.

Lemma findV3_range plane v0 v1 v2 vs : forall i md acc k,
  findV3 plane v0 v1 v2 vs i md acc = Some k ->
  acc = Some k \/ ((i <= k < i + length vs)%nat /\ k <> v0 /\ k <> v1 /\ k <> v2).
Proof.
  induction vs as [|v vs IH]; intros i md acc k H; cbn [findV3] in H.
  - now left.
  - destruct (negb (i =? v0)%nat && negb (i =? v1)%nat && negb (i =? v2)%nat) eqn:E.
    + apply andb_true_iff in E as [E E2]. apply andb_true_iff in E as [E0 E1].
      apply negb_true_iff, Nat.eqb_neq in E0, E1, E2.
      destruct (Num.gtb _ _); apply IH in H as [H|H].
      * injection H as <-. right. cbn [length]. lia.
      * right. cbn [length]. lia.
      * now left.
      * right. cbn [length]. lia.
    + apply IH in H as [H|H]; [now left|]. right. cbn [length]. lia.
Qed.

Lemma findV3_keeps plane v0 v1 v2 vs : forall i md a,
  exists b, findV3 plane v0 v1 v2 vs i md (Some a) = Some b.
Proof.
  induction vs as [|v vs IH]; intros i md a; cbn [findV3].
  - eauto.
  - destruct (_ && _); [destruct (Num.gtb _ _)|]; apply IH.
Qed.

Lemma findV3_found plane v0 v1 v2 vs : forall i md acc k,
  md < 0 ->
  (i <= k < i + length vs)%nat -> k <> v0 -> k <> v1 -> k <> v2 ->
  exists b, findV3 plane v0 v1 v2 vs i md acc = Some b.
Proof.
  induction vs as [|v vs IH]; intros i md acc k Hmd Hk H0 H1 H2; cbn [findV3].
  - cbn [length] in Hk. lia.
  - destruct (negb (i =? v0)%nat && negb (i =? v1)%nat && negb (i =? v2)%nat) eqn:E.
    + assert (Num.gtb (Num.abs (Plane.distanceToPoint plane (VertexNode.point v))) md = true)
        as ->.
      { apply gtb_true. unfold Num.abs.
        pose proof (Qabs_nonneg (Plane.distanceToPoint plane (VertexNode.point v))). lra. }
      apply findV3_keeps.
    + assert (i <> k) as Hik.
      { intros ->. rewrite !andb_false_iff, !negb_false_iff, !Nat.eqb_eq in E.
        destruct E as [[E|E]|E]; congruence. }
      apply (IH (S i) md acc k); auto. cbn [length] in Hk. lia.
Qed.

Lemma segment_degenerate a p : distanceToSegmentSq (Line3.mk a a) p = None.
Proof.
  unfold distanceToSegmentSq, Line3.closestPointToPoint, Line3.closestPointToPointParameter.
  cbn [Line3.start Line3.end_].
  assert (Num.eqb (Vector3.dot (Vector3.sub a a) (Vector3.sub a a)) 0 = true) as ->.
  { apply Qeq_bool_iff. destruct a as [ax ay az]. unfold Vector3.dot, Vector3.sub. simpl. ring. }
  reflexivity.
Qed.

Lemma initialSimplex_run sqrt (h : hull) v vs :
  vertices h = v :: vs ->
  exists mn mx ex v0 v1 n0 n1,
    let h' := set_tolerance (toleranceOf mn mx) h in
    let i := pickedAxis (vertices h) ex in
    ex_min ex !! i = Some v0 /\ ex_max ex !! i = Some v1 /\
    vertices h !! v0 = Some n0 /\ vertices h !! v1 = Some n1 /\
    (forall j, (j < 3)%nat ->
      exists kmin kmax vmin vmax,
        ex_min ex !! j = Some kmin /\ ex_max ex !! j = Some kmax /\
        vertices h !! kmin = Some vmin /\ vertices h !! kmax = Some vmax /\
        least (coords j (vertices h)) (Vector3.getComponent (VertexNode.point vmin) j) /\
        greatest (coords j (vertices h)) (Vector3.getComponent (VertexNode.point vmax) j)) /\
    initialSimplex sqrt h =
      match findV2 (Line3.mk (VertexNode.point n0) (VertexNode.point n1)) v0 v1
                   (vertices h) 0 0 None with
      | None => Throw TypeError h'
      | Some v2 =>
          match vertices h !! v2 with
          | None => Throw TypeError h'
          | Some n2 =>
              let plane := Plane.setFromCoplanarPoints sqrt (VertexNode.point n0)
                             (VertexNode.point n1) (VertexNode.point n2) in
              match findV3 plane v0 v1 v2 (vertices h) 0 (-1) None with
              | None => Throw TypeError h'
              | Some v3 => Ok (mkSimplex v0 v1 v2 v3 plane) h'
              end
          end
      end.
Proof.
  intros Hv.
  destruct (extremes_run h v vs Hv) as (mn & mx & ex & Hc & Hex).
  destruct (pickedAxis_spec (vertices h) ex) as [Hi _].
  destruct (Hex _ Hi) as (v0 & v1 & n0 & n1 & E1 & E2 & E3 & E4 & _ & _).
  exists mn, mx, ex, v0, v1, n0, n1. cbv zeta.
  split; [exact E1|]. split; [exact E2|]. split; [exact E3|]. split; [exact E4|].
  split; [exact Hex|].
  set (h' := set_tolerance (toleranceOf mn mx) h).
  assert (vertices h' = vertices h) as Hvh by reflexivity.
  unfold initialSimplex.
  rewrite (bind_Ok (gets vertices) _ h (vertices h) h eq_refl).
  rewrite (bind_Ok _ _ _ _ _ Hc).
  erewrite bind_Ok; cycle 1.
  { apply pickAxis_run. intros j Hj.
    destruct (Hex j Hj) as (a & b & c & d & F1 & F2 & F3 & F4 & _). eauto 10. }
  fold h'. rewrite Hvh, E1, E2.
  rewrite (bind_Ok _ _ _ _ _ (deref_Some v0 h')).
  rewrite (bind_Ok _ _ _ _ _ (deref_Some v1 h')).
  rewrite (bind_Ok _ _ _ _ _ (pointOf_Ok h' v0 n0 E3)).
  rewrite (bind_Ok _ _ _ _ _ (pointOf_Ok h' v1 n1 E4)).
  destruct (findV2 _ _ _ _ _ _ _) as [v2|]; [|reflexivity].
  rewrite (bind_Ok _ _ _ _ _ (deref_Some v2 h')).
  destruct (vertices h !! v2) as [n2|] eqn:E5.
  - rewrite (bind_Ok _ _ _ _ _ (pointOf_Ok h' v2 n2 E5)).
    destruct (findV3 _ _ _ _ _ _ _ _) as [v3|]; reflexivity.
  - unfold pointOf, getVertex, bind, gets, deref. rewrite Hvh, E5. reflexivity.
Qed.

(** ** Builds that stop in the choice of the simplex *)

Lemma untouched_refl h : untouched h h.
Proof. repeat split. Qed.

Lemma untouched_tolerance q h : untouched h (set_tolerance q h).
Proof. repeat split. Qed.

Lemma initialSimplex_empty sqrt h :
  vertices h = [] -> initialSimplex sqrt h = Throw TypeError h.
Proof.
  intros Hv. unfold initialSimplex, computeExtremes, pointOf, getVertex, bind, gets, deref.
  rewrite Hv. reflexivity.
Qed.

Lemma initialSimplex_few sqrt h :
  (length (vertices h) < 4)%nat ->
  exists h', initialSimplex sqrt h = Throw TypeError h' /\ untouched h h'.
Proof.
  intros Hlen. destruct (vertices h) as [|v vs] eqn:Hv.
  - exists h. split; [now apply initialSimplex_empty | apply untouched_refl].
  - destruct (initialSimplex_run sqrt h v vs Hv)
      as (mn & mx & ex & v0 & v1 & n0 & n1 & E1 & E2 & E3 & E4 & _ & Hrun).
    cbv zeta in *. rewrite Hv in *.
    exists (set_tolerance (toleranceOf mn mx) h).
    split; [|apply untouched_tolerance]. rewrite Hrun. clear Hrun.
    destruct (findV2 _ _ _ _ _ _ _) as [v2|] eqn:F2; [|reflexivity].
    destruct ((v :: vs) !! v2) as [n2|] eqn:E5; [|reflexivity]. cbv zeta.
    destruct (findV3 _ _ _ _ _ _ _ _) as [v3|] eqn:F3; [|reflexivity].
    exfalso.
    pose proof F2 as F2'.
    apply findV2_range in F2' as [F2'|(R2 & N20 & N21)]; [discriminate|].
    apply findV3_range in F3 as [F3|(R3 & N30 & N31 & N32)]; [discriminate|].
    assert (v0 <> v1) as N01.
    { intros ->. assert (n0 = n1) as -> by congruence.
      rewrite findV2_blind in F2; [discriminate|].
      intros v' _. now rewrite segment_degenerate. }
    apply lookup_lt_Some in E3, E4. cbn [length] in *. lia.
Qed.

Lemma forM_push points : forall h,
  forM points (fun p => modify (fun h => set_vertices (vertices h ++ [VertexNode.new p]) h)) h
  = Ok tt (set_vertices (vertices h ++ map VertexNode.new points) h).
Proof.
  induction points as [|p points IH]; intros h; cbn [forM map].
  - rewrite app_nil_r. destruct h; reflexivity.
  - erewrite bind_Ok by reflexivity. rewrite IH.
    destruct h; cbn. rewrite <- app_assoc. reflexivity.
Qed.

Lemma setFromPoints_prepared sqrt points h :
  snd (setFromPoints sqrt points h) = compute sqrt (prepared points h).
Proof.
  unfold setFromPoints. cbn [snd].
  erewrite (bind_Ok makeEmpty) by reflexivity.
  rewrite (bind_Ok _ _ _ _ _ (forM_push points _)).
  f_equal.
Qed.

Lemma compute_stops sqrt h h' :
  initialSimplex sqrt h = Throw TypeError h' ->
  compute sqrt h = Throw TypeError h'.
Proof.
  intros H. unfold compute, computeInitialHull.
  apply bind_Throw. apply bind_Throw. exact H.
Qed.

(** C1, as the code has it: with fewer than four points [setFromPoints] first
    writes its complaint to the console and goes on; the build then stops
    with a [TypeError] in the choice of the initial simplex, where a vertex
    that does not exist is read.  No face has been created at that point and
    the face list is empty. *)
Theorem setFromPoints_few (sqrt : Q -> Q) (points : list Vector3.t) (h : hull) :
  (length points < 4)%nat ->
  let o := snd (setFromPoints sqrt points h) in
  fst (setFromPoints sqrt points h) = [fewPoints] /\
  reportOf o = Crash TypeError /\
  faces (final o) = [] /\ faceHeap (final o) = [].
Proof.
  intros Hlen o. subst o. split.
  { unfold setFromPoints. cbn [fst]. apply Nat.ltb_lt in Hlen. now rewrite Hlen. }
  rewrite setFromPoints_prepared.
  destruct (initialSimplex_few sqrt (prepared points h)) as (h' & Hs & Hu).
  { unfold prepared. cbn [vertices]. rewrite length_map. exact Hlen. }
  rewrite (compute_stops _ _ _ Hs). cbn [reportOf final].
  destruct Hu as (F1 & F2 & _). rewrite F1, F2. auto.
Qed.

(** C1, witness: three points. *)
Lemma setFromPoints_few_witness :
  let points := [P 0 0 0; P 1 0 0; P 0 1 0] in
  (length points < 4)%nat /\
  reportOf (snd (setFromPoints Qsqrt points new)) = Crash TypeError /\
  faces (final (snd (setFromPoints Qsqrt points new))) = [].
Proof.
  intros points.
  assert (length points < 4)%nat as Hlen by (simpl; lia).
  split; [exact Hlen|].
  destruct (setFromPoints_few Qsqrt points new Hlen) as (_ & H1 & H2 & _).
  split; assumption.
Defined.

(** C1, counterexample: three points are not answered with [InvalidInput];
    the vertex list has been rebuilt, the tolerance computed, and the build
    has ended with a [TypeError]. *)
Lemma setFromPoints_few_not_rejected :
  let o := snd (setFromPoints Qsqrt [P 0 0 0; P 1 0 0; P 0 1 0] new) in
  reportOf o <> InvalidInput /\
  reportOf o = Crash TypeError /\
  length (vertices (final o)) = 3%nat /\
  ~ tolerance (final o) == tolerance new.
Proof.
  vm_compute. repeat split; discriminate.
Qed.

(** ** Points on a line *)

Lemma eqb_false (a b : Q) : Num.eqb a b = false <-> ~ a == b.
Proof.
  unfold Num.eqb. split.
  - intros H E. apply Qeq_bool_iff in E. congruence.
  - intros H. destruct (Qeq_bool a b) eqn:E; auto. apply Qeq_bool_iff in E. contradiction.
Qed.

Lemma clamp01_id q : 0 <= q <= 1 -> Line3.clamp01 q == q.
Proof.
  intros [H0 H1]. unfold Line3.clamp01, Num.max, Num.min.
  destruct (Num.ltb q 1) eqn:E1.
  - destruct (Num.gtb q 0) eqn:E2; [reflexivity|]. apply gtb_false in E2. lra.
  - apply ltb_false in E1. destruct (Num.gtb 1 0) eqn:E2; [lra|]. apply gtb_false in E2. lra.
Qed.

Lemma on_segment_component (a d t0 t1 t c x0 x1 xp : Q) :
  x0 == a + d * t0 -> x1 == a + d * t1 -> xp == a + d * t ->
  c * (t1 - t0) == t - t0 ->
  (x1 - x0) * c + x0 - xp == 0.
Proof.
  intros H0 H1 Hp Hc. rewrite H0, H1, Hp.
  assert ((a + d * t1 - (a + d * t0)) * c + (a + d * t0) - (a + d * t)
          == d * (c * (t1 - t0) - (t - t0))) as E by ring.
  rewrite E, Hc. ring.
Qed.

Lemma segment_through (p0 p1 p a d : Vector3.t) (t0 t1 t : Q) (i : nat) :
  (i < 3)%nat ->
  veq p0 (Vector3.add a (Vector3.multiplyScalar d t0)) ->
  veq p1 (Vector3.add a (Vector3.multiplyScalar d t1)) ->
  veq p (Vector3.add a (Vector3.multiplyScalar d t)) ->
  0 < Vector3.getComponent p1 i - Vector3.getComponent p0 i ->
  Vector3.getComponent p0 i <= Vector3.getComponent p i <= Vector3.getComponent p1 i ->
  exists q, distanceToSegmentSq (Line3.mk p0 p1) p = Some q /\ q == 0.
Proof.
  intros Hi (X0 & Y0 & Z0) (X1 & Y1 & Z1) (Xp & Yp & Zp) Hsep Hbetween.
  destruct p0 as [x0 y0 z0], p1 as [x1 y1 z1], p as [xp yp zp],
           a as [ax ay az], d as [dx dy dz].
  cbn [Vector3.add Vector3.multiplyScalar Vector3.x Vector3.y Vector3.z] in *.
  set (D := dx * dx + dy * dy + dz * dz).
  set (S2 := (x1 - x0) * (x1 - x0) + (y1 - y0) * (y1 - y0) + (z1 - z0) * (z1 - z0)).
  set (N := (x1 - x0) * (xp - x0) + (y1 - y0) * (yp - y0) + (z1 - z0) * (zp - z0)).
  assert (S2 == (t1 - t0) * (t1 - t0) * D) as HS2.
  { unfold S2, D. rewrite X0, Y0, Z0, X1, Y1, Z1. ring. }
  assert (N == (t1 - t0) * (t - t0) * D) as HN.
  { unfold N, D. rewrite X0, Y0, Z0, X1, Y1, Z1, Xp, Yp, Zp. ring. }
    assert (exists di : Q, 0 < (t1 - t0) * di /\ 0 <= (t - t0) * di /\
            (t - t0) * di <= (t1 - t0) * di /\ di * di <= D) as (di & Hd1 & Hd2 & Hd3 & HdD).
  { destruct i as [|[|[|i]]]; try lia; cbn [Vector3.getComponent Vector3.x Vector3.y Vector3.z] in *.
    - exists dx. rewrite X0, X1 in Hsep. rewrite X0, X1, Xp in Hbetween. unfold D. repeat split; nra.
    - exists dy. rewrite Y0, Y1 in Hsep. rewrite Y0, Y1, Yp in Hbetween. unfold D. repeat split; nra.
    - exists dz. rewrite Z0, Z1 in Hsep. rewrite Z0, Z1, Zp in Hbetween. unfold D. repeat split; nra. }
  assert (forall u : Q, ~ u == 0 -> 0 < u * u) as Hsq.
  { intros u Hu. destruct (Qlt_le_dec 0 u); [nra|].
    destruct (Qlt_le_dec u 0); [nra|]. exfalso. apply Hu. lra. }
  assert (~ di == 0) as Hdi by (intros E; rewrite E in Hd1; lra).
  assert (~ t1 - t0 == 0) as Ht by (intros E; rewrite E in Hd1; lra).
  pose proof (Hsq di Hdi) as Hdi2.
  pose proof (Hsq (t1 - t0) Ht) as Ht2.
  assert (0 < D) as HD by lra.
  assert (0 < S2) as HS2pos by (rewrite HS2; nra).
  unfold distanceToSegmentSq, Line3.closestPointToPoint, Line3.closestPointToPointParameter.
  cbn [Line3.start Line3.end_ Line3.delta].
  unfold Vector3.dot, Vector3.sub. cbn [Vector3.x Vector3.y Vector3.z].
  fold S2. fold N.
  assert (Num.eqb S2 0 = false) as -> by (apply eqb_false; lra).
  eexists. split; [reflexivity|].
  set (c := Line3.clamp01 (N / S2)).
  assert (N / S2 * (t1 - t0) == t - t0) as Hq.
  { assert (N / S2 * S2 == N) as E by (field; lra).
    assert ((N / S2 * (t1 - t0) - (t - t0)) * ((t1 - t0) * D) == 0) as E'.
    { transitivity (N / S2 * ((t1 - t0) * (t1 - t0) * D) - (t1 - t0) * (t - t0) * D);
        [ring|]. rewrite <- HS2, <- HN, E. ring. }
    apply Qmult_integral in E' as [E'|E']; [lra|].
    apply Qmult_integral in E' as [E'|E']; [contradiction|lra]. }
  assert (0 <= N / S2 <= 1) as Hrange.
  { assert (N / S2 * ((t1 - t0) * di) == (t - t0) * di) as E.
    { rewrite Qmult_assoc, Hq. reflexivity. }
    split; nra. }
  assert (c * (t1 - t0) == t - t0) as Hc.
  { unfold c. rewrite (clamp01_id _ Hrange). exact Hq. }
  pose proof (on_segment_component _ _ _ _ _ _ _ _ _ X0 X1 Xp Hc) as Ex.
  pose proof (on_segment_component _ _ _ _ _ _ _ _ _ Y0 Y1 Yp Hc) as Ey.
  pose proof (on_segment_component _ _ _ _ _ _ _ _ _ Z0 Z1 Zp Hc) as Ez.
  unfold Vector3.distanceToSquared, Vector3.lengthSq, Vector3.dot, Vector3.sub, Vector3.add, Vector3.multiplyScalar.
  cbn [Vector3.x Vector3.y Vector3.z]. fold c.
  rewrite Ex, Ey, Ez. ring.
Qed.

Lemma segment_degenerate_veq p0 p1 p :
  veq p1 p0 -> distanceToSegmentSq (Line3.mk p0 p1) p = None.
Proof.
  intros (X & Y & Z).
  unfold distanceToSegmentSq, Line3.closestPointToPoint, Line3.closestPointToPointParameter.
  cbn [Line3.start Line3.end_].
  assert (Num.eqb (Vector3.dot (Vector3.sub p1 p0) (Vector3.sub p1 p0)) 0 = true) as ->.
  { apply Qeq_bool_iff. unfold Vector3.dot, Vector3.sub.
    cbn [Vector3.x Vector3.y Vector3.z]. rewrite X, Y, Z. ring. }
  reflexivity.
Qed.

Lemma lookup_In {A} (l : list A) i x : l !! i = Some x -> In x l.
Proof.
  revert i. induction l as [|a l IH]; intros [|i] H; try discriminate.
  - injection H as ->. now left.
  - right. eapply IH. exact H.
Qed.

Lemma coords_In j vs v :
  In v vs -> In (Vector3.getComponent (VertexNode.point v) j) (coords j vs).
Proof. intros H. unfold coords. now apply (in_map (fun v => Vector3.getComponent (VertexNode.point v) j)). Qed.

Lemma collinear_no_v2 sqrt h :
  collinear (map VertexNode.point (vertices h)) ->
  exists h', initialSimplex sqrt h = Throw TypeError h' /\ untouched h h'.
Proof.
  intros (a & d & Hline). destruct (vertices h) as [|v vs] eqn:Hv.
  - exists h. split; [now apply initialSimplex_empty | apply untouched_refl].
  - destruct (initialSimplex_run sqrt h v vs Hv)
      as (mn & mx & ex & v0 & v1 & n0 & n1 & E1 & E2 & E3 & E4 & Hex & Hrun).
    cbv zeta in *. rewrite Hv in *.
    exists (set_tolerance (toleranceOf mn mx) h).
    split; [|apply untouched_tolerance]. rewrite Hrun. clear Hrun.
    rewrite findV2_blind; [reflexivity|].
    intros w Hw.
    set (i := pickedAxis (v :: vs) ex) in *.
    destruct (pickedAxis_spec (v :: vs) ex) as [Hi Hsep]. fold i in Hi, Hsep.
    assert (forall j, (j < 3)%nat ->
              separation (v :: vs) ex j <= 0 ->
              forall u1 u2, In u1 (v :: vs) -> In u2 (v :: vs) ->
                Vector3.getComponent (VertexNode.point u1) j
                == Vector3.getComponent (VertexNode.point u2) j) as Hflat.
    { intros j Hj Hs u1 u2 H1 H2.
      destruct (Hex j Hj) as (kmin & kmax & vmin & vmax & F1 & F2 & F3 & F4 & [_ L] & [_ G]).
      unfold separation, coord in Hs. rewrite F1, F2, F3, F4 in Hs.
      pose proof (L _ (coords_In j _ _ H1)). pose proof (G _ (coords_In j _ _ H1)).
      pose proof (L _ (coords_In j _ _ H2)). pose proof (G _ (coords_In j _ _ H2)).
      lra. }
    pose proof (lookup_In _ _ _ E3) as In0. pose proof (lookup_In _ _ _ E4) as In1.
    destruct Hsep as [[Hpos _]|Hall].
    + destruct (Hex i Hi) as (kmin & kmax & vmin & vmax & F1 & F2 & F3 & F4 & [_ L] & [_ G]).
      assert (kmin = v0) as -> by congruence. assert (kmax = v1) as -> by congruence.
      assert (vmin = n0) as -> by congruence. assert (vmax = n1) as -> by congruence.
      unfold separation, coord in Hpos. rewrite F1, F2, F3, F4 in Hpos.
      destruct (Hline (VertexNode.point n0)) as [t0 H0]; [now apply in_map|].
      destruct (Hline (VertexNode.point n1)) as [t1 H1]; [now apply in_map|].
      destruct (Hline (VertexNode.point w)) as [t Ht]; [now apply in_map|].
      destruct (segment_through _ _ _ a d t0 t1 t i Hi H0 H1 Ht Hpos) as (q & -> & Hq).
      { split; [apply L | apply G]; now apply coords_In. }
      cbn [Num.nan_gtb]. apply gtb_false. lra.
    + rewrite segment_degenerate_veq; [reflexivity|].
      repeat split.
      * apply (Hflat 0%nat); auto.
      * apply (Hflat 1%nat); auto.
      * apply (Hflat 2%nat); auto.
Qed.

Lemma map_point_new points : map VertexNode.point (map VertexNode.new points) = points.
Proof. induction points as [|p l IH]; simpl; congruence. Qed.

Lemma findV3_never_undefined plane v0 v1 v2 (vs : list VertexNode.t) :
  (4 <= length vs)%nat -> findV3 plane v0 v1 v2 vs 0 (-1) None <> None.
Proof.
  intros Hlen.
  assert (exists k, (k < 4)%nat /\ k <> v0 /\ k <> v1 /\ k <> v2) as (k & Hk & H0 & H1 & H2).
  { assert ((0 <> v0 /\ 0 <> v1 /\ 0 <> v2) \/ (1 <> v0 /\ 1 <> v1 /\ 1 <> v2) \/
            (2 <> v0 /\ 2 <> v1 /\ 2 <> v2) \/ (3 <> v0 /\ 3 <> v1 /\ 3 <> v2))%nat
      as Hd by lia.
    destruct Hd as [H|[H|[H|H]]];
      [exists 0%nat | exists 1%nat | exists 2%nat | exists 3%nat]; (split; [lia|]);
      destruct H as (? & ? & ?); auto. }
  destruct (findV3_found plane v0 v1 v2 vs 0%nat (-1) None k) as [b Hb];
    [lra | lia | assumption | assumption | assumption |].
  rewrite Hb. discriminate.
Qed.

(** Points on one line, with numbers that do not round: no vertex has a
    positive distance from the segment [v0 v1], [v2] stays [undefined], and
    the build stops with a [TypeError] where [v2.point] is read, before any
    face exists.  The distances are exact here; where they are rounded, a
    vertex on the line can be found at a small positive distance, and the
    build then goes on.  The scan for [v3] starts from [-1] and finds a
    fourth vertex whenever the distances it compares are numbers. *)
Theorem setFromPoints_collinear (sqrt : Q -> Q) (points : list Vector3.t) (h : hull) :
  collinear points ->
  let o := snd (setFromPoints sqrt points h) in
  (reportOf o = Crash TypeError /\
   faces (final o) = [] /\ faceHeap (final o) = [] /\ edgeHeap (final o) = []) /\
  (forall plane v0 v1 v2 (vs : list VertexNode.t),
     (4 <= length vs)%nat -> findV3 plane v0 v1 v2 vs 0 (-1) None <> None).
Proof.
  intros Hcol o. subst o. split; [|apply findV3_never_undefined].
  rewrite setFromPoints_prepared.
  destruct (collinear_no_v2 sqrt (prepared points h)) as (h' & Hs & Hu).
  { unfold prepared. cbn [vertices]. now rewrite map_point_new. }
  rewrite (compute_stops _ _ _ Hs). cbn [reportOf final].
  destruct Hu as (F1 & F2 & F3 & _). rewrite F1, F2, F3. auto.
Qed.

Lemma fourInLine_collinear : collinear fourInLine.
Proof.
  exists (P 0 0 0), (P 1 0 0). intros p Hp. unfold fourInLine in Hp. simpl in Hp.
  destruct Hp as [<-|[<-|[<-|[<-|[]]]]];
    [exists 0 | exists 1 | exists 2 | exists 3]; repeat split; reflexivity.
Qed.

(** Four points of the x axis, for example. *)
Lemma setFromPoints_collinear_witness :
  collinear fourInLine /\
  reportOf (snd (setFromPoints Qsqrt fourInLine new)) = Crash TypeError /\
  faceHeap (final (snd (setFromPoints Qsqrt fourInLine new))) = [].
Proof.
  split; [exact fourInLine_collinear|].
  destruct (setFromPoints_collinear Qsqrt fourInLine new fourInLine_collinear)
    as [(H1 & _ & H2 & _) _].
  split; assumption.
Defined.


(** ** The build as a function of its input *)

(** The builder on the two polyhedra of the test scenarios: four faces for
    the tetrahedron, twelve for the cube, every corner contained. *)
Example tetrahedron_hull :
  let o := snd (setFromPoints Qsqrt tetrahedron new) in
  reportOf o = Built /\ length (faces (final o)) = 4%nat /\
  forallb (containsPoint (final o)) tetrahedron = true.
Proof. vm_compute. auto. Qed.

Example cube_hull :
  let o := snd (setFromPoints Qsqrt cube new) in
  reportOf o = Built /\ length (faces (final o)) = 12%nat /\
  forallb (containsPoint (final o)) cube = true.
Proof. vm_compute. auto. Qed.

Lemma bind_Ok_inv {A B} (c : M A) (k : A -> M B) h b h' :
  bind c k h = Ok b h' -> exists a h0, c h = Ok a h0 /\ k a h0 = Ok b h'.
Proof.
  unfold bind. destruct (c h) as [a h0|e h0]; [eauto|discriminate].
Qed.

Lemma compute_clean sqrt h h' : compute sqrt h = Ok tt h' -> clean h'.
Proof.
  unfold compute. intros H.
  apply bind_Ok_inv in H as (? & h1 & _ & H).
  apply bind_Ok_inv in H as (? & h2 & _ & H).
  apply bind_Ok_inv in H as (? & h3 & _ & H).
  apply bind_Ok_inv in H as (? & h4 & _ & H).
  injection H as <-. repeat split.
Qed.

Lemma computeExtremes_any_tolerance q h v vs :
  vertices h = v :: vs ->
  computeExtremes (set_tolerance q h) = computeExtremes h.
Proof.
  intros Hv.
  rewrite (computeExtremes_ok h v vs Hv).
  rewrite (computeExtremes_ok (set_tolerance q h) v vs Hv). reflexivity.
Qed.

Lemma compute_any_tolerance sqrt q h :
  vertices h <> [] -> compute sqrt (set_tolerance q h) = compute sqrt h.
Proof.
  intros Hne. destruct (vertices h) as [|v vs] eqn:Hv; [congruence|].
  unfold compute, computeInitialHull, initialSimplex.
  unfold bind at 1 2 3 4. unfold bind at 5 6 7 8. cbn [gets].
  cbn [vertices set_tolerance].
  rewrite (computeExtremes_any_tolerance q h v vs Hv). reflexivity.
Qed.

(** Run on any two hulls that are clean (new, or left by an earlier build),
    the same points give the same console output, the same kind of result,
    and the same faces, half-edges and vertices in the same order; unless
    there are no points at all, the two hulls end in the same state.  A
    build that returns leaves the hull clean, ready for the next one. *)
Lemma setFromPoints_clean_hulls (sqrt : Q -> Q) (points : list Vector3.t)
  (h1 h2 : hull) :
  clean h1 -> clean h2 ->
  let r1 := setFromPoints sqrt points h1 in
  let r2 := setFromPoints sqrt points h2 in
  fst r1 = fst r2 /\
  reportOf (snd r1) = reportOf (snd r2) /\
  faces (final (snd r1)) = faces (final (snd r2)) /\
  faceHeap (final (snd r1)) = faceHeap (final (snd r2)) /\
  edgeHeap (final (snd r1)) = edgeHeap (final (snd r2)) /\
  vertices (final (snd r1)) = vertices (final (snd r2)) /\
  (points <> [] -> snd r1 = snd r2) /\
  (reportOf (snd r1) = Built -> clean (final (snd r1))).
Proof.
  intros (A1 & U1 & N1) (A2 & U2 & N2) r1 r2. subst r1 r2.
  split; [reflexivity|]. rewrite !setFromPoints_prepared.
  assert (forall h, clean h ->
            prepared points h = set_tolerance (tolerance h) (prepared points new)) as Hp.
  { intros h (A & U & N). unfold prepared, set_tolerance. cbn. now rewrite A, U, N. }
  assert (reportOf (compute sqrt (prepared points h1)) = Built ->
          clean (final (compute sqrt (prepared points h1)))) as Hclean.
  { destruct (compute sqrt (prepared points h1)) as [[] h'|e h'] eqn:E; [|discriminate].
    intros _. now apply (compute_clean sqrt (prepared points h1)). }
  rewrite (Hp h1), (Hp h2) in * by (repeat split; assumption).
  destruct points as [|p points].
  - assert (forall q, compute sqrt (set_tolerance q (prepared [] new))
                      = Throw TypeError (set_tolerance q (prepared [] new))) as Hstop.
    { intros q. apply compute_stops, initialSimplex_empty. reflexivity. }
    rewrite !Hstop in *. cbn. repeat split; congruence.
  - rewrite !compute_any_tolerance in * by discriminate.
    repeat split; auto; now apply Hclean.
Qed.

(** ** The choice of the eye vertex *)

Lemma getFace_Ok h f fa : faceHeap h !! f = Some fa -> getFace f h = Ok fa h.
Proof. intros H. unfold getFace, bind, gets, deref. rewrite H. reflexivity. Qed.

Lemma option_nat_eqb_true a b : option_nat_eqb a b = true <-> a = b.
Proof.
  destruct a, b; simpl; split; try congruence; try discriminate.
  - intros H. apply Nat.eqb_eq in H. congruence.
  - intros [= ->]. apply Nat.eqb_refl.
Qed.

Lemma outsideRun_functional vs f v l1 :
  outsideRun vs f v l1 -> forall l2, outsideRun vs f v l2 -> l1 = l2.
Proof.
  induction 1 as [v n E1 E2|v n v' n' E1 E2 E3 E4|v n v' n' l E1 E2 E3 E4 Hr IH];
    intros l2 H2; inversion H2; subst; try congruence.
  - assert (v' = v'0) as -> by congruence. f_equal. now apply IH.
Qed.

Lemma outsideRun_head vs f v l : outsideRun vs f v l -> exists l', l = v :: l'.
Proof. destruct 1; eauto. Qed.

Lemma outsideRun_suffix vs f v l :
  outsideRun vs f v l ->
  forall l1 u l2, l = l1 ++ u :: l2 -> outsideRun vs f u (u :: l2).
Proof.
  induction 1 as [v n E1 E2|v n v' n' E1 E2 E3 E4|v n v' n' l E1 E2 E3 E4 Hr IH];
    intros l1 u l2 Hl.
  - destruct l1 as [|a l1]; cbn in Hl.
    + injection Hl as ? ?; subst. now apply (run_end vs f u n).
    + injection Hl as ? Hl. destruct l1; discriminate.
  - destruct l1 as [|a l1]; cbn in Hl.
    + injection Hl as ? ?; subst. now apply (run_other vs f u n v' n').
    + injection Hl as ? Hl. destruct l1; discriminate.
  - destruct l1 as [|a l1]; cbn in Hl.
    + injection Hl as ? ?; subst. now apply (run_next vs f u n v' n').
    + injection Hl as ? Hl. now apply (IH l1 u l2).
Qed.

Lemma outsideRun_NoDup vs f v l : outsideRun vs f v l -> List.NoDup l.
Proof.
  intros Hr. destruct (ListDec.NoDup_dec Nat.eq_dec l) as [|Hdup]; [assumption|exfalso].
  assert (exists u l1 l2 l3, l = l1 ++ u :: l2 ++ u :: l3) as (u & l1 & l2 & l3 & Hl).
  { clear Hr. induction l as [|a l IH].
    - destruct Hdup. constructor.
    - destruct (in_dec Nat.eq_dec a l) as [Hin|Hnin].
      + apply in_split in Hin as (l2 & l3 & ->). exists a, [], l2, l3. reflexivity.
      + destruct IH as (u & l1 & l2 & l3 & ->).
        { intros Hnd. apply Hdup. now constructor. }
        exists u, (a :: l1), l2, l3. reflexivity. }
  pose proof (outsideRun_suffix _ _ _ _ Hr l1 u (l2 ++ u :: l3) Hl) as H1.
  assert (l = (l1 ++ u :: l2) ++ u :: l3) as Hl' by (rewrite Hl, <- app_assoc; reflexivity).
  pose proof (outsideRun_suffix _ _ _ _ Hr _ u l3 Hl') as H2.
  pose proof (outsideRun_functional _ _ _ _ H1 _ H2) as E.
  apply (f_equal (@length nat)) in E. cbn [length] in E.
  rewrite length_app in E. cbn [length] in E. lia.
Qed.

Lemma outsideRun_bound vs f v l :
  outsideRun vs f v l -> forall u, In u l -> (u < length vs)%nat.
Proof.
  induction 1 as [v n E1 E2|v n v' n' E1 E2 E3 E4|v n v' n' l E1 E2 E3 E4 Hr IH];
    intros u Hu.
  - destruct Hu as [<-|[]]. now apply lookup_lt_Some in E1.
  - destruct Hu as [<-|[]]. now apply lookup_lt_Some in E1.
  - destruct Hu as [<-|Hu]; [now apply lookup_lt_Some in E1 | now apply IH].
Qed.

Lemma outsideRun_length vs f v l : outsideRun vs f v l -> (length l <= length vs)%nat.
Proof.
  intros Hr.
  assert (length l <= length (seq 0 (length vs)))%nat as H.
  { apply List.NoDup_incl_length; [now apply (outsideRun_NoDup vs f v)|].
    intros u Hu. apply in_seq. pose proof (outsideRun_bound _ _ _ _ Hr u Hu). lia. }
  now rewrite List.length_seq in H.
Qed.

Lemma farthestOfFace_run h eyeFace fa :
  faceHeap h !! eyeFace = Some fa ->
  forall start l, outsideRun (vertices h) eyeFace start l ->
  forall fuel md ev, (length l <= fuel)%nat ->
    farthestOfFace fuel eyeFace (Some start) md ev h
    = Ok (pickFarthest (vertices h) fa l md ev) h.
Proof.
  intros Hf start l Hr.
  induction Hr as [v n E1 E2|v n v' n' E1 E2 E3 E4|v n v' n' l E1 E2 E3 E4 Hr IH];
    intros fuel md ev Hfuel; (destruct fuel as [|fuel]; [cbn [length] in Hfuel; lia|]);
    cbn [farthestOfFace pickFarthest];
    rewrite (bind_Ok _ _ _ _ _ (deref_Some v h));
    rewrite (bind_Ok _ _ _ _ _ (getVertex_Ok h v n E1));
    rewrite (bind_Ok _ _ _ _ _ (getFace_Ok h eyeFace fa Hf));
    unfold distanceOf; rewrite E1, E2.
  - destruct (Num.gtb _ _); reflexivity.
  - rewrite (bind_Ok _ _ _ _ _ (getVertex_Ok h v' n' E3)).
    assert (option_nat_eqb (VertexNode.face n') (Some eyeFace) = false) as ->.
    { destruct (option_nat_eqb _ _) eqn:E; auto. apply option_nat_eqb_true in E. contradiction. }
    destruct (Num.gtb _ _); reflexivity.
  - rewrite (bind_Ok _ _ _ _ _ (getVertex_Ok h v' n' E3)).
    assert (option_nat_eqb (VertexNode.face n') (Some eyeFace) = true) as ->
      by now apply option_nat_eqb_true.
    cbn [length] in Hfuel.
    destruct (Num.gtb _ _); rewrite IH by lia; reflexivity.
Qed.

Lemma pickFarthest_spec vs fa l : forall md ev,
  (pickFarthest vs fa l md ev = ev /\ forall u, In u l -> distanceOf vs fa u <= md) \/
  (exists eye, pickFarthest vs fa l md ev = Some eye /\ In eye l /\
               md < distanceOf vs fa eye /\
               forall u, In u l -> distanceOf vs fa u <= distanceOf vs fa eye).
Proof.
  induction l as [|a l IH]; intros md ev; cbn [pickFarthest].
  - left. split; [reflexivity|]. intros u [].
  - destruct (Num.gtb (distanceOf vs fa a) md) eqn:E.
    + apply gtb_true in E. right.
      destruct (IH (distanceOf vs fa a) (Some a)) as [[H1 H2]|(eye & H1 & H2 & H3 & H4)].
      * exists a. rewrite H1. split; [reflexivity|]. split; [now left|]. split; [exact E|].
        intros u [<-|Hu]; [apply Qle_refl | now apply H2].
      * exists eye. split; [exact H1|]. split; [now right|]. split; [lra|].
        intros u [<-|Hu]; [lra | now apply H4].
    + apply gtb_false in E.
      destruct (IH md ev) as [[H1 H2]|(eye & H1 & H2 & H3 & H4)].
      * left. split; [exact H1|]. intros u [<-|Hu]; [exact E | now apply H2].
      * right. exists eye. split; [exact H1|]. split; [now right|]. split; [exact H3|].
        intros u [<-|Hu]; [lra | now apply H4].
Qed.

(** When the assigned list is not empty, [nextVertexToAdd] looks only at the
    outside set of the face that owns the first entry of the list.  If the
    vertices of that set [l], the run of the list that starts at the face's
    [outside] vertex, lie farther out than the tolerance, it returns a vertex
    of the set whose distance from that face is the greatest within it. *)
Lemma farthest_in_run (h : hull) (first eyeFace start : nat)
  (n : VertexNode.t) (fa : Face.t) (l : list nat) :
  VertexList.first (assigned h) = Some first ->
  vertices h !! first = Some n -> VertexNode.face n = Some eyeFace ->
  faceHeap h !! eyeFace = Some fa -> Face.outside fa = Some start ->
  outsideRun (vertices h) eyeFace start l ->
  0 <= tolerance h ->
  (forall u, In u l -> tolerance h < distanceOf (vertices h) fa u) ->
  exists eye,
    nextVertexToAdd h = Ok (Some eye) h /\
    In eye l /\
    forall u, In u l -> distanceOf (vertices h) fa u <= distanceOf (vertices h) fa eye.
Proof.
  intros Hfirst Hn Hface Hfa Hout Hrun Htol Hsee.
  unfold nextVertexToAdd.
  rewrite (bind_Ok (gets assigned) _ h (assigned h) h eq_refl). rewrite Hfirst.
  rewrite (bind_Ok _ _ _ _ _ (getVertex_Ok h first n Hn)). rewrite Hface.
  rewrite (bind_Ok _ _ _ _ _ (deref_Some eyeFace h)).
  rewrite (bind_Ok _ _ _ _ _ (getFace_Ok h eyeFace fa Hfa)).
  rewrite (bind_Ok (gets (fun h => length (vertices h))) _ h (length (vertices h)) h eq_refl).
  rewrite Hout.
  rewrite (farthestOfFace_run h eyeFace fa Hfa start l Hrun).
  2:{ pose proof (outsideRun_length _ _ _ _ Hrun). lia. }
  destruct (pickFarthest_spec (vertices h) fa l 0 None) as [[_ H2]|(eye & H1 & H2 & _ & H4)].
  - exfalso. destruct (outsideRun_head _ _ _ _ Hrun) as [l' ->].
    specialize (H2 start (or_introl eq_refl)).
    specialize (Hsee start (or_introl eq_refl)). lra.
  - exists eye. rewrite H1. auto.
Qed.

(** ** The ledgers leave the mesh alone *)

Create HintDb frame.

Lemma frames_ret {A} (a : A) : frames (ret a).
Proof. intros h. reflexivity. Qed.

Lemma frames_throw {A} e : frames (@throw A e).
Proof. intros h. reflexivity. Qed.

Lemma frames_gets {A} (f : hull -> A) : frames (gets f).
Proof. intros h. reflexivity. Qed.

Lemma frames_deref {A} (o : option A) : frames (deref o).
Proof. intros h. destruct o; reflexivity. Qed.

Lemma frames_bind {A B} (c : M A) (k : A -> M B) :
  frames c -> (forall a, frames (k a)) -> frames (bind c k).
Proof.
  intros Hc Hk h. unfold bind. specialize (Hc h).
  destruct (c h) as [a h'|e h']; cbn [final] in *; [|exact Hc].
  rewrite (Hk a h'). exact Hc.
Qed.

Lemma frames_modify (g : hull -> hull) :
  (forall h, mesh (g h) = mesh h) -> frames (modify g).
Proof. intros Hg h. apply Hg. Qed.

Lemma frames_getVertex v : frames (getVertex v).
Proof. apply frames_bind; intros; [apply frames_gets | apply frames_deref]. Qed.

Lemma frames_getFace f : frames (getFace f).
Proof. apply frames_bind; intros; [apply frames_gets | apply frames_deref]. Qed.

Lemma frames_getEdge e : frames (getEdge e).
Proof. apply frames_bind; intros; [apply frames_gets | apply frames_deref]. Qed.

Lemma frames_modVertex v g : frames (modVertex v g).
Proof.
  apply frames_bind; intros; [apply frames_getVertex|].
  apply frames_modify. reflexivity.
Qed.

Lemma frames_modVertexAt o g : frames (modVertexAt o g).
Proof. apply frames_bind; intros; [apply frames_deref | apply frames_modVertex]. Qed.

Lemma map_insert_same {A B} (g : A -> B) (l : list A) i x y :
  l !! i = Some x -> g y = g x -> map g (<[i := y]> l) = map g l.
Proof.
  revert i. induction l as [|a l IH]; intros [|i] Hi Hg; try discriminate; cbn.
  - injection Hi as ->. now rewrite Hg.
  - f_equal. now apply IH.
Qed.

Lemma frames_set_outside f o : frames (modFace f (Face.set_outside o)).
Proof.
  intros h. unfold modFace, getFace, bind, gets, deref.
  destruct (faceHeap h !! f) as [x|] eqn:E; [|reflexivity].
  cbn [final modify]. unfold mesh. cbn [tolerance edgeHeap faceHeap set_faceHeap].
  f_equal. now apply map_insert_same with (x := x).
Qed.

Lemma frames_setHead L o :
  (forall l h, mesh (lset L l h) = mesh h) -> frames (setHead L o).
Proof. intros HL. apply frames_modify. intros h. apply HL. Qed.

Lemma frames_setTail L o :
  (forall l h, mesh (lset L l h) = mesh h) -> frames (setTail L o).
Proof. intros HL. apply frames_modify. intros h. apply HL. Qed.

Lemma assignedL_mesh l h : mesh (lset assignedL l h) = mesh h.
Proof. reflexivity. Qed.

Lemma unassignedL_mesh l h : mesh (lset unassignedL l h) = mesh h.
Proof. reflexivity. Qed.

#[local] Hint Resolve frames_ret frames_throw frames_gets frames_deref frames_getVertex
  frames_getFace frames_getEdge frames_modVertex frames_modVertexAt frames_set_outside
  frames_setHead frames_setTail assignedL_mesh unassignedL_mesh : frame.

(** Breaks a computation into its steps and closes each with the database. *)
Ltac frame_step :=
  repeat first
    [ solve [eauto with frame]
    | match goal with
      | |- frames (match ?o with _ => _ end) => destruct o
      | |- frames (if ?b then _ else _) => destruct b
      end
    | apply frames_bind; [|intros ?] ].

Lemma frames_append L v :
  (forall l h, mesh (lset L l h) = mesh h) -> frames (VertexList_append L v).
Proof. intros HL. unfold VertexList_append. frame_step. Qed.

Lemma frames_insertBefore L t v :
  (forall l h, mesh (lset L l h) = mesh h) -> frames (VertexList_insertBefore L t v).
Proof. intros HL. unfold VertexList_insertBefore. frame_step. Qed.

Lemma frames_remove L v :
  (forall l h, mesh (lset L l h) = mesh h) -> frames (VertexList_remove L v).
Proof. intros HL. unfold VertexList_remove. frame_step. Qed.

Lemma frames_removeSubList L a b :
  (forall l h, mesh (lset L l h) = mesh h) -> frames (VertexList_removeSubList L a b).
Proof. intros HL. unfold VertexList_removeSubList. frame_step. Qed.

Lemma frames_lastOfChain fuel : forall v, frames (lastOfChain fuel v).
Proof.
  induction fuel as [|fuel IH]; intros v; cbn [lastOfChain]; frame_step.
Qed.

Lemma frames_appendChain L v :
  (forall l h, mesh (lset L l h) = mesh h) -> frames (VertexList_appendChain L v).
Proof.
  intros HL. unfold VertexList_appendChain.
  pose proof frames_lastOfChain. frame_step.
Qed.

Lemma frames_clear L :
  (forall l h, mesh (lset L l h) = mesh h) -> frames (VertexList_clear L).
Proof. intros HL. apply frames_modify. intros h. apply HL. Qed.

#[local] Hint Resolve frames_append frames_insertBefore frames_remove frames_removeSubList
  frames_appendChain frames_clear : frame.

Lemma frames_addVertexToFace v f : frames (addVertexToFace v f).
Proof.
  unfold addVertexToFace. frame_step.
Qed.

Lemma frames_removeVertexFromFace v o : frames (removeVertexFromFace v o).
Proof. unfold removeVertexFromFace. frame_step. Qed.

Lemma frames_lastOfFace fuel f : forall v, frames (lastOfFace fuel f v).
Proof.
  induction fuel as [|fuel IH]; intros v; cbn [lastOfFace]; frame_step.
Qed.

#[local] Hint Resolve frames_addVertexToFace frames_removeVertexFromFace
  frames_lastOfFace : frame.

Lemma frames_removeAllVerticesFromFace f : frames (removeAllVerticesFromFace f).
Proof. unfold removeAllVerticesFromFace. frame_step. Qed.

Lemma frames_absorbVertices fuel f : forall v, frames (absorbVertices fuel f v).
Proof.
  induction fuel as [|fuel IH]; intros v; cbn [absorbVertices]; frame_step.
Qed.

#[local] Hint Resolve frames_removeAllVerticesFromFace frames_absorbVertices : frame.

Lemma frames_deleteFaceVertices f o : frames (deleteFaceVertices f o).
Proof. unfold deleteFaceVertices. frame_step. Qed.

Lemma frames_scanNewFaces fs : forall p md mf, frames (scanNewFaces fs p md mf).
Proof.
  induction fs as [|f fs IH]; intros p md mf; cbn [scanNewFaces]; frame_step.
Qed.

#[local] Hint Resolve frames_deleteFaceVertices frames_scanNewFaces : frame.

Lemma frames_resolveLoop fuel fs : forall v, frames (resolveLoop fuel fs v).
Proof.
  induction fuel as [|fuel IH]; intros v; cbn [resolveLoop]; frame_step.
Qed.

#[local] Hint Resolve frames_resolveLoop : frame.

Lemma frames_resolveUnassignedPoints fs : frames (resolveUnassignedPoints fs).
Proof. unfold resolveUnassignedPoints. frame_step. Qed.

Lemma frames_assignInitial v : frames (assignInitial v).
Proof. unfold assignInitial. frame_step. Qed.

(** ** The doubly connected edge list: checks and consequences *)

Lemma visibleb_true h f : visibleb h f = true <-> visible h f.
Proof.
  unfold visibleb, visible, fmark. destruct (faceHeap h !! f) as [fa|]; cbn.
  - destruct (Face.mark fa); cbn; split; congruence.
  - split; discriminate.
Qed.

Lemma edgeAt_true h f i :
  edgeAt h f i = true ->
  exists he, edgeHeap h !! (3 * f + i)%nat = Some he /\ HalfEdge.face he = f /\
             HalfEdge.next he = Some (3 * f + (i + 1) mod 3)%nat /\
             HalfEdge.prev he = Some (3 * f + (i + 2) mod 3)%nat.
Proof.
  unfold edgeAt. destruct (edgeHeap h !! _) as [he|]; [|discriminate].
  rewrite !andb_true_iff, Nat.eqb_eq, !option_nat_eqb_true.
  intros [[H1 H2] H3]. eauto.
Qed.

Lemma layoutb_sound h : layoutb h = true -> layout h.
Proof.
  unfold layoutb. rewrite andb_true_iff, Nat.eqb_eq, forallb_forall.
  intros [Hlen Hall]. split; [exact Hlen|].
  intros f fa Hf.
  assert (In f (seq 0 (length (faceHeap h)))) as Hin.
  { apply in_seq. apply lookup_lt_Some in Hf. lia. }
  specialize (Hall f Hin). rewrite Hf in Hall.
  rewrite !andb_true_iff, option_nat_eqb_true in Hall.
  destruct Hall as [[[H0 H1] H2] H3]. split; [exact H0|].
  intros [|[|[|i]]] Hi; try lia; now apply edgeAt_true.
Qed.

Lemma twinnedb_sound h : twinnedb h = true -> twinned h.
Proof.
  unfold twinnedb. rewrite forallb_forall. intros Hall e he He Hvis.
  assert (In e (seq 0 (length (edgeHeap h)))) as Hin.
  { apply in_seq. apply lookup_lt_Some in He. lia. }
  specialize (Hall e Hin). rewrite He in Hall.
  apply visibleb_true in Hvis. rewrite Hvis in Hall. cbn [negb orb] in Hall.
  destruct (HalfEdge.twin he) as [t|]; [|discriminate].
  destruct (edgeHeap h !! t) as [ht|] eqn:Ht; [|discriminate].
  rewrite andb_true_iff, option_nat_eqb_true, visibleb_true in Hall.
  destruct Hall. eauto 6.
Qed.

Lemma dcelb_sound h : dcelb h = true -> dcel h.
Proof.
  unfold dcelb. rewrite andb_true_iff. intros [H1 H2].
  split; [now apply layoutb_sound | now apply twinnedb_sound].
Qed.

(** Every half-edge is one of the three of its face. *)
Lemma layout_edge h e he :
  layout h -> edgeHeap h !! e = Some he ->
  exists f fa i, (i < 3)%nat /\ e = (3 * f + i)%nat /\ faceHeap h !! f = Some fa /\
                 HalfEdge.face he = f /\
                 HalfEdge.next he = Some (3 * f + (i + 1) mod 3)%nat /\
                 HalfEdge.prev he = Some (3 * f + (i + 2) mod 3)%nat.
Proof.
  intros [Hlen Hl] He.
  pose proof (lookup_lt_Some _ _ _ He) as Hlt. rewrite Hlen in Hlt.
  pose proof (Nat.div_mod_eq e 3) as Hdm.
  pose proof (Nat.mod_upper_bound e 3 ltac:(lia)) as Hm.
  assert (e / 3 < length (faceHeap h))%nat as Hf by lia.
  destruct (lookup_lt_is_Some_2 _ _ Hf) as [fa Hfa].
  destruct (Hl _ _ Hfa) as [_ Hi]. destruct (Hi (e mod 3)%nat Hm) as (he' & E1 & E2 & E3 & E4).
  rewrite <- Hdm in E1. assert (he' = he) as -> by congruence.
  exists (e / 3)%nat, fa, (e mod 3)%nat. auto 10.
Qed.

Lemma layout_triangles h : layout h -> triangles h.
Proof.
  intros Hl e he He.
  destruct (layout_edge h e he Hl He) as (f & fa & i & Hi & -> & Hfa & Hface & Hn & _).
  destruct Hl as [_ Hl]. destruct (Hl _ _ Hfa) as [_ Hcyc].
  destruct (Hcyc ((i + 1) mod 3)%nat) as (h1 & A1 & A2 & A3 & _);
    [apply Nat.mod_upper_bound; lia|].
  destruct (Hcyc ((i + 2) mod 3)%nat) as (h2 & B1 & B2 & B3 & _);
    [apply Nat.mod_upper_bound; lia|].
  exists (3 * f + (i + 1) mod 3)%nat, (3 * f + (i + 2) mod 3)%nat, h1, h2.
  destruct i as [|[|[|i]]]; try lia; cbn in *; repeat split; auto; try congruence; lia.
Qed.

Lemma dcel_closed h : dcel h -> involution h /\ triangles h.
Proof.
  intros [Hl Ht]. split; [|now apply layout_triangles].
  intros e he He Hv. destruct (Ht e he He Hv) as (t & ht & ? & ? & ? & _). eauto.
Qed.

(** ** Reading the hull, and creating a face *)

Create HintDb reads.

Lemma reads_ret {A} (a : A) : reads (ret a).
Proof. intros h b h' [= _ <-]. reflexivity. Qed.
Lemma reads_gets {A} (f : hull -> A) : reads (gets f).
Proof. intros h b h' [= _ <-]. reflexivity. Qed.
Lemma reads_deref {A} (o : option A) : reads (deref o).
Proof. intros h b h'. destruct o; [intros [= _ <-]; reflexivity | discriminate]. Qed.
Lemma reads_bind {A B} (c : M A) (k : A -> M B) :
  reads c -> (forall a, reads (k a)) -> reads (bind c k).
Proof.
  intros Hc Hk h b h' H. apply bind_Ok_inv in H as (a & h0 & E1 & E2).
  apply Hc in E1 as ->. now apply Hk in E2.
Qed.
#[local] Hint Resolve reads_ret reads_gets reads_deref : reads.

Ltac reads_step :=
  repeat first
    [ solve [eauto with reads]
    | match goal with
      | |- reads (match ?o with _ => _ end) => destruct o
      | |- reads (if ?b then _ else _) => destruct b
      end
    | apply reads_bind; [|intros ?] ].

Lemma reads_getVertex v : reads (getVertex v).
Proof. unfold getVertex. reads_step. Qed.
Lemma reads_getFace v : reads (getFace v).
Proof. unfold getFace. reads_step. Qed.
Lemma reads_getEdge v : reads (getEdge v).
Proof. unfold getEdge. reads_step. Qed.
#[local] Hint Resolve reads_getVertex reads_getFace reads_getEdge : reads.
Lemma reads_pointOf v : reads (pointOf v).
Proof. unfold pointOf. reads_step. Qed.
Lemma reads_head e : reads (HalfEdge_head e).
Proof. unfold HalfEdge_head. reads_step. Qed.
Lemma reads_tail e : reads (HalfEdge_tail e).
Proof. unfold HalfEdge_tail. reads_step. Qed.
#[local] Hint Resolve reads_pointOf reads_head reads_tail : reads.

Lemma bind_read_inv {A B} (c : M A) (k : A -> M B) h b h' :
  reads c -> bind c k h = Ok b h' -> exists a, c h = Ok a h /\ k a h = Ok b h'.
Proof.
  intros Hc H. apply bind_Ok_inv in H as (a & h0 & E1 & E2).
  pose proof (Hc _ _ _ E1) as ->. eauto.
Qed.

Ltac inv_read H a E :=
  apply bind_read_inv in H as (a & E & H); [|solve [eauto with reads]].

Lemma getEdge_inv h e he h' : getEdge e h = Ok he h' -> edgeHeap h !! e = Some he /\ h' = h.
Proof. unfold getEdge, bind, gets, deref. destruct (edgeHeap h !! e); intros [= <- <-]; auto. Qed.
Lemma getFace_inv h e he h' : getFace e h = Ok he h' -> faceHeap h !! e = Some he /\ h' = h.
Proof. unfold getFace, bind, gets, deref. destruct (faceHeap h !! e); intros [= <- <-]; auto. Qed.
Lemma getVertex_inv h e he h' : getVertex e h = Ok he h' -> vertices h !! e = Some he /\ h' = h.
Proof. unfold getVertex, bind, gets, deref. destruct (vertices h !! e); intros [= <- <-]; auto. Qed.
Lemma deref_inv {A} (o : option A) h a h' : deref o h = Ok a h' -> o = Some a /\ h' = h.
Proof. destruct o; cbn; [intros [= <- <-]; auto | discriminate]. Qed.

Lemma getEdge_Ok h e he : edgeHeap h !! e = Some he -> getEdge e h = Ok he h.
Proof. intros H. unfold getEdge, bind, gets, deref. rewrite H. reflexivity. Qed.

Lemma modEdge_Ok h e g x :
  edgeHeap h !! e = Some x ->
  modEdge e g h = Ok tt (set_edgeHeap (<[e := g x]> (edgeHeap h)) h).
Proof. intros H. unfold modEdge. rewrite (bind_Ok _ _ _ _ _ (getEdge_Ok h e x H)). reflexivity. Qed.

Lemma modEdge_inv h e g u h' :
  modEdge e g h = Ok u h' ->
  exists x, edgeHeap h !! e = Some x /\ h' = set_edgeHeap (<[e := g x]> (edgeHeap h)) h.
Proof.
  unfold modEdge. intros H. apply bind_Ok_inv in H as (x & h0 & E1 & E2).
  apply getEdge_inv in E1 as [E1 ->]. injection E2 as <-. eauto.
Qed.

Lemma modFace_inv h f g u h' :
  modFace f g h = Ok u h' ->
  exists x, faceHeap h !! f = Some x /\ h' = set_faceHeap (<[f := g x]> (faceHeap h)) h.
Proof.
  unfold modFace. intros H. apply bind_Ok_inv in H as (x & h0 & E1 & E2).
  apply getFace_inv in E1 as [E1 ->]. injection E2 as <-. eauto.
Qed.

Lemma modEdge_app h E R k g x :
  edgeHeap h = E ++ R -> R !! k = Some x ->
  modEdge (length E + k) g h = Ok tt (set_edgeHeap (E ++ <[k := g x]> R) h).
Proof.
  intros HE Hk. rewrite (modEdge_Ok h _ g x).
  - rewrite HE, insert_app_r. reflexivity.
  - rewrite HE, lookup_app_r by lia. now replace (length E + k - length E)%nat with k by lia.
Qed.

Lemma Face_compute_Ok sqrt f h r h' :
  Face_compute sqrt f h = Ok r h' ->
  r = f /\ exists x n m a c,
    faceHeap h !! f = Some x /\
    h' = set_faceHeap (<[f := Face.set_plane n m a c x]> (faceHeap h)) h.
Proof.
  unfold Face_compute. intros H.
  inv_read H fa E0. inv_read H e E1. inv_read H a E2. inv_read H b E3.
  inv_read H he E4. inv_read H en E5. inv_read H c E6. inv_read H a' E7.
  inv_read H pa E8. inv_read H pb E9. inv_read H pc E10.
  apply bind_Ok_inv in H as (u & h1 & H1 & H2). injection H2 as <- <-.
  apply modFace_inv in H1 as (x & Hx & ->). split; [reflexivity|]. eauto 10.
Qed.

Lemma Face_create_Ok sqrt a b c h f h' :
  Face_create sqrt a b c h = Ok f h' ->
  let e0 := length (edgeHeap h) in
  f = length (faceHeap h) /\
  exists fa, Face.mark fa = Visible /\ Face.edge fa = Some e0 /\ Face.outside fa = None /\
    h' = set_faceHeap (faceHeap h ++ [fa])
           (set_edgeHeap (edgeHeap h ++
              [HalfEdge.mk a (Some (e0 + 2)%nat) (Some (e0 + 1)%nat) None f;
               HalfEdge.mk b (Some e0) (Some (e0 + 2)%nat) None f;
               HalfEdge.mk c (Some (e0 + 1)%nat) (Some e0) None f]) h).
Proof.
  intros H e0. unfold Face_create in H.
  set (F := faceHeap h) in *. set (E := edgeHeap h) in *.
  set (ff := length F) in *.
  pose (hA := set_edgeHeap (E ++ [HalfEdge.new a ff; HalfEdge.new b ff; HalfEdge.new c ff])
                (set_faceHeap (F ++ [Face.new]) h)).
  assert (forall (k : nat -> nat -> nat -> nat -> M nat),
     (let* face := allocFace in let* x0 := allocEdge a face in
      let* x1 := allocEdge b face in let* x2 := allocEdge c face in k face x0 x1 x2) h
     = k ff (e0 + 0)%nat (e0 + 1)%nat (e0 + 2)%nat hA) as Halloc.
  { intros k. unfold bind, allocFace, allocEdge. cbn.
    fold F E ff e0. rewrite !length_app. cbn [length]. fold e0.
    replace (e0 + 1 + 1)%nat with (e0 + 2)%nat by lia. rewrite Nat.add_0_r.
    f_equal. unfold hA. destruct h; cbn. fold E. rewrite <- !app_assoc. reflexivity. }
  rewrite Halloc in H. clear Halloc.
  do 6 (erewrite (bind_Ok (modEdge _ _)) in H
          by (eapply (modEdge_app _ E); reflexivity);
        cbn [list_insert insert set_edgeHeap edgeHeap] in H).
  apply bind_Ok_inv in H as (u & h1 & H1 & H2).
  apply modFace_inv in H1 as (x & Hx & ->).
  apply Face_compute_Ok in H2 as (-> & y & n & m & ar & cc & Hy & ->).
  split; [reflexivity|].
  cbn [faceHeap set_faceHeap set_edgeHeap hA] in Hx, Hy |- *.
  fold F in Hx, Hy |- *. unfold ff in Hx, Hy.
  rewrite list_lookup_middle in Hx by reflexivity. injection Hx as <-.
  rewrite (insert_app_r_alt F _ (length F)) in Hy |- * by lia.
  rewrite Nat.sub_diag in Hy |- *. cbn [list_insert insert] in Hy |- *.
  rewrite list_lookup_middle in Hy by reflexivity. injection Hy as <-.
  rewrite (insert_app_r_alt F _ (length F)) by lia.
  rewrite Nat.sub_diag. cbn [list_insert insert].
  exists (Face.set_plane n m ar cc (Face.set_edge (Some e0) Face.new)).
  split; [reflexivity|]. split; [reflexivity|]. split; [reflexivity|].
  unfold hA, e0, E, F. destruct h. cbn. rewrite !Nat.add_0_r. reflexivity.
Qed.

(** ** The mesh is all the invariants depend on *)

Lemma map_lookup_Some {A B} (g : A -> B) (l : list A) i y :
  map g l !! i = Some y -> exists x, l !! i = Some x /\ g x = y.
Proof.
  revert i. induction l as [|a l IH]; intros [|i] H; try discriminate; cbn in *.
  - injection H as <-. eauto.
  - now apply IH.
Qed.

Lemma map_lookup {A B} (g : A -> B) (l : list A) i x :
  l !! i = Some x -> map g l !! i = Some (g x).
Proof.
  revert i. induction l as [|a l IH]; intros [|i] H; try discriminate; cbn in *.
  - now injection H as <-.
  - now apply IH.
Qed.

Lemma mesh_face h h' f fa :
  mesh h = mesh h' -> faceHeap h !! f = Some fa ->
  exists fa', faceHeap h' !! f = Some fa' /\
    Face.mark fa' = Face.mark fa /\ Face.edge fa' = Face.edge fa /\
    Face.normal fa' = Face.normal fa /\ Face.constant fa' = Face.constant fa.
Proof.
  unfold mesh. intros [= _ _ Hm] Hf.
  apply (map_lookup (Face.set_outside None)) in Hf. rewrite Hm in Hf.
  apply map_lookup_Some in Hf as (fa' & Hf' & E).
  exists fa'. split; [exact Hf'|].
  destruct fa, fa'. cbn in E. injection E as -> -> -> -> -> ->. auto.
Qed.

Lemma mesh_edges h h' : mesh h = mesh h' -> edgeHeap h' = edgeHeap h.
Proof. unfold mesh. now intros [= _ -> _]. Qed.

Lemma mesh_tolerance h h' : mesh h = mesh h' -> tolerance h' = tolerance h.
Proof. unfold mesh. now intros [= -> _ _]. Qed.

Lemma mesh_length h h' : mesh h = mesh h' -> length (faceHeap h') = length (faceHeap h).
Proof.
  unfold mesh. intros [= _ _ Hm]. apply (f_equal (@length _)) in Hm.
  now rewrite !length_map in Hm.
Qed.

Lemma mesh_fmark h h' f : mesh h = mesh h' -> fmark h' f = fmark h f.
Proof.
  intros Hm. unfold fmark.
  destruct (faceHeap h !! f) as [fa|] eqn:E.
  - destruct (mesh_face h h' f fa Hm E) as (fa' & E' & Em & _).
    rewrite E'. cbn. now rewrite Em.
  - destruct (faceHeap h' !! f) as [fa'|] eqn:E'; [|reflexivity].
    destruct (mesh_face h' h f fa' (eq_sym Hm) E') as (fa & Hfa & _). congruence.
Qed.

Lemma mesh_sees h h' eye f : mesh h = mesh h' -> sees h' eye f = sees h eye f.
Proof.
  intros Hm. unfold sees. rewrite (mesh_tolerance h h' Hm).
  destruct (faceHeap h !! f) as [fa|] eqn:E.
  - destruct (mesh_face h h' f fa Hm E) as (fa' & E' & _ & _ & En & Ec).
    rewrite E'. unfold Face.distanceToPoint. now rewrite En, Ec.
  - destruct (faceHeap h' !! f) as [fa'|] eqn:E'; [|reflexivity].
    destruct (mesh_face h' h f fa' (eq_sym Hm) E') as (fa & Hfa & _). congruence.
Qed.

Lemma mesh_layout h h' : mesh h = mesh h' -> layout h -> layout h'.
Proof.
  intros Hm [Hlen Hl]. split.
  - now rewrite (mesh_edges _ _ Hm), (mesh_length _ _ Hm).
  - intros f fa' Hf'.
    destruct (mesh_face h' h f fa' (eq_sym Hm) Hf') as (fa & Hfa & _ & He & _).
    destruct (Hl f fa Hfa) as [H1 H2]. rewrite (mesh_edges _ _ Hm). split; [congruence|exact H2].
Qed.

Lemma mesh_twinned h h' : mesh h = mesh h' -> twinned h -> twinned h'.
Proof.
  intros Hm Ht e he He Hv. rewrite (mesh_edges _ _ Hm) in *.
  unfold visible in *. rewrite (mesh_fmark _ _ _ Hm) in Hv.
  destruct (Ht e he He Hv) as (t & ht & ? & ? & ? & ?).
  exists t, ht. rewrite (mesh_fmark _ _ _ Hm). auto.
Qed.

Lemma mesh_dcel h h' : mesh h = mesh h' -> dcel h -> dcel h'.
Proof. intros Hm [H1 H2]. split; [eapply mesh_layout | eapply mesh_twinned]; eauto. Qed.

Lemma frames_forM {A} (l : list A) (f : A -> M unit) :
  (forall a, frames (f a)) -> frames (forM l f).
Proof.
  intros Hf. induction l as [|a l IH]; cbn [forM].
  - apply frames_ret.
  - apply frames_bind; auto.
Qed.

Lemma frames_Ok {A} (c : M A) h a h' : frames c -> c h = Ok a h' -> mesh h' = mesh h.
Proof. intros Hc H. specialize (Hc h). now rewrite H in Hc. Qed.

Lemma initialSimplex_heaps sqrt h s h' :
  initialSimplex sqrt h = Ok s h' ->
  faceHeap h' = faceHeap h /\ edgeHeap h' = edgeHeap h.
Proof.
  intros H. destruct (vertices h) as [|v vs] eqn:Hv.
  - rewrite initialSimplex_empty in H by assumption. discriminate.
  - destruct (initialSimplex_run sqrt h v vs Hv)
      as (mn & mx & ex & v0 & v1 & n0 & n1 & _ & _ & _ & _ & _ & Hrun).
    cbv zeta in Hrun. rewrite Hrun in H.
    destruct (findV2 _ _ _ _ _ _ _); [|discriminate].
    destruct (_ !! _); [|discriminate]. cbv zeta in H.
    destruct (findV3 _ _ _ _ _ _ _ _); [|discriminate].
    injection H as _ <-. auto.
Qed.

Lemma buildTetrahedron_dcel sqrt s h fs h' :
  faceHeap h = [] -> edgeHeap h = [] ->
  buildTetrahedron sqrt s h = Ok fs h' -> dcelb h' = true.
Proof.
  intros HF HE H. unfold buildTetrahedron in H. cbv zeta in H.
  inv_read H p3 E3.
  destruct (Num.ltb _ _).
  - apply bind_Ok_inv in H as (f0 & h0 & C0 & H).
    apply Face_create_Ok in C0 as (-> & fa0 & M0 & D0 & O0 & ->).
    apply bind_Ok_inv in H as (f1 & h1 & C1 & H).
    apply Face_create_Ok in C1 as (-> & fa1 & M1 & D1 & O1 & ->).
    apply bind_Ok_inv in H as (f2 & h2 & C2 & H).
    apply Face_create_Ok in C2 as (-> & fa2 & M2 & D2 & O2 & ->).
    apply bind_Ok_inv in H as (f3 & h3 & C3 & H).
    apply Face_create_Ok in C3 as (-> & fa3 & M3 & D3 & O3 & ->).
    cbn [faceHeap edgeHeap set_faceHeap set_edgeHeap] in *.
    rewrite HF, HE in *. cbn [app length Nat.add] in *.
    destruct fa0, fa1, fa2, fa3. cbn in M0, M1, M2, M3, D0, D1, D2, D3. subst.
    destruct h. cbn in HF, HE. subst.
    vm_compute in H. injection H as _ <-. vm_compute. reflexivity.
  - apply bind_Ok_inv in H as (f0 & h0 & C0 & H).
    apply Face_create_Ok in C0 as (-> & fa0 & M0 & D0 & O0 & ->).
    apply bind_Ok_inv in H as (f1 & h1 & C1 & H).
    apply Face_create_Ok in C1 as (-> & fa1 & M1 & D1 & O1 & ->).
    apply bind_Ok_inv in H as (f2 & h2 & C2 & H).
    apply Face_create_Ok in C2 as (-> & fa2 & M2 & D2 & O2 & ->).
    apply bind_Ok_inv in H as (f3 & h3 & C3 & H).
    apply Face_create_Ok in C3 as (-> & fa3 & M3 & D3 & O3 & ->).
    cbn [faceHeap edgeHeap set_faceHeap set_edgeHeap] in *.
    rewrite HF, HE in *. cbn [app length Nat.add] in *.
    destruct fa0, fa1, fa2, fa3. cbn in M0, M1, M2, M3, D0, D1, D2, D3. subst.
    destruct h. cbn in HF, HE. subst.
    vm_compute in H. injection H as _ <-. vm_compute. reflexivity.
Qed.

Lemma computeInitialHull_dcel sqrt h h' :
  faceHeap h = [] -> edgeHeap h = [] ->
  computeInitialHull sqrt h = Ok tt h' -> dcel h'.
Proof.
  intros HF HE H. unfold computeInitialHull in H.
  apply bind_Ok_inv in H as (s & h1 & H1 & H).
  apply initialSimplex_heaps in H1 as [HF1 HE1].
  apply bind_Ok_inv in H as (fs & h2 & H2 & H).
  apply buildTetrahedron_dcel in H2; [|congruence|congruence].
  apply dcelb_sound in H2.
  apply bind_Ok_inv in H as (u & h3 & H3 & H).
  injection H3 as _ <-.
  inv_read H vs Evs.
  eapply mesh_dcel; [|exact H2].
  symmetry. eapply (frames_Ok _ _ _ _ _ H).
  Unshelve.
  apply frames_forM. intros i.
  destruct (_ && _); [apply frames_assignInitial | apply frames_ret].
Qed.

(** ** States of the traversal *)

Lemma shape_face h h' f fa :
  shape h = shape h' -> faceHeap h !! f = Some fa ->
  exists fa', faceHeap h' !! f = Some fa' /\
    Face.edge fa' = Face.edge fa /\
    Face.normal fa' = Face.normal fa /\ Face.constant fa' = Face.constant fa.
Proof.
  unfold shape. intros [= _ _ Hm] Hf.
  apply (map_lookup (fun fa => Face.set_mark Visible (Face.set_outside None fa))) in Hf.
  rewrite Hm in Hf. apply map_lookup_Some in Hf as (fa' & Hf' & E).
  exists fa'. split; [exact Hf'|].
  destruct fa, fa'. cbn in E. injection E as -> -> -> -> ->. auto.
Qed.

Lemma during_refl h : during h h.
Proof. split; auto. Qed.

Lemma during_trans h1 h2 h3 : during h1 h2 -> during h2 h3 -> during h1 h3.
Proof. intros [A1 A2] [B1 B2]. split; [congruence | auto]. Qed.

Lemma mesh_during h h' : mesh h' = mesh h -> during h h'.
Proof.
  intros Hm. split.
  - unfold mesh in Hm. injection Hm as Ht He Hf. unfold shape. rewrite Ht, He. f_equal.
    apply (f_equal (map (Face.set_mark Visible))) in Hf.
    rewrite !map_map in Hf. exact Hf.
  - intros f. unfold deleted. now rewrite (mesh_fmark h h' f (eq_sym Hm)).
Qed.

Lemma during_edges h h' : during h h' -> edgeHeap h' = edgeHeap h.
Proof. intros [Hs _]. unfold shape in Hs. now injection Hs. Qed.

Lemma during_tolerance h h' : during h h' -> tolerance h' = tolerance h.
Proof. intros [Hs _]. unfold shape in Hs. now injection Hs. Qed.

Lemma during_sees h h' eye f : during h h' -> sees h' eye f = sees h eye f.
Proof.
  intros Hd. unfold sees. rewrite (during_tolerance _ _ Hd). destruct Hd as [Hs _].
  destruct (faceHeap h !! f) as [fa|] eqn:E.
  - destruct (shape_face h h' f fa (eq_sym Hs) E) as (fa' & E' & _ & En & Ec).
    rewrite E'. unfold Face.distanceToPoint. now rewrite En, Ec.
  - destruct (faceHeap h' !! f) as [fa'|] eqn:E'; [|reflexivity].
    destruct (shape_face h' h f fa' Hs E') as (fa & Hfa & _). congruence.
Qed.

Lemma fmark_cases h f :
  fmark h f = None \/ visible h f \/ deleted h f.
Proof.
  unfold visible, deleted, fmark. destruct (faceHeap h !! f) as [fa|]; cbn; auto.
  destruct (Face.mark fa); auto.
Qed.

Lemma during_valid h h' f : during h h' -> fmark h' f = None <-> fmark h f = None.
Proof.
  intros [Hs _]. unfold fmark. split; intros H.
  - destruct (faceHeap h !! f) as [fa|] eqn:E; [|reflexivity].
    destruct (shape_face h h' f fa (eq_sym Hs) E) as (fa' & E' & _). rewrite E' in H. discriminate.
  - destruct (faceHeap h' !! f) as [fa|] eqn:E; [|reflexivity].
    destruct (shape_face h' h f fa Hs E) as (fa' & E' & _). rewrite E' in H. discriminate.
Qed.

Lemma during_visible h h' f : during h h' -> visible h' f -> visible h f.
Proof.
  intros Hd Hv. destruct (fmark_cases h f) as [H|[H|H]]; auto.
  - apply (during_valid h h' f Hd) in H. unfold visible in Hv. congruence.
  - apply Hd in H. unfold visible, deleted in *. congruence.
Qed.

Lemma during_keeps h h' f :
  during h h' -> visible h f -> ~ deleted h' f -> visible h' f.
Proof.
  intros Hd Hv Hn. destruct (fmark_cases h' f) as [H|[H|H]]; auto.
  - apply (during_valid h h' f Hd) in H. unfold visible in Hv. congruence.
  - contradiction.
Qed.

Lemma during_layout h h' : during h h' -> layout h -> layout h'.
Proof.
  intros Hd [Hlen Hl]. pose proof (during_edges _ _ Hd) as He. destruct Hd as [Hs _]. split.
  - rewrite He, Hlen. f_equal. unfold shape in Hs. injection Hs as _ _ Hm.
    apply (f_equal (@length _)) in Hm. now rewrite !length_map in Hm.
  - intros f fa' Hf'.
    destruct (shape_face h' h f fa' Hs Hf') as (fa & Hfa & Hedge & _).
    destruct (Hl f fa Hfa) as [H1 H2]. rewrite He. split; [congruence|exact H2].
Qed.

Lemma during_ready h h' : during h h' -> ready h -> ready h'.
Proof.
  intros Hd [Hl Ht]. split; [now apply (during_layout h)|].
  intros e he He Hv. rewrite (during_edges _ _ Hd) in *.
  destruct (Ht e he He (during_visible _ _ _ Hd Hv)) as (t & ht & ? & ? & ? & Hm).
  exists t, ht. repeat split; auto.
  intros Hn. apply Hm. now apply (during_valid h h' _ Hd).
Qed.

Lemma dcel_ready h : dcel h -> ready h.
Proof.
  intros [Hl Ht]. split; [exact Hl|]. intros e he He Hv.
  destruct (Ht e he He Hv) as (t & ht & ? & ? & ? & Hv'). exists t, ht.
  repeat split; auto. unfold visible in Hv'. congruence.
Qed.

(** Marking a face deleted. *)
Lemma mark_deleted h f x :
  faceHeap h !! f = Some x ->
  let h' := set_faceHeap (<[f := Face.set_mark Deleted x]> (faceHeap h)) h in
  during h h' /\ deleted h' f /\ forall g, g <> f -> fmark h' g = fmark h g.
Proof.
  intros Hx h'. repeat split.
  - unfold shape, h'. cbn [tolerance edgeHeap faceHeap set_faceHeap]. f_equal.
    apply map_insert_same with (x := x); [exact Hx|]. now destruct x.
  - intros g Hg. unfold deleted, fmark, h' in *. cbn [faceHeap set_faceHeap].
    destruct (Nat.eq_dec g f) as [->|Hne].
    + rewrite list_lookup_insert_eq by (now apply lookup_lt_Some in Hx). reflexivity.
    + now rewrite list_lookup_insert_ne by auto.
  - unfold deleted, fmark, h'. cbn [faceHeap set_faceHeap].
    rewrite list_lookup_insert_eq by (now apply lookup_lt_Some in Hx). reflexivity.
  - intros g Hne. unfold fmark, h'. cbn [faceHeap set_faceHeap].
    now rewrite list_lookup_insert_ne by auto.
Qed.

(** ** The traversal that finds the horizon *)

Lemma onHorizon_earlier eye h hc h1 e :
  during h hc -> during hc h1 -> onHorizon eye hc h1 e -> onHorizon eye h h1 e.
Proof.
  intros Hd Hd1 (he & t & ht & E1 & V1 & D1 & T1 & E2 & T2 & V2 & S2).
  rewrite (during_edges _ _ Hd) in *.
  exists he, t, ht. repeat split; auto.
  - now apply (during_visible h hc).
  - now rewrite <- (during_sees h hc eye _ Hd).
Qed.

Lemma onHorizon_later eye h hc h1 e o :
  during h hc -> during hc h1 ->
  (forall g, visible hc g -> deleted h1 g -> g = o \/ sees hc eye g = true) ->
  sees hc eye o = true ->
  onHorizon eye h hc e -> onHorizon eye h h1 e.
Proof.
  intros Hd Hd1 Honly Ho (he & t & ht & E1 & V1 & D1 & T1 & E2 & T2 & V2 & S2).
  exists he, t, ht. repeat split; auto.
  - now apply Hd1.
  - apply (during_keeps hc h1); auto. intros Hdel.
    rewrite <- (during_sees h hc eye _ Hd) in S2.
    destruct (Honly _ V2 Hdel) as [Heq|Hs]; [rewrite Heq in S2|]; congruence.
Qed.

Lemma settled_later h hc h1 new new1 g i :
  during hc h1 -> settled h hc new g i -> settled h h1 (new ++ new1) g i.
Proof.
  intros Hd1 [Hin|(hd & t & ht & E1 & T1 & E2 & D2)].
  - left. apply in_or_app. now left.
  - right. exists hd, t, ht. repeat split; auto. now apply Hd1.
Qed.

Lemma settled_earlier h hc h1 new new1 g i :
  during h hc -> settled hc h1 new1 g i -> settled h h1 (new ++ new1) g i.
Proof.
  intros Hd [Hin|(hd & t & ht & E1 & T1 & E2 & D2)].
  - left. apply in_or_app. now right.
  - right. rewrite (during_edges _ _ Hd) in *. exists hd, t, ht. auto.
Qed.

Lemma visible_not_deleted h f : visible h f -> deleted h f -> False.
Proof. unfold visible, deleted. congruence. Qed.

Lemma visible_face h f : visible h f -> exists fa, faceHeap h !! f = Some fa.
Proof. unfold visible, fmark. destruct (faceHeap h !! f); [eauto|discriminate]. Qed.

(** Half-edge [i] of a face, by the layout. *)
Lemma layout_at h f i :
  layout h -> fmark h f <> None -> (i < 3)%nat ->
  exists he, edgeHeap h !! (3 * f + i)%nat = Some he /\ HalfEdge.face he = f /\
             HalfEdge.next he = Some (3 * f + (i + 1) mod 3)%nat.
Proof.
  intros [_ Hl] Hf Hi. unfold fmark in Hf.
  destruct (faceHeap h !! f) as [fa|] eqn:E; [|contradiction].
  destruct (Hl f fa E) as [_ H]. destruct (H i Hi) as (he & ? & ? & ? & _). eauto.
Qed.

(** One turn of the loop over the half-edges of a face. *)
Lemma horizonLoop_turn eye rec f h hc new D i fin cross hz hz' h' :
  (forall c o hz1 h1 hz2 h2,
     ready h1 -> visible h1 o -> entered h1 o (Some c) ->
     rec c o hz1 h1 = Ok hz2 h2 -> exists new, hz2 = hz1 ++ new /\ swept eye o h1 h2 new) ->
  ready h -> visible h f ->
  sweeping eye f h hc new D -> (i < 3)%nat -> ~ In i D ->
  horizonLoop rec (S fin) eye (3 * f + i)%nat cross (hz ++ new) hc = Ok hz' h' ->
  exists new1 h1,
    sweeping eye f h h1 (new ++ new1) (D ++ [i]) /\
    (if Nat.eqb (3 * f + (i + 1) mod 3) cross
     then hz' = hz ++ new ++ new1 /\ h' = h1
     else horizonLoop rec fin eye (3 * f + (i + 1) mod 3)%nat cross
            (hz ++ new ++ new1) h1 = Ok hz' h').
Proof.
  intros Hrec Hready Hvis Hsw Hi HnD H.
  destruct Hsw as [Hd Hroot Honly Hnd Hhor Hmine Hothers Hdone].
  pose proof (during_edges _ _ Hd) as HE.
  assert (fmark h f <> None) as Hvalid by (unfold visible in Hvis; congruence).
  destruct (layout_at h f i (proj1 Hready) Hvalid Hi) as (he & E1 & Eface & Enext).
  destruct (proj2 Hready _ _ E1 ltac:(now rewrite Eface))
    as (t & ht & T1 & E2 & T2 & Hm).
  remember (3 * f + i)%nat as e eqn:Ee.
  remember (3 * f + (i + 1) mod 3)%nat as e' eqn:Ee'.
  cbn [horizonLoop] in H.
  inv_read H he' G1. apply getEdge_inv in G1 as [G1 _]. rewrite HE, E1 in G1.
  injection G1 as <-. rewrite T1 in H.
  inv_read H t' G2. injection G2 as <-.
  inv_read H ht' G3. apply getEdge_inv in G3 as [G3 _]. rewrite HE, E2 in G3.
  injection G3 as <-.
  inv_read H fo G4. apply getFace_inv in G4 as [G4 _].
  inv_read H tol G5. injection G5 as <-.
  apply bind_Ok_inv in H as (hz1 & h1 & Hbody & H).
  assert (sees hc eye (HalfEdge.face ht)
          = Num.gtb (Face.distanceToPoint fo eye) (tolerance hc)) as Hsees.
  { unfold sees. now rewrite G4. }
  assert (exists new1, hz1 = hz ++ new ++ new1 /\
                       sweeping eye f h h1 (new ++ new1) (D ++ [i])) as (new1 & -> & Hsw1).
  { destruct (Mark_eqb (Face.mark fo) Visible) eqn:Emark.
    - assert (visible hc (HalfEdge.face ht)) as Hvo.
      { unfold visible, fmark. rewrite G4. cbn. destruct (Face.mark fo); [reflexivity|discriminate]. }
      rewrite <- Hsees in Hbody.
      destruct (sees hc eye (HalfEdge.face ht)) eqn:Es.
      + (* the opposite face sees the eye point: the traversal goes on there *)
        destruct (layout_edge hc t ht (during_layout _ _ Hd (proj1 Hready))
                    ltac:(now rewrite HE)) as (f' & fa' & j & Hj & Et & _ & Ef' & _).
        apply Hrec in Hbody as (new1 & -> & Hsub).
        2:{ now apply (during_ready h). }
        2:{ exact Hvo. }
        2:{ exists j, ht, e, he. rewrite HE.
            repeat split; auto; try congruence; now rewrite Eface. }
        destruct Hsub as [Sd Sroot Sonly Snd Shor Scomp].
        exists new1. split; [now rewrite app_assoc|].
        assert (sees h eye (HalfEdge.face ht) = true) as Es'
          by now rewrite <- (during_sees h hc eye _ Hd).
        constructor.
        * now apply (during_trans h hc).
        * now apply Sd.
        * intros g Vg Dg. destruct (fmark_cases hc g) as [Hn|[Hv|Hdl]].
          -- apply (during_valid h hc g Hd) in Hn. unfold visible in Vg. congruence.
          -- destruct (Sonly g Hv Dg) as [->|Hs]; [now right|].
             right. now rewrite <- (during_sees h hc eye _ Hd).
          -- now apply Honly.
        * apply List.NoDup_app; repeat split; auto.
          intros x Hx1 Hx2.
          destruct (Hhor x Hx1) as (hx & _ & _ & X1 & _ & X3 & _).
          destruct (Shor x Hx2) as (hx' & _ & _ & Y1 & Y2 & _).
          rewrite HE in Y1. assert (hx' = hx) as -> by congruence.
          now apply (visible_not_deleted hc (HalfEdge.face hx)).
        * intros x Hx. apply in_app_or in Hx as [Hx|Hx].
          -- apply (onHorizon_later eye h hc h1 x (HalfEdge.face ht)); auto.
          -- apply (onHorizon_earlier eye h hc h1 x); auto.
        * intros i' Hi' Hx. apply in_or_app. apply in_app_or in Hx as [Hx|Hx].
          -- left. now apply Hmine.
          -- exfalso. destruct (Shor _ Hx) as (hx & _ & _ & Y1 & Y2 & _).
             destruct (layout_at h f i' (proj1 Hready) Hvalid Hi') as (hx' & Z1 & Z2 & _).
             rewrite HE in Y1. assert (hx = hx') as -> by congruence.
             rewrite Z2 in Y2. now apply (visible_not_deleted hc f).
        * intros g Hne Vg Dg i' Hi'. destruct (fmark_cases hc g) as [Hn|[Hv|Hdl]].
          -- apply (during_valid h hc g Hd) in Hn. unfold visible in Vg. congruence.
          -- apply (settled_earlier h hc h1); auto.
          -- apply (settled_later h hc h1); auto.
        * intros i' Hx. apply in_app_or in Hx as [Hx|[<-|[]]].
          -- apply (settled_later h hc h1); auto.
          -- right. rewrite <- Ee. exists he, t, ht. auto.
      + (* it does not: the half-edge is on the horizon *)
        injection Hbody as <- <-. exists [e].
        split; [now rewrite app_assoc|].
        assert (sees h eye (HalfEdge.face ht) = false) as Es'
          by now rewrite <- (during_sees h hc eye _ Hd).
        constructor; auto.
        * apply List.NoDup_app; repeat split; auto.
          -- constructor; [intros []|constructor].
          -- intros x Hx1 [<-|[]]. apply HnD. apply Hmine; [exact Hi|]. now rewrite <- Ee.
        * intros x Hx. apply in_app_or in Hx as [Hx|[<-|[]]]; auto.
          exists he, t, ht. rewrite Eface. auto 10.
        * intros i' Hi' Hx. apply in_or_app. apply in_app_or in Hx as [Hx|[Hx|[]]].
          -- left. now apply Hmine.
          -- right. left. lia.
        * intros g Hne Vg Dg i' Hi'.
          apply (settled_later h hc hc); auto using during_refl.
        * intros i' Hx. apply in_app_or in Hx as [Hx|[<-|[]]].
          -- apply (settled_later h hc hc); auto using during_refl.
          -- left. rewrite <- Ee. apply in_or_app. right. now left.
    - (* the opposite face is deleted already *)
      injection Hbody as <- <-. exists []. rewrite !app_nil_r. split; [reflexivity|].
      assert (deleted hc (HalfEdge.face ht)) as Hdo.
      { unfold deleted, fmark. rewrite G4. cbn. destruct (Face.mark fo); [discriminate|reflexivity]. }
      constructor; auto.
      + intros i' Hi' Hx. apply in_or_app. left. now apply Hmine.
      + intros i' Hx. apply in_app_or in Hx as [Hx|[<-|[]]]; auto.
        right. rewrite <- Ee. exists he, t, ht. auto. }
  exists new1, h1. split; [exact Hsw1|].
  pose proof (during_edges _ _ (sg_during _ _ _ _ _ _ Hsw1)) as HE1.
  inv_read H he' G6. apply getEdge_inv in G6 as [G6 _]. rewrite HE1, E1 in G6.
  injection G6 as <-. rewrite Enext in H.
  inv_read H nx G7. injection G7 as <-.
  destruct (Nat.eqb _ cross); [|exact H].
  injection H as <- <-. auto.
Qed.

Lemma sweeping_start eye f h h1 x :
  mesh h1 = mesh h -> faceHeap h1 !! f = Some x ->
  let h2 := set_faceHeap (<[f := Face.set_mark Deleted x]> (faceHeap h1)) h1 in
  sweeping eye f h h2 [] [].
Proof.
  intros Hm Hx h2.
  destruct (mark_deleted h1 f x Hx) as (Hd2 & Hdel & Hsame). fold h2 in Hd2, Hdel, Hsame.
  assert (forall g, g <> f -> visible h g -> deleted h2 g -> False) as Hother.
  { intros g Hne Vg Dg. unfold deleted in Dg. rewrite (Hsame g Hne) in Dg.
    rewrite (mesh_fmark h h1 g (eq_sym Hm)) in Dg. unfold visible in Vg. congruence. }
  constructor.
  - apply (during_trans h h1); [now apply mesh_during | exact Hd2].
  - exact Hdel.
  - intros g Vg Dg. destruct (Nat.eq_dec g f) as [->|Hne]; [now left|].
    exfalso. now apply (Hother g).
  - constructor.
  - intros e [].
  - intros i _ [].
  - intros g Hne Vg Dg. exfalso. now apply (Hother g).
  - intros i [].
Qed.

Lemma sweeping_swept eye f h h' new D :
  sweeping eye f h h' new D ->
  (forall i, (i < 3)%nat -> In i D \/ settled h h' new f i) ->
  swept eye f h h' new.
Proof.
  intros [Hd Hroot Honly Hnd Hhor Hmine Hothers Hdone] Hall.
  constructor; auto.
  intros g Vg Dg i Hi. destruct (Nat.eq_dec g f) as [->|Hne].
  - destruct (Hall i Hi) as [Hin|Hs]; auto.
  - now apply Hothers.
Qed.

(** The loop from half-edge [i] of the face on, for [k] turns. *)
Lemma horizonLoop_turns eye rec f h cross hz :
  (forall c o hz1 h1 hz2 h2,
     ready h1 -> visible h1 o -> entered h1 o (Some c) ->
     rec c o hz1 h1 = Ok hz2 h2 -> exists new, hz2 = hz1 ++ new /\ swept eye o h1 h2 new) ->
  ready h -> visible h f ->
  forall k i D hc new fin hz' h',
    sweeping eye f h hc new D -> (i < 3)%nat -> (0 < k)%nat -> (k <= fin)%nat ->
    (forall m, (m < k)%nat -> ~ In ((i + m) mod 3)%nat D) ->
    (forall m, (0 < m < k)%nat -> (3 * f + (i + m) mod 3)%nat <> cross) ->
    cross = (3 * f + (i + k) mod 3)%nat ->
    (forall m m', (m < m' < k)%nat -> (i + m) mod 3 <> (i + m') mod 3)%nat ->
    horizonLoop rec fin eye (3 * f + i)%nat cross (hz ++ new) hc = Ok hz' h' ->
    exists new' L,
      hz' = hz ++ new' /\ sweeping eye f h h' new' (D ++ L) /\
      forall m, (m < k)%nat -> In ((i + m) mod 3)%nat L.
Proof.
  intros Hrec Hready Hvis k.
  induction k as [|k IH]; intros i D hc new fin hz' h' Hsw Hi Hk Hfin HD Hcross Hend Hdist H;
    [lia|].
  destruct fin as [|fin]; [lia|].
  assert (~ In i D) as HiD.
  { specialize (HD 0%nat ltac:(lia)). now rewrite Nat.add_0_r, Nat.mod_small in HD. }
  destruct (horizonLoop_turn eye rec f h hc new D i fin cross hz hz' h'
              Hrec Hready Hvis Hsw Hi HiD H) as (new1 & h1 & Hsw1 & Hnext).
  assert ((i + 1) mod 3 < 3)%nat as Hi1 by (apply Nat.mod_upper_bound; lia).
  assert (forall m, ((i + 1) mod 3 + m) mod 3 = (i + S m) mod 3)%nat as Hshift.
  { intros m. rewrite Nat.Div0.add_mod_idemp_l. f_equal. lia. }
  destruct k as [|k].
  - (* the last turn *)
    assert (Nat.eqb (3 * f + (i + 1) mod 3) cross = true) as Heq by (apply Nat.eqb_eq; lia).
    rewrite Heq in Hnext. destruct Hnext as [-> ->].
    exists (new ++ new1), [i]. split; [reflexivity|]. split; [exact Hsw1|].
    intros m Hm. assert (m = 0)%nat as -> by lia.
    rewrite Nat.add_0_r, Nat.mod_small by lia. now left.
  - assert (Nat.eqb (3 * f + (i + 1) mod 3) cross = false) as Hne.
    { apply Nat.eqb_neq. apply (Hcross 1%nat). lia. }
    rewrite Hne in Hnext.
    destruct (IH ((i + 1) mod 3)%nat (D ++ [i]) h1 (new ++ new1) fin hz' h')
      as (new' & L & -> & Hsw' & Hin'); auto; try lia.
    + intros m Hm Hin. rewrite Hshift in Hin. apply in_app_or in Hin as [Hin|[Hin|[]]].
      * apply (HD (S m)); [lia|exact Hin].
      * apply (Hdist 0%nat (S m)); [lia|].
        rewrite Nat.add_0_r, Nat.mod_small by lia. exact Hin.
    + intros m Hm. rewrite Hshift. apply Hcross. lia.
    + rewrite Hshift. exact Hend.
    + intros m m' Hm. rewrite !Hshift. apply Hdist. lia.
    + exists new', (i :: L). split; [reflexivity|]. split.
      * rewrite <- app_assoc in Hsw'. exact Hsw'.
      * intros [|m] Hm.
        -- left. now rewrite Nat.add_0_r, Nat.mod_small by lia.
        -- right. rewrite <- Hshift. apply Hin'. lia.
Qed.

Lemma reads_walkNext n : forall o, reads (walkNext n o).
Proof. induction n as [|n IH]; intros o; cbn [walkNext]; reads_step. Qed.

Lemma reads_walkPrev n : forall o, reads (walkPrev n o).
Proof. induction n as [|n IH]; intros o; cbn [walkPrev]; reads_step. Qed.

#[local] Hint Resolve reads_walkNext reads_walkPrev : reads.

Lemma reads_Face_getEdge f i : reads (Face_getEdge f i).
Proof. unfold Face_getEdge. reads_step. Qed.

#[local] Hint Resolve reads_Face_getEdge : reads.

Lemma Face_getEdge_0 f h o h' :
  Face_getEdge f 0 h = Ok o h' -> exists fa, faceHeap h !! f = Some fa /\ o = Face.edge fa.
Proof.
  unfold Face_getEdge. intros H. inv_read H fa G. apply getFace_inv in G as [G _].
  change (0 <? 0)%Z with false in H. cbn [Z.opp Z.to_nat walkPrev] in H.
  injection H as <- _. eauto.
Qed.

(** [computeHorizon] deletes the faces that can see the eye point and are
    reachable from [f] across twins, and records the half-edges where it
    stopped. *)
Lemma computeHorizon_spec eye : forall fuel cross f hz h hz' h',
  ready h -> visible h f -> entered h f cross ->
  computeHorizon fuel eye cross f hz h = Ok hz' h' ->
  exists new, hz' = hz ++ new /\ swept eye f h h' new.
Proof.
  induction fuel as [|fuel IH]; intros cross f hz h hz' h' Hready Hvis Hent H;
    [discriminate|].
  cbn [computeHorizon] in H.
  apply bind_Ok_inv in H as (u & h1 & H1 & H).
  pose proof (frames_Ok _ _ _ _ (frames_deleteFaceVertices f None) H1) as Hm1.
  apply bind_Ok_inv in H as (u2 & h2 & H2 & H).
  apply modFace_inv in H2 as (x & Hx & ->).
  pose proof (sweeping_start eye f h h1 x Hm1 Hx) as Hsw. cbv zeta in Hsw.
  set (h2 := set_faceHeap (<[f:=Face.set_mark Deleted x]> (faceHeap h1)) h1) in *.
  pose proof (sg_during _ _ _ _ _ _ Hsw) as Hd2.
  pose proof (during_layout _ _ Hd2 (proj1 Hready)) as Hl2.
  assert (fmark h f <> None) as Hvalid by (unfold visible in Hvis; congruence).
  assert (3 <= length (edgeHeap h2))%nat as Hlen.
  { destruct (layout_at h2 f 2 Hl2) as (he & E & _); [|lia|].
    - rewrite (during_valid h h2 f Hd2). exact Hvalid.
    - apply lookup_lt_Some in E. lia. }
  assert (forall c o hz1 h3 hz2 h4,
     ready h3 -> visible h3 o -> entered h3 o (Some c) ->
     computeHorizon fuel eye (Some c) o hz1 h3 = Ok hz2 h4 ->
     exists new, hz2 = hz1 ++ new /\ swept eye o h3 h4 new) as Hrec.
  { intros c o hz1 h3 hz2 h4. apply IH. }
  apply bind_Ok_inv in H as ([e c] & h3 & Hstart & H). cbn [fst snd] in H.
  inv_read H n En. injection En as <-.
  destruct cross as [c0|].
  - (* entered through [c0]: two half-edges are left *)
    destruct Hent as (j & hc & t & ht & Hj & -> & Ec & Tc & Et & Dt).
    inv_read Hstart hc' G1. apply getEdge_inv in G1 as [G1 _].
    rewrite (during_edges _ _ Hd2) in G1.
    destruct (layout_at h f j (proj1 Hready) Hvalid Hj) as (hc2 & Ec2 & _ & Enext).
    assert (hc' = hc2) as -> by congruence. rewrite Enext in Hstart.
    inv_read Hstart e' G2. injection G2 as <-. injection Hstart as <- <- <-.
    assert ((j + 1) mod 3 < 3)%nat as Hj1 by (apply Nat.mod_upper_bound; lia).
    assert (forall m, (m < 2)%nat -> ~ In (((j + 1) mod 3 + m) mod 3)%nat []) as A1
      by (intros m _ []).
    assert (forall m, (0 < m < 2)%nat ->
              (3 * f + ((j + 1) mod 3 + m) mod 3)%nat <> (3 * f + j)%nat) as A2.
    { intros m Hm. assert (m = 1)%nat as -> by lia.
      destruct j as [|[|[|j]]]; cbn; lia. }
    assert ((3 * f + j)%nat = (3 * f + ((j + 1) mod 3 + 2) mod 3)%nat) as A3.
    { destruct j as [|[|[|j]]]; cbn; lia. }
    assert (forall m m', (m < m' < 2)%nat ->
              ((j + 1) mod 3 + m) mod 3 <> ((j + 1) mod 3 + m') mod 3)%nat as A4.
    { intros m m' Hm. assert (m = 0 /\ m' = 1)%nat as [-> ->] by lia.
      destruct j as [|[|[|j]]]; cbn; lia. }
    rewrite <- (app_nil_r hz) in H.
    destruct (horizonLoop_turns eye _ f h (3 * f + j)%nat hz Hrec Hready Hvis
                2%nat ((j + 1) mod 3)%nat [] h2 [] (S (length (edgeHeap h2))) hz' h'
                Hsw Hj1 ltac:(lia) ltac:(lia) A1 A2 A3 A4 H)
      as (new & L & -> & Hsw' & HL).
    exists new. split; [reflexivity|].
    apply (sweeping_swept eye f h h' new ([] ++ L) Hsw').
    intros i Hi.
    assert (i = j \/ i = ((j + 1) mod 3 + 0) mod 3 \/ i = ((j + 1) mod 3 + 1) mod 3)%nat
      as [-> | [-> | -> ]] by (destruct j as [|[|[|j]]], i as [|[|[|i]]]; cbn; lia).
    + right. right. exists hc, t, ht. repeat split; auto.
      apply (sg_during _ _ _ _ _ _ Hsw'). exact Dt.
    + left. apply HL. lia.
    + left. apply HL. lia.
  - (* the first face: all three half-edges *)
    inv_read Hstart o G1. apply Face_getEdge_0 in G1 as (fa & G1 & ->).
    destruct (proj2 Hl2 f fa G1) as [Eedge _]. rewrite Eedge in Hstart.
    inv_read Hstart e0 G2. injection G2 as <-. injection Hstart as <- <- <-.
    replace (3 * f)%nat with (3 * f + 0)%nat in H at 1 by lia.
    assert (forall m, (m < 3)%nat -> ~ In ((0 + m) mod 3)%nat []) as A1 by (intros m _ []).
    assert (forall m, (0 < m < 3)%nat -> (3 * f + (0 + m) mod 3)%nat <> (3 * f)%nat) as A2.
    { intros m Hm. assert (m = 1 \/ m = 2)%nat as [-> | ->] by lia; cbn; lia. }
    assert ((3 * f)%nat = (3 * f + (0 + 3) mod 3)%nat) as A3.
    { change ((0 + 3) mod 3)%nat with 0%nat. lia. }
    assert (forall m m', (m < m' < 3)%nat -> (0 + m) mod 3 <> (0 + m') mod 3)%nat as A4.
    { intros m m' Hm.
      assert ((m = 0 /\ m' = 1) \/ (m = 0 /\ m' = 2) \/ (m = 1 /\ m' = 2))%nat
        as [[-> ->]|[[-> ->]|[-> ->]]] by lia; cbn; lia. }
    rewrite <- (app_nil_r hz) in H.
    destruct (horizonLoop_turns eye _ f h (3 * f)%nat hz Hrec Hready Hvis
                3%nat 0%nat [] h2 [] (S (length (edgeHeap h2))) hz' h'
                Hsw ltac:(lia) ltac:(lia) ltac:(lia) A1 A2 A3 A4 H)
      as (new & L & -> & Hsw' & HL).
    exists new. split; [reflexivity|].
    apply (sweeping_swept eye f h h' new ([] ++ L) Hsw').
    intros i Hi. left.
    destruct i as [|[|[|i]]]; try lia;
      [apply (HL 0%nat) | apply (HL 1%nat) | apply (HL 2%nat)]; lia.
Qed.

(** ** Stitching the new faces *)

Lemma setTwin_Ok e o h u h' :
  HalfEdge_setTwin e o h = Ok u h' ->
  exists t he ht,
    o = Some t /\ edgeHeap h !! e = Some he /\
    (<[e := HalfEdge.set_twin o he]> (edgeHeap h)) !! t = Some ht /\
    h' = set_edgeHeap (<[t := HalfEdge.set_twin (Some e) ht]>
                         (<[e := HalfEdge.set_twin o he]> (edgeHeap h))) h.
Proof.
  unfold HalfEdge_setTwin, modEdgeAt. intros H.
  apply bind_Ok_inv in H as (u1 & h1 & H1 & H).
  apply modEdge_inv in H1 as (he & E1 & ->).
  apply bind_Ok_inv in H as (t' & h2 & H2 & H).
  destruct o as [t|]; [|discriminate]. injection H2 as <- <-.
  apply modEdge_inv in H as (ht & E2 & ->).
  cbn [edgeHeap set_edgeHeap] in *.
  exists t, he, ht. repeat split; auto.
Qed.

(** The state after [e.setTwin (t)], half-edge by half-edge. *)
Lemma setTwin_lookup e t (E : list HalfEdge.t) he ht x :
  E !! e = Some he -> E !! t = Some ht -> e <> t ->
  (<[t := HalfEdge.set_twin (Some e) ht]>
     (<[e := HalfEdge.set_twin (Some t) he]> E)) !! x =
  if Nat.eqb x t then Some (HalfEdge.set_twin (Some e) ht)
  else if Nat.eqb x e then Some (HalfEdge.set_twin (Some t) he)
  else E !! x.
Proof.
  intros E1 E2 Hne.
  pose proof (lookup_lt_Some _ _ _ E1) as L1. pose proof (lookup_lt_Some _ _ _ E2) as L2.
  destruct (Nat.eqb_spec x t) as [->|Hxt].
  - rewrite list_lookup_insert_eq; [reflexivity|]. now rewrite length_insert.
  - rewrite list_lookup_insert_ne by auto.
    destruct (Nat.eqb_spec x e) as [->|Hxe].
    + now rewrite list_lookup_insert_eq.
    + now rewrite list_lookup_insert_ne by auto.
Qed.

Lemma layout_twins h E' :
  layout h -> length E' = length (edgeHeap h) ->
  (forall x hx, edgeHeap h !! x = Some hx ->
     exists hx', E' !! x = Some hx' /\ HalfEdge.face hx' = HalfEdge.face hx /\
                 HalfEdge.next hx' = HalfEdge.next hx /\
                 HalfEdge.prev hx' = HalfEdge.prev hx) ->
  layout (set_edgeHeap E' h).
Proof.
  intros [Hlen Hl] HL Hsame. split.
  - cbn. now rewrite HL.
  - intros f fa Hf. cbn [faceHeap set_edgeHeap edgeHeap] in *.
    destruct (Hl f fa Hf) as [He Hi]. split; [exact He|].
    intros i Hi3. destruct (Hi i Hi3) as (he & E1 & E2 & E3 & E4).
    destruct (Hsame _ _ E1) as (he' & F1 & F2 & F3 & F4).
    exists he'. repeat split; congruence.
Qed.

Lemma visible_edges E' h f : visible (set_edgeHeap E' h) f <-> visible h f.
Proof. reflexivity. Qed.

(** Two half-edges [e] and [t] become twins: [e] had none, and nothing live
    pointed at [t].  Every other half-edge keeps its standing. *)
Lemma stitching_pair h rest pend rest' pend' e t he ht :
  stitching h rest pend ->
  edgeHeap h !! e = Some he -> edgeHeap h !! t = Some ht -> e <> t ->
  HalfEdge.twin he = None ->
  visible h (HalfEdge.face he) -> visible h (HalfEdge.face ht) ->
  (forall y hy, HalfEdge.twin ht = Some y -> edgeHeap h !! y = Some hy ->
     deleted h (HalfEdge.face hy) /\ ~ In y rest') ->
  List.NoDup rest' -> (forall y, In y rest' -> In y rest) ->
  (forall d hd y, In d rest -> edgeHeap h !! d = Some hd ->
     HalfEdge.twin hd = Some y -> y <> t -> In d rest') ->
  (forall y, In y pend' -> In y pend /\ y <> e /\ y <> t) ->
  (forall y, In y pend -> y <> e -> y <> t -> In y pend') ->
  stitching (set_edgeHeap (<[t := HalfEdge.set_twin (Some e) ht]>
                             (<[e := HalfEdge.set_twin (Some t) he]> (edgeHeap h))) h)
            rest' pend'.
Proof.
  intros St Ee Et Hne Hnone Ve Vt Hfree Hnd Hsub Hkeep Hp1 Hp2.
  set (E' := <[t := _]> _).
  assert (HL : forall x, E' !! x =
     if Nat.eqb x t then Some (HalfEdge.set_twin (Some e) ht)
     else if Nat.eqb x e then Some (HalfEdge.set_twin (Some t) he)
     else edgeHeap h !! x) by (intros x; now apply setTwin_lookup).
  assert (Hsame : forall x, x <> e -> x <> t -> E' !! x = edgeHeap h !! x).
  { intros x H1 H2. rewrite HL.
    destruct (Nat.eqb_spec x t); [contradiction|].
    destruct (Nat.eqb_spec x e); [contradiction|]. reflexivity. }
  assert (HEe : E' !! e = Some (HalfEdge.set_twin (Some t) he)).
  { rewrite HL. destruct (Nat.eqb_spec e t); [contradiction|]. now rewrite Nat.eqb_refl. }
  assert (HEt : E' !! t = Some (HalfEdge.set_twin (Some e) ht)).
  { rewrite HL. now rewrite Nat.eqb_refl. }
  assert (Hdel : forall x hx, edgeHeap h !! x = Some hx -> deleted h (HalfEdge.face hx) ->
                   x <> e /\ x <> t).
  { intros x hx Hx Hd. split; intros ->.
    - rewrite Ee in Hx. injection Hx as <-. exact (visible_not_deleted _ _ Ve Hd).
    - rewrite Et in Hx. injection Hx as <-. exact (visible_not_deleted _ _ Vt Hd). }
  split.
  - apply layout_twins; [apply St | unfold E'; now rewrite !length_insert |].
    intros x hx Hx. rewrite HL.
    destruct (Nat.eqb_spec x t) as [->|].
    { rewrite Et in Hx. injection Hx as <-. eexists. split; [reflexivity|]. now destruct ht. }
    destruct (Nat.eqb_spec x e) as [->|].
    { rewrite Ee in Hx. injection Hx as <-. eexists. split; [reflexivity|]. now destruct he. }
    exists hx. auto.
  - exact Hnd.
  - intros x Hx. destruct (st_rest _ _ _ St x (Hsub x Hx)) as (hx & t0 & ht0 & A1 & A2 & A3 & A4 & A5 & A6).
    destruct (Hdel _ _ A1 A2) as [N1 N2].
    assert (t0 <> e) by (intros ->; congruence).
    assert (t0 <> t).
    { intros ->. rewrite Et in A4. injection A4 as <-.
      destruct (Hfree _ _ A5 A1) as [_ N]. now apply N. }
    exists hx, t0, ht0. cbn [edgeHeap set_edgeHeap]. fold E'.
    rewrite !Hsame by auto. repeat split; auto.
  - intros y Hy. destruct (Hp1 y Hy) as (Hin & N1 & N2).
    destruct (st_pend _ _ _ St y Hin) as (hy & B1 & B2 & B3).
    exists hy. cbn [edgeHeap set_edgeHeap]. fold E'. rewrite Hsame by auto. auto.
  - cbn [edgeHeap set_edgeHeap]. fold E'. intros y hy Hy Vy.
    destruct (Nat.eq_dec y e) as [->|Nye].
    { left. rewrite HEe in Hy. injection Hy as <-.
      exists (HalfEdge.set_twin (Some t) he), t, (HalfEdge.set_twin (Some e) ht).
      cbn [edgeHeap set_edgeHeap]. fold E'. repeat split; auto; now destruct ht. }
    destruct (Nat.eq_dec y t) as [->|Nyt].
    { left. rewrite HEt in Hy. injection Hy as <-.
      exists (HalfEdge.set_twin (Some e) ht), e, (HalfEdge.set_twin (Some t) he).
      cbn [edgeHeap set_edgeHeap]. fold E'. repeat split; auto; now destruct he. }
    rewrite Hsame in Hy by auto.
    destruct (st_status _ _ _ St y hy Hy Vy) as [Hpr | [Hpe | Hst]].
    + left. destruct Hpr as (hy' & t0 & ht0 & C1 & C2 & C3 & C4 & C5).
      assert (t0 <> e) by (intros ->; congruence).
      assert (t0 <> t).
      { intros ->. rewrite Et in C3. injection C3 as <-.
        rewrite Hy in C1. injection C1 as <-.
        destruct (Hfree _ _ C4 Hy) as [N _]. exact (visible_not_deleted _ _ Vy N). }
      exists hy', t0, ht0. cbn [edgeHeap set_edgeHeap]. fold E'.
      rewrite !Hsame by auto. repeat split; auto.
    + right; left. auto.
    + right; right. destruct Hst as (hy' & d & hd & D1 & D2 & D3 & D4 & D5).
      destruct (st_rest _ _ _ St d D3) as (hd' & t0 & ht0 & A1 & A2 & _).
      destruct (Hdel _ _ A1 A2) as [N1 N2].
      assert (In d rest') by exact (Hkeep d hd y D3 D4 D5 Nyt).
      exists hy', d, hd. cbn [edgeHeap set_edgeHeap]. fold E'.
      rewrite (Hsame y), (Hsame d) by auto. repeat split; assumption.
Qed.


Lemma stitching_ext h h' rest pend :
  faceHeap h' = faceHeap h -> edgeHeap h' = edgeHeap h ->
  stitching h rest pend -> stitching h' rest pend.
Proof.
  destruct h, h'. cbn [faceHeap edgeHeap]. intros -> -> St.
  destruct St as [[L1 L2] S2 S3 S4 S5]. split; [split|..]; assumption.
Qed.

(** A new visible face with three half-edges that have no twin yet. *)
Lemma stitching_grow h rest pend fa va vb vc :
  stitching h rest pend ->
  Face.mark fa = Visible ->
  let e0 := length (edgeHeap h) in
  let f := length (faceHeap h) in
  Face.edge fa = Some e0 ->
  stitching
    (set_faceHeap (faceHeap h ++ [fa])
       (set_edgeHeap (edgeHeap h ++
          [HalfEdge.mk va (Some (e0 + 2)%nat) (Some (e0 + 1)%nat) None f;
           HalfEdge.mk vb (Some e0) (Some (e0 + 2)%nat) None f;
           HalfEdge.mk vc (Some (e0 + 1)%nat) (Some e0) None f]) h))
    rest (e0 :: (e0 + 1)%nat :: (e0 + 2)%nat :: pend).
Proof.
  intros St Hm e0 f He.
  set (new := [_; _; _]). set (h1 := set_faceHeap _ _).
  pose proof (st_layout _ _ _ St) as Hlay. destruct Hlay as [Hlen Hl].
  assert (He0 : e0 = (3 * f)%nat) by exact Hlen.
  assert (HE : forall x hx, edgeHeap h !! x = Some hx -> edgeHeap h1 !! x = Some hx).
  { intros x hx Hx. cbn. now apply lookup_app_l_Some. }
  assert (HV : forall g, visible h g -> visible h1 g).
  { intros g. unfold visible, fmark. cbn.
    destruct (faceHeap h !! g) as [x|] eqn:E; [|discriminate].
    now rewrite (lookup_app_l_Some _ _ _ _ E). }
  assert (HD : forall g, deleted h g -> deleted h1 g).
  { intros g. unfold deleted, fmark. cbn.
    destruct (faceHeap h !! g) as [x|] eqn:E; [|discriminate].
    now rewrite (lookup_app_l_Some _ _ _ _ E). }
  assert (HVf : visible h1 f).
  { unfold visible, fmark. cbn. rewrite list_lookup_middle by reflexivity. cbn. now rewrite Hm. }
  assert (HN : forall i, (i < 3)%nat -> exists hn, edgeHeap h1 !! (e0 + i)%nat = Some hn /\
             new !! i = Some hn).
  { intros i Hi. cbn [h1 edgeHeap set_faceHeap set_edgeHeap].
    rewrite lookup_app_r by (fold e0; lia). fold e0.
    replace (e0 + i - e0)%nat with i by lia.
    destruct i as [|[|[|i]]]; [eexists; split; reflexivity.. | lia]. }
  assert (HVold : forall x hx, edgeHeap h !! x = Some hx -> visible h1 (HalfEdge.face hx) ->
                    visible h (HalfEdge.face hx)).
  { intros x hx Hx Hv.
    destruct (layout_edge h x hx (st_layout _ _ _ St) Hx) as (g & ga & i & _ & _ & Hg & Hface & _).
    rewrite Hface in Hv |- *. unfold visible, fmark in Hv |- *.
    cbn [h1 faceHeap set_faceHeap] in Hv.
    rewrite (lookup_app_l_Some _ _ _ _ Hg) in Hv. now rewrite Hg. }
  split.
  - split.
    + cbn. rewrite !length_app. cbn. fold e0 f. lia.
    + intros g ga Hg. cbn [h1 faceHeap set_faceHeap] in Hg.
      destruct (Nat.lt_ge_cases g f) as [Hlt|Hge].
      * rewrite lookup_app_l in Hg by exact Hlt.
        destruct (Hl g ga Hg) as [H1 H2]. split; [exact H1|].
        intros i Hi. destruct (H2 i Hi) as (he & A1 & A2). exists he. split; auto.
      * assert (g = f) as ->.
        { apply lookup_lt_Some in Hg. rewrite length_app in Hg. cbn in Hg. fold f in Hg. lia. }
        rewrite list_lookup_middle in Hg by reflexivity. injection Hg as <-.
        split; [congruence|]. rewrite <- He0.
        intros i Hi. destruct (HN i Hi) as (hn & A1 & A2). exists hn. split; [exact A1|].
        destruct i as [|[|[|i]]]; [| | |lia]; injection A2 as <-; cbn;
          rewrite ?Nat.add_0_r; auto.
  - apply St.
  - intros x Hx. destruct (st_rest _ _ _ St x Hx) as (hx & t & ht & A1 & A2 & A3 & A4 & A5 & A6).
    exists hx, t, ht. repeat split; auto.
  - intros y [<-|[<-|[<-|Hy]]].
    + destruct (HN 0%nat ltac:(lia)) as (hn & A1 & A2). rewrite Nat.add_0_r in A1.
      injection A2 as <-. eexists. split; [exact A1|]. split; [reflexivity|exact HVf].
    + destruct (HN 1%nat ltac:(lia)) as (hn & A1 & A2).
      injection A2 as <-. eexists. split; [exact A1|]. split; [reflexivity|exact HVf].
    + destruct (HN 2%nat ltac:(lia)) as (hn & A1 & A2).
      injection A2 as <-. eexists. split; [exact A1|]. split; [reflexivity|exact HVf].
    + destruct (st_pend _ _ _ St y Hy) as (hy & B1 & B2 & B3). exists hy. auto.
  - intros y hy Hy Vy.
    destruct (Nat.lt_ge_cases y e0) as [Hlt|Hge].
    + assert (Hy0 : edgeHeap h !! y = Some hy).
      { cbn [h1 edgeHeap set_faceHeap set_edgeHeap] in Hy.
        now rewrite lookup_app_l in Hy by exact Hlt. }
      destruct (st_status _ _ _ St y hy Hy0 (HVold _ _ Hy0 Vy)) as [Hp|[Hp|Hs]].
      * left. destruct Hp as (hy' & t & ht & C1 & C2 & C3 & C4 & C5).
        exists hy', t, ht. repeat split; auto.
      * right; left. now do 3 right.
      * right; right. destruct Hs as (hy' & d & hd & D1 & D2 & D3 & D4 & D5).
        exists hy', d, hd. repeat split; auto.
    + right; left. apply lookup_lt_Some in Hy.
      cbn [h1 edgeHeap set_faceHeap set_edgeHeap] in Hy. rewrite length_app in Hy.
      cbn in Hy. fold e0 in Hy.
      assert (y = e0 \/ y = e0 + 1 \/ y = e0 + 2)%nat as [Hq|[Hq|Hq]] by lia;
        rewrite Hq; cbn; auto.
Qed.

(** When the traversal is over, the horizon is what is left to stitch. *)
Lemma stitching_start eye f h h' new :
  dcel h -> swept eye f h h' new -> stitching h' new [].
Proof.
  intros [Hlay Htw] Sw. pose proof (sw_during _ _ _ _ _ Sw) as Hd.
  pose proof (during_edges _ _ Hd) as HE.
  split.
  - now apply (during_layout h h').
  - apply Sw.
  - intros x Hx. destruct (sw_horizon _ _ _ _ _ Sw x Hx)
      as (hx & t & ht & A1 & A2 & A3 & A4 & A5 & A6 & A7 & _).
    exists hx, t, ht. rewrite HE. repeat split; auto.
  - intros e [].
  - intros e he He Hv. rewrite HE in He.
    pose proof (during_visible _ _ _ Hd Hv) as Hv0.
    destruct (Htw e he He Hv0) as (t & ht & B1 & B2 & B3 & B4).
    destruct (fmark_cases h' (HalfEdge.face ht)) as [Hn|[Hvis|Hdel]].
    + apply (during_valid _ _ _ Hd) in Hn. unfold visible in B4. congruence.
    + left. exists he, t, ht. rewrite HE. repeat split; auto.
    + right; right.
      destruct (layout_edge h t ht Hlay B2) as (g & ga & i & Hi & -> & _ & Hface & _).
      rewrite Hface in *.
      destruct (sw_complete _ _ _ _ _ Sw g B4 Hdel i Hi) as [Hin|(hd & t' & ht' & C1 & C2 & C3 & C4)].
      * exists he, (3 * g + i)%nat, ht. rewrite HE. repeat split; auto.
      * exfalso. assert (hd = ht) as -> by congruence.
        assert (t' = e) as -> by congruence. assert (ht' = he) as -> by congruence.
        exact (visible_not_deleted _ _ Hv C4).
Qed.

(** When nothing is left to stitch, the mesh is closed again. *)
Lemma stitching_done h : stitching h [] [] -> dcel h.
Proof.
  intros St. split; [apply St|].
  intros e he He Hv.
  destruct (st_status _ _ _ St e he He Hv) as [Hp|[[]|Hs]].
  - destruct Hp as (he' & t & ht & C1 & C2 & C3 & C4 & C5).
    assert (he' = he) as -> by congruence. eauto 10.
  - destruct Hs as (_ & d & _ & _ & _ & [] & _).
Qed.


Lemma Face_getEdge_last f h o h' :
  Face_getEdge f (-1) h = Ok o h' ->
  exists fa e he, faceHeap h !! f = Some fa /\ Face.edge fa = Some e /\
                  edgeHeap h !! e = Some he /\ o = HalfEdge.prev he.
Proof.
  unfold Face_getEdge. intros H. inv_read H fa G. apply getFace_inv in G as [G _].
  change (0 <? -1)%Z with false in H.
  change (Z.to_nat (- -1)) with 1%nat in H. cbn [walkPrev] in H.
  inv_read H e G1. apply deref_inv in G1 as [G1 _].
  inv_read H he G2. apply getEdge_inv in G2 as [G2 _].
  injection H as <- _. eauto 10.
Qed.

(** One new face against the horizon half-edge [x]: its third half-edge is
    paired with the twin of [x]; the other two wait for their neighbours. *)
Lemma addAdjoiningFace_stitching sqrt eye x rest pend h side h' :
  stitching h (x :: rest) pend ->
  addAdjoiningFace sqrt eye x h = Ok side h' ->
  let e0 := (3 * length (faceHeap h))%nat in
  side = Some e0 /\ stitching h' rest (e0 :: (e0 + 1)%nat :: pend).
Proof.
  intros St H e0. unfold addAdjoiningFace in H.
  assert (He0 : e0 = length (edgeHeap h)) by (symmetry; apply St).
  inv_read H vt G. clear G. inv_read H vh G. clear G.
  inv_read H vt' G. clear G.
  apply bind_Ok_inv in H as (face & h1 & H1 & H).
  apply Face_create_Ok in H1. cbv zeta in H1.
  destruct H1 as (-> & fa & Hm & He & _ & ->). rewrite <- He0 in He, H.
  pose proof (stitching_grow h _ _ fa eye vt' vh St Hm) as St1.
  cbv zeta in St1. rewrite <- He0 in St1. specialize (St1 He).
  apply bind_Ok_inv in H as (u & h2 & H2 & H). injection H2 as <- <-.
  match type of H with bind _ _ ?s = _ => set (h2 := s) in * end.
  assert (St2 : stitching h2 (x :: rest) (e0 :: (e0 + 1)%nat :: (e0 + 2)%nat :: pend)).
  { eapply stitching_ext; [| |exact St1]; reflexivity. }
  clearbody h2. clear St1.
  inv_read H o G. apply Face_getEdge_last in G as (fa' & e & he & G1 & G2 & G3 & ->).
  inv_read H c G. apply deref_inv in G as [G _].
  inv_read H hx G4. apply getEdge_inv in G4 as [G4 _].
  apply bind_Ok_inv in H as (u' & h3 & H3 & H).
  apply setTwin_Ok in H3 as (t & hc & ht & Ht & Ec & Et & ->).
  pose proof (reads_Face_getEdge _ _ _ _ _ H) as ->.
  apply Face_getEdge_0 in H as (fa'' & G5 & ->).
  cbn [faceHeap set_edgeHeap] in G5.
  pose proof (st_layout _ _ _ St2) as [_ Hl2].
  destruct (Hl2 _ _ G5) as [Hedge _]. fold e0 in Hedge. split; [exact Hedge|].
  destruct (Hl2 _ _ G1) as [Hedge' Hcyc]. fold e0 in Hedge', Hcyc.
  assert (e = e0) as -> by congruence.
  destruct (Hcyc 0%nat ltac:(lia)) as (he' & K1 & _ & _ & K2).
  rewrite Nat.add_0_r in K1. assert (he' = he) as -> by congruence.
  change ((0 + 2) mod 3)%nat with 2%nat in K2.
  assert (c = (e0 + 2)%nat) as -> by congruence.
  clear K1 K2 Hcyc Hedge' G G3 G2 G1 he fa' Hedge G5 fa''.
  destruct (st_pend _ _ _ St2 (e0 + 2)%nat ltac:(cbn; auto)) as (hc' & P1 & P2 & P3).
  assert (hc' = hc) as -> by congruence. clear P1.
  destruct (st_rest _ _ _ St2 x ltac:(cbn; auto)) as (hx' & t' & ht' & R1 & R2 & R3 & R4 & R5 & R6).
  assert (hx' = hx) as -> by congruence. assert (t' = t) as -> by congruence. clear R1 R3.
  assert (Nct : (e0 + 2)%nat <> t) by (intros <-; congruence).
  rewrite list_lookup_insert_ne in Et by exact Nct.
  assert (ht' = ht) as -> by congruence. clear R4.
  rewrite Ht.
  pose proof (st_nodup _ _ _ St2) as Hnd. apply List.NoDup_cons_iff in Hnd as [Hnx Hnd].
  apply (stitching_pair h2 (x :: rest) (e0 :: (e0 + 1)%nat :: (e0 + 2)%nat :: pend));
    auto.
  - intros y hy Hy Ey. assert (y = x) as -> by congruence.
    assert (hy = hx) as -> by congruence. auto.
  - intros y Hy. now right.
  - intros d hd y [<-|Hd] Ed Hy Nyt; [|exact Hd].
    exfalso. apply Nyt. congruence.
  - intros y Hy. split; [cbn in Hy |- *; tauto|].
    assert (In y (e0 :: (e0 + 1)%nat :: (e0 + 2)%nat :: pend)) as Hy' by (cbn in Hy |- *; tauto).
    destruct (st_pend _ _ _ St2 y Hy') as (hy & Q1 & Q2 & Q3).
    split; [|intros ->; congruence].
    destruct Hy as [<-|[<-|Hy]]; [lia..|].
    destruct (st_pend _ _ _ St y Hy) as (hy0 & Q4 & _).
    apply lookup_lt_Some in Q4. lia.
  - intros y [Hy|[Hy|[Hy|Hy]]] N1 N2;
      [left; exact Hy | right; left; exact Hy | exfalso; apply N1; now symmetry
      | right; right; exact Hy].
Qed.


(** [edge.next.setTwin (other)] for two half-edges that wait for a twin. *)
Lemma joinNext_stitching f0 a p rest pend pend' h u h' :
  stitching h rest pend -> a = (3 * f0)%nat ->
  In (a + 1)%nat pend -> In p pend -> (a + 1)%nat <> p ->
  (forall y, In y pend' -> In y pend /\ y <> (a + 1)%nat /\ y <> p) ->
  (forall y, In y pend -> y <> (a + 1)%nat -> y <> p -> In y pend') ->
  joinNext (Some a) (Some p) h = Ok u h' ->
  stitching h' rest pend'.
Proof.
  intros St Ha Hb Hp Hne Hp1 Hp2 H. unfold joinNext in H.
  inv_read H e G. apply deref_inv in G as [[= <-] _].
  inv_read H ha G. apply getEdge_inv in G as [G _].
  destruct (layout_edge h _ ha (st_layout _ _ _ St) G) as (f & fa & i & Hi & Hfi & _ & _ & Hn & _).
  assert (f = f0 /\ i = 0%nat) as [-> ->] by lia.
  change ((0 + 1) mod 3)%nat with 1%nat in Hn. rewrite <- Ha in Hn. rewrite Hn in H.
  inv_read H b G'. apply deref_inv in G' as [[= <-] _].
  apply setTwin_Ok in H as (t & hb & hp & [= <-] & Eb & Ep & ->).
  rewrite list_lookup_insert_ne in Ep by exact Hne.
  destruct (st_pend _ _ _ St _ Hb) as (hb' & B1 & B2 & B3).
  destruct (st_pend _ _ _ St _ Hp) as (hp' & C1 & C2 & C3).
  assert (hb' = hb) as -> by congruence. assert (hp' = hp) as -> by congruence.
  apply (stitching_pair h rest pend); auto.
  - intros y hy Hy. congruence.
  - apply St.
Qed.

Lemma addNewFaces_turn sqrt eye x rest acc pend h r h' :
  stitching h (x :: rest) pend -> seam acc pend ->
  (let* sideEdge := addAdjoiningFace sqrt eye x in
   let* firstSideEdge :=
     match fst acc with
     | None => ret sideEdge
     | Some _ => joinNext sideEdge (snd acc) ;; ret (fst acc)
     end in
   let* se := deref sideEdge in
   let* hs := getEdge se in
   modify (fun h => set_newFaces (newFaces h ++ [HalfEdge.face hs]) h) ;;
   ret (firstSideEdge, sideEdge)) h = Ok r h' ->
  exists pend', stitching h' rest pend' /\ seam r pend'.
Proof.
  intros St Hseam H.
  apply bind_Ok_inv in H as (side & h1 & H1 & H).
  apply (addAdjoiningFace_stitching _ _ _ _ _ _ _ _ St) in H1 as [-> St1].
  set (nF := length (faceHeap h)) in *.
  assert (Hlen : length (edgeHeap h) = (3 * nF)%nat) by apply St.
  apply bind_Ok_inv in H as (first & h2 & H2 & H).
  assert (exists pend', stitching h2 rest pend' /\ seam (first, Some (3 * nF)%nat) pend')
    as (pend' & St2 & Hseam').
  { destruct Hseam as [[-> ->]|(f0 & fp & -> & ->)]; cbn [fst snd] in H2.
    - injection H2 as <- <-. exists [(3 * nF)%nat; (3 * nF + 1)%nat]. split; [exact St1|].
      right. exists nF, nF. auto.
    - apply bind_Ok_inv in H2 as (u & h2' & H2 & H3). injection H3 as <- <-.
      exists [(3 * nF)%nat; (3 * f0 + 1)%nat]. split; [|right; exists f0, nF; auto].
      destruct (st_pend _ _ _ St (3 * fp)%nat ltac:(cbn; auto)) as (? & Q1 & _).
      destruct (st_pend _ _ _ St (3 * f0 + 1)%nat ltac:(cbn; auto)) as (? & Q2 & _).
      apply lookup_lt_Some in Q1, Q2.
      eapply (joinNext_stitching nF); [exact St1|reflexivity| | | | | |exact H2].
      + cbn; auto.
      + cbn; auto.
      + lia.
      + intros y [<-|[<-|[]]]; (split; [cbn; auto|lia]).
      + intros y [<-|[<-|[<-|[<-|[]]]]] N1 N2; cbn; auto; contradiction. }
  inv_read H se G. clear G. inv_read H hs G. clear G.
  apply bind_Ok_inv in H as (u & h3 & H3 & H). injection H3 as <- <-.
  injection H as <- <-. exists pend'. split; [|exact Hseam'].
  eapply stitching_ext; [| |exact St2]; reflexivity.
Qed.

Lemma addNewFaces_turns sqrt eye : forall horizon acc pend h r h',
  stitching h horizon pend -> seam acc pend ->
  foldM (fun (acc : option nat * option nat) (horizonEdge : nat) =>
      let* sideEdge := addAdjoiningFace sqrt eye horizonEdge in
      let* firstSideEdge :=
        match fst acc with
        | None => ret sideEdge
        | Some _ => joinNext sideEdge (snd acc) ;; ret (fst acc)
        end in
      let* se := deref sideEdge in
      let* hs := getEdge se in
      modify (fun h => set_newFaces (newFaces h ++ [HalfEdge.face hs]) h) ;;
      ret (firstSideEdge, sideEdge)) horizon acc h = Ok r h' ->
  exists pend', stitching h' [] pend' /\ seam r pend'.
Proof.
  induction horizon as [|x rest IH]; intros acc pend h r h' St Hseam H; cbn [foldM] in H.
  - injection H as <- <-. eauto.
  - apply bind_Ok_inv in H as (acc' & h1 & H1 & H).
    destruct (addNewFaces_turn _ _ _ _ _ _ _ _ _ St Hseam H1) as (pend1 & St1 & Hseam1).
    exact (IH _ _ _ _ _ St1 Hseam1 H).
Qed.

(** The new faces close the hole that the traversal has left. *)
Lemma addNewFaces_dcel sqrt eye horizon h h' :
  stitching h horizon [] -> addNewFaces sqrt eye horizon h = Ok tt h' -> dcel h'.
Proof.
  intros St H. unfold addNewFaces in H.
  apply bind_Ok_inv in H as (u & h1 & H1 & H). injection H1 as <- <-.
  apply bind_Ok_inv in H as (r & h2 & H2 & H).
  eapply addNewFaces_turns in H2 as (pend & St2 & Hseam).
  2: { eapply stitching_ext; [| |exact St]; reflexivity. }
  2: { left. auto. }
  destruct Hseam as [[-> ->]|(f0 & fp & -> & ->)]; cbn [fst snd] in H; [discriminate|].
  apply stitching_done.
  eapply (joinNext_stitching f0); [exact St2|reflexivity| | | | | |exact H].
  - cbn; auto.
  - cbn; auto.
  - lia.
  - intros y [].
  - intros y [<-|[<-|[]]] N1 N2; contradiction.
Qed.


(** ** Adding a vertex keeps the mesh closed *)

Lemma keeps_reads {A} (c : M A) : reads c -> keeps c.
Proof. intros Hc h a h' H. now rewrite (Hc _ _ _ H). Qed.

Lemma keeps_bind {A B} (c : M A) (k : A -> M B) :
  keeps c -> (forall a, keeps (k a)) -> keeps (bind c k).
Proof.
  intros Hc Hk h b h' H. apply bind_Ok_inv in H as (a & h0 & E1 & E2).
  rewrite (Hk _ _ _ _ E2). exact (Hc _ _ _ E1).
Qed.

Lemma keeps_modify (g : hull -> hull) :
  (forall h, vertices (g h) = vertices h) -> keeps (modify g).
Proof. intros Hg h a h' [= _ <-]. unfold owners. now rewrite Hg. Qed.

Lemma keeps_modVertex v g :
  (forall n, VertexNode.face (g n) = VertexNode.face n) -> keeps (modVertex v g).
Proof.
  intros Hg h a h' H. unfold modVertex in H.
  apply bind_Ok_inv in H as (n & h0 & E1 & E2).
  apply getVertex_inv in E1 as [E1 ->]. injection E2 as _ <-.
  unfold owners. cbn [vertices set_vertices]. now apply map_insert_same with (x := n).
Qed.

Lemma keeps_modFace f g : keeps (modFace f g).
Proof.
  intros h a h' H. apply modFace_inv in H as (x & _ & ->). reflexivity.
Qed.

Lemma keeps_setHead o : keeps (setHead assignedL o).
Proof. now apply keeps_modify. Qed.

Lemma keeps_setTail o : keeps (setTail assignedL o).
Proof. now apply keeps_modify. Qed.

Lemma keeps_VertexList_remove v : keeps (VertexList_remove assignedL v).
Proof.
  unfold VertexList_remove.
  repeat first
    [ apply keeps_setHead | apply keeps_setTail
    | apply keeps_modVertex; intros []; reflexivity
    | apply keeps_reads; solve [eauto with reads]
    | match goal with |- keeps (match ?o with _ => _ end) => destruct o end
    | apply keeps_bind; [|intros ?] ].
Qed.

Lemma keeps_removeVertexFromFace v o : keeps (removeVertexFromFace v o).
Proof.
  unfold removeVertexFromFace.
  repeat first
    [ apply keeps_VertexList_remove | apply keeps_modFace
    | apply keeps_reads; solve [eauto with reads]
    | match goal with
      | |- keeps (match ?o with _ => _ end) => destruct o
      | |- keeps (if ?b then _ else _) => destruct b
      end
    | apply keeps_bind; [|intros ?] ].
Qed.

Lemma owners_lookup h h' v n :
  owners h' = owners h -> vertices h' !! v = Some n ->
  exists n0, vertices h !! v = Some n0 /\ VertexNode.face n0 = VertexNode.face n.
Proof.
  unfold owners. intros Ho Hn.
  pose proof (map_lookup VertexNode.face _ _ _ Hn) as H1. rewrite Ho in H1.
  apply map_lookup_Some in H1 as (n0 & H1 & H2). eauto.
Qed.

Lemma addVertexToHull_dcel sqrt eye h h' :
  dcel h ->
  (forall n, vertices h !! eye = Some n ->
     exists f, VertexNode.face n = Some f /\ visible h f) ->
  addVertexToHull sqrt eye h = Ok tt h' -> dcel h'.
Proof.
  intros Hd Heye H. unfold addVertexToHull in H.
  apply bind_Ok_inv in H as (u & h1 & H1 & H). injection H1 as _ <-.
  match type of H with bind _ _ ?s = _ => set (h1 := s) in * end.
  assert (M1 : mesh h1 = mesh h) by reflexivity.
  assert (O1 : owners h1 = owners h) by reflexivity.
  clearbody h1.
  inv_read H ev G. clear G.
  apply bind_Ok_inv in H as (u' & h2 & H2 & H).
  pose proof (frames_Ok _ _ _ _ (frames_removeVertexFromFace _ _) H2) as M2.
  pose proof (keeps_removeVertexFromFace _ _ _ _ _ H2) as O2. clear H2 ev.
  inv_read H ev G. apply getVertex_inv in G as [G _].
  destruct (owners_lookup h h2 eye ev ltac:(congruence) G) as (n0 & G0 & Hface).
  destruct (Heye n0 G0) as (f & Hf & Hvis).
  inv_read H f' G'. apply deref_inv in G' as [G' _].
  assert (f' = f) as -> by congruence.
  inv_read H n Gn. clear Gn.
  apply bind_Ok_inv in H as (horizon & h3 & H3 & H).
  assert (M20 : mesh h = mesh h2) by congruence.
  pose proof (mesh_dcel _ _ M20 Hd) as Hd2.
  assert (Hvis2 : visible h2 f).
  { unfold visible in *. now rewrite (mesh_fmark _ _ f M20). }
  apply (computeHorizon_spec _ _ None _ _ _ _ _ (dcel_ready _ Hd2) Hvis2 I) in H3
    as (new & -> & Sw).
  apply bind_Ok_inv in H as ([] & h4 & H4 & H).
  apply (addNewFaces_dcel _ _ _ _ _ (stitching_start _ _ _ _ _ Hd2 Sw)) in H4.
  inv_read H nf Gnf. clear Gnf.
  pose proof (frames_Ok _ _ _ _ (frames_resolveUnassignedPoints _) H) as M5.
  exact (mesh_dcel _ _ (eq_sym M5) H4).
Qed.


Lemma grown_dcel sqrt h : grown sqrt h -> dcel h.
Proof.
  induction 1 as [h h' HF HE H | fuel eyePoint eyeVertex f h horizon h1 h2 _ IH Hv H1 H2
                 | eye h h' _ IH Heye H].
  - exact (computeInitialHull_dcel _ _ _ HF HE H).
  - apply (computeHorizon_spec _ _ None _ _ _ _ _ (dcel_ready _ IH) Hv I) in H1
      as (new & -> & Sw).
    exact (addNewFaces_dcel _ _ _ _ _ (stitching_start _ _ _ _ _ IH Sw) H2).
  - exact (addVertexToHull_dcel _ _ _ _ IH Heye H).
Qed.


Lemma run_final (c : M unit) h : thrown (c h) = None -> c h = Ok tt (final (c h)).
Proof. destruct (c h) as [[] h0|e h0]; [reflexivity|discriminate]. Qed.

(** C7: after the construction of the initial simplex, and after every
    [addNewFaces] that follows (on the horizon seen from a live face, as
    [addVertexToHull] calls it), every half-edge [e] of a live face has
    [e.twin.twin == e], and every half-edge has [e.next.next.next == e], the
    three being distinct half-edges of one face. *)
Theorem grown_closed sqrt h : grown sqrt h -> involution h /\ triangles h.
Proof. intros Hg. apply dcel_closed. exact (grown_dcel sqrt h Hg). Qed.

(** C7, witness: the cube, after the initial tetrahedron and the new faces
    around corner 5. *)
Lemma grown_closed_witness :
  grown Qsqrt (final (addVertexToHull Qsqrt 5 cubeStart)) /\
  involution (final (addVertexToHull Qsqrt 5 cubeStart)) /\
  triangles (final (addVertexToHull Qsqrt 5 cubeStart)).
Proof.
  assert (H0 : thrown (computeInitialHull Qsqrt (prepared cube new)) = None)
    by (vm_compute; reflexivity).
  assert (H1 : thrown (addVertexToHull Qsqrt 5 cubeStart) = None)
    by (vm_compute; reflexivity).
  assert (exists n, vertices cubeStart !! 5%nat = Some n /\ VertexNode.face n = Some 0%nat)
    as (n0 & Hn0 & Hface) by (eexists; split; vm_compute; reflexivity).
  assert (Hvis : visible cubeStart 0) by (vm_compute; reflexivity).
  assert (Hg : grown Qsqrt (final (addVertexToHull Qsqrt 5 cubeStart))).
  { apply (grown_vertex Qsqrt 5 cubeStart).
    - exact (grown_initial Qsqrt (prepared cube new) cubeStart eq_refl eq_refl
               (run_final (computeInitialHull Qsqrt) (prepared cube new) H0)).
    - intros n Hn. exists 0%nat. split; [congruence|exact Hvis].
    - exact (run_final (addVertexToHull Qsqrt 5) cubeStart H1). }
  split; [exact Hg|]. exact (grown_closed Qsqrt _ Hg).
Defined.


(** ** A thin input *)

Lemma needle_spans : ~ coplanar needle.
Proof.
  intros (n & c & Hn & H). apply Hn.
  pose proof (H (P (- 2 ^ 50) 0 0) ltac:(cbn; auto)) as H0.
  pose proof (H (P (2 ^ 50) 0 0) ltac:(cbn; auto)) as H1.
  pose proof (H (P (2 ^ 50) 0 1) ltac:(cbn; auto)) as H2.
  pose proof (H (P (2 ^ 50) 1 0) ltac:(cbn; auto)) as H3.
  unfold Vector3.dot, P in *. cbn [Vector3.x Vector3.y Vector3.z] in *.
  change (inject_Z 0) with 0 in *. change (inject_Z 1) with 1 in *.
  set (L := inject_Z (2 ^ 50)) in *.
  assert (HL : inject_Z (- 2 ^ 50) == - L) by reflexivity.
  rewrite HL in H0.
  assert (0 < L) by reflexivity.
  assert (Hx : Vector3.x n == 0) by nra.
  repeat split; nra.
Qed.

(** C5: the containment fails on a thin input.  The five points of [needle]
    span the space and the builder returns a hull, of six faces; the face
    made of the points 4, 3 and 1 when point 3 is added has the first input
    point more than [1] beyond it, with a tolerance below [1], so that
    [containsPoint] is false on this input point. *)
Theorem needle_not_contained :
  let o := snd (setFromPoints Qsqrt needle new) in
  let p := P (- 2 ^ 50) 0 0 in
  ~ coplanar needle /\ In p needle /\
  reportOf o = Built /\ length (faces (final o)) = 6%nat /\
  tolerance (final o) < 1 /\
  (exists f fa, In f (faces (final o)) /\ faceHeap (final o) !! f = Some fa /\
                1 < Face.distanceToPoint fa p) /\
  containsPoint (final o) p = false.
Proof.
  cbv zeta. split; [exact needle_spans|]. split; [cbn; auto|].
  split; [vm_compute; reflexivity|]. split; [vm_compute; reflexivity|].
  split; [vm_compute; reflexivity|]. split; [|vm_compute; reflexivity].
  exists (List.last (faces (final (snd (setFromPoints Qsqrt needle new)))) 0%nat).
  eexists. split; [vm_compute; tauto|]. split; [vm_compute; reflexivity|].
  vm_compute. reflexivity.
Qed.


(** The finished hulls of the examples are closed, the thin one too. *)
Example finished_hulls_closed :
  forallb (fun points => dcelb (final (snd (setFromPoints Qsqrt points new))))
          [tetrahedron; cube; unitSquare; needle] = true.
Proof. vm_compute. reflexivity. Qed.


(** ** The lists of vertices *)

Lemma nodup_app {A} (l k : list A) :
  List.NoDup (l ++ k) <-> List.NoDup l /\ List.NoDup k /\ forall a, In a l -> ~ In a k.
Proof.
  rewrite <- !NoDup_ListNoDup, NoDup_app. split.
  - intros (H1 & H2 & H3). repeat split; auto.
    intros a Ha Hk. apply (H2 a); now apply list_elem_of_In.
  - intros (H1 & H2 & H3). repeat split; auto.
    intros a Ha Hk. apply (H3 a); now apply list_elem_of_In.
Qed.

Lemma last_or_app p A B : last_or p (A ++ B) = last_or (last_or p A) B.
Proof. unfold last_or. now rewrite fold_left_app. Qed.

Lemma last_or_cons p v A : last_or p (v :: A) = last_or (Some v) A.
Proof. reflexivity. Qed.

Lemma last_or_snoc p A v : last_or p (A ++ [v]) = Some v.
Proof. now rewrite last_or_app. Qed.

Lemma hd_or_app A B q : hd_or (A ++ B) q = hd_or A (hd_or B q).
Proof. now destruct A. Qed.

Lemma dll_app vs : forall A p B q,
  dll vs p (A ++ B) q <-> dll vs p A (hd_or B q) /\ dll vs (last_or p A) B q.
Proof.
  induction A as [|v A IH]; intros p B q; cbn [app dll].
  - cbn. tauto.
  - rewrite last_or_cons. split.
    + intros (n & E & Hp & Hn & H). apply IH in H as [H1 H2].
      split; [|exact H2]. exists n. rewrite hd_or_app in Hn. auto.
    + intros [(n & E & Hp & Hn & H1) H2]. exists n. rewrite hd_or_app.
      repeat split; auto. apply IH. auto.
Qed.

Lemma dll_frame vs vs' : forall L p q,
  (forall v, In v L -> vs' !! v = vs !! v) -> dll vs p L q -> dll vs' p L q.
Proof.
  induction L as [|v L IH]; intros p q Hs; cbn [dll]; [auto|].
  intros (n & E & Hp & Hn & H). exists n. rewrite (Hs v) by (cbn; auto).
  repeat split; auto. apply IH; [|exact H]. intros w Hw. apply Hs. cbn. auto.
Qed.

Lemma chain_frame vs vs' : forall L q,
  (forall v, In v L -> vs' !! v = vs !! v) -> chain vs L q -> chain vs' L q.
Proof.
  induction L as [|v L IH]; intros q Hs; cbn [chain]; [auto|].
  intros (n & E & Hn & H). exists n. rewrite (Hs v) by (cbn; auto).
  repeat split; auto. apply IH; [|exact H]. intros w Hw. apply Hs. cbn. auto.
Qed.

Lemma dll_chain vs : forall L p q, dll vs p L q -> chain vs L q.
Proof.
  induction L as [|v L IH]; intros p q; cbn [dll chain]; [auto|].
  intros (n & E & Hp & Hn & H). exists n. eauto.
Qed.

Lemma chain_app vs : forall A B q,
  chain vs (A ++ B) q <-> chain vs A (hd_or B q) /\ chain vs B q.
Proof.
  induction A as [|v A IH]; intros B q; cbn [app chain].
  - tauto.
  - split.
    + intros (n & E & Hn & H). apply IH in H as [H1 H2].
      split; [|exact H2]. exists n. rewrite hd_or_app in Hn. auto.
    + intros [(n & E & Hn & H1) H2]. exists n. rewrite hd_or_app.
      repeat split; auto. apply IH. auto.
Qed.

Lemma dll_lookup vs : forall L p q v, dll vs p L q -> In v L -> exists n, vs !! v = Some n.
Proof.
  induction L as [|w L IH]; intros p q v; cbn [dll]; [intros _ []|].
  intros (n & E & _ & _ & H) [<-|Hv]; eauto.
Qed.

(** The node of a vertex in the middle of a list. *)
Lemma dll_middle vs A v C p q :
  dll vs p (A ++ v :: C) q ->
  exists n, vs !! v = Some n /\ VertexNode.prev n = last_or p A /\
            VertexNode.next n = hd_or C q.
Proof.
  intros H. apply dll_app in H as [_ H]. cbn [dll] in H.
  destruct H as (n & E & Hp & Hn & _). eauto.
Qed.

(** Writing [next] of the last vertex, [prev] of the first. *)
Lemma dll_set_next vs A v p q q' n :
  dll vs p (A ++ [v]) q -> vs !! v = Some n -> ~ In v A ->
  dll (<[v := VertexNode.set_next q' n]> vs) p (A ++ [v]) q'.
Proof.
  intros H E Hv. apply dll_app in H as [H1 H2]. apply dll_app. split.
  - apply (dll_frame vs); [|exact H1]. intros w Hw.
    apply list_lookup_insert_ne. intros <-. contradiction.
  - cbn [dll] in *. destruct H2 as (n' & E' & Hp & _ & _).
    assert (n' = n) as -> by congruence.
    exists (VertexNode.set_next q' n). rewrite list_lookup_insert_eq
      by (eapply lookup_lt_Some; eauto). destruct n; cbn in *. auto.
Qed.

Lemma dll_set_prev vs v C p p' q n :
  dll vs p (v :: C) q -> vs !! v = Some n -> ~ In v C ->
  dll (<[v := VertexNode.set_prev p' n]> vs) p' (v :: C) q.
Proof.
  intros H E Hv. cbn [dll] in *. destruct H as (n' & E' & Hp & Hn & H).
  assert (n' = n) as -> by congruence.
  exists (VertexNode.set_prev p' n). rewrite list_lookup_insert_eq
    by (eapply lookup_lt_Some; eauto). split; [reflexivity|].
  split; [now destruct n|]. split; [now destruct n|].
  apply (dll_frame vs); [|exact H]. intros w Hw.
  apply list_lookup_insert_ne. intros <-. contradiction.
Qed.

Lemma fixes_reads {A B} (proj : hull -> B) (c : M A) : reads c -> fixes proj c.
Proof. intros Hc h a h' H. now rewrite (Hc _ _ _ H). Qed.

Lemma fixes_bind {A B C} (proj : hull -> C) (c : M A) (k : A -> M B) :
  fixes proj c -> (forall a, fixes proj (k a)) -> fixes proj (bind c k).
Proof.
  intros Hc Hk h b h' H. apply bind_Ok_inv in H as (a & h0 & E1 & E2).
  rewrite (Hk _ _ _ _ E2). exact (Hc _ _ _ E1).
Qed.

Lemma fixes_modify {B} (proj : hull -> B) (g : hull -> hull) :
  (forall h, proj (g h) = proj h) -> fixes proj (modify g).
Proof. intros Hg h a h' [= _ <-]. apply Hg. Qed.

Lemma fixes_throw {A B} (proj : hull -> B) e : fixes proj (@throw A e).
Proof. intros h a h' H. discriminate. Qed.

(** Breaks a computation into its steps, down to [modify]. *)
Ltac fixes_step :=
  repeat first
    [ apply fixes_reads; solve [eauto with reads]
    | apply fixes_throw
    | apply fixes_modify; intros ?; reflexivity
    | match goal with
      | |- fixes _ (match ?o with _ => _ end) => destruct o
      | |- fixes _ (if ?b then _ else _) => destruct b
      end
    | apply fixes_bind; [|intros ?] ].

Lemma modVertex_inv h v g u h' :
  modVertex v g h = Ok u h' ->
  exists n, vertices h !! v = Some n /\ h' = set_vertices (<[v := g n]> (vertices h)) h.
Proof.
  unfold modVertex. intros H. apply bind_Ok_inv in H as (x & h0 & E1 & E2).
  apply getVertex_inv in E1 as [E1 ->]. injection E2 as <-. eauto.
Qed.

Lemma modVertex_Ok h v g n :
  vertices h !! v = Some n ->
  modVertex v g h = Ok tt (set_vertices (<[v := g n]> (vertices h)) h).
Proof.
  intros H. unfold modVertex. rewrite (bind_Ok _ _ _ _ _ (getVertex_Ok h v n H)). reflexivity.
Qed.

Lemma fixes_append {B} (proj : hull -> B) L v :
  (forall vs h, proj (set_vertices vs h) = proj h) ->
  (forall l h, proj (lset L l h) = proj h) ->
  fixes proj (VertexList_append L v).
Proof.
  intros H1 H2. unfold VertexList_append, setHead, setTail, modVertexAt, modVertex.
  repeat first
    [ apply fixes_reads; solve [eauto with reads]
    | apply fixes_modify; intros ?; solve [apply H1 | apply H2]
    | match goal with
      | |- fixes _ (match ?o with _ => _ end) => destruct o
      end
    | apply fixes_bind; [|intros ?] ].
Qed.

Lemma lawful_assigned : lawful assignedL.
Proof. split; reflexivity. Qed.

Lemma lawful_unassigned : lawful unassignedL.
Proof. split; reflexivity. Qed.

Lemma head_set_tail o l : VertexList.head (VertexList.set_tail o l) = VertexList.head l.
Proof. now destruct l. Qed.
Lemma tail_set_tail o l : VertexList.tail (VertexList.set_tail o l) = o.
Proof. now destruct l. Qed.
Lemma head_set_head o l : VertexList.head (VertexList.set_head o l) = o.
Proof. now destruct l. Qed.
Lemma tail_set_head o l : VertexList.tail (VertexList.set_head o l) = VertexList.tail l.
Proof. now destruct l. Qed.

Lemma setHead_effect L o h u h' :
  lawful L -> setHead L o h = Ok u h' ->
  vertices h' = vertices h /\ lget L h' = VertexList.set_head o (lget L h).
Proof. intros HL [= _ <-]. now rewrite (law_vertices _ HL), (law_get_set _ HL). Qed.

Lemma setTail_effect L o h u h' :
  lawful L -> setTail L o h = Ok u h' ->
  vertices h' = vertices h /\ lget L h' = VertexList.set_tail o (lget L h).
Proof. intros HL [= _ <-]. now rewrite (law_vertices _ HL), (law_get_set _ HL). Qed.

Lemma modVertex_effect L v g h u h' :
  lawful L -> modVertex v g h = Ok u h' ->
  exists n, vertices h !! v = Some n /\ vertices h' = <[v := g n]> (vertices h) /\
            lget L h' = lget L h.
Proof.
  intros HL H. apply modVertex_inv in H as (n & E & ->). exists n.
  now rewrite (law_get _ HL).
Qed.

(** Linking the last vertex of a list to [q], or [head] when there is none. *)
Lemma link_last L h A q q' u h' :
  lawful L -> List.NoDup A -> dll (vertices h) None A q ->
  match last_or None A with
  | None => setHead L q'
  | Some p => modVertex p (VertexNode.set_next q')
  end h = Ok u h' ->
  VertexList.head (lget L h) = hd_or A q ->
  dll (vertices h') None A q' /\
  VertexList.head (lget L h') = hd_or A q' /\
  VertexList.tail (lget L h') = VertexList.tail (lget L h) /\
  (forall w, ~ In w A -> vertices h' !! w = vertices h !! w).
Proof.
  intros HL Hnd Hd H Hh. destruct A as [|a A _] using rev_ind.
  - cbn in H. apply (setHead_effect _ _ _ _ _ HL) in H as [-> ->].
    destruct (lget L h). cbn. auto.
  - rewrite last_or_snoc in H.
    apply (modVertex_effect L _ _ _ _ _ HL) in H as (n & En & -> & ->).
    apply nodup_app in Hnd as (_ & _ & Hna).
    split; [|split; [|split]].
    + apply dll_set_next with (q := q); auto.
      intros Ha. apply (Hna a Ha). cbn. auto.
    + rewrite Hh. rewrite !hd_or_app. now destruct A.
    + reflexivity.
    + intros w Hw. apply list_lookup_insert_ne. intros <-. apply Hw.
      apply in_app_iff. cbn. auto.
Qed.

(** Linking the first vertex of a list to [p], or [tail] when there is none. *)
Lemma link_first L h C p p' u h' :
  lawful L -> List.NoDup C -> dll (vertices h) p C None ->
  match hd_or C None with
  | None => setTail L p'
  | Some n => modVertex n (VertexNode.set_prev p')
  end h = Ok u h' ->
  VertexList.tail (lget L h) = last_or p C ->
  dll (vertices h') p' C None /\
  VertexList.tail (lget L h') = last_or p' C /\
  VertexList.head (lget L h') = VertexList.head (lget L h) /\
  (forall w, ~ In w C -> vertices h' !! w = vertices h !! w).
Proof.
  intros HL Hnd Hd H Ht. destruct C as [|c C].
  - cbn in H. apply (setTail_effect _ _ _ _ _ HL) in H as [-> ->].
    destruct (lget L h). cbn. auto.
  - cbn [hd_or] in H.
    apply (modVertex_effect L _ _ _ _ _ HL) in H as (n & En & -> & ->).
    apply List.NoDup_cons_iff in Hnd as [Hc Hnd].
    split; [|split; [|split]].
    + apply dll_set_prev with (p := p); auto.
    + rewrite Ht. reflexivity.
    + reflexivity.
    + intros w Hw. apply list_lookup_insert_ne. intros <-. apply Hw. cbn. auto.
Qed.

Lemma link_last_Ok L h A q q' :
  dll (vertices h) None A q ->
  exists h', match last_or None A with
             | None => setHead L q'
             | Some p => modVertex p (VertexNode.set_next q')
             end h = Ok tt h'.
Proof.
  intros Hd. destruct A as [|a A _] using rev_ind.
  - eexists. reflexivity.
  - rewrite last_or_snoc.
    destruct (dll_lookup _ _ _ _ a Hd) as [n En]; [apply in_app_iff; cbn; auto|].
    eexists. apply modVertex_Ok. exact En.
Qed.

Lemma link_first_Ok L h C p p' :
  dll (vertices h) p C None ->
  exists h', match hd_or C None with
             | None => setTail L p'
             | Some n => modVertex n (VertexNode.set_prev p')
             end h = Ok tt h'.
Proof.
  intros Hd. destruct C as [|c C].
  - eexists. reflexivity.
  - destruct (dll_lookup _ _ _ _ c Hd) as [n En]; [cbn; auto|].
    eexists. apply modVertex_Ok. exact En.
Qed.

Lemma last_or_None A : last_or None A = None -> A = [].
Proof.
  destruct A as [|a A _] using rev_ind; [reflexivity|].
  rewrite last_or_snoc. discriminate.
Qed.

Lemma bind_gets {A B} (f : hull -> A) (k : A -> M B) h :
  bind (gets f) k h = k (f h) h.
Proof. reflexivity. Qed.

(** The first step of [append] and of [appendChain]. *)
Lemma append_start L h Ls g :
  holds L h Ls ->
  match VertexList.head (lget L h) with
  | None => setHead L g
  | Some _ => modVertexAt (VertexList.tail (lget L h)) (VertexNode.set_next g)
  end h =
  match last_or None Ls with
  | None => setHead L g
  | Some p => modVertex p (VertexNode.set_next g)
  end h.
Proof.
  intros [_ _ Hh Ht]. rewrite Hh, Ht.
  destruct Ls as [|a Ls]; [reflexivity|]. cbn [hd_or].
  destruct (last_or None (a :: Ls)) eqn:E; [reflexivity|].
  apply last_or_None in E. discriminate.
Qed.

Lemma modVertex_step L h v g n :
  lawful L -> vertices h !! v = Some n ->
  exists h', modVertex v g h = Ok tt h' /\
             vertices h' = <[v := g n]> (vertices h) /\ lget L h' = lget L h.
Proof.
  intros HL E. eexists. split; [apply modVertex_Ok; exact E|].
  split; [reflexivity|apply (law_get _ HL)].
Qed.

Lemma link_last_step L h A q q' :
  lawful L -> List.NoDup A -> dll (vertices h) None A q ->
  VertexList.head (lget L h) = hd_or A q ->
  exists h',
    match last_or None A with
    | None => setHead L q'
    | Some p => modVertex p (VertexNode.set_next q')
    end h = Ok tt h' /\
    dll (vertices h') None A q' /\
    VertexList.head (lget L h') = hd_or A q' /\
    VertexList.tail (lget L h') = VertexList.tail (lget L h) /\
    (forall w, ~ In w A -> vertices h' !! w = vertices h !! w).
Proof.
  intros HL Hnd Hd Hh. destruct (link_last_Ok L h A q q' Hd) as [h' H].
  exists h'. split; [exact H|]. exact (link_last _ _ _ _ _ _ _ HL Hnd Hd H Hh).
Qed.

Lemma link_first_step L h C p p' :
  lawful L -> List.NoDup C -> dll (vertices h) p C None ->
  VertexList.tail (lget L h) = last_or p C ->
  exists h',
    match hd_or C None with
    | None => setTail L p'
    | Some n => modVertex n (VertexNode.set_prev p')
    end h = Ok tt h' /\
    dll (vertices h') p' C None /\
    VertexList.tail (lget L h') = last_or p' C /\
    VertexList.head (lget L h') = VertexList.head (lget L h) /\
    (forall w, ~ In w C -> vertices h' !! w = vertices h !! w).
Proof.
  intros HL Hnd Hd Ht. destruct (link_first_Ok L h C p p' Hd) as [h' H].
  exists h'. split; [exact H|]. exact (link_first _ _ _ _ _ _ _ HL Hnd Hd H Ht).
Qed.

(** [append]: the vertex becomes the last of the list. *)
Lemma append_step L h Ls v :
  lawful L -> holds L h Ls -> ~ In v Ls -> is_Some (vertices h !! v) ->
  exists h', VertexList_append L v h = Ok tt h' /\ holds L h' (Ls ++ [v]) /\
             (forall w, ~ In w Ls -> w <> v -> vertices h' !! w = vertices h !! w).
Proof.
  intros HL Hh Hv [n En]. pose proof Hh as [Hnd Hd Hhd Htl].
  unfold VertexList_append. rewrite bind_gets.
  destruct (link_last_step L h Ls None (Some v) HL Hnd Hd Hhd)
    as (h1 & E1 & D1 & Hd1 & Ht1 & F1).
  rewrite <- (append_start L h Ls (Some v) Hh) in E1.
  rewrite (bind_Ok _ _ _ _ _ E1), bind_gets.
  assert (En1 : vertices h1 !! v = Some n) by (rewrite F1; auto).
  destruct (modVertex_step L h1 v (VertexNode.set_prev (VertexList.tail (lget L h1))) n HL En1)
    as (h2 & E2 & V2 & G2).
  rewrite (bind_Ok _ _ _ _ _ E2).
  set (n2 := VertexNode.set_prev (VertexList.tail (lget L h1)) n) in *.
  assert (En2 : vertices h2 !! v = Some n2).
  { rewrite V2. apply list_lookup_insert_eq. eapply lookup_lt_Some; eauto. }
  destruct (modVertex_step L h2 v (VertexNode.set_next None) n2 HL En2)
    as (h3 & E3 & V3 & G3).
  rewrite (bind_Ok _ _ _ _ _ E3).
  eexists. split; [reflexivity|].
  assert (V3' : vertices h3 = <[v := VertexNode.set_next None n2]> (vertices h1)).
  { rewrite V3, V2. apply list_insert_insert_eq. }
  split; [split|].
  - apply nodup_app. repeat split; auto.
    + constructor; [intros []|constructor].
    + intros a Ha [<-|[]]. contradiction.
  - rewrite (law_vertices _ HL), V3'. apply dll_app. split.
    + apply (dll_frame (vertices h1)); [|exact D1].
      intros w Hw. apply list_lookup_insert_ne. intros <-. contradiction.
    + cbn [dll]. eexists.
      rewrite list_lookup_insert_eq by (eapply lookup_lt_Some; eauto).
      split; [reflexivity|]. unfold n2. rewrite Ht1, Htl. destruct n; cbn. auto.
  - rewrite (law_get_set _ HL), head_set_tail, G3, G2, Hd1. now rewrite hd_or_app.
  - now rewrite (law_get_set _ HL), tail_set_tail, last_or_snoc.
  - intros w Hw Hwv. rewrite (law_vertices _ HL), V3'.
    rewrite list_lookup_insert_ne by auto. now apply F1.
Qed.

Lemma bind_getVertex {B} v (k : VertexNode.t -> M B) h n :
  vertices h !! v = Some n -> bind (getVertex v) k h = k n h.
Proof. intros E. apply bind_Ok. now apply getVertex_Ok. Qed.

(** [insertBefore]: the vertex takes the place before [target]. *)
Lemma insertBefore_step L h A t C v :
  lawful L -> holds L h (A ++ t :: C) -> ~ In v (A ++ t :: C) ->
  is_Some (vertices h !! v) ->
  exists h', VertexList_insertBefore L t v h = Ok tt h' /\
             holds L h' (A ++ v :: t :: C) /\
             (forall w, ~ In w (A ++ t :: C) -> w <> v ->
                        vertices h' !! w = vertices h !! w).
Proof.
  intros HL [Hnd Hd Hhd Htl] Hv [n En].
  destruct (dll_middle _ _ _ _ _ _ Hd) as (nt & Et & Pt & Nt).
  apply dll_app in Hd as [HdA HdC]. cbn [hd_or] in HdA.
  pose proof Hnd as Hnd0.
  apply nodup_app in Hnd as (HnA & HnC & HnAC).
  assert (Hvt : v <> t) by (intros ->; apply Hv, in_app_iff; cbn; auto).
  assert (HvA : ~ In v A) by (intros Hi; apply Hv, in_app_iff; auto).
  assert (HvC : ~ In v (t :: C)) by (intros Hi; apply Hv, in_app_iff; auto).
  unfold VertexList_insertBefore.
  rewrite (bind_getVertex _ _ _ _ Et), Pt.
  destruct (modVertex_step L h v (VertexNode.set_prev (last_or None A)) n HL En)
    as (h1 & E1 & V1 & G1).
  rewrite (bind_Ok _ _ _ _ _ E1).
  set (n1 := VertexNode.set_prev (last_or None A) n) in *.
  assert (En1 : vertices h1 !! v = Some n1).
  { rewrite V1. apply list_lookup_insert_eq. eapply lookup_lt_Some; eauto. }
  destruct (modVertex_step L h1 v (VertexNode.set_next (Some t)) n1 HL En1)
    as (h2 & E2 & V2 & G2).
  rewrite (bind_Ok _ _ _ _ _ E2).
  set (n2 := VertexNode.set_next (Some t) n1) in *.
  assert (V2' : vertices h2 = <[v := n2]> (vertices h)).
  { rewrite V2, V1. apply list_insert_insert_eq. }
  assert (En2 : vertices h2 !! v = Some n2).
  { rewrite V2'. apply list_lookup_insert_eq. eapply lookup_lt_Some; eauto. }
  assert (F2 : forall w, w <> v -> vertices h2 !! w = vertices h !! w).
  { intros w Hw. rewrite V2'. now apply list_lookup_insert_ne. }
  assert (Pn2 : VertexNode.prev n2 = last_or None A) by (unfold n2, n1; now destruct n).
  assert (Nn2 : VertexNode.next n2 = Some t) by (unfold n2, n1; now destruct n).
  rewrite (bind_getVertex _ _ _ _ En2), Pn2.
  destruct (link_last_step L h2 A (Some t) (Some v) HL HnA) as (h3 & E3 & D3 & Hd3 & Ht3 & F3).
  { apply (dll_frame (vertices h)); [|exact HdA]. intros w Hw. apply F2. intros ->. contradiction. }
  { rewrite G2, G1, Hhd. now rewrite hd_or_app. }
  rewrite (bind_Ok _ _ _ _ _ E3).
  destruct (link_first_step L h3 (t :: C) (last_or None A) (Some v) HL HnC)
    as (h4 & E4 & D4 & Ht4 & Hd4 & F4).
  { apply (dll_frame (vertices h)); [|exact HdC]. intros w Hw.
    rewrite F3 by (intros Ha; exact (HnAC w Ha Hw)).
    apply F2. intros ->. contradiction. }
  { rewrite Ht3, G2, G1, Htl. now rewrite last_or_app. }
  cbn [hd_or] in E4. exists h4. split; [exact E4|].
  split; [split|].
  - apply nodup_app. repeat split; auto.
    + constructor; auto.
    + intros a Ha [<-|Hi]; [contradiction|]. exact (HnAC a Ha Hi).
  - apply dll_app. split.
    + cbn [hd_or]. apply (dll_frame (vertices h3)); [|exact D3].
      intros w Hw. apply F4. intros Hi. exact (HnAC w Hw Hi).
    + cbn [dll]. exists n2. split.
      { rewrite F4 by exact HvC. rewrite F3 by exact HvA. exact En2. }
      split; [exact Pn2|]. split; [exact Nn2|]. exact D4.
  - rewrite Hd4, Hd3. now rewrite !hd_or_app.
  - rewrite Ht4. rewrite !last_or_app. reflexivity.
  - intros w Hw Hwv. rewrite F4, F3, F2; auto.
    + intros Hi. apply Hw, in_app_iff. auto.
    + intros Hi. apply Hw, in_app_iff. auto.
Qed.

(** [insertAfter]: the vertex takes the place after [target]. *)
Lemma insertAfter_step L h A t C v :
  lawful L -> holds L h (A ++ t :: C) -> ~ In v (A ++ t :: C) ->
  is_Some (vertices h !! v) ->
  exists h', VertexList_insertAfter L t v h = Ok tt h' /\
             holds L h' (A ++ t :: v :: C) /\
             (forall w, ~ In w (A ++ t :: C) -> w <> v ->
                        vertices h' !! w = vertices h !! w).
Proof.
  intros HL [Hnd Hd Hhd Htl] Hv [n En].
  destruct (dll_middle _ _ _ _ _ _ Hd) as (nt & Et & Pt & Nt).
  replace (A ++ t :: C) with ((A ++ [t]) ++ C) in Hd, Hnd, Hhd, Htl, Hv |- *
    by (now rewrite <- app_assoc).
  replace (A ++ t :: v :: C) with ((A ++ [t]) ++ v :: C) by (now rewrite <- app_assoc).
  set (A' := A ++ [t]) in *.
  apply dll_app in Hd as [HdA HdC].
  assert (Hl : last_or None A' = Some t) by apply last_or_snoc.
  rewrite Hl in HdC.
  apply nodup_app in Hnd as (HnA & HnC & HnAC).
  assert (Hvt : v <> t).
  { intros ->. apply Hv, in_app_iff. left. apply in_app_iff. cbn. auto. }
  assert (HvA : ~ In v A') by (intros Hi; apply Hv, in_app_iff; auto).
  assert (HvC : ~ In v C) by (intros Hi; apply Hv, in_app_iff; auto).
  unfold VertexList_insertAfter.
  rewrite (bind_getVertex _ _ _ _ Et), Nt.
  destruct (modVertex_step L h v (VertexNode.set_prev (Some t)) n HL En)
    as (h1 & E1 & V1 & G1).
  rewrite (bind_Ok _ _ _ _ _ E1).
  set (n1 := VertexNode.set_prev (Some t) n) in *.
  assert (En1 : vertices h1 !! v = Some n1).
  { rewrite V1. apply list_lookup_insert_eq. eapply lookup_lt_Some; eauto. }
  destruct (modVertex_step L h1 v (VertexNode.set_next (hd_or C None)) n1 HL En1)
    as (h2 & E2 & V2 & G2).
  rewrite (bind_Ok _ _ _ _ _ E2).
  set (n2 := VertexNode.set_next (hd_or C None) n1) in *.
  assert (V2' : vertices h2 = <[v := n2]> (vertices h)).
  { rewrite V2, V1. apply list_insert_insert_eq. }
  assert (En2 : vertices h2 !! v = Some n2).
  { rewrite V2'. apply list_lookup_insert_eq. eapply lookup_lt_Some; eauto. }
  assert (F2 : forall w, w <> v -> vertices h2 !! w = vertices h !! w).
  { intros w Hw. rewrite V2'. now apply list_lookup_insert_ne. }
  assert (Pn2 : VertexNode.prev n2 = Some t) by (unfold n2, n1; now destruct n).
  assert (Nn2 : VertexNode.next n2 = hd_or C None) by (unfold n2, n1; now destruct n).
  rewrite (bind_getVertex _ _ _ _ En2), Nn2.
  destruct (link_first_step L h2 C (Some t) (Some v) HL HnC) as (h3 & E3 & D3 & Ht3 & Hd3 & F3).
  { apply (dll_frame (vertices h)); [|exact HdC]. intros w Hw. apply F2. intros ->. contradiction. }
  { rewrite G2, G1, Htl. now rewrite last_or_app, Hl. }
  rewrite (bind_Ok _ _ _ _ _ E3).
  destruct (link_last_step L h3 A' (hd_or C None) (Some v) HL HnA)
    as (h4 & E4 & D4 & Hd4 & Ht4 & F4).
  { apply (dll_frame (vertices h)); [|exact HdA]. intros w Hw.
    rewrite F3 by (exact (HnAC w Hw)).
    apply F2. intros ->. contradiction. }
  { rewrite Hd3, G2, G1, Hhd. now rewrite hd_or_app. }
  rewrite Hl in E4. exists h4. split; [exact E4|].
  split; [split|].
  - apply nodup_app. repeat split; auto.
    + constructor; auto.
    + intros a Ha [<-|Hi]; [contradiction|]. exact (HnAC a Ha Hi).
  - apply dll_app. split.
    + exact D4.
    + rewrite Hl. cbn [dll]. exists n2. split.
      { rewrite F4 by exact HvA. rewrite F3 by exact HvC. exact En2. }
      split; [exact Pn2|]. split; [exact Nn2|].
      apply (dll_frame (vertices h3)); [|exact D3].
      intros w Hw. apply F4. intros Hi. exact (HnAC w Hi Hw).
  - rewrite Hd4. now rewrite !hd_or_app.
  - rewrite Ht4, Ht3. rewrite last_or_app, Hl. reflexivity.
  - intros w Hw Hwv. rewrite F4, F3, F2; auto.
    + intros Hi. apply Hw, in_app_iff. auto.
    + intros Hi. apply Hw, in_app_iff. auto.
Qed.

(** Taking a run [B] of vertices out of a list: the two writes that [remove]
    and [removeSubList] make. *)
Lemma unlink_step L h A B C :
  lawful L -> holds L h (A ++ B ++ C) -> B <> [] ->
  exists h1 h2,
    match last_or None A with
    | None => setHead L (hd_or C None)
    | Some p => modVertex p (VertexNode.set_next (hd_or C None))
    end h = Ok tt h1 /\
    (forall w, In w B -> vertices h1 !! w = vertices h !! w) /\
    match hd_or C None with
    | None => setTail L (last_or None A)
    | Some n => modVertex n (VertexNode.set_prev (last_or None A))
    end h1 = Ok tt h2 /\
    holds L h2 (A ++ C) /\
    (forall w, ~ In w (A ++ C) -> vertices h2 !! w = vertices h !! w).
Proof.
  intros HL [Hnd Hd Hhd Htl] HB.
  apply dll_app in Hd as [HdA Hd]. apply dll_app in Hd as [HdB HdC].
  apply nodup_app in Hnd as (HnA & Hnd & HnABC).
  apply nodup_app in Hnd as (HnB & HnC & HnBC).
  assert (HnAC : forall a, In a A -> ~ In a C).
  { intros a Ha Hc. apply (HnABC a Ha). apply in_app_iff. auto. }
  destruct (link_last_step L h A (hd_or (B ++ C) None) (hd_or C None) HL HnA HdA)
    as (h1 & E1 & D1 & Hd1 & Ht1 & F1).
  { rewrite Hhd. now rewrite hd_or_app. }
  destruct (link_first_step L h1 C (last_or (last_or None A) B) (last_or None A) HL HnC)
    as (h2 & E2 & D2 & Ht2 & Hd2 & F2).
  { apply (dll_frame (vertices h)); [|exact HdC]. intros w Hw.
    apply F1. intros Ha. exact (HnAC w Ha Hw). }
  { rewrite Ht1, Htl. now rewrite !last_or_app. }
  exists h1, h2. split; [exact E1|]. split.
  { intros w Hw. apply F1. intros Ha. apply (HnABC w Ha), in_app_iff. auto. }
  split; [exact E2|]. split; [split|].
  - apply nodup_app. auto.
  - apply dll_app. split; [|exact D2].
    apply (dll_frame (vertices h1)); [|exact D1].
    intros w Hw. apply F2. intros Hc. exact (HnAC w Hw Hc).
  - rewrite Hd2, Hd1. now rewrite hd_or_app.
  - rewrite Ht2. now rewrite last_or_app.
  - intros w Hw. rewrite F2, F1; auto.
    + intros Hi. apply Hw, in_app_iff. auto.
    + intros Hi. apply Hw, in_app_iff. auto.
Qed.

(** [remove]: the list closes over the vertex, which keeps its links. *)
Lemma remove_step L h A v C :
  lawful L -> holds L h (A ++ v :: C) ->
  exists h', VertexList_remove L v h = Ok tt h' /\ holds L h' (A ++ C) /\
             (forall w, ~ In w (A ++ C) -> vertices h' !! w = vertices h !! w).
Proof.
  intros HL Hh.
  destruct (dll_middle _ _ _ _ _ _ (ho_dll _ _ _ Hh)) as (n & En & Pn & Nn).
  destruct (unlink_step L h A [v] C HL Hh ltac:(discriminate))
    as (h1 & h2 & E1 & F1 & E2 & H2 & F2).
  unfold VertexList_remove.
  rewrite (bind_getVertex _ _ _ _ En), Pn, Nn.
  rewrite (bind_Ok _ _ _ _ _ E1).
  rewrite (bind_getVertex _ _ _ n) by (rewrite F1; cbn; auto).
  rewrite Pn, Nn. eauto.
Qed.

Lemma dll_ends vs : forall B p q a b,
  dll vs p B q -> hd_or B None = Some a -> last_or None B = Some b ->
  exists na nb, vs !! a = Some na /\ VertexNode.prev na = p /\
                vs !! b = Some nb /\ VertexNode.next nb = q.
Proof.
  intros B p q a b Hd Ha Hb.
  destruct B as [|a' M]; [discriminate|]. injection Ha as ->.
  pose proof Hd as (na & Ea & Pa & _). exists na.
  destruct (a :: M) as [|b' M' _] eqn:EB using rev_ind; [discriminate|].
  rewrite last_or_snoc in Hb. injection Hb as ->.
  apply dll_app in Hd as [_ (nb & Eb & _ & Nb & _)]. exists nb. auto.
Qed.

(** [removeSubList]: the list closes over the run from [a] to [b], which
    stays linked inside. *)
Lemma removeSubList_step L h A B C a b :
  lawful L -> holds L h (A ++ B ++ C) ->
  hd_or B None = Some a -> last_or None B = Some b ->
  exists h', VertexList_removeSubList L a b h = Ok tt h' /\ holds L h' (A ++ C) /\
             (forall w, ~ In w (A ++ C) -> vertices h' !! w = vertices h !! w).
Proof.
  intros HL Hh Ha Hb.
  assert (HB : B <> []) by (intros ->; discriminate).
  pose proof (ho_dll _ _ _ Hh) as Hd.
  apply dll_app in Hd as [_ Hd]. apply dll_app in Hd as [Hd _].
  destruct (dll_ends _ _ _ _ _ _ Hd Ha Hb) as (na & nb & Ea & Pa & Eb & Nb).
  assert (Ia : In a B) by (destruct B; [discriminate|]; injection Ha as ->; cbn; auto).
  assert (Ib : In b B).
  { destruct B as [|b' M _] using rev_ind; [discriminate|].
    rewrite last_or_snoc in Hb. injection Hb as ->. apply in_app_iff. cbn. auto. }
  destruct (unlink_step L h A B C HL Hh HB)
    as (h1 & h2 & E1 & F1 & E2 & H2 & F2).
  unfold VertexList_removeSubList.
  rewrite (bind_getVertex _ _ _ _ Ea), (bind_getVertex _ _ _ _ Eb), Pa, Nb.
  rewrite (bind_Ok _ _ _ _ _ E1).
  rewrite (bind_getVertex _ _ _ na) by (rewrite F1; auto).
  rewrite (bind_getVertex _ _ _ nb) by (rewrite F1; auto).
  rewrite Pa, Nb. eauto.
Qed.

Lemma chain_bound vs : forall B q, chain vs B q -> List.NoDup B -> (length B <= length vs)%nat.
Proof.
  intros B q Hc Hnd.
  assert (length B <= length (seq 0%nat (length vs)))%nat as H;
    [|now rewrite List.length_seq in H].
  apply List.NoDup_incl_length; [exact Hnd|].
  intros v Hv. apply in_seq. split; [lia|]. cbn. clear Hnd.
  revert q Hc Hv. induction B as [|b B IH]; intros q Hc [].
  - subst. destruct Hc as (n & E & _). eapply lookup_lt_Some; eauto.
  - destruct Hc as (n & _ & _ & Hc). eapply IH; eauto.
Qed.

(** [while (vertex.next !== null) vertex = vertex.next] ends on the last
    vertex of a chain, given a bound that covers the chain. *)
Lemma lastOfChain_Ok h : forall B fuel v b,
  chain (vertices h) B None -> hd_or B None = Some v -> last_or None B = Some b ->
  (length B <= fuel)%nat -> lastOfChain fuel v h = Ok b h.
Proof.
  induction B as [|a B IH]; intros fuel v b Hc Hv Hb Hf; [discriminate|].
  injection Hv as ->. destruct fuel as [|fuel]; [cbn in Hf; lia|].
  destruct Hc as (n & En & Nn & Hc). cbn [lastOfChain].
  rewrite (bind_getVertex _ _ _ _ En), Nn.
  destruct B as [|c B].
  - cbn in Hb |- *. now injection Hb as ->.
  - cbn [hd_or]. apply (IH fuel c b Hc eq_refl); [exact Hb|cbn in Hf |- *; lia].
Qed.

(** [appendChain]: a linked run of vertices is put at the end of the list. *)
Lemma appendChain_step L h Ls B p0 v :
  lawful L -> holds L h Ls -> dll (vertices h) p0 B None ->
  hd_or B None = Some v -> List.NoDup (Ls ++ B) ->
  exists h', VertexList_appendChain L v h = Ok tt h' /\ holds L h' (Ls ++ B) /\
             (forall w, ~ In w Ls -> w <> v -> vertices h' !! w = vertices h !! w).
Proof.
  intros HL Hh HdB Hv Hnd. pose proof Hh as [HnL Hd Hhd Htl].
  destruct B as [|v' B]; [discriminate|]. injection Hv as ->.
  apply nodup_app in Hnd as (_ & HnB & HnLB).
  pose proof HdB as (n & En & Pn & Nn & HdB').
  unfold VertexList_appendChain. rewrite bind_gets.
  destruct (link_last_step L h Ls None (Some v) HL HnL Hd Hhd)
    as (h1 & E1 & D1 & Hd1 & Ht1 & F1).
  rewrite <- (append_start L h Ls (Some v) Hh) in E1.
  rewrite (bind_Ok _ _ _ _ _ E1), bind_gets.
  assert (FB : forall w, In w (v :: B) -> vertices h1 !! w = vertices h !! w).
  { intros w Hw. apply F1. intros Hi. exact (HnLB w Hi Hw). }
  assert (En1 : vertices h1 !! v = Some n) by (rewrite FB; cbn; auto).
  destruct (modVertex_step L h1 v (VertexNode.set_prev (VertexList.tail (lget L h1))) n HL En1)
    as (h2 & E2 & V2 & G2).
  rewrite (bind_Ok _ _ _ _ _ E2), bind_gets.
  assert (D2 : dll (vertices h2) (last_or None Ls) (v :: B) None).
  { rewrite V2, Ht1, Htl. apply dll_set_prev with (p := p0); auto.
    - apply (dll_frame (vertices h)); [|exact HdB]. exact FB.
    - now apply List.NoDup_cons_iff in HnB as [? _]. }
  assert (exists b, last_or None (v :: B) = Some b) as [b Hb].
  { destruct (last_or None (v :: B)) eqn:E; [eauto|]. apply last_or_None in E. discriminate. }
  assert (El : lastOfChain (S (length (vertices h2))) v h2 = Ok b h2).
  { apply (lastOfChain_Ok h2 (v :: B)); auto.
    - eapply dll_chain; eauto.
    - pose proof (chain_bound _ _ _ (dll_chain _ _ _ _ D2) HnB). lia. }
  rewrite (bind_Ok _ _ _ _ _ El).
  eexists. split; [reflexivity|]. split; [split|].
  - apply nodup_app. auto.
  - rewrite (law_vertices _ HL). apply dll_app. split; [|exact D2].
    cbn [hd_or]. rewrite V2. apply (dll_frame (vertices h1)); [|exact D1].
    intros w Hw. apply list_lookup_insert_ne. intros <-. apply (HnLB v Hw). cbn. auto.
  - rewrite (law_get_set _ HL), head_set_tail, G2, Hd1. now rewrite hd_or_app.
  - rewrite (law_get_set _ HL), tail_set_tail, last_or_app.
    rewrite <- Hb. destruct Ls as [|a Ls _] using rev_ind; [reflexivity|].
    now rewrite last_or_snoc.
  - intros w Hw Hwv. rewrite (law_vertices _ HL), V2.
    rewrite list_lookup_insert_ne by auto. now apply F1.
Qed.


(** ** The vertex lists as doubly linked lists *)

Lemma linkedPair_holds : holds assignedL linkedPair [0; 1]%nat.
Proof.
  split.
  - constructor; [intros [H|[]]; discriminate|]. constructor; [intros []|constructor].
  - cbn. eexists. repeat split. eexists. repeat split.
  - reflexivity.
  - reflexivity.
Qed.

(** X1: [append] on a list that holds [Ls] returns, for a vertex that is not
    in the list, with the list holding [Ls] followed by the vertex: the first
    and last pointers and the links of all members are right, and no vertex
    outside the list other than the new one is written. *)
Theorem VertexList_append_holds L h Ls v :
  lawful L -> holds L h Ls -> ~ In v Ls -> is_Some (vertices h !! v) ->
  exists h', VertexList_append L v h = Ok tt h' /\ holds L h' (Ls ++ [v]) /\
             (forall w, ~ In w Ls -> w <> v -> vertices h' !! w = vertices h !! w).
Proof. exact (append_step L h Ls v). Qed.

Lemma VertexList_append_holds_witness :
  exists h', VertexList_append assignedL 2 linkedPair = Ok tt h' /\
             holds assignedL h' [0; 1; 2]%nat.
Proof.
  destruct (VertexList_append_holds assignedL linkedPair [0; 1]%nat 2%nat)
    as (h' & H1 & H2 & _).
  - exact lawful_assigned.
  - exact linkedPair_holds.
  - intros [H|[H|[]]]; discriminate.
  - eexists. reflexivity.
  - exists h'. split; [exact H1|exact H2].
Defined.

(** X2: [insertBefore] puts a vertex that is not in the list right before
    [target], wherever [target] stands (at the head too, which then moves),
    and writes no vertex outside the list other than the new one. *)
Theorem VertexList_insertBefore_holds L h A t C v :
  lawful L -> holds L h (A ++ t :: C) -> ~ In v (A ++ t :: C) ->
  is_Some (vertices h !! v) ->
  exists h', VertexList_insertBefore L t v h = Ok tt h' /\
             holds L h' (A ++ v :: t :: C) /\
             (forall w, ~ In w (A ++ t :: C) -> w <> v ->
                        vertices h' !! w = vertices h !! w).
Proof. exact (insertBefore_step L h A t C v). Qed.

Lemma VertexList_insertBefore_holds_witness :
  exists h', VertexList_insertBefore assignedL 0 2 linkedPair = Ok tt h' /\
             holds assignedL h' [2; 0; 1]%nat.
Proof.
  destruct (VertexList_insertBefore_holds assignedL linkedPair [] 0%nat [1%nat] 2%nat)
    as (h' & H1 & H2 & _).
  - exact lawful_assigned.
  - exact linkedPair_holds.
  - intros [H|[H|[]]]; discriminate.
  - eexists. reflexivity.
  - exists h'. split; [exact H1|exact H2].
Defined.

(** X3: [insertAfter] puts a vertex that is not in the list right after
    [target], at the tail too, which then moves. *)
Theorem VertexList_insertAfter_holds L h A t C v :
  lawful L -> holds L h (A ++ t :: C) -> ~ In v (A ++ t :: C) ->
  is_Some (vertices h !! v) ->
  exists h', VertexList_insertAfter L t v h = Ok tt h' /\
             holds L h' (A ++ t :: v :: C) /\
             (forall w, ~ In w (A ++ t :: C) -> w <> v ->
                        vertices h' !! w = vertices h !! w).
Proof. exact (insertAfter_step L h A t C v). Qed.

Lemma VertexList_insertAfter_holds_witness :
  exists h', VertexList_insertAfter assignedL 1 2 linkedPair = Ok tt h' /\
             holds assignedL h' [0; 1; 2]%nat.
Proof.
  destruct (VertexList_insertAfter_holds assignedL linkedPair [0%nat] 1%nat [] 2%nat)
    as (h' & H1 & H2 & _).
  - exact lawful_assigned.
  - exact linkedPair_holds.
  - intros [H|[H|[]]]; discriminate.
  - eexists. reflexivity.
  - exists h'. split; [exact H1|exact H2].
Defined.

(** X4: [remove] of a member closes the list over it, moving the head or the
    tail when the member was first or last; the removed vertex keeps its own
    [prev] and [next], and nothing outside the remaining list is written. *)
Theorem VertexList_remove_holds L h A v C :
  lawful L -> holds L h (A ++ v :: C) ->
  exists h', VertexList_remove L v h = Ok tt h' /\ holds L h' (A ++ C) /\
             (forall w, ~ In w (A ++ C) -> vertices h' !! w = vertices h !! w).
Proof. exact (remove_step L h A v C). Qed.

Lemma VertexList_remove_holds_witness :
  exists h', VertexList_remove assignedL 0 linkedPair = Ok tt h' /\
             holds assignedL h' [1%nat] /\
             vertices h' !! 0%nat = vertices linkedPair !! 0%nat.
Proof.
  destruct (VertexList_remove_holds assignedL linkedPair [] 0%nat [1%nat])
    as (h' & H1 & H2 & H3).
  - exact lawful_assigned.
  - exact linkedPair_holds.
  - exists h'. split; [exact H1|]. split; [exact H2|].
    apply H3. intros [H|[]]. discriminate.
Defined.

(** X5: [removeSubList (a, b)] takes the whole run from [a] to [b] out of the
    list in one step; the run stays linked inside, with its outer links
    still pointing into the list. *)
Theorem VertexList_removeSubList_holds L h A B C a b :
  lawful L -> holds L h (A ++ B ++ C) ->
  hd_or B None = Some a -> last_or None B = Some b ->
  exists h', VertexList_removeSubList L a b h = Ok tt h' /\ holds L h' (A ++ C) /\
             (forall w, ~ In w (A ++ C) -> vertices h' !! w = vertices h !! w).
Proof. exact (removeSubList_step L h A B C a b). Qed.

Lemma VertexList_removeSubList_holds_witness :
  exists h', VertexList_removeSubList assignedL 0 1 linkedPair = Ok tt h' /\
             holds assignedL h' [].
Proof.
  destruct (VertexList_removeSubList_holds assignedL linkedPair [] [0; 1]%nat [] 0%nat 1%nat)
    as (h' & H1 & H2 & _).
  - exact lawful_assigned.
  - exact linkedPair_holds.
  - reflexivity.
  - reflexivity.
  - exists h'. split; [exact H1|exact H2].
Defined.

(** X6: [appendChain] puts a run of vertices that is linked inside and ends
    with [next == null] at the end of the list, whatever the [prev] of its
    first vertex was; the walk to the end of the run stays within its
    bound. *)
Theorem VertexList_appendChain_holds L h Ls B p0 v :
  lawful L -> holds L h Ls -> dll (vertices h) p0 B None ->
  hd_or B None = Some v -> List.NoDup (Ls ++ B) ->
  exists h', VertexList_appendChain L v h = Ok tt h' /\ holds L h' (Ls ++ B) /\
             (forall w, ~ In w Ls -> w <> v -> vertices h' !! w = vertices h !! w).
Proof. exact (appendChain_step L h Ls B p0 v). Qed.

Lemma VertexList_appendChain_holds_witness :
  exists h', VertexList_appendChain unassignedL 0 linkedPair = Ok tt h' /\
             holds unassignedL h' [0; 1]%nat.
Proof.
  destruct (VertexList_appendChain_holds unassignedL linkedPair [] [0; 1]%nat None 0%nat)
    as (h' & H1 & H2 & _).
  - exact lawful_unassigned.
  - split; [constructor|exact I|reflexivity|reflexivity].
  - exact (ho_dll _ _ _ linkedPair_holds).
  - reflexivity.
  - exact (ho_nodup _ _ _ linkedPair_holds).
  - exists h'. split; [exact H1|exact H2].
Defined.

(** X7: [insertBefore] followed by [remove] of the same vertex gives the list
    back: the same members in the same order, the same head and tail. *)
Theorem VertexList_insert_remove L h A t C v :
  lawful L -> holds L h (A ++ t :: C) -> ~ In v (A ++ t :: C) ->
  is_Some (vertices h !! v) ->
  exists h1 h2, VertexList_insertBefore L t v h = Ok tt h1 /\
                VertexList_remove L v h1 = Ok tt h2 /\
                holds L h2 (A ++ t :: C) /\ lget L h2 = lget L h /\
                (forall w, ~ In w (A ++ t :: C) -> w <> v ->
                           vertices h2 !! w = vertices h !! w).
Proof.
  intros HL Hh Hv Hs.
  destruct (insertBefore_step L h A t C v HL Hh Hv Hs) as (h1 & E1 & H1 & F1).
  destruct (remove_step L h1 A v (t :: C) HL H1) as (h2 & E2 & H2 & F2).
  exists h1, h2. split; [exact E1|]. split; [exact E2|]. split; [exact H2|]. split.
  - pose proof (ho_head _ _ _ H2) as Ha. pose proof (ho_tail _ _ _ H2) as Hb.
    rewrite <- (ho_head _ _ _ Hh) in Ha. rewrite <- (ho_tail _ _ _ Hh) in Hb.
    destruct (lget L h2), (lget L h). cbn in Ha, Hb. congruence.
  - intros w Hw Hwv. rewrite F2 by exact Hw. now apply F1.
Qed.

Lemma VertexList_insert_remove_witness :
  exists h1 h2, VertexList_insertBefore assignedL 1 2 linkedPair = Ok tt h1 /\
                VertexList_remove assignedL 2 h1 = Ok tt h2 /\
                holds assignedL h2 [0; 1]%nat.
Proof.
  destruct (VertexList_insert_remove assignedL linkedPair [0%nat] 1%nat [] 2%nat)
    as (h1 & h2 & H1 & H2 & H3 & _).
  - exact lawful_assigned.
  - exact linkedPair_holds.
  - intros [H|[H|[]]]; discriminate.
  - eexists. reflexivity.
  - exists h1, h2. auto.
Defined.


(** ** Creating a face *)

Lemma modFace_Ok h f g x :
  faceHeap h !! f = Some x ->
  modFace f g h = Ok tt (set_faceHeap (<[f := g x]> (faceHeap h)) h).
Proof. intros H. unfold modFace. rewrite (bind_Ok _ _ _ _ _ (getFace_Ok h f x H)). reflexivity. Qed.

Lemma HalfEdge_head_Ok h e he :
  edgeHeap h !! e = Some he -> HalfEdge_head e h = Ok (HalfEdge.vertex he) h.
Proof.
  intros H. unfold HalfEdge_head. now rewrite (bind_Ok _ _ _ _ _ (getEdge_Ok _ _ _ H)).
Qed.

Lemma HalfEdge_tail_Ok h e he p hp :
  edgeHeap h !! e = Some he -> HalfEdge.prev he = Some p -> edgeHeap h !! p = Some hp ->
  HalfEdge_tail e h = Ok (Some (HalfEdge.vertex hp)) h.
Proof.
  intros H Hp H'. unfold HalfEdge_tail.
  rewrite (bind_Ok _ _ _ _ _ (getEdge_Ok _ _ _ H)), Hp.
  now rewrite (bind_Ok _ _ _ _ _ (getEdge_Ok _ _ _ H')).
Qed.

Lemma Face_create_run sqrt a b c h na nb nc :
  vertices h !! a = Some na -> vertices h !! b = Some nb -> vertices h !! c = Some nc ->
  let f := length (faceHeap h) in
  let e0 := length (edgeHeap h) in
  let pa := VertexNode.point na in
  let pb := VertexNode.point nb in
  let pc := VertexNode.point nc in
  let n := Triangle.getNormal sqrt pc pa pb in
  let m := Triangle.getMidpoint pc pa pb in
  Face_create sqrt a b c h =
  Ok f (set_faceHeap
          (faceHeap h ++ [Face.mk n m (Triangle.getArea sqrt pc pa pb) (Vector3.dot n m)
                            None Visible (Some e0)])
          (set_edgeHeap (edgeHeap h ++
             [HalfEdge.mk a (Some (e0 + 2)%nat) (Some (e0 + 1)%nat) None f;
              HalfEdge.mk b (Some e0) (Some (e0 + 2)%nat) None f;
              HalfEdge.mk c (Some (e0 + 1)%nat) (Some e0) None f]) h)).
Proof.
  intros Ea Eb Ec f e0 pa pb pc n m. unfold Face_create.
  set (F := faceHeap h) in *. set (E := edgeHeap h) in *.
  pose (hA := set_edgeHeap (E ++ [HalfEdge.new a f; HalfEdge.new b f; HalfEdge.new c f])
                (set_faceHeap (F ++ [Face.new]) h)).
  assert (forall (k : nat -> nat -> nat -> nat -> M nat),
     (let* face := allocFace in let* x0 := allocEdge a face in
      let* x1 := allocEdge b face in let* x2 := allocEdge c face in k face x0 x1 x2) h
     = k f (e0 + 0)%nat (e0 + 1)%nat (e0 + 2)%nat hA) as Halloc.
  { intros k. unfold bind, allocFace, allocEdge. cbn.
    fold F E f e0. rewrite !length_app. cbn [length]. fold e0.
    replace (e0 + 1 + 1)%nat with (e0 + 2)%nat by lia. rewrite Nat.add_0_r.
    f_equal. unfold hA. destruct h; cbn. fold E. rewrite <- !app_assoc. reflexivity. }
  rewrite Halloc. clear Halloc.
  do 6 (erewrite (bind_Ok (modEdge _ _))
          by (eapply (modEdge_app _ E); reflexivity);
        cbn [list_insert insert set_edgeHeap edgeHeap]).
  match goal with |- bind _ _ ?s = _ => set (hB := s) end.
  assert (HF : faceHeap hB = F ++ [Face.new]) by reflexivity.
  assert (HE : edgeHeap hB = E ++
     [HalfEdge.mk a (Some (e0 + 2)%nat) (Some (e0 + 1)%nat) None f;
      HalfEdge.mk b (Some (e0 + 0)%nat) (Some (e0 + 2)%nat) None f;
      HalfEdge.mk c (Some (e0 + 1)%nat) (Some (e0 + 0)%nat) None f]) by reflexivity.
  assert (HV : vertices hB = vertices h) by reflexivity.
  assert (HeqB : hB = set_faceHeap (faceHeap hB) (set_edgeHeap (edgeHeap hB) h)).
  { unfold hB, hA. destruct h. reflexivity. }
  clearbody hB. clear hA. rewrite !Nat.add_0_r in *.
  assert (Hf : faceHeap hB !! f = Some Face.new)
    by (rewrite HF; now apply list_lookup_middle).
  rewrite (bind_Ok _ _ _ _ _ (modFace_Ok _ _ (Face.set_edge (Some e0)) _ Hf)).
  match goal with |- Face_compute _ _ ?s = _ => set (hC := s) end.
  assert (HFC : faceHeap hC = F ++ [Face.set_edge (Some e0) Face.new]).
  { unfold hC. cbn [faceHeap set_faceHeap]. rewrite HF.
    rewrite (insert_app_r_alt F _ (length F)) by lia.
    now rewrite Nat.sub_diag. }
  assert (HEC : edgeHeap hC = edgeHeap hB) by reflexivity.
  assert (HVC : vertices hC = vertices h) by exact HV.
  assert (L0 : edgeHeap hC !! e0 =
     Some (HalfEdge.mk a (Some (e0 + 2)%nat) (Some (e0 + 1)%nat) None f))
    by (rewrite HEC, HE; now apply list_lookup_middle).
  assert (L1 : edgeHeap hC !! (e0 + 1)%nat =
     Some (HalfEdge.mk b (Some e0) (Some (e0 + 2)%nat) None f)).
  { rewrite HEC, HE, lookup_app_r by (fold e0; lia). fold e0.
    now replace (e0 + 1 - e0)%nat with 1%nat by lia. }
  assert (L2 : edgeHeap hC !! (e0 + 2)%nat =
     Some (HalfEdge.mk c (Some (e0 + 1)%nat) (Some e0) None f)).
  { rewrite HEC, HE, lookup_app_r by (fold e0; lia). fold e0.
    now replace (e0 + 2 - e0)%nat with 2%nat by lia. }
  assert (Lf : faceHeap hC !! f = Some (Face.set_edge (Some e0) Face.new))
    by (rewrite HFC; now apply list_lookup_middle).
  rewrite <- HVC in Ea, Eb, Ec.
  unfold Face_compute.
  rewrite (bind_Ok _ _ _ _ _ (getFace_Ok _ _ _ Lf)). cbn [Face.edge Face.set_edge deref].
  rewrite (bind_Ok (ret e0) _ hC e0 hC eq_refl).
  rewrite (bind_Ok _ _ _ _ _ (HalfEdge_tail_Ok _ _ _ _ _ L0 eq_refl L2)).
  rewrite (bind_Ok _ _ _ _ _ (HalfEdge_head_Ok _ _ _ L0)).
  rewrite (bind_Ok _ _ _ _ _ (getEdge_Ok _ _ _ L0)).
  cbn [HalfEdge.prev HalfEdge.next HalfEdge.vertex deref].
  rewrite (bind_Ok (ret (e0 + 1)%nat) _ hC _ hC eq_refl).
  rewrite (bind_Ok _ _ _ _ _ (HalfEdge_head_Ok _ _ _ L1)).
  cbn [HalfEdge.vertex].
  rewrite (bind_Ok (ret c) _ hC _ hC eq_refl).
  rewrite (bind_Ok _ _ _ _ _ (pointOf_Ok _ _ _ Ec)).
  rewrite (bind_Ok _ _ _ _ _ (pointOf_Ok _ _ _ Ea)).
  rewrite (bind_Ok _ _ _ _ _ (pointOf_Ok _ _ _ Eb)).
  cbv zeta. fold pa pb pc n m.
  rewrite (bind_Ok _ _ _ _ _ (modFace_Ok _ _ _ _ Lf)).
  unfold ret. f_equal. cbn [faceHeap set_faceHeap]. rewrite HFC.
  rewrite (insert_app_r_alt F _ (length F)) by lia. rewrite Nat.sub_diag.
  cbn [list_insert insert]. unfold hC. rewrite HeqB, HF, HE.
  destruct h. reflexivity.
Qed.

Lemma plane_through_corners sqrt (pa pb pc : Vector3.t) :
  let n := Triangle.getNormal sqrt pa pb pc in
  let m := Triangle.getMidpoint pa pb pc in
  Vector3.dot n pa - Vector3.dot n m == 0 /\
  Vector3.dot n pb - Vector3.dot n m == 0 /\
  Vector3.dot n pc - Vector3.dot n m == 0.
Proof.
  cbv zeta. unfold Triangle.getNormal, Triangle.getMidpoint.
  destruct (Num.gtb _ 0).
  - set (k := 1 / sqrt _). clearbody k.
    destruct pa as [ax ay az], pb as [bx by_ bz], pc as [cx cy cz].
    unfold Vector3.dot, Vector3.multiplyScalar, Vector3.cross, Vector3.sub, Vector3.add.
    cbn [Vector3.x Vector3.y Vector3.z]. repeat split; field.
  - destruct pa as [ax ay az], pb as [bx by_ bz], pc as [cx cy cz].
    unfold Vector3.dot, Vector3.multiplyScalar, Vector3.zero, Vector3.add.
    cbn [Vector3.x Vector3.y Vector3.z]. repeat split; ring.
Qed.

(** X8: [Face.create (a, b, c)] on three vertices of the hull returns a new
    face and changes nothing else: the face is live, sees no vertex yet, and
    owns three new half-edges with heads [a], [b], [c], linked in the cycle
    [e0 -> e1 -> e2 -> e0] with [prev] the other way round, none with a twin;
    [face.edge] is the one that ends in [a].  Its plane is computed from the
    corners taken in the order [c], [a], [b]. *)
Theorem Face_create_makes sqrt a b c h na nb nc :
  vertices h !! a = Some na -> vertices h !! b = Some nb -> vertices h !! c = Some nc ->
  let f := length (faceHeap h) in
  let e0 := length (edgeHeap h) in
  let pa := VertexNode.point na in
  let pb := VertexNode.point nb in
  let pc := VertexNode.point nc in
  let n := Triangle.getNormal sqrt pc pa pb in
  let m := Triangle.getMidpoint pc pa pb in
  Face_create sqrt a b c h =
  Ok f (set_faceHeap
          (faceHeap h ++ [Face.mk n m (Triangle.getArea sqrt pc pa pb) (Vector3.dot n m)
                            None Visible (Some e0)])
          (set_edgeHeap (edgeHeap h ++
             [HalfEdge.mk a (Some (e0 + 2)%nat) (Some (e0 + 1)%nat) None f;
              HalfEdge.mk b (Some e0) (Some (e0 + 2)%nat) None f;
              HalfEdge.mk c (Some (e0 + 1)%nat) (Some e0) None f]) h)).
Proof. exact (Face_create_run sqrt a b c h na nb nc). Qed.

Lemma Face_create_makes_witness :
  exists h', Face_create Qsqrt 0 1 2 linkedPair = Ok 0%nat h' /\
             length (faceHeap h') = 1%nat /\ length (edgeHeap h') = 3%nat.
Proof.
  eexists. split.
  - apply (Face_create_makes Qsqrt 0 1 2 linkedPair); reflexivity.
  - split; reflexivity.
Defined.



(** ** Half-edges of a face *)

Lemma walkNext_cycle h f fa :
  layout h -> faceHeap h !! f = Some fa ->
  forall n j, (j < 3)%nat ->
    walkNext n (Some (3 * f + j)%nat) h = Ok (Some (3 * f + (j + n) mod 3)%nat) h.
Proof.
  intros [_ Hl] Hf. destruct (Hl f fa Hf) as [_ Hc].
  induction n as [|n IH]; intros j Hj; cbn [walkNext].
  - rewrite Nat.add_0_r, Nat.mod_small by exact Hj. reflexivity.
  - destruct (Hc j Hj) as (he & E & _ & Hn & _).
    cbn [deref]. rewrite (bind_Ok (ret _) _ h _ h eq_refl).
    rewrite (bind_Ok _ _ _ _ _ (getEdge_Ok _ _ _ E)), Hn.
    rewrite IH by (apply Nat.mod_upper_bound; lia).
    do 3 f_equal. rewrite Nat.Div0.add_mod_idemp_l. f_equal. lia.
Qed.

Lemma walkPrev_cycle h f fa :
  layout h -> faceHeap h !! f = Some fa ->
  forall n j, (j < 3)%nat ->
    walkPrev n (Some (3 * f + j)%nat) h = Ok (Some (3 * f + (j + 2 * n) mod 3)%nat) h.
Proof.
  intros [_ Hl] Hf. destruct (Hl f fa Hf) as [_ Hc].
  induction n as [|n IH]; intros j Hj; cbn [walkPrev].
  - rewrite Nat.mul_0_r, Nat.add_0_r, Nat.mod_small by exact Hj. reflexivity.
  - destruct (Hc j Hj) as (he & E & _ & _ & Hp).
    cbn [deref]. rewrite (bind_Ok (ret _) _ h _ h eq_refl).
    rewrite (bind_Ok _ _ _ _ _ (getEdge_Ok _ _ _ E)), Hp.
    rewrite IH by (apply Nat.mod_upper_bound; lia).
    do 3 f_equal. rewrite Nat.Div0.add_mod_idemp_l. f_equal. lia.
Qed.

(** X10: on a face whose three half-edges are linked in a cycle,
    [face.getEdge (i)] returns for every integer [i], negative ones too, the
    half-edge number [i mod 3] of the face, counted from [face.edge]: so
    [getEdge (-1)] is [getEdge (2)] and [getEdge (i + 3)] is [getEdge (i)]. *)
Theorem Face_getEdge_mod h f fa (i : Z) :
  layout h -> faceHeap h !! f = Some fa ->
  Face_getEdge f i h = Ok (Some (3 * f + Z.to_nat (i mod 3))%nat) h.
Proof.
  intros Hl Hf. unfold Face_getEdge.
  rewrite (bind_Ok _ _ _ _ _ (getFace_Ok _ _ _ Hf)).
  destruct (proj2 Hl f fa Hf) as [-> _].
  destruct (0 <? i)%Z eqn:E.
  - apply Z.ltb_lt in E.
    pose proof (walkNext_cycle h f fa Hl Hf (Z.to_nat i) 0%nat ltac:(lia)) as W.
    replace (3 * f + 0)%nat with (3 * f)%nat in W by lia. rewrite W.
    do 3 f_equal. cbn [Nat.add].
    rewrite <- (Z2Nat.id i) at 2 by lia.
    change 3%Z with (Z.of_nat 3). rewrite <- Nat2Z.inj_mod. now rewrite Nat2Z.id.
  - apply Z.ltb_ge in E.
    pose proof (walkPrev_cycle h f fa Hl Hf (Z.to_nat (- i)) 0%nat ltac:(lia)) as W.
    replace (3 * f + 0)%nat with (3 * f)%nat in W by lia. rewrite W.
    do 3 f_equal. cbn [Nat.add].
    assert (i = - Z.of_nat (Z.to_nat (- i)))%Z as Hi by lia.
    generalize dependent (Z.to_nat (- i)). intros n _ ->.
    replace (- Z.of_nat n)%Z with (Z.of_nat (2 * n) + (- Z.of_nat n) * 3)%Z by lia.
    rewrite Z_mod_plus_full. change 3%Z with (Z.of_nat 3).
    rewrite <- Nat2Z.inj_mod. now rewrite Nat2Z.id.
Qed.

Lemma Face_getEdge_mod_witness :
  Face_getEdge 0 (-1) cubeStart = Ok (Some 2%nat) cubeStart /\
  Face_getEdge 0 5 cubeStart = Ok (Some 2%nat) cubeStart.
Proof.
  assert (Hd : dcelb cubeStart = true) by (vm_compute; reflexivity).
  apply dcelb_sound in Hd as [Hl _].
  assert (exists fa, faceHeap cubeStart !! 0%nat = Some fa) as [fa Hf]
    by (eexists; vm_compute; reflexivity).
  split.
  - exact (Face_getEdge_mod cubeStart 0 fa (-1) Hl Hf).
  - exact (Face_getEdge_mod cubeStart 0 fa 5 Hl Hf).
Defined.

(** X11: [e.setTwin (t)] for two distinct half-edges makes each the twin of
    the other and writes nothing else: a former twin of [e] or of [t] keeps
    pointing at it. *)
Theorem HalfEdge_setTwin_links h e t he ht :
  edgeHeap h !! e = Some he -> edgeHeap h !! t = Some ht -> e <> t ->
  exists h', HalfEdge_setTwin e (Some t) h = Ok tt h' /\
    edgeHeap h' !! e = Some (HalfEdge.set_twin (Some t) he) /\
    edgeHeap h' !! t = Some (HalfEdge.set_twin (Some e) ht) /\
    (forall x, x <> e -> x <> t -> edgeHeap h' !! x = edgeHeap h !! x) /\
    faceHeap h' = faceHeap h /\ vertices h' = vertices h.
Proof.
  intros Ee Et Hne. unfold HalfEdge_setTwin.
  rewrite (bind_Ok _ _ _ _ _ (modEdge_Ok _ _ (HalfEdge.set_twin (Some t)) _ Ee)).
  unfold modEdgeAt. cbn [deref]. rewrite (bind_Ok (ret t) _ _ _ _ eq_refl).
  erewrite modEdge_Ok
    by (cbn [edgeHeap set_edgeHeap]; rewrite list_lookup_insert_ne by exact Hne; exact Et).
  eexists. split; [reflexivity|]. cbn [edgeHeap set_edgeHeap faceHeap vertices].
  pose proof (setTwin_lookup e t (edgeHeap h) he ht) as HL.
  split; [|split; [|split; [|split; reflexivity]]].
  - rewrite (HL e Ee Et Hne). destruct (Nat.eqb_spec e t); [contradiction|].
    now rewrite Nat.eqb_refl.
  - rewrite (HL t Ee Et Hne). now rewrite Nat.eqb_refl.
  - intros x H1 H2. rewrite (HL x Ee Et Hne).
    destruct (Nat.eqb_spec x t); [contradiction|].
    destruct (Nat.eqb_spec x e); [contradiction|]. reflexivity.
Qed.

Lemma HalfEdge_setTwin_links_witness :
  exists h', HalfEdge_setTwin 0 (Some 5%nat) cubeStart = Ok tt h' /\
             option_map HalfEdge.twin (edgeHeap h' !! 0%nat) = Some (Some 5%nat) /\
             option_map HalfEdge.twin (edgeHeap h' !! 5%nat) = Some (Some 0%nat).
Proof.
  assert (exists he, edgeHeap cubeStart !! 0%nat = Some he) as [he E0]
    by (eexists; vm_compute; reflexivity).
  assert (exists ht, edgeHeap cubeStart !! 5%nat = Some ht) as [ht E5]
    by (eexists; vm_compute; reflexivity).
  destruct (HalfEdge_setTwin_links cubeStart 0 5 he ht E0 E5 ltac:(discriminate))
    as (h' & H & H0 & H5 & _).
  exists h'. split; [exact H|]. rewrite H0, H5. split; now destruct he, ht.
Defined.

(** X12: [e.setTwin (null)] throws a [TypeError], and only after it has
    written [e.twin = null]: the half-edge is left without a twin while its
    former twin still points at it. *)
Theorem HalfEdge_setTwin_null h e he :
  edgeHeap h !! e = Some he ->
  HalfEdge_setTwin e None h =
  Throw TypeError (set_edgeHeap (<[e := HalfEdge.set_twin None he]> (edgeHeap h)) h).
Proof.
  intros Ee. unfold HalfEdge_setTwin.
  rewrite (bind_Ok _ _ _ _ _ (modEdge_Ok _ _ (HalfEdge.set_twin None) _ Ee)).
  reflexivity.
Qed.

Lemma HalfEdge_setTwin_null_witness :
  thrown (HalfEdge_setTwin 0 None cubeStart) = Some TypeError /\
  option_map HalfEdge.twin (edgeHeap (final (HalfEdge_setTwin 0 None cubeStart)) !! 0%nat)
  = Some None.
Proof.
  assert (exists he, edgeHeap cubeStart !! 0%nat = Some he) as [he E0]
    by (eexists; vm_compute; reflexivity).
  rewrite (HalfEdge_setTwin_null cubeStart 0 he E0). cbn [thrown final edgeHeap set_edgeHeap].
  split; [reflexivity|].
  rewrite list_lookup_insert_eq by (eapply lookup_lt_Some; eauto). now destruct he.
Defined.


(** ** What the build never writes *)

Lemma link_point_prev o n : VertexNode.point (VertexNode.set_prev o n) = VertexNode.point n.
Proof. now destruct n. Qed.
Lemma link_point_next o n : VertexNode.point (VertexNode.set_next o n) = VertexNode.point n.
Proof. now destruct n. Qed.
Lemma link_point_face o n : VertexNode.point (VertexNode.set_face o n) = VertexNode.point n.
Proof. now destruct n. Qed.

Create HintDb steady.

Lemma steady_ret {A B} (proj : hull -> B) (a : A) : steady proj (ret a).
Proof. intros h. reflexivity. Qed.
Lemma steady_throw {A B} (proj : hull -> B) e : steady proj (@throw A e).
Proof. intros h. reflexivity. Qed.
Lemma steady_gets {A B} (proj : hull -> B) (f : hull -> A) : steady proj (gets f).
Proof. intros h. reflexivity. Qed.
Lemma steady_deref {A B} (proj : hull -> B) (o : option A) : steady proj (deref o).
Proof. intros h. destruct o; reflexivity. Qed.

Lemma steady_bind {A B C} (proj : hull -> C) (c : M A) (k : A -> M B) :
  steady proj c -> (forall a, steady proj (k a)) -> steady proj (bind c k).
Proof.
  intros Hc Hk h. unfold bind. specialize (Hc h).
  destruct (c h) as [a h'|e h']; cbn [final] in *; [|exact Hc].
  rewrite (Hk a h'). exact Hc.
Qed.

Lemma steady_modify {B} (proj : hull -> B) (g : hull -> hull) :
  (forall h, proj (g h) = proj h) -> steady proj (modify g).
Proof. intros Hg h. apply Hg. Qed.

Lemma steady_Ok {A B} (proj : hull -> B) (c : M A) h a h' :
  steady proj c -> c h = Ok a h' -> proj h' = proj h.
Proof. intros Hc E. specialize (Hc h). now rewrite E in Hc. Qed.

#[local] Hint Resolve steady_ret steady_throw steady_gets steady_deref : steady.

(** Breaks a computation that only reads into its steps. *)
Ltac steady_read :=
  repeat first
    [ solve [eauto with steady]
    | match goal with
      | H : forall _, steady _ _ |- _ => apply H
      | |- steady _ (match ?o with _ => _ end) => destruct o
      | |- steady _ (if ?b then _ else _) => destruct b
      end
    | apply steady_bind; [|intros ?] ].

Lemma steady_getVertex {B} (proj : hull -> B) v : steady proj (getVertex v).
Proof. unfold getVertex. steady_read. Qed.
Lemma steady_getFace {B} (proj : hull -> B) v : steady proj (getFace v).
Proof. unfold getFace. steady_read. Qed.
Lemma steady_getEdge {B} (proj : hull -> B) v : steady proj (getEdge v).
Proof. unfold getEdge. steady_read. Qed.
#[local] Hint Resolve steady_getVertex steady_getFace steady_getEdge : steady.
Lemma steady_pointOf {B} (proj : hull -> B) v : steady proj (pointOf v).
Proof. unfold pointOf. steady_read. Qed.
Lemma steady_head {B} (proj : hull -> B) e : steady proj (HalfEdge_head e).
Proof. unfold HalfEdge_head. steady_read. Qed.
Lemma steady_tail {B} (proj : hull -> B) e : steady proj (HalfEdge_tail e).
Proof. unfold HalfEdge_tail. steady_read. Qed.
Lemma steady_walkNext {B} (proj : hull -> B) n : forall o, steady proj (walkNext n o).
Proof. induction n as [|n IH]; intros o; cbn [walkNext]; steady_read. Qed.
Lemma steady_walkPrev {B} (proj : hull -> B) n : forall o, steady proj (walkPrev n o).
Proof. induction n as [|n IH]; intros o; cbn [walkPrev]; steady_read. Qed.
#[local] Hint Resolve steady_pointOf steady_head steady_tail steady_walkNext
  steady_walkPrev : steady.
Lemma steady_Face_getEdge {B} (proj : hull -> B) f i : steady proj (Face_getEdge f i).
Proof. unfold Face_getEdge. steady_read. Qed.
#[local] Hint Resolve steady_Face_getEdge : steady.

Lemma steady_forM {A B} (proj : hull -> B) (l : list A) (f : A -> M unit) :
  (forall a, steady proj (f a)) -> steady proj (forM l f).
Proof.
  intros Hf. induction l as [|a l IH]; cbn [forM].
  - apply steady_ret.
  - apply steady_bind; [apply Hf | intros _; exact IH].
Qed.

Lemma steady_foldM {A B C} (proj : hull -> C) (f : B -> A -> M B) (l : list A) :
  (forall b a, steady proj (f b a)) -> forall b, steady proj (foldM f l b).
Proof.
  intros Hf. induction l as [|a l IH]; intros b; cbn [foldM].
  - apply steady_ret.
  - apply steady_bind; [apply Hf | intros b'; apply IH].
Qed.

Section Quiet.

Context {B : Type} (proj : hull -> B).

(** The writes that leave [proj] alone, one hypothesis for each kind; a
    lemma below relies on those that its computation performs. *)
Hypothesis q_faces : forall x h, proj (set_faces x h) = proj h.
Hypothesis q_newFaces : forall x h, proj (set_newFaces x h) = proj h.
Hypothesis q_assigned : forall x h, proj (set_assigned x h) = proj h.
Hypothesis q_unassigned : forall x h, proj (set_unassigned x h) = proj h.
Hypothesis q_face : forall f x h, proj (set_faceHeap (<[f := x]> (faceHeap h)) h) = proj h.
Hypothesis q_alloc : forall h, proj (set_faceHeap (faceHeap h ++ [Face.new]) h) = proj h.
Hypothesis q_edgeHeap : forall x h, proj (set_edgeHeap x h) = proj h.
Hypothesis q_link : forall v n n' h,
  vertices h !! v = Some n -> VertexNode.point n' = VertexNode.point n ->
  proj (set_vertices (<[v := n']> (vertices h)) h) = proj h.

Lemma steady_modVertex v g :
  (forall n, VertexNode.point (g n) = VertexNode.point n) -> steady proj (modVertex v g).
Proof.
  intros Hg h. unfold modVertex, getVertex, bind, gets, deref.
  destruct (vertices h !! v) as [n|] eqn:E; cbn; [|reflexivity].
  exact (q_link v n (g n) h E (Hg n)).
Qed.

Lemma steady_modVertexAt o g :
  (forall n, VertexNode.point (g n) = VertexNode.point n) -> steady proj (modVertexAt o g).
Proof.
  intros Hg. unfold modVertexAt. apply steady_bind; [apply steady_deref|].
  intros v. now apply steady_modVertex.
Qed.

Lemma steady_modFace f g : steady proj (modFace f g).
Proof.
  unfold modFace. apply steady_bind; [apply steady_getFace|intros x].
  apply steady_modify. intros h. apply q_face.
Qed.

Lemma steady_modEdge e g : steady proj (modEdge e g).
Proof.
  unfold modEdge. apply steady_bind; [apply steady_getEdge|intros x].
  apply steady_modify. intros h. apply q_edgeHeap.
Qed.

Lemma steady_modEdgeAt o g : steady proj (modEdgeAt o g).
Proof.
  unfold modEdgeAt. apply steady_bind; [apply steady_deref|].
  intros e. apply steady_modEdge.
Qed.

Lemma steady_allocFace : steady proj allocFace.
Proof. intros h. apply q_alloc. Qed.

Lemma steady_allocEdge v f : steady proj (allocEdge v f).
Proof. intros h. apply q_edgeHeap. Qed.

Lemma quiet_lset L l h : L = assignedL \/ L = unassignedL -> proj (lset L l h) = proj h.
Proof. intros [-> | ->]; [apply q_assigned | apply q_unassigned]. Qed.

(** Breaks a computation into its steps; each write is one of the above. *)
Ltac fix_step :=
  repeat first
    [ assumption
    | solve [eauto with steady]
    | apply steady_modVertex; intros ?;
        solve [apply link_point_prev | apply link_point_next | apply link_point_face]
    | apply steady_modVertexAt; intros ?;
        solve [apply link_point_prev | apply link_point_next | apply link_point_face]
    | apply steady_modFace | apply steady_modEdge | apply steady_modEdgeAt
    | apply steady_allocFace | apply steady_allocEdge
    | apply steady_modify; intros ?;
        solve [ apply q_faces | apply q_newFaces
              | apply quiet_lset; solve [assumption | now left | now right] ]
    | apply steady_forM; intros ?
    | apply steady_foldM; intros ? ?
    | match goal with
      | H : forall _, steady _ _ |- _ => apply H
      | H : forall _ _, steady _ _ |- _ => apply H
      | H : forall _ _ _, steady _ _ |- _ => apply H
      | H : forall _ _ _ _, steady _ _ |- _ => apply H
      | H : forall _ _ _ _ _, steady _ _ |- _ => apply H
      | |- steady _ (match ?o with _ => _ end) => destruct o
      | |- steady _ (if ?b then _ else _) => destruct b
      end
    | apply steady_bind; [|intros ?] ].

Lemma steady_setHead L o : L = assignedL \/ L = unassignedL -> steady proj (setHead L o).
Proof. intros HL. unfold setHead. fix_step. Qed.
Lemma steady_setTail L o : L = assignedL \/ L = unassignedL -> steady proj (setTail L o).
Proof. intros HL. unfold setTail. fix_step. Qed.
Lemma steady_clear L : L = assignedL \/ L = unassignedL -> steady proj (VertexList_clear L).
Proof. intros HL. unfold VertexList_clear. fix_step. Qed.

Lemma steady_list_append L v :
  L = assignedL \/ L = unassignedL -> steady proj (VertexList_append L v).
Proof. intros HL. unfold VertexList_append, setHead, setTail. fix_step. Qed.

Lemma steady_insertBefore L t v :
  L = assignedL \/ L = unassignedL -> steady proj (VertexList_insertBefore L t v).
Proof. intros HL. unfold VertexList_insertBefore, setHead, setTail. fix_step. Qed.

Lemma steady_remove L v :
  L = assignedL \/ L = unassignedL -> steady proj (VertexList_remove L v).
Proof. intros HL. unfold VertexList_remove, setHead, setTail. fix_step. Qed.

Lemma steady_removeSubList L a b :
  L = assignedL \/ L = unassignedL -> steady proj (VertexList_removeSubList L a b).
Proof. intros HL. unfold VertexList_removeSubList, setHead, setTail. fix_step. Qed.

Lemma steady_lastOfChain fuel : forall v, steady proj (lastOfChain fuel v).
Proof. induction fuel as [|fuel IH]; intros v; cbn [lastOfChain]; fix_step. Qed.

Lemma steady_appendChain L v :
  L = assignedL \/ L = unassignedL -> steady proj (VertexList_appendChain L v).
Proof.
  intros HL. pose proof steady_lastOfChain as H.
  unfold VertexList_appendChain, setHead, setTail. fix_step.
Qed.

Lemma steady_addVertexToFace v f : steady proj (addVertexToFace v f).
Proof.
  pose proof (fun t w => steady_insertBefore assignedL t w (or_introl eq_refl)) as H1.
  pose proof (fun w => steady_list_append assignedL w (or_introl eq_refl)) as H2.
  unfold addVertexToFace. fix_step.
Qed.

Lemma steady_removeVertexFromFace v o : steady proj (removeVertexFromFace v o).
Proof.
  pose proof (fun w => steady_remove assignedL w (or_introl eq_refl)) as H1.
  unfold removeVertexFromFace. fix_step.
Qed.

Lemma steady_lastOfFace fuel f : forall v, steady proj (lastOfFace fuel f v).
Proof. induction fuel as [|fuel IH]; intros v; cbn [lastOfFace]; fix_step. Qed.

Lemma steady_removeAllVerticesFromFace f : steady proj (removeAllVerticesFromFace f).
Proof.
  pose proof (fun a b => steady_removeSubList assignedL a b (or_introl eq_refl)) as H1.
  pose proof steady_lastOfFace as H2.
  unfold removeAllVerticesFromFace. fix_step.
Qed.

Lemma steady_absorbVertices fuel f : forall v, steady proj (absorbVertices fuel f v).
Proof.
  pose proof steady_addVertexToFace as H1.
  pose proof (fun w => steady_list_append unassignedL w (or_intror eq_refl)) as H2.
  induction fuel as [|fuel IH]; intros v; cbn [absorbVertices]; fix_step.
Qed.

Lemma steady_deleteFaceVertices f o : steady proj (deleteFaceVertices f o).
Proof.
  pose proof steady_removeAllVerticesFromFace as H1.
  pose proof (fun w => steady_appendChain unassignedL w (or_intror eq_refl)) as H2.
  pose proof steady_absorbVertices as H3.
  unfold deleteFaceVertices. fix_step.
Qed.

Lemma steady_scanNewFaces fs : forall p md mf, steady proj (scanNewFaces fs p md mf).
Proof. induction fs as [|f fs IH]; intros p md mf; cbn [scanNewFaces]; fix_step. Qed.

Lemma steady_resolveLoop fuel fs : forall v, steady proj (resolveLoop fuel fs v).
Proof.
  pose proof steady_addVertexToFace as H1. pose proof steady_scanNewFaces as H2.
  induction fuel as [|fuel IH]; intros v; cbn [resolveLoop]; fix_step.
Qed.

Lemma steady_resolveUnassignedPoints fs : steady proj (resolveUnassignedPoints fs).
Proof.
  pose proof steady_resolveLoop as H1. unfold resolveUnassignedPoints. fix_step.
Qed.

Lemma steady_assignInitial v : steady proj (assignInitial v).
Proof. pose proof steady_addVertexToFace as H1. unfold assignInitial. fix_step. Qed.

Lemma steady_Face_compute sqrt f : steady proj (Face_compute sqrt f).
Proof. unfold Face_compute. fix_step. Qed.

Lemma steady_Face_create sqrt a b c : steady proj (Face_create sqrt a b c).
Proof. pose proof (steady_Face_compute sqrt) as H1. unfold Face_create. fix_step. Qed.

Lemma steady_setTwin e o : steady proj (HalfEdge_setTwin e o).
Proof. unfold HalfEdge_setTwin. fix_step. Qed.

Lemma steady_joinFaces fs a i b j : steady proj (joinFaces fs a i b j).
Proof. pose proof steady_setTwin as H1. unfold joinFaces. fix_step. Qed.

Lemma steady_buildTetrahedron sqrt s : steady proj (buildTetrahedron sqrt s).
Proof.
  pose proof (steady_Face_create sqrt) as H1. pose proof steady_joinFaces as H2.
  unfold buildTetrahedron. cbv zeta. fix_step.
Qed.

Lemma steady_reindexFaces : steady proj reindexFaces.
Proof. unfold reindexFaces. fix_step. Qed.

Lemma steady_farthestOfFace fuel f : forall v md ev, steady proj (farthestOfFace fuel f v md ev).
Proof. induction fuel as [|fuel IH]; intros v md ev; cbn [farthestOfFace]; fix_step. Qed.

Lemma steady_nextVertexToAdd : steady proj nextVertexToAdd.
Proof. pose proof steady_farthestOfFace as H1. unfold nextVertexToAdd. fix_step. Qed.

Lemma steady_horizonLoop rec eye :
  (forall c f hz, steady proj (rec c f hz)) ->
  forall fuel e c hz, steady proj (horizonLoop rec fuel eye e c hz).
Proof.
  intros Hrec. induction fuel as [|fuel IH]; intros e c hz; cbn [horizonLoop]; fix_step.
Qed.

Lemma steady_computeHorizon eye : forall fuel c f hz, steady proj (computeHorizon fuel eye c f hz).
Proof.
  pose proof steady_deleteFaceVertices as H1.
  induction fuel as [|fuel IH]; intros c f hz; cbn [computeHorizon]; [apply steady_throw|].
  apply steady_bind; [apply H1|intros _].
  apply steady_bind; [apply steady_modFace|intros _].
  apply steady_bind; [fix_step|intros st].
  apply steady_bind; [fix_step|intros n].
  apply steady_horizonLoop. intros c' f' hz'. apply IH.
Qed.

Lemma steady_addAdjoiningFace sqrt v e : steady proj (addAdjoiningFace sqrt v e).
Proof.
  pose proof (steady_Face_create sqrt) as H1. pose proof steady_setTwin as H2.
  unfold addAdjoiningFace. fix_step.
Qed.

Lemma steady_joinNext a b : steady proj (joinNext a b).
Proof. pose proof steady_setTwin as H2. unfold joinNext. fix_step. Qed.

Lemma steady_addNewFaces sqrt v hz : steady proj (addNewFaces sqrt v hz).
Proof.
  pose proof (steady_addAdjoiningFace sqrt) as H1. pose proof steady_joinNext as H2.
  unfold addNewFaces. fix_step.
Qed.

Lemma steady_addVertexToHull sqrt v : steady proj (addVertexToHull sqrt v).
Proof.
  pose proof (steady_addNewFaces sqrt) as H1. pose proof steady_computeHorizon as H2.
  pose proof steady_removeVertexFromFace as H3.
  pose proof steady_resolveUnassignedPoints as H4.
  pose proof (steady_clear unassignedL (or_intror eq_refl)) as H5.
  unfold addVertexToHull. fix_step.
Qed.

Lemma steady_cleanup : steady proj cleanup.
Proof. unfold cleanup, VertexList_clear. fix_step. Qed.

Lemma steady_growLoop sqrt fuel : steady proj (growLoop sqrt fuel).
Proof.
  pose proof (steady_addVertexToHull sqrt) as H1. pose proof steady_nextVertexToAdd as H2.
  induction fuel as [|fuel IH]; cbn [growLoop]; fix_step.
Qed.

End Quiet.

(** The laws of the section, from a part of the hull that is [inert]. *)
Ltac by_inert Hin :=
  intros;
  first [ apply (in_faces _ Hin) | apply (in_newFaces _ Hin) | apply (in_assigned _ Hin)
        | apply (in_unassigned _ Hin) | apply (in_faceHeap _ Hin) | apply (in_edgeHeap _ Hin)
        | eapply (in_vertex _ Hin); eassumption ].

Lemma steady_pickAxis {B} (proj : hull -> B) ex : steady proj (pickAxis ex).
Proof.
  unfold pickAxis. apply steady_bind; [|intros r; apply steady_ret].
  apply steady_foldM. intros acc i. steady_read.
Qed.

Lemma inert_pointsOf : inert pointsOf.
Proof.
  split; try reflexivity.
  intros v n n' h E Hp. unfold pointsOf. cbn [vertices set_vertices].
  destruct h; cbn in *. now apply (map_insert_same VertexNode.point _ v n n').
Qed.

Lemma inert_tolerance : inert tolerance.
Proof. split; reflexivity. Qed.

Lemma steady_computeExtremes : steady pointsOf computeExtremes.
Proof.
  unfold computeExtremes. apply steady_bind; [apply steady_gets|intros vs].
  apply steady_bind; [apply steady_pointOf|intros p0].
  destruct (scanExtremes _ _ _ _) as [mn mx].
  apply steady_bind; [|intros _; apply steady_ret].
  apply steady_modify. intros h. reflexivity.
Qed.

Lemma steady_initialSimplex sqrt : steady pointsOf (initialSimplex sqrt).
Proof.
  pose proof steady_computeExtremes as H1.
  pose proof (@steady_pickAxis _ pointsOf) as H2.
  unfold initialSimplex. cbv zeta.
  apply steady_bind; [apply steady_gets|intros vs].
  apply steady_bind; [exact H1|intros ex].
  apply steady_bind; [apply H2|intros i]. steady_read.
Qed.

Lemma steady_afterSimplex {B} (proj : hull -> B) sqrt s :
  inert proj ->
  steady proj
    (let* fs := buildTetrahedron sqrt s in
     modify (fun h => set_faces (faces h ++ fs) h) ;;
     let* vs := gets vertices in
     forM (seq 0 (length vs)) (fun i =>
       if negb (Nat.eqb i (sv0 s)) && negb (Nat.eqb i (sv1 s)) && negb (Nat.eqb i (sv2 s))
          && negb (Nat.eqb i (sv3 s))
       then assignInitial i
       else ret tt)).
Proof.
  intros Hin.
  apply steady_bind; [apply steady_buildTetrahedron; by_inert Hin|intros fs].
  apply steady_bind; [apply steady_modify; intros h; apply (in_faces _ Hin)|intros _].
  apply steady_bind; [apply steady_gets|intros vs].
  apply steady_forM. intros i.
  destruct (_ && _); [apply steady_assignInitial; by_inert Hin | apply steady_ret].
Qed.

Lemma steady_afterInitial {B} (proj : hull -> B) sqrt :
  inert proj ->
  steady proj
    (let* n := gets (fun h => length (vertices h)) in
     growLoop sqrt (S n) ;; reindexFaces ;; cleanup).
Proof.
  intros Hin.
  apply steady_bind; [apply steady_gets|intros n].
  apply steady_bind; [apply steady_growLoop; by_inert Hin|intros _].
  apply steady_bind; [apply steady_reindexFaces; by_inert Hin|intros _].
  apply steady_cleanup; by_inert Hin.
Qed.

Lemma steady_compute sqrt : steady pointsOf (compute sqrt).
Proof.
  unfold compute, computeInitialHull.
  apply steady_bind; [|intros _; apply (steady_afterInitial pointsOf sqrt inert_pointsOf)].
  apply steady_bind; [apply steady_initialSimplex|intros s].
  apply (steady_afterSimplex pointsOf sqrt s inert_pointsOf).
Qed.

Lemma compute_tolerance sqrt h h' :
  compute sqrt h = Ok tt h' ->
  exists ex h1, computeExtremes h = Ok ex h1 /\ tolerance h' = tolerance h1.
Proof.
  unfold compute, computeInitialHull. intros H.
  apply bind_Ok_inv in H as ([] & h3 & H & H3).
  apply (steady_Ok tolerance) in H3; [|apply (steady_afterInitial _ sqrt inert_tolerance)].
  apply bind_Ok_inv in H as (s & h2 & H & H2).
  apply (steady_Ok tolerance) in H2; [|apply (steady_afterSimplex _ sqrt s inert_tolerance)].
  unfold initialSimplex in H. cbv zeta in H.
  apply bind_Ok_inv in H as (vs & h0 & E0 & H). injection E0 as _ <-.
  apply bind_Ok_inv in H as (ex & h1 & H1 & H).
  apply (steady_Ok tolerance) in H.
  - exists ex, h1. split; [exact H1|]. congruence.
  - pose proof (@steady_pickAxis _ tolerance) as Hp. steady_read.
Qed.

Lemma computeExtremes_bounds (h : hull) :
  vertices h <> [] ->
  exists ex mn mx,
    computeExtremes h = Ok ex (set_tolerance (toleranceOf mn mx) h) /\
    forall j, (j < 3)%nat ->
      least (coords j (vertices h)) (Vector3.getComponent mn j) /\
      greatest (coords j (vertices h)) (Vector3.getComponent mx j).
Proof.
  intros Hne. destruct (vertices h) as [|v vs] eqn:Hv; [congruence|].
  pose proof (computeExtremes_ok h v vs Hv) as Hc. cbv zeta in Hc.
  set (r := scanExtremes (v :: vs) 0 (VertexNode.point v, [0; 0; 0]%nat)
                         (VertexNode.point v, [0; 0; 0]%nat)) in *.
  exists (mkExtremes (snd (fst r)) (snd (snd r))), (fst (fst r)), (fst (snd r)).
  split; [exact Hc|]. intros j Hj.
  destruct (scanExtremes_extreme j Hj (v :: vs) 0%nat
              (VertexNode.point v, [0; 0; 0]%nat) (VertexNode.point v, [0; 0; 0]%nat)
              [Vector3.getComponent (VertexNode.point v) j]) as [H1 H2].
  - split; [now left|]. intros y [<-|[]]. apply Qle_refl.
  - split; [now left|]. intros y [<-|[]]. apply Qle_refl.
  - fold r in H1, H2. split.
    + apply (least_drop (Vector3.getComponent (VertexNode.point v) j)); [now left|exact H1].
    + apply (greatest_drop (Vector3.getComponent (VertexNode.point v) j)); [now left|exact H2].
Qed.

(** X13: whatever the build does with a point cloud, whether it returns or
    throws, it leaves in [this.vertices] one vertex for each given point, in
    the order given, and never writes to the point of a vertex:
    [this.vertices[i].point] is [points[i]]. *)
Theorem setFromPoints_vertices (sqrt : Q -> Q) (points : list Vector3.t) (h : hull) :
  map VertexNode.point (vertices (final (snd (setFromPoints sqrt points h)))) = points.
Proof.
  rewrite setFromPoints_prepared.
  pose proof (steady_compute sqrt (prepared points h)) as H. unfold pointsOf in H.
  rewrite H. cbn [vertices prepared]. apply map_point_new.
Qed.

(** X14: in a hull that [setFromPoints] has built, the tolerance is still the
    one [computeExtremes] derived from the input at the start,
    [3 * Number.EPSILON * (max (|min_x|, |max_x|) + max (|min_y|, |max_y|) +
    max (|min_z|, |max_z|))] over the least and greatest coordinates of the
    given points: nothing in the build writes it again, and what the hull
    held before does not matter. *)
Theorem setFromPoints_tolerance (sqrt : Q -> Q) (points : list Vector3.t) (h : hull) :
  reportOf (snd (setFromPoints sqrt points h)) = Built ->
  exists mn mx,
    tolerance (final (snd (setFromPoints sqrt points h))) = toleranceOf mn mx /\
    least (map Vector3.x points) (Vector3.x mn) /\
    least (map Vector3.y points) (Vector3.y mn) /\
    least (map Vector3.z points) (Vector3.z mn) /\
    greatest (map Vector3.x points) (Vector3.x mx) /\
    greatest (map Vector3.y points) (Vector3.y mx) /\
    greatest (map Vector3.z points) (Vector3.z mx).
Proof.
  rewrite setFromPoints_prepared. intros Hb.
  destruct (compute sqrt (prepared points h)) as [[] h'|e h'] eqn:E; [|discriminate].
  cbn [final]. apply compute_tolerance in E as (ex & h1 & E & ->).
  assert (vertices (prepared points h) <> []) as Hne.
  { intros Hv. unfold computeExtremes, bind, gets, pointOf, getVertex, bind, gets, deref in E.
    rewrite Hv in E. discriminate. }
  destruct (computeExtremes_bounds _ Hne) as (ex' & mn & mx & E' & Hb3).
  rewrite E' in E. injection E as _ <-.
  destruct (Hb3 0%nat ltac:(lia)) as [A0 B0].
  destruct (Hb3 1%nat ltac:(lia)) as [A1 B1].
  destruct (Hb3 2%nat ltac:(lia)) as [A2 B2].
  assert (forall j, coords j (vertices (prepared points h))
                    = map (fun p => Vector3.getComponent p j) points) as Hc.
  { intros j. unfold coords. cbn [vertices prepared]. rewrite map_map. reflexivity. }
  rewrite !Hc in *.
  exists mn, mx. split; [reflexivity|].
  exact (conj A0 (conj A1 (conj A2 (conj B0 (conj B1 B2))))).
Qed.

(** X14, witness: the cube. *)
Lemma setFromPoints_tolerance_witness :
  reportOf (snd (setFromPoints Qsqrt cube new)) = Built /\
  exists mn mx,
    tolerance (final (snd (setFromPoints Qsqrt cube new))) = toleranceOf mn mx /\
    least (map Vector3.x cube) (Vector3.x mn) /\
    greatest (map Vector3.x cube) (Vector3.x mx).
Proof.
  assert (Hb : reportOf (snd (setFromPoints Qsqrt cube new)) = Built)
    by (vm_compute; reflexivity).
  split; [exact Hb|].
  destruct (setFromPoints_tolerance Qsqrt cube new Hb)
    as (mn & mx & H & A0 & _ & _ & B0 & _).
  exists mn, mx. split; [exact H|]. split; [exact A0|exact B0].
Defined.

(** ** The faces that remain *)

Lemma reindex_fold h : forall l acc,
  (forall f, In f l -> is_Some (faceHeap h !! f)) ->
  foldM (fun (acc : list nat) (f : nat) =>
           let* fa := getFace f in
           ret (if Mark_eqb (Face.mark fa) Visible then acc ++ [f] else acc)) l acc h
  = Ok (acc ++ List.filter (visibleb h) l) h.
Proof.
  induction l as [|f l IH]; intros acc Hl; cbn [foldM List.filter].
  - now rewrite app_nil_r.
  - destruct (Hl f (or_introl eq_refl)) as [fa Hf].
    erewrite bind_Ok
      by (erewrite bind_Ok by (apply getFace_Ok; exact Hf); reflexivity).
    rewrite IH by (intros g Hg; apply Hl; now right).
    unfold visibleb at 2. rewrite Hf.
    destruct (Mark_eqb (Face.mark fa) Visible); [|reflexivity].
    now rewrite <- app_assoc.
Qed.

Lemma reindex_fold_inv h : forall l acc r h',
  foldM (fun (acc : list nat) (f : nat) =>
           let* fa := getFace f in
           ret (if Mark_eqb (Face.mark fa) Visible then acc ++ [f] else acc)) l acc h
  = Ok r h' ->
  forall f, In f l -> is_Some (faceHeap h !! f).
Proof.
  induction l as [|f l IH]; intros acc r h' H g Hg; [destruct Hg|].
  cbn [foldM] in H. apply bind_Ok_inv in H as (acc' & h0 & H0 & H).
  apply bind_Ok_inv in H0 as (fa & h1 & H1 & H0).
  apply getFace_inv in H1 as [Hf ->]. injection H0 as _ <-.
  destruct Hg as [<-|Hg]; [eauto|]. exact (IH _ _ _ H g Hg).
Qed.

Lemma reindexFaces_run h :
  (forall f, In f (faces h) -> is_Some (faceHeap h !! f)) ->
  reindexFaces h = Ok tt (set_faces (List.filter (visibleb h) (faces h)) h).
Proof.
  intros Hl. unfold reindexFaces.
  erewrite bind_Ok by reflexivity.
  rewrite (bind_Ok _ _ _ _ _ (reindex_fold h (faces h) [] Hl)). reflexivity.
Qed.

Lemma reindexFaces_inv h u h' :
  reindexFaces h = Ok u h' -> h' = set_faces (List.filter (visibleb h) (faces h)) h.
Proof.
  intros H. pose proof H as H0. unfold reindexFaces in H0.
  apply bind_Ok_inv in H0 as (fs & h0 & E & H0). injection E as <- <-.
  apply bind_Ok_inv in H0 as (r & h1 & E & _).
  pose proof (reindex_fold_inv _ _ _ _ _ E) as Hl.
  rewrite (reindexFaces_run h Hl) in H. now injection H as <-.
Qed.

(** X15: [reindexFaces] replaces [this.faces] by the faces in it whose mark is
    [Visible], in the order they had, and changes nothing else: a face marked
    [Deleted] is dropped, and a face stays in the list exactly when it is in
    the list before and is marked [Visible]. *)
Theorem reindexFaces_keeps_visible (h : hull) :
  (forall f, In f (faces h) -> is_Some (faceHeap h !! f)) ->
  exists h',
    reindexFaces h = Ok tt h' /\
    h' = set_faces (faces h') h /\
    faces h' = List.filter (visibleb h) (faces h) /\
    (forall f, In f (faces h') <-> In f (faces h) /\ visible h f) /\
    (forall f, deleted h f -> ~ In f (faces h')).
Proof.
  intros Hl. exists (set_faces (List.filter (visibleb h) (faces h)) h).
  split; [exact (reindexFaces_run h Hl)|]. split; [reflexivity|]. split; [reflexivity|].
  cbn [faces set_faces]. split.
  - intros f. rewrite filter_In, visibleb_true. reflexivity.
  - intros f Hd Hf. apply filter_In in Hf as [_ Hf]. apply visibleb_true in Hf.
    exact (visible_not_deleted h f Hf Hd).
Qed.

Lemma handles_checked (h : hull) (l : list nat) :
  forallb (fun f => match faceHeap h !! f with Some _ => true | None => false end) l = true ->
  forall f, In f l -> is_Some (faceHeap h !! f).
Proof.
  intros H f Hf. rewrite forallb_forall in H. specialize (H f Hf).
  destruct (faceHeap h !! f); [eauto|discriminate].
Qed.

Lemma In_checked (a : nat) (l : list nat) : existsb (Nat.eqb a) l = true -> In a l.
Proof.
  intros H. apply existsb_exists in H as (x & Hx & Hx').
  apply Nat.eqb_eq in Hx'. now subst.
Qed.

(** X15, witness: the cube after its initial tetrahedron and corner 5, where
    one of the seven faces is deleted. *)
Lemma reindexFaces_keeps_visible_witness :
  (forall f, In f (faces (final (addVertexToHull Qsqrt 5 cubeStart))) ->
     is_Some (faceHeap (final (addVertexToHull Qsqrt 5 cubeStart)) !! f)) /\
  exists h', reindexFaces (final (addVertexToHull Qsqrt 5 cubeStart)) = Ok tt h' /\
             faces h' = [1; 2; 3; 4; 5; 6]%nat.
Proof.
  assert (Hc : forallb (fun f => match faceHeap (final (addVertexToHull Qsqrt 5 cubeStart)) !! f
                                 with Some _ => true | None => false end)
                 (faces (final (addVertexToHull Qsqrt 5 cubeStart))) = true)
    by (vm_compute; reflexivity).
  assert (Hf : List.filter (visibleb (final (addVertexToHull Qsqrt 5 cubeStart)))
                 (faces (final (addVertexToHull Qsqrt 5 cubeStart)))
               = [1; 2; 3; 4; 5; 6]%nat)
    by (vm_compute; reflexivity).
  pose proof (handles_checked (final (addVertexToHull Qsqrt 5 cubeStart))
                (faces (final (addVertexToHull Qsqrt 5 cubeStart))) Hc) as Hl.
  split; [exact Hl|].
  destruct (reindexFaces_keeps_visible (final (addVertexToHull Qsqrt 5 cubeStart)) Hl)
    as (h' & E & _ & F & _).
  exists h'. split; [exact E|]. exact (eq_trans F Hf).
Defined.

(** ** The horizon, and the lists beside the mesh *)

(** X17: called as [addVertexToHull] calls it (no cross edge, an empty
    horizon) on a visible face [f] of a hull whose half-edges are laid out in
    triangles and twinned, [computeHorizon], when it returns, has marked [f]
    deleted, and besides [f] only faces that see the eye point; the horizon
    has no half-edge twice; each of its half-edges lies on a face deleted by
    the call, against a face that is still visible and does not see the eye
    point; and each half-edge of a deleted face is on the horizon or lies
    against another deleted face.  The mesh is otherwise as before. *)
Theorem computeHorizon_horizon (eye : Vector3.t) (fuel f : nat) (h h' : hull)
  (horizon : list nat) :
  dcel h -> visible h f ->
  computeHorizon fuel eye None f [] h = Ok horizon h' ->
  swept eye f h h' horizon.
Proof.
  intros Hd Hv H.
  destruct (computeHorizon_spec eye fuel None f [] h horizon h' (dcel_ready h Hd) Hv I H)
    as (new & -> & Hs).
  exact Hs.
Qed.

(** X17, witness: the cube with its initial tetrahedron, seen from corner 5
    above face 0; the horizon is the three half-edges of that face. *)
Lemma computeHorizon_horizon_witness :
  dcel cubeStart /\ visible cubeStart 0 /\
  exists h', computeHorizon 5 (P 1 0 1) None 0 [] cubeStart = Ok [0; 1; 2]%nat h' /\
             swept (P 1 0 1) 0 cubeStart h' [0; 1; 2]%nat.
Proof.
  assert (Hd : dcel cubeStart) by (apply dcelb_sound; vm_compute; reflexivity).
  assert (Hv : visible cubeStart 0) by (vm_compute; reflexivity).
  assert (E : computeHorizon 5 (P 1 0 1) None 0 [] cubeStart
              = Ok [0; 1; 2]%nat (final (computeHorizon 5 (P 1 0 1) None 0 [] cubeStart)))
    by (vm_compute; reflexivity).
  split; [exact Hd|]. split; [exact Hv|].
  exists (final (computeHorizon 5 (P 1 0 1) None 0 [] cubeStart)).
  split; [exact E|].
  exact (computeHorizon_horizon (P 1 0 1) 5 0 cubeStart
           (final (computeHorizon 5 (P 1 0 1) None 0 [] cubeStart)) [0; 1; 2]%nat Hd Hv E).
Defined.

(** X18: the operations that move vertices between the lists and the faces
    ([addVertexToFace], [removeVertexFromFace], [removeAllVerticesFromFace],
    [deleteFaceVertices], [resolveUnassignedPoints]) never touch the mesh:
    however they end, the tolerance, every half-edge, and every face but for
    its [outside] link are as before, and so are the points of the
    vertices. *)
Theorem bookkeeping_leaves_mesh (h : hull) :
  (forall v f, let h' := final (addVertexToFace v f h) in
               mesh h' = mesh h /\ pointsOf h' = pointsOf h) /\
  (forall v o, let h' := final (removeVertexFromFace v o h) in
               mesh h' = mesh h /\ pointsOf h' = pointsOf h) /\
  (forall f, let h' := final (removeAllVerticesFromFace f h) in
             mesh h' = mesh h /\ pointsOf h' = pointsOf h) /\
  (forall f o, let h' := final (deleteFaceVertices f o h) in
               mesh h' = mesh h /\ pointsOf h' = pointsOf h) /\
  (forall fs, let h' := final (resolveUnassignedPoints fs h) in
              mesh h' = mesh h /\ pointsOf h' = pointsOf h).
Proof.
  pose proof inert_pointsOf as Hin.
  split; [|split; [|split; [|split]]]; intros; subst h'; split.
  - apply frames_addVertexToFace.
  - apply steady_addVertexToFace; by_inert Hin.
  - apply frames_removeVertexFromFace.
  - apply steady_removeVertexFromFace; by_inert Hin.
  - apply frames_removeAllVerticesFromFace.
  - apply steady_removeAllVerticesFromFace; by_inert Hin.
  - apply frames_deleteFaceVertices.
  - apply steady_deleteFaceVertices; by_inert Hin.
  - apply frames_resolveUnassignedPoints.
  - apply steady_resolveUnassignedPoints; by_inert Hin.
Qed.

(** ** The assigned list, face by face *)

Section LinkOnly.

Context {B : Type} (proj : hull -> B) (L : ledger).
Hypothesis lo_list : forall l h, proj (lset L l h) = proj h.
Hypothesis lo_vertex : forall v n n' h,
  vertices h !! v = Some n ->
  VertexNode.point n' = VertexNode.point n -> VertexNode.face n' = VertexNode.face n ->
  proj (set_vertices (<[v := n']> (vertices h)) h) = proj h.

Lemma still_modVertex v g :
  (forall n, VertexNode.point (g n) = VertexNode.point n /\
             VertexNode.face (g n) = VertexNode.face n) ->
  steady proj (modVertex v g).
Proof.
  intros Hg h. unfold modVertex, getVertex, bind, gets, deref.
  destruct (vertices h !! v) as [n|] eqn:E; cbn; [|reflexivity].
  exact (lo_vertex v n (g n) h E (proj1 (Hg n)) (proj2 (Hg n))).
Qed.

Lemma still_modVertexAt o g :
  (forall n, VertexNode.point (g n) = VertexNode.point n /\
             VertexNode.face (g n) = VertexNode.face n) ->
  steady proj (modVertexAt o g).
Proof.
  intros Hg. unfold modVertexAt. apply steady_bind; [apply steady_deref|].
  intros v. now apply still_modVertex.
Qed.

Lemma link_tag_prev o n :
  VertexNode.point (VertexNode.set_prev o n) = VertexNode.point n /\
  VertexNode.face (VertexNode.set_prev o n) = VertexNode.face n.
Proof. now destruct n. Qed.
Lemma link_tag_next o n :
  VertexNode.point (VertexNode.set_next o n) = VertexNode.point n /\
  VertexNode.face (VertexNode.set_next o n) = VertexNode.face n.
Proof. now destruct n. Qed.

Ltac still_step :=
  repeat first
    [ assumption
    | solve [eauto with steady]
    | apply still_modVertex; intros ?; solve [apply link_tag_prev | apply link_tag_next]
    | apply still_modVertexAt; intros ?; solve [apply link_tag_prev | apply link_tag_next]
    | apply steady_modify; intros ?; apply lo_list
    | match goal with
      | H : forall _, steady _ _ |- _ => apply H
      | |- steady _ (match ?o with _ => _ end) => destruct o
      | |- steady _ (if ?b then _ else _) => destruct b
      end
    | apply steady_bind; [|intros ?] ].

Lemma still_append v : steady proj (VertexList_append L v).
Proof. unfold VertexList_append, setHead, setTail. still_step. Qed.
Lemma still_insertBefore t v : steady proj (VertexList_insertBefore L t v).
Proof. unfold VertexList_insertBefore, setHead, setTail. still_step. Qed.
Lemma still_insertAfter t v : steady proj (VertexList_insertAfter L t v).
Proof. unfold VertexList_insertAfter, setHead, setTail. still_step. Qed.
Lemma still_remove v : steady proj (VertexList_remove L v).
Proof. unfold VertexList_remove, setHead, setTail. still_step. Qed.
Lemma still_removeSubList a b : steady proj (VertexList_removeSubList L a b).
Proof. unfold VertexList_removeSubList, setHead, setTail. still_step. Qed.
Lemma still_lastOfChain fuel : forall v, steady proj (lastOfChain fuel v).
Proof. induction fuel as [|fuel IH]; intros v; cbn [lastOfChain]; still_step. Qed.
Lemma still_appendChain v : steady proj (VertexList_appendChain L v).
Proof.
  pose proof still_lastOfChain as H.
  unfold VertexList_appendChain, setHead, setTail. still_step.
Qed.
Lemma still_clear : steady proj (VertexList_clear L).
Proof. unfold VertexList_clear. still_step. Qed.

End LinkOnly.

Lemma tags_insert h v n n' :
  vertices h !! v = Some n ->
  VertexNode.point n' = VertexNode.point n -> VertexNode.face n' = VertexNode.face n ->
  tags (set_vertices (<[v := n']> (vertices h)) h) = tags h.
Proof.
  intros E Hp Hf. unfold tags. destruct h; cbn in *.
  apply (map_insert_same _ _ v n n' E). now rewrite Hp, Hf.
Qed.

Lemma core_insert h v n n' :
  vertices h !! v = Some n ->
  VertexNode.point n' = VertexNode.point n -> VertexNode.face n' = VertexNode.face n ->
  core (set_vertices (<[v := n']> (vertices h)) h) = core h.
Proof.
  intros E Hp Hf. unfold core. rewrite (tags_insert h v n n' E Hp Hf). now destruct h.
Qed.

Lemma beside_tags h h' v n :
  core h' = core h -> vertices h !! v = Some n ->
  exists n', vertices h' !! v = Some n' /\ VertexNode.face n' = VertexNode.face n /\
             VertexNode.point n' = VertexNode.point n.
Proof.
  intros Hc E. assert (tags h' = tags h) as Ht by (unfold core in Hc; congruence).
  assert (tags h !! v = Some (VertexNode.point n, VertexNode.face n)) as Hv
    by (unfold tags; now rewrite list_lookup_fmap, E).
  rewrite <- Ht in Hv. unfold tags in Hv. rewrite list_lookup_fmap in Hv.
  destruct (vertices h' !! v) as [n'|]; [|discriminate].
  injection Hv as Hp Hf. eauto.
Qed.

Lemma beside_owned h h' f Bl :
  core h' = core h -> owned (vertices h) f Bl -> owned (vertices h') f Bl.
Proof.
  intros Hc Ho v Hv. destruct (Ho v Hv) as (n & E & Hf).
  destruct (beside_tags h h' v n Hc E) as (n' & E' & Hf' & _).
  exists n'. split; [exact E'|congruence].
Qed.

Lemma beside_faceHeap h h' : core h' = core h -> faceHeap h' = faceHeap h.
Proof. unfold core. congruence. Qed.

Lemma beside_assigned_list l h : besideAssigned (lset assignedL l h) = besideAssigned h.
Proof. now destruct h. Qed.
Lemma beside_unassigned_list l h : besideUnassigned (lset unassignedL l h) = besideUnassigned h.
Proof. now destruct h. Qed.
Lemma beside_assigned_vertex v n n' h :
  vertices h !! v = Some n ->
  VertexNode.point n' = VertexNode.point n -> VertexNode.face n' = VertexNode.face n ->
  besideAssigned (set_vertices (<[v := n']> (vertices h)) h) = besideAssigned h.
Proof.
  intros E Hp Hf. unfold besideAssigned. rewrite (core_insert h v n n' E Hp Hf).
  now destruct h.
Qed.
Lemma beside_unassigned_vertex v n n' h :
  vertices h !! v = Some n ->
  VertexNode.point n' = VertexNode.point n -> VertexNode.face n' = VertexNode.face n ->
  besideUnassigned (set_vertices (<[v := n']> (vertices h)) h) = besideUnassigned h.
Proof.
  intros E Hp Hf. unfold besideUnassigned. rewrite (core_insert h v n n' E Hp Hf).
  now destruct h.
Qed.

Lemma besideAssigned_inv h h' :
  besideAssigned h' = besideAssigned h -> core h' = core h /\ unassigned h' = unassigned h.
Proof. intros H. split; [exact (f_equal fst H)|exact (f_equal snd H)]. Qed.
Lemma besideUnassigned_inv h h' :
  besideUnassigned h' = besideUnassigned h -> core h' = core h /\ assigned h' = assigned h.
Proof. intros H. split; [exact (f_equal fst H)|exact (f_equal snd H)]. Qed.

(** *** Blocks *)

Lemma flat_app bs1 bs2 : flat (bs1 ++ bs2) = flat bs1 ++ flat bs2.
Proof. unfold flat. now rewrite map_app, concat_app. Qed.

Lemma flat_cons f (Bl : list nat) bs : flat ((f, Bl) :: bs) = Bl ++ flat bs.
Proof. reflexivity. Qed.

Lemma In_flat v bs : In v (flat bs) <-> exists f Bl, In (f, Bl) bs /\ In v Bl.
Proof.
  induction bs as [|[g Bl] bs IH]; [cbn; split; [intros []|intros (? & ? & [] & _)]|].
  rewrite flat_cons, in_app_iff, IH. split.
  - intros [H|(f & B' & H1 & H2)]; [exists g, Bl; cbn; auto|exists f, B'; cbn; auto].
  - intros (f & B' & [[= <- <-]|H1] & H2); [auto|right; eauto].
Qed.

Lemma split_block (bs : list (nat * list nat)) f :
  In f (map fst bs) ->
  exists bs1 Bl bs2, bs = bs1 ++ (f, Bl) :: bs2 /\ ~ In f (map fst bs1).
Proof.
  induction bs as [|[g Bl] bs IH]; [intros []|].
  destruct (Nat.eq_dec g f) as [->|Hne].
  - intros _. exists [], Bl, bs. split; [reflexivity|intros []].
  - intros [H|H]; [cbn in H; congruence|].
    destruct (IH H) as (bs1 & B' & bs2 & -> & Hn).
    exists ((g, Bl) :: bs1), B', bs2. split; [reflexivity|].
    intros [E|E]; [cbn in E; congruence|auto].
Qed.

Lemma give_new f v bs : ~ In f (map fst bs) -> give f v bs = bs ++ [(f, [v])].
Proof.
  induction bs as [|[g Bl] bs IH]; intros Hn; [reflexivity|]. cbn [give].
  destruct (Nat.eqb_spec g f) as [->|Hne]; [exfalso; apply Hn; now left|].
  cbn [app]. f_equal. apply IH. intros H. apply Hn. now right.
Qed.

Lemma give_old f v bs1 Bl bs2 :
  ~ In f (map fst bs1) ->
  give f v (bs1 ++ (f, Bl) :: bs2) = bs1 ++ (f, v :: Bl) :: bs2.
Proof.
  induction bs1 as [|[g B'] bs1 IH]; intros Hn; cbn [give app].
  - now rewrite Nat.eqb_refl.
  - destruct (Nat.eqb_spec g f) as [->|Hne]; [exfalso; apply Hn; now left|].
    f_equal. apply IH. intros H. apply Hn. now right.
Qed.

Lemma fst_middle {A B} (l1 : list (A * B)) a b b' l2 :
  map fst (l1 ++ (a, b) :: l2) = map fst (l1 ++ (a, b') :: l2).
Proof. now rewrite !map_app. Qed.

Lemma sorted_block_of h bs f fa o :
  sorted h bs -> faceHeap h !! f = Some fa -> Face.outside fa = Some o ->
  exists bs1 Bl bs2, bs = bs1 ++ (f, o :: Bl) :: bs2 /\ ~ In f (map fst bs1).
Proof.
  intros Hs Hf Ho.
  destruct (in_dec Nat.eq_dec f (map fst bs)) as [Hi|Hn].
  - destruct (split_block bs f Hi) as (bs1 & Bl & bs2 & -> & Hn).
    destruct (so_block _ _ Hs f Bl) as (_ & _ & _ & fa' & Hf' & Ho').
    { apply in_app_iff. right. now left. }
    assert (fa' = fa) as -> by congruence. rewrite Ho in Ho'.
    destruct Bl as [|o' Bl]; [discriminate|]. injection Ho' as ->. eauto.
  - rewrite (so_free _ _ Hs f fa Hf Hn) in Ho. discriminate.
Qed.

Lemma sorted_no_block h bs f fa :
  sorted h bs -> faceHeap h !! f = Some fa -> Face.outside fa = None ->
  ~ In f (map fst bs).
Proof.
  intros Hs Hf Ho Hi.
  destruct (split_block bs f Hi) as (bs1 & Bl & bs2 & -> & Hn).
  destruct (so_block _ _ Hs f Bl) as (Hne & _ & _ & fa' & Hf' & Ho').
  { apply in_app_iff. right. now left. }
  assert (fa' = fa) as -> by congruence. rewrite Ho in Ho'.
  destruct Bl; [congruence|discriminate].
Qed.

Lemma give_fst f v bs :
  In f (map fst (give f v bs)) /\
  (forall g, In g (map fst bs) -> In g (map fst (give f v bs))) /\
  (List.NoDup (map fst bs) -> List.NoDup (map fst (give f v bs))).
Proof.
  destruct (in_dec Nat.eq_dec f (map fst bs)) as [Hi|Hn].
  - destruct (split_block bs f Hi) as (bs1 & Bl & bs2 & -> & Hn).
    rewrite (give_old f v bs1 Bl bs2 Hn), <- (fst_middle bs1 f Bl (v :: Bl) bs2). auto.
  - rewrite (give_new f v bs Hn), map_app. cbn [map fst]. split; [|split].
    + apply in_app_iff. right. now left.
    + intros g Hg. apply in_app_iff. now left.
    + intros Hnd. apply nodup_app. split; [exact Hnd|]. split; [repeat constructor; intros []|].
      intros x Hx [<-|[]]. contradiction.
Qed.

Lemma give_In f v bs g (Bl : list nat) :
  List.NoDup (map fst bs) -> In (g, Bl) (give f v bs) ->
  (g <> f /\ In (g, Bl) bs) \/
  (g = f /\ exists B0, Bl = v :: B0 /\ forall w, In w B0 -> In (f, B0) bs).
Proof.
  intros Hnd. destruct (in_dec Nat.eq_dec f (map fst bs)) as [Hi|Hn].
  - destruct (split_block bs f Hi) as (bs1 & B0 & bs2 & -> & Hn).
    rewrite (give_old f v bs1 B0 bs2 Hn).
    rewrite map_app in Hnd. apply nodup_app in Hnd as (_ & Hnd & _).
    cbn [map fst] in Hnd. apply List.NoDup_cons_iff in Hnd as [Hf2 _].
    rewrite !in_app_iff. cbn [In]. intros [H|[[= <- <-]|H]].
    + left. split; [|auto]. intros ->. apply Hn. now apply (in_map fst) in H.
    + right. split; [reflexivity|]. exists B0. split; [reflexivity|].
      intros _ _. apply in_app_iff. right. now left.
    + left. split; [|auto]. intros ->. apply Hf2. now apply (in_map fst) in H.
  - rewrite (give_new f v bs Hn), in_app_iff. cbn [In]. intros [H|[[= <- <-]|[]]].
    + left. split; [|exact H]. intros ->. apply Hn. now apply (in_map fst) in H.
    + right. split; [reflexivity|]. exists []. split; [reflexivity|intros w []].
Qed.

Lemma holds_frame L h h' Ls :
  holds L h Ls -> lget L h' = lget L h ->
  (forall w, In w Ls -> vertices h' !! w = vertices h !! w) -> holds L h' Ls.
Proof.
  intros [Hn Hd Hh Ht] Hl Hv. split; [exact Hn| |congruence|congruence].
  exact (dll_frame _ _ _ _ _ Hv Hd).
Qed.

Lemma visible_faceHeap h h' f : faceHeap h' = faceHeap h -> visible h' f <-> visible h f.
Proof. unfold visible, fmark. now intros ->. Qed.

Lemma vertices_set_faceHeap x h : vertices (set_faceHeap x h) = vertices h.
Proof. now destruct h. Qed.
Lemma faceHeap_set_vertices x h : faceHeap (set_vertices x h) = faceHeap h.
Proof. now destruct h. Qed.
Lemma faceHeap_set_faceHeap x h : faceHeap (set_faceHeap x h) = x.
Proof. now destruct h. Qed.
Lemma vertices_set_vertices x h : vertices (set_vertices x h) = x.
Proof. now destruct h. Qed.

Lemma sorted_set_face h bs v n f :
  sorted h bs -> ~ In v (flat bs) -> vertices h !! v = Some n ->
  sorted (set_vertices (<[v := VertexNode.set_face (Some f) n]> (vertices h)) h) bs.
Proof.
  intros [Hh Hf Hb Hfr] Hv En.
  assert (forall w, In w (flat bs) ->
            vertices (set_vertices (<[v := VertexNode.set_face (Some f) n]> (vertices h)) h) !! w
            = vertices h !! w) as Hsame.
  { intros w Hw. rewrite vertices_set_vertices. apply list_lookup_insert_ne. congruence. }
  split.
  - apply (holds_frame _ h); [exact Hh|now destruct h|exact Hsame].
  - exact Hf.
  - intros g Bl Hg. destruct (Hb g Bl Hg) as (Hne & Ho & Hvis & fa & Efa & Eo).
    split; [exact Hne|]. split; [|split].
    + intros w Hw. rewrite Hsame; [exact (Ho w Hw)|]. apply In_flat. eauto.
    + apply (visible_faceHeap h); [apply faceHeap_set_vertices|exact Hvis].
    + exists fa. rewrite faceHeap_set_vertices. auto.
  - intros g fa. rewrite faceHeap_set_vertices. apply Hfr.
Qed.

Lemma sorted_give h1 h2 bs f fa v n1 :
  sorted h1 bs -> faceHeap h1 !! f = Some fa -> Face.mark fa = Visible ->
  vertices h1 !! v = Some n1 -> VertexNode.face n1 = Some f ->
  core h2 = core h1 -> holds assignedL h2 (flat (give f v bs)) ->
  sorted (set_faceHeap (<[f := Face.set_outside (Some v) fa]> (faceHeap h2)) h2) (give f v bs).
Proof.
  intros [Hh Hf Hb Hfr] Efa Hm En Hn1 Hc Hh2.
  pose proof (beside_faceHeap _ _ Hc) as HF.
  assert (f < length (faceHeap h2))%nat as Hlt
    by (rewrite HF; eapply lookup_lt_Some; eauto).
  destruct (give_fst f v bs) as (G1 & G2 & G3).
  split.
  - apply (holds_frame _ h2); [exact Hh2|now destruct h2|].
    intros w _. now rewrite vertices_set_faceHeap.
  - exact (G3 Hf).
  - intros g Bl Hg. apply (give_In f v bs g Bl Hf) in Hg.
    rewrite vertices_set_faceHeap. unfold visible, fmark. rewrite faceHeap_set_faceHeap.
    destruct Hg as [[Hne Hg]|(-> & B0 & -> & HB0)].
    + destruct (Hb g Bl Hg) as (Hnil & Ho & Hvis & fa' & Efa' & Eo).
      split; [exact Hnil|]. split; [exact (beside_owned _ _ _ _ Hc Ho)|].
      rewrite list_lookup_insert_ne by congruence. rewrite HF.
      split; [exact Hvis|eauto].
    + split; [discriminate|]. split; [|split].
      * intros w [<-|Hw].
        -- destruct (beside_tags _ _ _ _ Hc En) as (n' & En' & Hf' & _).
           exists n'. split; [exact En'|congruence].
        -- destruct (Hb f B0 (HB0 w Hw)) as (_ & Ho & _).
           exact (beside_owned _ _ _ _ Hc Ho w Hw).
      * rewrite list_lookup_insert_eq by exact Hlt. cbn. now destruct fa; cbn in *; subst.
      * exists (Face.set_outside (Some v) fa).
        rewrite list_lookup_insert_eq by exact Hlt. split; [reflexivity|now destruct fa].
  - intros g fa' Eg Hg. rewrite faceHeap_set_faceHeap in Eg.
    assert (g <> f) as Hne by (intros ->; contradiction).
    rewrite list_lookup_insert_ne in Eg by congruence. rewrite HF in Eg.
    apply (Hfr g fa' Eg). intros Hi. apply Hg. exact (G2 g Hi).
Qed.

Lemma addVertexToFace_step h bs f fa v n :
  sorted h bs -> faceHeap h !! f = Some fa -> Face.mark fa = Visible ->
  ~ In v (flat bs) -> vertices h !! v = Some n ->
  exists h', addVertexToFace v f h = Ok tt h' /\ sorted h' (give f v bs) /\
    tags h' = <[v := (VertexNode.point n, Some f)]> (tags h) /\
    faceHeap h' = <[f := Face.set_outside (Some v) fa]> (faceHeap h) /\
    tolerance h' = tolerance h /\ faces h' = faces h /\ newFaces h' = newFaces h /\
    edgeHeap h' = edgeHeap h /\ unassigned h' = unassigned h /\
    (forall w, ~ In w (flat bs) -> w <> v -> vertices h' !! w = vertices h !! w).
Proof.
  intros Hs Efa Hm Hv En.
  set (h1 := set_vertices (<[v := VertexNode.set_face (Some f) n]> (vertices h)) h).
  pose proof (sorted_set_face h bs v n f Hs Hv En) as S1. fold h1 in S1.
  assert (E1 : modVertex v (VertexNode.set_face (Some f)) h = Ok tt h1)
    by exact (modVertex_Ok h v _ n En).
  assert (F1 : faceHeap h1 = faceHeap h) by apply faceHeap_set_vertices.
  assert (En1 : vertices h1 !! v = Some (VertexNode.set_face (Some f) n)).
  { unfold h1. rewrite vertices_set_vertices. apply list_lookup_insert_eq.
    eapply lookup_lt_Some; eauto. }
  assert (Efa1 : faceHeap h1 !! f = Some fa) by now rewrite F1.
  assert (T1 : tags h1 = <[v := (VertexNode.point n, Some f)]> (tags h)).
  { unfold tags, h1. rewrite vertices_set_vertices, list_fmap_insert. now destruct n. }
  assert (exists h2, (match Face.outside fa with
                      | None => VertexList_append assignedL v
                      | Some o => VertexList_insertBefore assignedL o v
                      end) h1 = Ok tt h2 /\
                     holds assignedL h2 (flat (give f v bs)) /\
                     besideAssigned h2 = besideAssigned h1 /\
                     (forall w, ~ In w (flat bs) -> w <> v ->
                                vertices h2 !! w = vertices h1 !! w))
    as (h2 & E2 & H2 & B2 & V2).
  { destruct (Face.outside fa) as [o|] eqn:Eo.
    - destruct (sorted_block_of h bs f fa o Hs Efa Eo) as (bs1 & Bl & bs2 & -> & Hn1).
      rewrite (give_old f v bs1 (o :: Bl) bs2 Hn1).
      pose proof (so_holds _ _ S1) as Hh1.
      rewrite flat_app, flat_cons in Hh1, Hv. rewrite <- app_comm_cons in Hh1, Hv.
      destruct (insertBefore_step assignedL h1 (flat bs1) o (Bl ++ flat bs2) v
                  lawful_assigned Hh1 Hv (ex_intro _ _ En1)) as (h2 & E2 & H2 & V2).
      exists h2. split; [exact E2|]. split; [|split].
      + rewrite flat_app, flat_cons. rewrite <- !app_comm_cons. exact H2.
      + exact (steady_Ok besideAssigned _ _ _ _
                 (still_insertBefore besideAssigned assignedL beside_assigned_list
                    beside_assigned_vertex o v) E2).
      + rewrite flat_app, flat_cons, <- app_comm_cons. exact V2.
    - pose proof (sorted_no_block h bs f fa Hs Efa Eo) as Hn.
      rewrite (give_new f v bs Hn).
      destruct (append_step assignedL h1 (flat bs) v lawful_assigned (so_holds _ _ S1) Hv
                  (ex_intro _ _ En1)) as (h2 & E2 & H2 & V2).
      exists h2. split; [exact E2|]. split; [|split].
      + rewrite flat_app. exact H2.
      + exact (steady_Ok besideAssigned _ _ _ _
                 (still_append besideAssigned assignedL beside_assigned_list
                    beside_assigned_vertex v) E2).
      + exact V2. }
  apply besideAssigned_inv in B2 as [C2 U2].
  pose proof (beside_faceHeap _ _ C2) as F2.
  exists (set_faceHeap (<[f := Face.set_outside (Some v) fa]> (faceHeap h2)) h2).
  split; [|split].
  - unfold addVertexToFace. rewrite (bind_Ok _ _ _ _ _ E1).
    rewrite (bind_Ok _ _ _ _ _ (getFace_Ok h1 f fa Efa1)).
    rewrite (bind_Ok _ _ _ _ _ E2).
    apply modFace_Ok. now rewrite F2.
  - apply (sorted_give h1 h2 bs f fa v _ S1 Efa1 Hm En1); [now destruct n|exact C2|exact H2].
  - unfold core in C2. injection C2 as Ct Cf Cn CF Ce CT.
    repeat split.
    + transitivity (tags h2); [unfold tags; now rewrite vertices_set_faceHeap|congruence].
    + rewrite faceHeap_set_faceHeap. congruence.
    + destruct h2, h; cbn in *. unfold h1 in Ct. cbn in Ct. exact Ct.
    + destruct h2, h; cbn in *. unfold h1 in Cf. cbn in Cf. exact Cf.
    + destruct h2, h; cbn in *. unfold h1 in Cn. cbn in Cn. exact Cn.
    + destruct h2, h; cbn in *. unfold h1 in Ce. cbn in Ce. exact Ce.
    + destruct h2, h; cbn in *. unfold h1 in U2. cbn in U2. exact U2.
    + intros w Hw Hwv. rewrite vertices_set_faceHeap, (V2 w Hw Hwv).
      unfold h1. rewrite vertices_set_vertices. apply list_lookup_insert_ne. congruence.
Qed.

Lemma flat_block f Bl : flat (block f Bl) = Bl.
Proof. destruct Bl; [reflexivity|]. cbn. now rewrite app_nil_r. Qed.

Lemma set_outside_same fa : Face.set_outside (Face.outside fa) fa = fa.
Proof. now destruct fa. Qed.

Lemma set_faceHeap_same h : set_faceHeap (faceHeap h) h = h.
Proof. now destruct h. Qed.

Lemma core_set_faceHeap x h :
  core (set_faceHeap x h) = (tolerance h, faces h, newFaces h, x, edgeHeap h, tags h).
Proof. now destruct h. Qed.

Lemma holds_set_faceHeap L x h Ls :
  lawful L -> lget L (set_faceHeap x h) = lget L h -> holds L h Ls ->
  holds L (set_faceHeap x h) Ls.
Proof.
  intros _ Hl Hh. apply (holds_frame L h); [exact Hh|exact Hl|].
  intros w _. now rewrite vertices_set_faceHeap.
Qed.

(** The owner of a vertex of another block is another face. *)
Lemma sorted_other h bs1 f Bl bs2 w :
  sorted h (bs1 ++ (f, Bl) :: bs2) -> In w (flat bs1 ++ flat bs2) ->
  exists n g, vertices h !! w = Some n /\ VertexNode.face n = Some g /\ g <> f.
Proof.
  intros [Hh Hf Hb Hfr] Hw.
  rewrite map_app in Hf. cbn [map fst] in Hf.
  apply nodup_app in Hf as (_ & Hf & Hf1). apply List.NoDup_cons_iff in Hf as [Hf2 _].
  apply in_app_iff in Hw as [Hw|Hw]; apply In_flat in Hw as (g & B' & Hg & Hw').
  - destruct (Hb g B') as (_ & Ho & _); [apply in_app_iff; now left|].
    destruct (Ho w Hw') as (n & En & Hn). exists n, g. split; [exact En|]. split; [exact Hn|].
    intros ->. apply (Hf1 f); [now apply (in_map fst) in Hg|now left].
  - destruct (Hb g B') as (_ & Ho & _); [apply in_app_iff; right; now right|].
    destruct (Ho w Hw') as (n & En & Hn). exists n, g. split; [exact En|]. split; [exact Hn|].
    intros ->. apply Hf2. now apply (in_map fst) in Hg.
Qed.

Lemma sorted_take h h2 bs1 f fa B1 X B2 bs2 :
  sorted h (bs1 ++ (f, B1 ++ X ++ B2) :: bs2) -> faceHeap h !! f = Some fa ->
  core h2 = core (set_faceHeap
                    (<[f := Face.set_outside (hd_or (B1 ++ B2) None) fa]> (faceHeap h)) h) ->
  holds assignedL h2 (flat bs1 ++ (B1 ++ B2) ++ flat bs2) ->
  sorted h2 (bs1 ++ block f (B1 ++ B2) ++ bs2).
Proof.
  intros Hs Efa Hc Hh2. pose proof Hs as [Hh Hf Hb Hfr].
  rewrite core_set_faceHeap in Hc. unfold core in Hc. injection Hc as _ _ _ HF _ HT.
  assert (core_like : forall g Bl, owned (vertices h) g Bl -> owned (vertices h2) g Bl).
  { intros g Bl Ho w Hw. destruct (Ho w Hw) as (n & En & Hn).
    assert (tags h !! w = Some (VertexNode.point n, VertexNode.face n)) as Hv
      by (unfold tags; now rewrite list_lookup_fmap, En).
    rewrite <- HT in Hv. unfold tags in Hv. rewrite list_lookup_fmap in Hv.
    destruct (vertices h2 !! w) as [n'|]; [|discriminate].
    injection Hv as _ Hf'. exists n'. split; [reflexivity|congruence]. }
  assert (f < length (faceHeap h))%nat as Hlt by (eapply lookup_lt_Some; eauto).
  rewrite map_app in Hf. cbn [map fst] in Hf.
  apply nodup_app in Hf as (Hf1 & Hf2 & Hf3). apply List.NoDup_cons_iff in Hf2 as [Hf4 Hf5].
  assert (Hin : forall g Bl, In (g, Bl) (bs1 ++ bs2) ->
            g <> f /\ In (g, Bl) (bs1 ++ (f, B1 ++ X ++ B2) :: bs2)).
  { intros g Bl Hg. apply in_app_iff in Hg as [Hg|Hg].
    - split; [|apply in_app_iff; now left].
      intros ->. apply (Hf3 f); [now apply (in_map fst) in Hg|now left].
    - split; [|apply in_app_iff; right; now right].
      intros ->. apply Hf4. now apply (in_map fst) in Hg. }
  destruct (Hb f (B1 ++ X ++ B2)) as (_ & Hof & Hvf & fa' & Efa' & _);
    [apply in_app_iff; right; now left|].
  assert (fa' = fa) as -> by congruence.
  split.
  - now rewrite !flat_app, flat_block.
  - rewrite !map_app. apply nodup_app. split; [exact Hf1|]. split.
    + apply nodup_app. split; [|split; [exact Hf5|]].
      * destruct (B1 ++ B2); repeat constructor. intros [].
      * intros x Hx Hx2. destruct (B1 ++ B2); [destruct Hx|].
        destruct Hx as [<-|[]]. contradiction.
    + intros x Hx Hx2. apply in_app_iff in Hx2 as [Hx2|Hx2].
      * destruct (B1 ++ B2); [destruct Hx2|]. destruct Hx2 as [<-|[]].
        apply (Hf3 f Hx). now left.
      * apply (Hf3 x Hx). now right.
  - intros g Bl Hg. unfold visible, fmark. rewrite HF.
    rewrite app_assoc in Hg. apply in_app_iff in Hg as [Hg|Hg];
      [apply in_app_iff in Hg as [Hg|Hg]|].
    + destruct (Hin g Bl) as [Hne Hg']; [apply in_app_iff; now left|].
      destruct (Hb g Bl Hg') as (Hnil & Ho & Hvis & fg & Efg & Eo).
      rewrite list_lookup_insert_ne by congruence.
      split; [exact Hnil|]. split; [exact (core_like _ _ Ho)|]. split; [exact Hvis|eauto].
    + destruct (B1 ++ B2) as [|b Bl'] eqn:EB; [destruct Hg|].
      destruct Hg as [[= <- <-]|[]]. split; [discriminate|]. split; [|split].
      * apply core_like. intros w Hw. apply Hof.
        rewrite <- EB in Hw. apply in_app_iff in Hw as [Hw|Hw]; apply in_app_iff;
          [now left|right; apply in_app_iff; now right].
      * rewrite list_lookup_insert_eq by exact Hlt. cbn.
        unfold visible, fmark in Hvf. rewrite Efa in Hvf. cbn in Hvf. now destruct fa.
      * eexists. rewrite list_lookup_insert_eq by exact Hlt.
        split; [reflexivity|now destruct fa].
    + destruct (Hin g Bl) as [Hne Hg']; [apply in_app_iff; now right|].
      destruct (Hb g Bl Hg') as (Hnil & Ho & Hvis & fg & Efg & Eo).
      rewrite list_lookup_insert_ne by congruence.
      split; [exact Hnil|]. split; [exact (core_like _ _ Ho)|]. split; [exact Hvis|eauto].
  - intros g fa' Eg Hg. rewrite HF in Eg.
    destruct (Nat.eq_dec g f) as [->|Hne].
    + rewrite list_lookup_insert_eq in Eg by exact Hlt. injection Eg as <-.
      destruct (B1 ++ B2) as [|b Bl']; [now destruct fa|].
      exfalso. apply Hg. rewrite !map_app. apply in_app_iff. right.
      apply in_app_iff. left. now left.
    + rewrite list_lookup_insert_ne in Eg by congruence.
      apply (Hfr g fa' Eg). rewrite map_app. cbn [map fst]. intros Hi.
      apply in_app_iff in Hi as [Hi|[Hi|Hi]]; [|congruence|]; apply Hg;
        rewrite !map_app; apply in_app_iff; [now left|right; apply in_app_iff; now right].
Qed.

Lemma bind_getFace {B} f (k : Face.t -> M B) h fa :
  faceHeap h !! f = Some fa -> bind (getFace f) k h = k fa h.
Proof. intros E. apply bind_Ok. now apply getFace_Ok. Qed.

Lemma option_nat_eqb_false a b : a <> b -> option_nat_eqb a b = false.
Proof.
  intros H. destruct (option_nat_eqb a b) eqn:E; [|reflexivity].
  apply option_nat_eqb_true in E. contradiction.
Qed.

(** The first phase of [removeVertexFromFace]: the face points at what comes
    after the vertex in its block. *)
Lemma unhook_step h bs1 f fa B1 v B2 bs2 nv :
  sorted h (bs1 ++ (f, B1 ++ v :: B2) :: bs2) ->
  faceHeap h !! f = Some fa -> vertices h !! v = Some nv ->
  VertexNode.next nv = hd_or (B2 ++ flat bs2) None ->
  (if option_nat_eqb (Some v) (Face.outside fa) then
     let* v := getVertex v in
     match VertexNode.next v with
     | Some n =>
         let* vn := getVertex n in
         if option_nat_eqb (VertexNode.face vn) (Some f)
         then modFace f (Face.set_outside (Some n))
         else modFace f (Face.set_outside None)
     | None => modFace f (Face.set_outside None)
     end
   else ret tt) h
  = Ok tt (set_faceHeap
             (<[f := Face.set_outside (hd_or (B1 ++ B2) None) fa]> (faceHeap h)) h).
Proof.
  intros Hs Efa En Hnext. pose proof Hs as [Hh Hf Hb Hfr].
  destruct (Hb f (B1 ++ v :: B2)) as (_ & Hof & _ & fa' & Efa' & Eo);
    [apply in_app_iff; right; now left|].
  assert (fa' = fa) as -> by congruence.
  destruct B1 as [|b B1]; cbn [app hd_or] in *.
  - rewrite Eo, (proj2 (option_nat_eqb_true (Some v) (Some v)) eq_refl).
    rewrite (bind_getVertex _ _ _ _ En), Hnext.
    destruct B2 as [|n B2]; cbn [app hd_or].
    + destruct (hd_or (flat bs2) None) as [n|] eqn:En2; [|now apply modFace_Ok].
      assert (In n (flat bs2)) as Hn2.
      { destruct (flat bs2); [discriminate|]. injection En2 as ->. now left. }
      destruct (sorted_other h bs1 f [v] bs2 n Hs) as (nn & g & Enn & Hg & Hne).
      { apply in_app_iff. now right. }
      rewrite (bind_getVertex _ _ _ _ Enn), Hg.
      rewrite option_nat_eqb_false by congruence. now apply modFace_Ok.
    + destruct (Hof n) as (nn & Enn & Hg); [right; now left|].
      rewrite (bind_getVertex _ _ _ _ Enn), Hg.
      rewrite (proj2 (option_nat_eqb_true (Some f) (Some f)) eq_refl).
      now apply modFace_Ok.
  - assert (v <> b) as Hvb.
    { intros ->. pose proof (ho_nodup _ _ _ Hh) as Hnd.
      rewrite flat_app, flat_cons in Hnd. apply nodup_app in Hnd as (_ & Hnd & _).
      apply nodup_app in Hnd as (Hnd & _). cbn in Hnd.
      apply List.NoDup_cons_iff in Hnd as [Hnd _]. apply Hnd.
      apply in_app_iff. right. now left. }
    rewrite Eo, option_nat_eqb_false by congruence.
    rewrite <- Eo, set_outside_same, list_insert_id by exact Efa.
    now rewrite set_faceHeap_same.
Qed.

(** [removeVertexFromFace]: the vertex leaves its block and the list; a face
    whose block is empty has no block any more. *)
Lemma removeVertexFromFace_step h bs1 f B1 v B2 bs2 :
  sorted h (bs1 ++ (f, B1 ++ v :: B2) :: bs2) ->
  exists h' fa,
    removeVertexFromFace v (Some f) h = Ok tt h' /\
    sorted h' (bs1 ++ block f (B1 ++ B2) ++ bs2) /\
    faceHeap h !! f = Some fa /\
    core h' = core (set_faceHeap
                      (<[f := Face.set_outside (hd_or (B1 ++ B2) None) fa]> (faceHeap h)) h) /\
    unassigned h' = unassigned h /\
    (forall w, ~ In w (flat bs1 ++ (B1 ++ B2) ++ flat bs2) ->
               vertices h' !! w = vertices h !! w).
Proof.
  intros Hs. pose proof Hs as [Hh Hf Hb Hfr].
  destruct (Hb f (B1 ++ v :: B2)) as (_ & Hof & _ & fa & Efa & Eo);
    [apply in_app_iff; right; now left|].
  assert (Hh' : holds assignedL h ((flat bs1 ++ B1) ++ v :: (B2 ++ flat bs2))).
  { rewrite flat_app, flat_cons in Hh. now rewrite <- !app_assoc in *. }
  destruct (dll_middle _ _ _ _ _ _ (ho_dll _ _ _ Hh')) as (nv & En & _ & Hnext).
  pose proof (unhook_step h bs1 f fa B1 v B2 bs2 nv Hs Efa En Hnext) as E1.
  set (h1 := set_faceHeap
               (<[f := Face.set_outside (hd_or (B1 ++ B2) None) fa]> (faceHeap h)) h) in *.
  assert (Hh1 : holds assignedL h1 ((flat bs1 ++ B1) ++ v :: (B2 ++ flat bs2))).
  { apply (holds_frame _ h); [exact Hh'|now destruct h|].
    intros w _. unfold h1. now rewrite vertices_set_faceHeap. }
  destruct (remove_step assignedL h1 (flat bs1 ++ B1) v (B2 ++ flat bs2) lawful_assigned Hh1)
    as (h2 & E2 & H2 & V2).
  pose proof (steady_Ok besideAssigned _ _ _ _
                (still_remove besideAssigned assignedL beside_assigned_list
                   beside_assigned_vertex v) E2) as B2'.
  apply besideAssigned_inv in B2' as [C2 U2].
  assert (Heq : (flat bs1 ++ B1) ++ B2 ++ flat bs2 = flat bs1 ++ (B1 ++ B2) ++ flat bs2)
    by now rewrite <- !app_assoc.
  rewrite Heq in H2, V2.
  exists h2, fa. split; [|split; [|split; [|split; [|split]]]].
  - unfold removeVertexFromFace. cbn [deref]. unfold ret at 1.
    rewrite (bind_Ok _ _ _ _ _ (eq_refl : Ok f h = Ok f h)).
    rewrite (bind_getFace _ _ _ _ Efa). rewrite (bind_Ok _ _ _ _ _ E1). exact E2.
  - exact (sorted_take h h2 bs1 f fa B1 [v] B2 bs2 Hs Efa C2 H2).
  - exact Efa.
  - exact C2.
  - rewrite U2. unfold h1. now destruct h.
  - intros w Hw. rewrite (V2 w Hw). unfold h1. now rewrite vertices_set_faceHeap.
Qed.

(** *** The outside set of a face *)

Lemma core_inv h h' :
  core h' = core h ->
  tolerance h' = tolerance h /\ faces h' = faces h /\ newFaces h' = newFaces h /\
  faceHeap h' = faceHeap h /\ edgeHeap h' = edgeHeap h /\ tags h' = tags h.
Proof. unfold core. intros H. repeat split; congruence. Qed.

Lemma run_of_chain vs f : forall Bl v q,
  chain vs (v :: Bl) q -> owned vs f (v :: Bl) ->
  (forall w, q = Some w -> exists nw, vs !! w = Some nw /\ VertexNode.face nw <> Some f) ->
  outsideRun vs f v (v :: Bl).
Proof.
  induction Bl as [|b Bl IH]; intros v q Hc Ho Hq.
  - destruct Hc as (n & En & Hn & _). cbn in Hn.
    destruct q as [w|].
    + destruct (Hq w eq_refl) as (nw & Enw & Hnw). exact (run_other vs f v n w nw En Hn Enw Hnw).
    + exact (run_end vs f v n En Hn).
  - destruct Hc as (n & En & Hn & Hc). cbn in Hn.
    destruct (Ho b) as (nb & Enb & Hfb); [right; now left|].
    apply (run_next vs f v n b nb _ En Hn Enb Hfb).
    apply (IH b q Hc); [|exact Hq]. intros w Hw. apply Ho. now right.
Qed.

Lemma sorted_run h bs1 f v Bl bs2 :
  sorted h (bs1 ++ (f, v :: Bl) :: bs2) -> outsideRun (vertices h) f v (v :: Bl).
Proof.
  intros Hs. pose proof Hs as [Hh Hf Hb Hfr].
  destruct (Hb f (v :: Bl)) as (_ & Hof & _); [apply in_app_iff; right; now left|].
  pose proof (ho_dll _ _ _ Hh) as Hd. rewrite flat_app, flat_cons in Hd.
  apply dll_app in Hd as [_ Hd]. apply dll_app in Hd as [Hd _].
  apply dll_chain in Hd.
  apply (run_of_chain _ f Bl v _ Hd Hof).
  intros w Hw.
  assert (In w (flat bs2)) as Hw2.
  { destruct (flat bs2); [discriminate|]. injection Hw as ->. now left. }
  destruct (sorted_other h bs1 f (v :: Bl) bs2 w Hs) as (nw & g & Enw & Hg & Hne).
  { apply in_app_iff. now right. }
  exists nw. split; [exact Enw|]. congruence.
Qed.

Lemma lastOfFace_run h f : forall l v,
  outsideRun (vertices h) f v l ->
  forall fuel, (length l <= fuel)%nat ->
  exists b, last_or None l = Some b /\ lastOfFace fuel f v h = Ok b h.
Proof.
  intros l v Hr. induction Hr as [v n En Hn|v n v' n' En Hn En' Hf|v n v' n' l En Hn En' Hf Hr IH];
    intros fuel Hfuel; (destruct fuel as [|fuel]; [cbn in Hfuel; lia|]); cbn [lastOfFace].
  - exists v. split; [reflexivity|]. now rewrite (bind_getVertex _ _ _ _ En), Hn.
  - exists v. split; [reflexivity|].
    rewrite (bind_getVertex _ _ _ _ En), Hn, (bind_getVertex _ _ _ _ En').
    now rewrite option_nat_eqb_false.
  - destruct (IH fuel) as (b & Hb & E); [cbn in Hfuel; lia|].
    exists b. split.
    + destruct (outsideRun_head _ _ _ _ Hr) as (l' & ->). exact Hb.
    + rewrite (bind_getVertex _ _ _ _ En), Hn, (bind_getVertex _ _ _ _ En'), Hf.
      now rewrite (proj2 (option_nat_eqb_true (Some f) (Some f)) eq_refl).
Qed.

Lemma last_split (Bl : list nat) b : last_or None Bl = Some b -> exists B0, Bl = B0 ++ [b].
Proof.
  destruct Bl as [|a Bl _] using rev_ind; [discriminate|].
  rewrite last_or_snoc. intros [= ->]. eauto.
Qed.

(** [removeAllVerticesFromFace]: the block leaves the list as a chain of its
    own. *)
Lemma removeAllVerticesFromFace_step h bs1 f Bl bs2 :
  sorted h (bs1 ++ (f, Bl) :: bs2) ->
  exists h' start fa,
    removeAllVerticesFromFace f h = Ok (Some start) h' /\
    hd_or Bl None = Some start /\
    sorted h' (bs1 ++ bs2) /\
    dll (vertices h') None Bl None /\
    faceHeap h !! f = Some fa /\
    core h' = core (set_faceHeap (<[f := Face.set_outside None fa]> (faceHeap h)) h) /\
    unassigned h' = unassigned h /\
    (forall w, ~ In w (flat bs1 ++ Bl ++ flat bs2) -> vertices h' !! w = vertices h !! w).
Proof.
  intros Hs. pose proof Hs as [Hh Hf Hb Hfr].
  destruct (Hb f Bl) as (Hne & Hof & _ & fa & Efa & Eo); [apply in_app_iff; right; now left|].
  destruct Bl as [|start Bl]; [congruence|]. cbn [hd_or] in Eo. clear Hne.
  pose proof (sorted_run h bs1 f start Bl bs2 Hs) as Hrun.
  destruct (lastOfFace_run h f _ _ Hrun (S (length (vertices h)))) as (b & Hb' & Elast).
  { pose proof (outsideRun_length _ _ _ _ Hrun). lia. }
  rewrite flat_app, flat_cons in Hh.
  destruct (removeSubList_step assignedL h (flat bs1) (start :: Bl) (flat bs2) start b
              lawful_assigned Hh eq_refl Hb') as (h1 & E1 & H1 & V1).
  pose proof (steady_Ok besideAssigned _ _ _ _
                (still_removeSubList besideAssigned assignedL beside_assigned_list
                   beside_assigned_vertex start b) E1) as B1.
  apply besideAssigned_inv in B1 as [C1 U1].
  pose proof (ho_nodup _ _ _ Hh) as Hnd.
  apply nodup_app in Hnd as (Hnd1 & Hnd2 & Hnd3).
  apply nodup_app in Hnd2 as (HndB & Hnd2 & Hnd4).
  assert (HBout : forall w, In w (start :: Bl) -> ~ In w (flat bs1 ++ flat bs2)).
  { intros w Hw Hi. apply in_app_iff in Hi as [Hi|Hi].
    - apply (Hnd3 w Hi). apply in_app_iff. now left.
    - exact (Hnd4 w Hw Hi). }
  pose proof (ho_dll _ _ _ Hh) as Hd.
  apply dll_app in Hd as [_ Hd]. apply dll_app in Hd as [Hd _].
  assert (Hd1 : dll (vertices h1) (last_or None (flat bs1)) (start :: Bl)
                    (hd_or (flat bs2) None)).
  { apply (dll_frame (vertices h)); [|exact Hd]. intros w Hw. apply V1. now apply HBout. }
  destruct (last_split _ _ Hb') as (B0 & EB).
  assert (Hb0 : ~ In b B0).
  { rewrite EB in HndB. apply nodup_app in HndB as (_ & _ & HndB).
    intros Hi. apply (HndB b Hi). now left. }
  assert (Hbin : In b (start :: Bl)) by (rewrite EB; apply in_app_iff; right; now left).
  destruct (dll_lookup _ _ _ _ _ Hd1 Hbin) as (nb & Enb).
  set (vs2 := <[b := VertexNode.set_next None nb]> (vertices h1)).
  assert (Hd2 : dll vs2 (last_or None (flat bs1)) (start :: Bl) None).
  { rewrite EB in Hd1 |- *. exact (dll_set_next _ _ _ _ _ _ _ Hd1 Enb Hb0). }
  destruct (dll_lookup _ _ _ _ _ Hd2 (or_introl eq_refl)) as (ns & Ens).
  set (vs3 := <[start := VertexNode.set_prev None ns]> vs2).
  assert (Hd3 : dll vs3 None (start :: Bl) None).
  { apply (dll_set_prev _ _ _ _ _ _ _ Hd2 Ens).
    now apply List.NoDup_cons_iff in HndB as [HndB _]. }
  set (h2 := set_vertices vs2 h1).
  set (h3 := set_vertices vs3 h2).
  set (h4 := set_faceHeap (<[f := Face.set_outside None fa]> (faceHeap h3)) h3).
  assert (E2 : modVertex b (VertexNode.set_next None) h1 = Ok tt h2)
    by exact (modVertex_Ok h1 b _ nb Enb).
  assert (E3 : modVertex start (VertexNode.set_prev None) h2 = Ok tt h3).
  { apply (modVertex_Ok h2 start _ ns). unfold h2. now rewrite vertices_set_vertices. }
  assert (C2 : core h2 = core h1).
  { apply (core_insert h1 b nb); [exact Enb|now destruct nb|now destruct nb]. }
  assert (C3 : core h3 = core h2).
  { unfold h3, vs3. replace vs2 with (vertices h2) by (unfold h2; apply vertices_set_vertices).
    apply (core_insert h2 start ns); [|now destruct ns|now destruct ns].
    unfold h2. now rewrite vertices_set_vertices. }
  assert (F3 : faceHeap h3 = faceHeap h).
  { rewrite (beside_faceHeap _ _ C3), (beside_faceHeap _ _ C2). exact (beside_faceHeap _ _ C1). }
  assert (E4 : modFace f (Face.set_outside None) h3 = Ok tt h4).
  { apply modFace_Ok. now rewrite F3. }
  assert (V3 : forall w, w <> b -> w <> start -> vertices h3 !! w = vertices h1 !! w).
  { intros w Hw1 Hw2. unfold h3, vs3, vs2. rewrite vertices_set_vertices.
    rewrite !list_lookup_insert_ne by congruence. reflexivity. }
  assert (C4 : core h4 = core (set_faceHeap (<[f := Face.set_outside None fa]> (faceHeap h)) h)).
  { unfold h4. rewrite !core_set_faceHeap, F3.
    assert (core h3 = core h) as C by congruence.
    destruct (core_inv _ _ C) as (Q1 & Q2 & Q3 & _ & Q5 & Q6).
    now rewrite Q1, Q2, Q3, Q5, Q6. }
  assert (H4 : holds assignedL h4 (flat bs1 ++ flat bs2)).
  { apply (holds_frame _ h1); [exact H1| |].
    - unfold h4, h3, h2. now destruct h1.
    - intros w Hw. unfold h4. rewrite vertices_set_faceHeap. apply V3.
      + intros ->. exact (HBout b Hbin Hw).
      + intros ->. exact (HBout start (or_introl eq_refl) Hw). }
  exists h4, start, fa. split; [|split; [|split; [|split; [|split; [|split; [|split]]]]]].
  - unfold removeAllVerticesFromFace. rewrite (bind_getFace _ _ _ _ Efa), Eo.
    rewrite bind_gets. rewrite (bind_Ok _ _ _ _ _ Elast).
    rewrite (bind_Ok _ _ _ _ _ E1), (bind_Ok _ _ _ _ _ E2), (bind_Ok _ _ _ _ _ E3).
    rewrite (bind_Ok _ _ _ _ _ E4). reflexivity.
  - reflexivity.
  - assert (sorted h4 (bs1 ++ block f ([] ++ []) ++ bs2)) as Hs4; [|exact Hs4].
    apply (sorted_take h h4 bs1 f fa [] (start :: Bl) [] bs2); [|exact Efa|exact C4|exact H4].
    cbn [app]. now rewrite app_nil_r.
  - unfold h4. rewrite vertices_set_faceHeap. unfold h3. rewrite vertices_set_vertices.
    exact Hd3.
  - exact Efa.
  - exact C4.
  - unfold h4, h3, h2. rewrite <- U1. now destruct h1.
  - intros w Hw. unfold h4. rewrite vertices_set_faceHeap.
    rewrite V3.
    + apply V1. intros Hi. apply Hw. apply in_app_iff in Hi as [Hi|Hi]; apply in_app_iff;
        [now left|right; apply in_app_iff; now right].
    + intros ->. apply Hw. apply in_app_iff. right. apply in_app_iff. now left.
    + intros ->. apply Hw. apply in_app_iff. right. apply in_app_iff. left. now left.
Qed.

(** *** The two lists while the horizon is computed *)

Lemma sorted_frame h h' bs :
  sorted h bs -> core h' = core h -> assigned h' = assigned h ->
  (forall w, In w (flat bs) -> vertices h' !! w = vertices h !! w) ->
  sorted h' bs.
Proof.
  intros [Hh Hf Hb Hfr] Hc Ha Hv. pose proof (beside_faceHeap _ _ Hc) as HF. split.
  - exact (holds_frame assignedL h h' _ Hh Ha Hv).
  - exact Hf.
  - intros g Bl Hg. destruct (Hb g Bl Hg) as (Hnil & Ho & Hvis & fa & Efa & Eo).
    split; [exact Hnil|]. split; [exact (beside_owned _ _ _ _ Hc Ho)|].
    split; [now apply (visible_faceHeap h)|]. exists fa. now rewrite HF.
  - intros g fa. rewrite HF. apply Hfr.
Qed.

Lemma without_split bs1 f (Bl : list nat) bs2 :
  List.NoDup (map fst (bs1 ++ (f, Bl) :: bs2)) ->
  without f (bs1 ++ (f, Bl) :: bs2) = bs1 ++ bs2 /\
  outsideOf f (bs1 ++ (f, Bl) :: bs2) = Bl.
Proof.
  intros Hnd. rewrite map_app in Hnd. cbn [map fst] in Hnd.
  apply nodup_app in Hnd as (_ & Hnd & H1). apply List.NoDup_cons_iff in Hnd as [H2 _].
  assert (forall bs, ~ In f (map fst bs) ->
            List.filter (fun b => negb (Nat.eqb (fst b) f)) bs = bs /\
            List.filter (fun b : nat * list nat => Nat.eqb (fst b) f) bs = []) as Hno.
  { induction bs as [|[g B'] bs IH]; intros Hn; [auto|]. cbn [List.filter fst].
    destruct (Nat.eqb_spec g f) as [->|Hne]; [exfalso; apply Hn; now left|]. cbn [negb].
    destruct IH as [-> ->]; [intros Hi; apply Hn; now right|]. auto. }
  destruct (Hno bs1) as [A1 A2]; [intros Hi; apply (H1 f Hi); now left|].
  destruct (Hno bs2 H2) as [A3 A4].
  unfold without, outsideOf. rewrite !List.filter_app. cbn [List.filter fst].
  rewrite Nat.eqb_refl. cbn [negb]. rewrite A1, A2, A3, A4. split; [reflexivity|].
  cbn. now rewrite app_nil_r.
Qed.

Lemma without_none f (bs : list (nat * list nat)) :
  ~ In f (map fst bs) -> without f bs = bs /\ outsideOf f bs = [].
Proof.
  induction bs as [|[g B'] bs IH]; intros Hn; [auto|]. unfold without, outsideOf in *.
  cbn [List.filter fst].
  destruct (Nat.eqb_spec g f) as [->|Hne]; [exfalso; apply Hn; now left|]. cbn [negb].
  destruct IH as [-> ->]; [intros Hi; apply Hn; now right|]. auto.
Qed.

Lemma without_fst f (bs : list (nat * list nat)) : ~ In f (map fst (without f bs)).
Proof.
  intros Hi. apply in_map_iff in Hi as ([g Bl] & <- & Hi).
  apply filter_In in Hi as [_ Hi]. cbn in Hi. now rewrite Nat.eqb_refl in Hi.
Qed.

Lemma deleteFaceVertices_block h bs1 f Bl bs2 U :
  ledgers h (bs1 ++ (f, Bl) :: bs2) U ->
  exists h' fa,
    deleteFaceVertices f None h = Ok tt h' /\ ledgers h' (bs1 ++ bs2) (U ++ Bl) /\
    faceHeap h !! f = Some fa /\
    core h' = core (set_faceHeap (<[f := Face.set_outside None fa]> (faceHeap h)) h).
Proof.
  intros [Hs Hu Hap].
  destruct (removeAllVerticesFromFace_step h bs1 f Bl bs2 Hs)
    as (h1 & start & fa & E1 & Hst & S1 & D1 & Efa & C1 & U1 & V1).
  pose proof (ho_nodup _ _ _ (so_holds _ _ Hs)) as Hnd.
  rewrite flat_app, flat_cons in Hnd, Hap.
  assert (HU1 : holds unassignedL h1 U).
  { apply (holds_frame _ h); [exact Hu|exact U1|]. intros w Hw. apply V1.
    exact (Hap w Hw). }
  assert (HndB : List.NoDup Bl /\ forall w, In w Bl -> ~ In w (flat bs1 ++ flat bs2)).
  { apply nodup_app in Hnd as (_ & Hnd & H3). apply nodup_app in Hnd as (HB & _ & H4).
    split; [exact HB|]. intros w Hw Hi. apply in_app_iff in Hi as [Hi|Hi].
    - apply (H3 w Hi). apply in_app_iff. now left.
    - exact (H4 w Hw Hi). }
  destruct HndB as [HndB HBout].
  assert (HndUB : List.NoDup (U ++ Bl)).
  { apply nodup_app. split; [exact (ho_nodup _ _ _ Hu)|]. split; [exact HndB|].
    intros w Hw Hi. apply (Hap w Hw). apply in_app_iff. right. apply in_app_iff. now left. }
  destruct (appendChain_step unassignedL h1 U Bl None start lawful_unassigned HU1 D1 Hst HndUB)
    as (h2 & E2 & H2 & V2).
  pose proof (steady_Ok besideUnassigned _ _ _ _
                (still_appendChain besideUnassigned unassignedL beside_unassigned_list
                   beside_unassigned_vertex start) E2) as B2.
  apply besideUnassigned_inv in B2 as [C2 A2].
  assert (Hstart : In start Bl) by (destruct Bl; [discriminate|injection Hst as ->; now left]).
  exists h2, fa. split; [|split; [|split]].
  - unfold deleteFaceVertices. rewrite (bind_Ok _ _ _ _ _ E1). exact E2.
  - split.
    + apply (sorted_frame h1); [exact S1|exact C2|exact A2|].
      intros w Hw. rewrite flat_app in Hw. apply V2.
      * intros Hi. apply (Hap w Hi). apply in_app_iff in Hw as [Hw|Hw]; apply in_app_iff;
          [now left|right; apply in_app_iff; now right].
      * intros ->. exact (HBout start Hstart Hw).
    + exact H2.
    + intros w Hw. rewrite flat_app. apply in_app_iff in Hw as [Hw|Hw].
      * intros Hi. apply (Hap w Hw). apply in_app_iff in Hi as [Hi|Hi]; apply in_app_iff;
          [now left|right; apply in_app_iff; now right].
      * exact (HBout w Hw).
  - exact Efa.
  - congruence.
Qed.

Lemma deleteFaceVertices_none h f fa :
  faceHeap h !! f = Some fa -> Face.outside fa = None ->
  deleteFaceVertices f None h = Ok tt h.
Proof.
  intros Efa Eo. unfold deleteFaceVertices, removeAllVerticesFromFace.
  unfold bind at 1. rewrite (bind_getFace _ _ _ _ Efa), Eo. reflexivity.
Qed.

(** [deleteFaceVertices] without an absorbing face: the block of the face
    moves to the end of the unassigned list. *)
Lemma deleteFaceVertices_step h bs U f fa :
  ledgers h bs U -> faceHeap h !! f = Some fa ->
  exists h',
    deleteFaceVertices f None h = Ok tt h' /\
    ledgers h' (without f bs) (U ++ outsideOf f bs) /\
    core h' = core (set_faceHeap (<[f := Face.set_outside None fa]> (faceHeap h)) h).
Proof.
  intros Hl Efa. pose proof (le_sorted _ _ _ Hl) as Hs.
  destruct (in_dec Nat.eq_dec f (map fst bs)) as [Hi|Hn].
  - destruct (split_block bs f Hi) as (bs1 & Bl & bs2 & -> & _).
    destruct (without_split bs1 f Bl bs2 (so_faces _ _ Hs)) as [-> ->].
    destruct (deleteFaceVertices_block h bs1 f Bl bs2 U Hl) as (h' & fa' & E & L & Efa' & C).
    assert (fa' = fa) as -> by congruence. eauto.
  - destruct (without_none f bs Hn) as [-> ->]. rewrite app_nil_r.
    pose proof (so_free _ _ Hs f fa Efa Hn) as Eo.
    exists h. split; [exact (deleteFaceVertices_none h f fa Efa Eo)|]. split; [exact Hl|].
    rewrite <- Eo, set_outside_same, list_insert_id by exact Efa.
    now rewrite set_faceHeap_same.
Qed.

Lemma ledgers_mark h bs U f x :
  ledgers h bs U -> ~ In f (map fst bs) -> faceHeap h !! f = Some x ->
  ledgers (set_faceHeap (<[f := Face.set_mark Deleted x]> (faceHeap h)) h) bs U.
Proof.
  intros [[Hh Hf Hb Hfr] Hu Hap] Hn Ex.
  assert (f < length (faceHeap h))%nat as Hlt by (eapply lookup_lt_Some; eauto).
  split; [split| |exact Hap].
  - apply holds_set_faceHeap; [exact lawful_assigned|now destruct h|exact Hh].
  - exact Hf.
  - intros g Bl Hg. destruct (Hb g Bl Hg) as (Hnil & Ho & Hvis & fa & Efa & Eo).
    assert (g <> f) as Hne by (intros ->; apply Hn; now apply (in_map fst) in Hg).
    rewrite vertices_set_faceHeap. unfold visible, fmark. rewrite faceHeap_set_faceHeap.
    rewrite list_lookup_insert_ne by congruence. eauto.
  - intros g fa. rewrite faceHeap_set_faceHeap. destruct (Nat.eq_dec g f) as [->|Hne].
    + rewrite list_lookup_insert_eq by exact Hlt. intros [= <-] _.
      pose proof (Hfr f x Ex Hn). now destruct x.
    + rewrite list_lookup_insert_ne by congruence. apply Hfr.
  - apply holds_set_faceHeap; [exact lawful_unassigned|now destruct h|exact Hu].
Qed.

Lemma deleteFaceVertices_valid f o h u h' :
  deleteFaceVertices f o h = Ok u h' -> is_Some (faceHeap h !! f).
Proof.
  unfold deleteFaceVertices, removeAllVerticesFromFace. intros H.
  apply bind_Ok_inv in H as (r & h1 & H & _).
  apply bind_Ok_inv in H as (fa & h2 & H & _).
  apply getFace_inv in H as [H _]. eauto.
Qed.

Lemma without_flat f bs w : In w (flat (without f bs)) -> In w (flat bs).
Proof.
  intros H. apply In_flat in H as (g & Bl & Hg & Hw). apply filter_In in Hg as [Hg _].
  apply In_flat. eauto.
Qed.

Lemma outsideOf_flat f bs w : In w (outsideOf f bs) -> In w (flat bs).
Proof.
  intros H. apply In_flat in H as (g & Bl & Hg & Hw). apply filter_In in Hg as [Hg _].
  apply In_flat. eauto.
Qed.

Lemma horizonLoop_ledgers pool rec eye :
  (forall c f hz h hz' h', within pool h -> rec c f hz h = Ok hz' h' -> within pool h') ->
  forall fuel e c hz h hz' h',
    within pool h -> horizonLoop rec fuel eye e c hz h = Ok hz' h' -> within pool h'.
Proof.
  intros Hrec. induction fuel as [|fuel IH]; intros e c hz h hz' h' HP H; [discriminate|].
  cbn [horizonLoop] in H.
  inv_read H he Ehe. inv_read H t Et. inv_read H ht Eht. inv_read H fo Efo.
  inv_read H tol Etol.
  apply bind_Ok_inv in H as (hz1 & h1 & H1 & H).
  assert (within pool h1) as HP1.
  { destruct (Mark_eqb _ _); [destruct (Num.gtb _ _)|].
    - exact (Hrec _ _ _ _ _ _ HP H1).
    - injection H1 as _ <-. exact HP.
    - injection H1 as _ <-. exact HP. }
  inv_read H he' Ehe'. inv_read H nx Enx.
  destruct (Nat.eqb nx c).
  - injection H as _ <-. exact HP1.
  - exact (IH _ _ _ _ _ _ HP1 H).
Qed.

(** [computeHorizon] keeps the two lists in order: the blocks of the faces it
    deletes move to the unassigned list, and no vertex comes in. *)
Lemma computeHorizon_ledgers pool eye : forall fuel c f hz h hz' h',
  within pool h -> computeHorizon fuel eye c f hz h = Ok hz' h' -> within pool h'.
Proof.
  induction fuel as [|fuel IH]; intros c f hz h hz' h' (bs & U & HL & HQ) H; [discriminate|].
  cbn [computeHorizon] in H.
  apply bind_Ok_inv in H as (u & h1 & H1 & H).
  destruct (deleteFaceVertices_valid _ _ _ _ _ H1) as (fa & Efa).
  destruct (deleteFaceVertices_step h bs U f fa HL Efa) as (h1' & E1 & L1 & _).
  assert (h1' = h1) as -> by congruence.
  apply bind_Ok_inv in H as (u2 & h2 & H2 & H).
  apply modFace_inv in H2 as (x & Ex & ->).
  pose proof (ledgers_mark h1 _ _ f x L1 (without_fst f bs) Ex) as L2.
  apply bind_Ok_inv in H as (st & h3 & H3 & H).
  assert (h3 = set_faceHeap (<[f := Face.set_mark Deleted x]> (faceHeap h1)) h1) as ->.
  { revert H3. generalize (set_faceHeap (<[f := Face.set_mark Deleted x]> (faceHeap h1)) h1).
    intros h0 H3.
    assert (reads (match c with
                   | Some c0 => let* hc := getEdge c0 in
                                let* e := deref (HalfEdge.next hc) in ret (e, c0)
                   | None => let* e := Face_getEdge f 0 in let* e0 := deref e in ret (e0, e0)
                   end)) as Hr by (destruct c; reads_step).
    exact (Hr _ _ _ H3). }
  inv_read H n En.
  assert (HQ2 : forall w, In w (flat (without f bs)) \/ In w (U ++ outsideOf f bs) -> pool w).
  { intros w [Hw|Hw]; apply HQ.
    - left. exact (without_flat f bs w Hw).
    - apply in_app_iff in Hw as [Hw|Hw]; [now right|left; exact (outsideOf_flat f bs w Hw)]. }
  apply (horizonLoop_ledgers pool _ eye (fun c0 f0 hz0 h0 hz0' h0' HP0 H0 =>
                                      IH (Some c0) f0 hz0 h0 hz0' h0' HP0 H0) _ _ _ _ _ _ _
           (ex_intro _ _ (ex_intro _ _ (conj L2 HQ2))) H).
Qed.

(** *** New faces beside the lists *)

Lemma extends_refl h : extends h h.
Proof.
  split; [reflexivity|]. split; [reflexivity|]. split; [reflexivity|]. split.
  - intros f fa E. eauto.
  - intros f fa' E E'. congruence.
Qed.

Lemma extends_trans h1 h2 h3 : extends h1 h2 -> extends h2 h3 -> extends h1 h3.
Proof.
  intros (V1 & A1 & U1 & O1 & N1) (V2 & A2 & U2 & O2 & N2).
  split; [congruence|]. split; [congruence|]. split; [congruence|]. split.
  - intros f fa E. destruct (O1 f fa E) as (fa' & E' & Ho & Hm).
    destruct (O2 f fa' E') as (fa'' & E'' & Ho' & Hm'). exists fa''. split; [exact E''|].
    split; congruence.
  - intros f fa3 E3 E1. destruct (faceHeap h2 !! f) as [fa2|] eqn:E2.
    + destruct (N1 f fa2 E2 E1) as [Ho Hm]. destruct (O2 f fa2 E2) as (fa' & E' & Ho' & Hm').
      assert (fa' = fa3) as -> by congruence. split; congruence.
    + exact (N2 f fa3 E3 E2).
Qed.

Lemma extends_same h h' :
  vertices h' = vertices h -> assigned h' = assigned h -> unassigned h' = unassigned h ->
  faceHeap h' = faceHeap h -> extends h h'.
Proof.
  intros V A U F. unfold extends. rewrite F.
  split; [exact V|]. split; [exact A|]. split; [exact U|].
  split; [eauto|]. intros; congruence.
Qed.

Lemma grows_reads {A} (c : M A) : reads c -> grows c.
Proof. intros Hc h a h' H. rewrite (Hc _ _ _ H). apply extends_refl. Qed.

Lemma grows_bind {A B} (c : M A) (k : A -> M B) :
  grows c -> (forall a, grows (k a)) -> grows (bind c k).
Proof.
  intros Hc Hk h b h' H. apply bind_Ok_inv in H as (a & h0 & E1 & E2).
  exact (extends_trans _ _ _ (Hc _ _ _ E1) (Hk _ _ _ _ E2)).
Qed.

Lemma grows_modFace f g :
  (forall x, Face.outside (g x) = Face.outside x /\ Face.mark (g x) = Face.mark x) ->
  grows (modFace f g).
Proof.
  intros Hg h a h' H. apply modFace_inv in H as (x & Ex & ->).
  assert (f < length (faceHeap h))%nat as Hlt by (eapply lookup_lt_Some; eauto).
  split; [now destruct h|]. split; [now destruct h|]. split; [now destruct h|].
  rewrite faceHeap_set_faceHeap. split.
  - intros f0 fa E. destruct (Nat.eq_dec f0 f) as [->|Hne].
    + rewrite list_lookup_insert_eq by exact Hlt. exists (g x).
      assert (fa = x) as -> by congruence. split; [reflexivity|apply Hg].
    + rewrite list_lookup_insert_ne by congruence. eauto.
  - intros f0 fa' E E0. exfalso.
    apply lookup_lt_Some in E. rewrite length_insert in E.
    apply lookup_ge_None in E0. lia.
Qed.

Lemma grows_modEdge e g : grows (modEdge e g).
Proof.
  intros h a h' H. apply modEdge_inv in H as (x & _ & ->).
  apply extends_same; now destruct h.
Qed.

Lemma grows_modEdgeAt o g : grows (modEdgeAt o g).
Proof.
  unfold modEdgeAt. apply grows_bind; [apply grows_reads, reads_deref|].
  intros e. apply grows_modEdge.
Qed.

Lemma grows_allocEdge v f : grows (allocEdge v f).
Proof. intros h a h' [= _ <-]. apply extends_same; now destruct h. Qed.

Lemma grows_allocFace : grows allocFace.
Proof.
  intros h a h' [= _ <-].
  split; [now destruct h|]. split; [now destruct h|]. split; [now destruct h|].
  rewrite faceHeap_set_faceHeap. split.
  - intros f fa E. exists fa. rewrite lookup_app_l by (eapply lookup_lt_Some; eauto). auto.
  - intros f fa' E E0. apply lookup_ge_None in E0.
    rewrite lookup_app_r in E by exact E0.
    destruct (f - length (faceHeap h))%nat; [|discriminate].
    injection E as <-. auto.
Qed.

Lemma grows_modify (g : hull -> hull) :
  (forall h, extends h (g h)) -> grows (modify g).
Proof. intros Hg h a h' [= _ <-]. apply Hg. Qed.

Lemma extends_set_faces x h : extends h (set_faces x h).
Proof. apply extends_same; now destruct h. Qed.

Lemma extends_set_newFaces x h : extends h (set_newFaces x h).
Proof. apply extends_same; now destruct h. Qed.

Lemma grows_forM {A} (l : list A) (f : A -> M unit) :
  (forall a, grows (f a)) -> grows (forM l f).
Proof.
  intros Hf. induction l as [|a l IH]; cbn [forM].
  - apply grows_reads, reads_ret.
  - apply grows_bind; [apply Hf | intros _; exact IH].
Qed.

Lemma grows_foldM {A B} (f : B -> A -> M B) (l : list A) :
  (forall b a, grows (f b a)) -> forall b, grows (foldM f l b).
Proof.
  intros Hf. induction l as [|a l IH]; intros b; cbn [foldM].
  - apply grows_reads, reads_ret.
  - apply grows_bind; [apply Hf | intros b'; apply IH].
Qed.

Ltac grows_step :=
  repeat first
    [ assumption
    | apply grows_reads; solve [reads_step]
    | apply grows_modFace; intros x; destruct x; split; reflexivity
    | apply grows_modEdge | apply grows_modEdgeAt
    | apply grows_allocFace | apply grows_allocEdge
    | apply grows_modify; intros ?; solve [apply extends_set_faces | apply extends_set_newFaces]
    | apply grows_forM; intros ?
    | apply grows_foldM; intros ? ?
    | match goal with
      | H : forall _, grows _ |- _ => apply H
      | H : forall _ _, grows _ |- _ => apply H
      | H : forall _ _ _, grows _ |- _ => apply H
      | H : forall _ _ _ _, grows _ |- _ => apply H
      | H : forall _ _ _ _ _, grows _ |- _ => apply H
      | |- grows (match ?o with _ => _ end) => destruct o
      | |- grows (if ?b then _ else _) => destruct b
      end
    | apply grows_bind; [|intros ?] ].

Lemma grows_Face_compute sqrt f : grows (Face_compute sqrt f).
Proof. unfold Face_compute. grows_step. Qed.

Lemma grows_Face_create sqrt a b c : grows (Face_create sqrt a b c).
Proof. pose proof (grows_Face_compute sqrt) as H1. unfold Face_create. grows_step. Qed.

Lemma grows_setTwin e o : grows (HalfEdge_setTwin e o).
Proof. unfold HalfEdge_setTwin. grows_step. Qed.

Lemma grows_joinFaces fs a i b j : grows (joinFaces fs a i b j).
Proof. pose proof grows_setTwin as H1. unfold joinFaces. grows_step. Qed.

Lemma grows_buildTetrahedron sqrt s : grows (buildTetrahedron sqrt s).
Proof.
  pose proof (grows_Face_create sqrt) as H1. pose proof grows_joinFaces as H2.
  unfold buildTetrahedron. cbv zeta. grows_step.
Qed.

Lemma grows_addAdjoiningFace sqrt v e : grows (addAdjoiningFace sqrt v e).
Proof.
  pose proof (grows_Face_create sqrt) as H1. pose proof grows_setTwin as H2.
  unfold addAdjoiningFace. grows_step.
Qed.

Lemma grows_joinNext a b : grows (joinNext a b).
Proof. pose proof grows_setTwin as H2. unfold joinNext. grows_step. Qed.

Lemma grows_addNewFaces sqrt v hz : grows (addNewFaces sqrt v hz).
Proof.
  pose proof (grows_addAdjoiningFace sqrt) as H1. pose proof grows_joinNext as H2.
  unfold addNewFaces. grows_step.
Qed.

Lemma sorted_extends h h' bs : sorted h bs -> extends h h' -> sorted h' bs.
Proof.
  intros [Hh Hf Hb Hfr] (V & A & U & O & N). split.
  - apply (holds_frame _ h); [exact Hh|exact A|]. intros w _. now rewrite V.
  - exact Hf.
  - intros g Bl Hg. destruct (Hb g Bl Hg) as (Hnil & Ho & Hvis & fa & Efa & Eo).
    destruct (O g fa Efa) as (fa' & Efa' & Ho' & Hm').
    split; [exact Hnil|]. split; [now rewrite V|]. split.
    + unfold visible, fmark in *. rewrite Efa in Hvis. rewrite Efa'. cbn in *. congruence.
    + exists fa'. split; [exact Efa'|congruence].
  - intros g fa' Eg Hn. destruct (faceHeap h !! g) as [fa|] eqn:E.
    + destruct (O g fa E) as (fa2 & E2 & Ho2 & _). assert (fa2 = fa') as -> by congruence.
      rewrite Ho2. exact (Hfr g fa E Hn).
    + exact (proj1 (N g fa' Eg E)).
Qed.

Lemma ledgers_extends h h' bs U : ledgers h bs U -> extends h h' -> ledgers h' bs U.
Proof.
  intros [Hs Hu Hap] He. split; [exact (sorted_extends _ _ _ Hs He)| |exact Hap].
  destruct He as (V & A & U' & _). apply (holds_frame _ h); [exact Hu|exact U'|].
  intros w _. now rewrite V.
Qed.

(** *** Giving the unassigned vertices to the new faces *)

Lemma Mark_eqb_Visible m : Mark_eqb m Visible = true -> m = Visible.
Proof. destruct m; [reflexivity|discriminate]. Qed.

Lemma scanNewFaces_inv fs : forall p md mf h r h',
  scanNewFaces fs p md mf h = Ok r h' ->
  h' = h /\ (r = mf \/ exists f fa, r = Some f /\ faceHeap h !! f = Some fa /\
                                    Face.mark fa = Visible).
Proof.
  induction fs as [|f fs IH]; intros p md mf h r h' H; cbn [scanNewFaces] in H.
  - injection H as <- <-. auto.
  - inv_read H fa Efa. apply getFace_inv in Efa as [Efa _].
    destruct (Mark_eqb (Face.mark fa) Visible) eqn:Em.
    + apply Mark_eqb_Visible in Em. inv_read H tol Etol.
      assert (forall r0, (r0 = (if Num.gtb (Face.distanceToPoint fa p) md then Some f else mf)
                          \/ exists f0 fa0, r0 = Some f0 /\ faceHeap h !! f0 = Some fa0 /\
                                            Face.mark fa0 = Visible) ->
                         r0 = mf \/ exists f0 fa0, r0 = Some f0 /\ faceHeap h !! f0 = Some fa0 /\
                                                   Face.mark fa0 = Visible) as Hcase.
      { intros r0 [->|Hr]; [|now right]. destruct (Num.gtb _ md); [right; eauto|now left]. }
      destruct (Num.gtb _ (1000 * tol)).
      * injection H as <- <-. split; [reflexivity|]. apply Hcase. now left.
      * destruct (IH _ _ _ _ _ _ H) as [-> Hr]. split; [reflexivity|]. exact (Hcase r Hr).
    + exact (IH _ _ _ _ _ _ H).
Qed.

Lemma flat_give_In f v bs w : In w (flat (give f v bs)) -> w = v \/ In w (flat bs).
Proof.
  induction bs as [|[g Bl] bs IH]; cbn [give].
  - intros [<-|[]]. now left.
  - destruct (Nat.eqb g f).
    + rewrite !flat_cons. intros [<-|H]; [now left|now right].
    + rewrite !flat_cons, !in_app_iff. intros [H|H]; [auto|].
      destruct (IH H); auto.
Qed.

Lemma addVertexToFace_inv h bs f v h' :
  sorted h bs -> ~ In v (flat bs) ->
  (forall fa, faceHeap h !! f = Some fa -> Face.mark fa = Visible) ->
  addVertexToFace v f h = Ok tt h' ->
  sorted h' (give f v bs) /\
  (forall w, ~ In w (flat bs) -> w <> v -> vertices h' !! w = vertices h !! w) /\
  (forall g fa', faceHeap h' !! g = Some fa' ->
     exists fa, faceHeap h !! g = Some fa /\ Face.mark fa' = Face.mark fa).
Proof.
  intros Hs Hv Hvis H. pose proof H as H0. unfold addVertexToFace in H0.
  apply bind_Ok_inv in H0 as (u & h1 & E1 & H0).
  apply modVertex_inv in E1 as (n & En & ->).
  apply bind_Ok_inv in H0 as (fa & h2 & E2 & _).
  apply getFace_inv in E2 as [Efa _]. rewrite faceHeap_set_vertices in Efa.
  destruct (addVertexToFace_step h bs f fa v n Hs Efa (Hvis fa Efa) Hv En)
    as (h'' & E & S & _ & F & _ & _ & _ & _ & _ & V).
  assert (h'' = h') as -> by congruence.
  split; [exact S|]. split; [exact V|].
  intros g fa' Eg. rewrite F in Eg.
  assert (f < length (faceHeap h))%nat as Hlt by (eapply lookup_lt_Some; eauto).
  destruct (Nat.eq_dec g f) as [->|Hne].
  - rewrite list_lookup_insert_eq in Eg by exact Hlt. injection Eg as <-.
    exists fa. split; [exact Efa|now destruct fa].
  - rewrite list_lookup_insert_ne in Eg by congruence. eauto.
Qed.

Lemma resolveLoop_sorted fs : forall fuel rest v h bs h',
  sorted h bs -> chain (vertices h) rest None -> List.NoDup rest ->
  (forall w, In w rest -> ~ In w (flat bs)) -> hd_or rest None = Some v ->
  resolveLoop fuel fs v h = Ok tt h' ->
  exists bs', sorted h' bs' /\ forall w, In w (flat bs') -> In w (flat bs) \/ In w rest.
Proof.
  induction fuel as [|fuel IH]; intros rest v h bs h' Hs Hc Hnd Hap Hv H; [discriminate|].
  destruct rest as [|v' rest]; [discriminate|]. injection Hv as ->.
  destruct Hc as (n & En & Hn & Hc). apply List.NoDup_cons_iff in Hnd as [Hv Hnd].
  cbn [resolveLoop] in H.
  rewrite (bind_getVertex _ _ _ _ En), bind_gets in H.
  apply bind_Ok_inv in H as (mf & h0 & H0 & H).
  apply scanNewFaces_inv in H0 as [-> Hmf].
  apply bind_Ok_inv in H as ([] & h1 & H1 & H).
  assert (exists bs1, sorted h1 bs1 /\ chain (vertices h1) rest None /\
                      (forall w, In w rest -> ~ In w (flat bs1)) /\
                      (forall w, In w (flat bs1) -> In w (flat bs) \/ w = v))
    as (bs1 & S1 & C1 & A1 & I1).
  { destruct mf as [f|].
    - destruct Hmf as [Hmf|(f0 & fa & Hf0 & Efa & Hm)]; [discriminate|]. injection Hf0 as <-.
      destruct (addVertexToFace_inv h bs f v h1 Hs (Hap v (or_introl eq_refl))) as (S1 & V1 & _).
      { intros fa' Efa'. congruence. }
      { exact H1. }
      exists (give f v bs). split; [exact S1|]. split; [|split].
      + apply (chain_frame (vertices h)); [|exact Hc]. intros w Hw. apply V1.
        * apply Hap. now right.
        * intros ->. contradiction.
      + intros w Hw Hi. apply flat_give_In in Hi as [->|Hi]; [contradiction|].
        apply (Hap w); [now right|exact Hi].
      + intros w Hi. apply flat_give_In in Hi as [->|Hi]; auto.
    - injection H1 as <-. exists bs. split; [exact Hs|]. split; [exact Hc|]. split; [|auto].
      intros w Hw. apply Hap. now right. }
  rewrite Hn in H. destruct rest as [|v2 rest]; cbn [hd_or] in H.
  - injection H as <-. exists bs1. split; [exact S1|]. intros w Hw.
    destruct (I1 w Hw) as [Hi| ->]; [now left|right; now left].
  - destruct (IH (v2 :: rest) v2 h1 bs1 h' S1 C1 Hnd A1 eq_refl H) as (bs' & S' & I').
    exists bs'. split; [exact S'|]. intros w Hw. destruct (I' w Hw) as [Hi|Hi].
    + destruct (I1 w Hi) as [Hi'| ->]; [now left|right; now left].
    + right. now right.
Qed.

(** [resolveUnassignedPoints] leaves the assigned list in blocks. *)
Lemma resolveUnassignedPoints_sorted fs h bs U h' :
  ledgers h bs U -> resolveUnassignedPoints fs h = Ok tt h' ->
  exists bs', sorted h' bs' /\ forall w, In w (flat bs') -> In w (flat bs) \/ In w U.
Proof.
  intros [Hs Hu Hap] H. unfold resolveUnassignedPoints in H. rewrite bind_gets in H.
  unfold VertexList.first in H.
  replace (VertexList.head (unassigned h)) with (hd_or U None) in H
    by (symmetry; exact (ho_head _ _ _ Hu)).
  destruct U as [|v U]; cbn [hd_or] in H.
  - injection H as <-. exists bs. split; [exact Hs|]. auto.
  - rewrite bind_gets in H.
    exact (resolveLoop_sorted fs _ (v :: U) v h bs h' Hs (dll_chain _ _ _ _ (ho_dll _ _ _ Hu))
             (ho_nodup _ _ _ Hu) Hap eq_refl H).
Qed.

(** *** One vertex *)

Lemma nextVertexToAdd_block h bs eye h' :
  sorted h bs -> nextVertexToAdd h = Ok (Some eye) h' ->
  h' = h /\ exists f B1 B2 bs2, bs = (f, B1 ++ eye :: B2) :: bs2.
Proof.
  intros Hs H. pose proof Hs as [Hh Hf Hb Hfr]. unfold nextVertexToAdd in H.
  rewrite bind_gets in H. unfold VertexList.first in H.
  replace (VertexList.head (assigned h)) with (hd_or (flat bs) None) in H
    by (symmetry; exact (ho_head _ _ _ Hh)).
  destruct bs as [|[f Bl] bs2]; [discriminate|].
  destruct (Hb f Bl (or_introl eq_refl)) as (Hnil & Ho & _ & fa & Efa & Eo).
  destruct Bl as [|first Bl]; [congruence|]. rewrite flat_cons in H. cbn [app hd_or] in H, Eo.
  destruct (Ho first (or_introl eq_refl)) as (n & En & Hn).
  rewrite (bind_getVertex _ _ _ _ En), Hn in H. cbn [deref] in H.
  unfold ret at 1 in H. rewrite (bind_Ok _ _ _ _ _ (eq_refl : Ok f h = Ok f h)) in H.
  rewrite (bind_getFace _ _ _ _ Efa), bind_gets, Eo in H.
  pose proof (sorted_run h [] f first Bl bs2 Hs) as Hrun.
  rewrite (farthestOfFace_run h f fa Efa first _ Hrun) in H
    by (pose proof (outsideRun_length _ _ _ _ Hrun); lia).
  assert (pickFarthest (vertices h) fa (first :: Bl) 0 None = Some eye /\ h' = h) as [Hp ->]
    by (split; congruence).
  split; [reflexivity|].
  destruct (pickFarthest_spec (vertices h) fa (first :: Bl) 0 None) as [[Hq _]|(e & Hq & Hi & _)].
  - congruence.
  - assert (e = eye) as -> by congruence.
    apply in_split in Hi as (B1 & B2 & ->). eauto.
Qed.

Lemma sorted_clear h bs :
  sorted h bs ->
  ledgers (lset unassignedL (VertexList.clear (lget unassignedL h)) h) bs [].
Proof.
  intros Hs. split.
  - apply (sorted_frame h); [exact Hs|now destruct h|now destruct h|].
    intros w _. now destruct h.
  - split; [constructor|exact I|now destruct h|now destruct h].
  - intros w [].
Qed.

(** [addVertexToHull] leaves the assigned list in blocks. *)
Lemma addVertexToHull_sorted sqrt h f B1 eye B2 bs2 h' :
  sorted h ((f, B1 ++ eye :: B2) :: bs2) ->
  addVertexToHull sqrt eye h = Ok tt h' ->
  exists bs', sorted h' bs' /\ forall w, In w (flat bs') -> In w (B1 ++ B2 ++ flat bs2).
Proof.
  intros Hs H. unfold addVertexToHull in H.
  apply bind_Ok_inv in H as (u0 & h0 & E0 & H). injection E0 as _ <-.
  pose proof (sorted_clear h _ Hs) as [S0 U0 A0].
  set (h0 := lset unassignedL (VertexList.clear (lget unassignedL h)) h) in *.
  destruct (so_block _ _ S0 f (B1 ++ eye :: B2) (or_introl eq_refl)) as (_ & Ho & _).
  destruct (Ho eye) as (ev & Eev & Hev); [apply in_app_iff; right; now left|].
  rewrite (bind_getVertex _ _ _ _ Eev), Hev in H.
  apply bind_Ok_inv in H as (u1 & h1 & E1 & H).
  destruct (removeVertexFromFace_step h0 [] f B1 eye B2 bs2 S0)
    as (h1' & fa & E1' & S1 & _ & _ & U1 & _).
  assert (h1' = h1) as -> by congruence. cbn [app] in S1.
  assert (L1 : ledgers h1 (block f (B1 ++ B2) ++ bs2) []).
  { split; [exact S1| |intros w []].
    split; [constructor|exact I| |].
    - rewrite <- (ho_head _ _ _ U0). cbn [lget unassignedL]. now rewrite U1.
    - rewrite <- (ho_tail _ _ _ U0). cbn [lget unassignedL]. now rewrite U1. }
  inv_read H ev' Eev'. inv_read H eyeFace Eface. inv_read H n En.
  apply bind_Ok_inv in H as (hz & h2 & E2 & H).
  assert (W1 : within (fun w => In w (B1 ++ B2 ++ flat bs2)) h1).
  { exists (block f (B1 ++ B2) ++ bs2), []. split; [exact L1|].
    intros w [Hw|[]]. rewrite flat_app, flat_block in Hw. now rewrite <- app_assoc in Hw. }
  destruct (computeHorizon_ledgers _ _ _ _ _ _ _ _ _ W1 E2) as (bs3 & U3 & L2 & Q2).
  apply bind_Ok_inv in H as (u3 & h3 & E3 & H).
  pose proof (ledgers_extends _ _ _ _ L2 (grows_addNewFaces sqrt eye hz _ _ _ E3)) as L3.
  inv_read H nf Enf.
  destruct (resolveUnassignedPoints_sorted nf h3 bs3 U3 h' L3 H) as (bs' & S' & I').
  exists bs'. split; [exact S'|]. intros w Hw. apply Q2. exact (I' w Hw).
Qed.

(** *** The whole build *)

Lemma initialSimplex_effect sqrt h s h' :
  initialSimplex sqrt h = Ok s h' -> exists q, h' = set_tolerance q h.
Proof.
  intros H. destruct (vertices h) as [|v vs] eqn:Hv.
  - rewrite initialSimplex_empty in H by assumption. discriminate.
  - destruct (initialSimplex_run sqrt h v vs Hv)
      as (mn & mx & ex & v0 & v1 & n0 & n1 & _ & _ & _ & _ & _ & Hrun).
    cbv zeta in Hrun. rewrite Hrun in H.
    destruct (findV2 _ _ _ _ _ _ _); [|discriminate].
    destruct (_ !! _); [|discriminate]. cbv zeta in H.
    destruct (findV3 _ _ _ _ _ _ _ _); [|discriminate].
    injection H as _ <-. eauto.
Qed.

Lemma reads_foldM {A B} (f : B -> A -> M B) (l : list A) :
  (forall b a, reads (f b a)) -> forall b, reads (foldM f l b).
Proof.
  intros Hf. induction l as [|a l IH]; intros b; cbn [foldM].
  - apply reads_ret.
  - apply reads_bind; [apply Hf|intros b'; apply IH].
Qed.

Lemma reads_farthestOfFace fuel f : forall v md ev, reads (farthestOfFace fuel f v md ev).
Proof.
  induction fuel as [|fuel IH]; intros v md ev; cbn [farthestOfFace].
  - intros h a h' H. discriminate.
  - repeat first
      [ apply IH
      | solve [eauto with reads]
      | match goal with
        | |- reads (match ?o with _ => _ end) => destruct o
        | |- reads (if ?b then _ else _) => destruct b
        end
      | apply reads_bind; [|intros ?] ].
Qed.

Lemma reads_nextVertexToAdd : reads nextVertexToAdd.
Proof.
  unfold nextVertexToAdd.
  repeat first
    [ apply reads_farthestOfFace
    | solve [eauto with reads]
    | match goal with
      | |- reads (match ?o with _ => _ end) => destruct o
      end
    | apply reads_bind; [|intros ?] ].
Qed.

Lemma assignInitial_sorted h bs v h' :
  sorted h bs ->
  (forall f fa, faceHeap h !! f = Some fa -> Face.mark fa = Visible) ->
  ~ In v (flat bs) -> assignInitial v h = Ok tt h' ->
  exists bs', sorted h' bs' /\
    (forall w, In w (flat bs') -> w = v \/ In w (flat bs)) /\
    (forall f fa, faceHeap h' !! f = Some fa -> Face.mark fa = Visible).
Proof.
  intros Hs Hvis Hv H. unfold assignInitial in H.
  inv_read H p Ep. inv_read H tol Etol.
  apply bind_Ok_inv in H as (r & h0 & E0 & H).
  assert (h0 = h) as ->.
  { revert E0. apply reads_foldM. intros acc j. reads_step. }
  destruct (snd r) as [f|].
  - destruct (addVertexToFace_inv h bs f v h' Hs Hv (Hvis f) H) as (S' & _ & M').
    exists (give f v bs). split; [exact S'|]. split.
    + intros w Hw. exact (flat_give_In f v bs w Hw).
    + intros g fa' Eg. destruct (M' g fa' Eg) as (fa & Efa & Hm). rewrite Hm. eauto.
  - injection H as <-. exists bs. split; [exact Hs|]. split; [auto|exact Hvis].
Qed.

Lemma assignAll_sorted (cond : nat -> bool) : forall k i h bs h',
  sorted h bs ->
  (forall f fa, faceHeap h !! f = Some fa -> Face.mark fa = Visible) ->
  (forall w, In w (flat bs) -> (w < i)%nat) ->
  forM (seq i k) (fun i => if cond i then assignInitial i else ret tt) h = Ok tt h' ->
  exists bs', sorted h' bs'.
Proof.
  induction k as [|k IH]; intros i h bs h' Hs Hvis Hlt H; cbn [seq forM] in H.
  - injection H as <-. eauto.
  - apply bind_Ok_inv in H as ([] & h1 & H1 & H).
    destruct (cond i).
    + destruct (assignInitial_sorted h bs i h1 Hs Hvis) as (bs1 & S1 & I1 & V1).
      { intros Hi. apply Hlt in Hi. lia. }
      { exact H1. }
      apply (IH (S i) h1 bs1 h' S1 V1); [|exact H].
      intros w Hw. destruct (I1 w Hw) as [->|Hi]; [lia|]. apply Hlt in Hi. lia.
    + injection H1 as <-. apply (IH (S i) h bs h' Hs Hvis); [|exact H].
      intros w Hw. apply Hlt in Hw. lia.
Qed.

(** [computeInitialHull] leaves the assigned list in blocks. *)
Lemma computeInitialHull_sorted sqrt h h' :
  assigned h = VertexList.new -> faceHeap h = [] ->
  computeInitialHull sqrt h = Ok tt h' -> exists bs, sorted h' bs.
Proof.
  intros Ha Hf H. unfold computeInitialHull in H.
  apply bind_Ok_inv in H as (s & h1 & E1 & H).
  apply initialSimplex_effect in E1 as (q & ->).
  apply bind_Ok_inv in H as (fs & h2 & E2 & H).
  apply grows_buildTetrahedron in E2 as (V2 & A2 & U2 & O2 & N2).
  apply bind_Ok_inv in H as (u & h3 & E3 & H). injection E3 as _ <-.
  rewrite bind_gets in H.
  assert (Hnew : forall f fa, faceHeap h2 !! f = Some fa ->
                              Face.outside fa = None /\ Face.mark fa = Visible).
  { intros f fa E. apply (N2 f fa E).
    replace (faceHeap (set_tolerance q h)) with (faceHeap h) by now destruct h.
    now rewrite Hf. }
  assert (S3 : sorted (set_faces (faces h2 ++ fs) h2) []).
  { split.
    - split; [constructor|exact I| |].
      + cbn. replace (assigned (set_faces (faces h2 ++ fs) h2)) with (assigned h2)
          by now destruct h2.
        rewrite A2. replace (assigned (set_tolerance q h)) with (assigned h) by now destruct h.
        now rewrite Ha.
      + cbn. replace (assigned (set_faces (faces h2 ++ fs) h2)) with (assigned h2)
          by now destruct h2.
        rewrite A2. replace (assigned (set_tolerance q h)) with (assigned h) by now destruct h.
        now rewrite Ha.
    - constructor.
    - intros f Bl [].
    - intros f fa E _.
      replace (faceHeap (set_faces (faces h2 ++ fs) h2)) with (faceHeap h2) in E
        by now destruct h2.
      exact (proj1 (Hnew f fa E)). }
  eapply (assignAll_sorted _ _ 0%nat _ [] h' S3); [| |exact H].
  - intros f fa E.
    replace (faceHeap (set_faces (faces h2 ++ fs) h2)) with (faceHeap h2) in E
      by now destruct h2.
    exact (proj2 (Hnew f fa E)).
  - intros w [].
Qed.

Lemma growLoop_closed sqrt : forall fuel h h',
  dcel h -> (exists bs, sorted h bs) -> growLoop sqrt fuel h = Ok tt h' ->
  dcel h' /\ exists bs, sorted h' bs.
Proof.
  induction fuel as [|fuel IH]; intros h h' Hd (bs & Hs) H; [discriminate|].
  cbn [growLoop] in H.
  apply bind_Ok_inv in H as (vertex & h0 & E0 & H).
  destruct vertex as [eye|].
  - destruct (nextVertexToAdd_block h bs eye h0 Hs E0) as (-> & f & B1 & B2 & bs2 & ->).
    apply bind_Ok_inv in H as ([] & h1 & E1 & H).
    destruct (addVertexToHull_sorted sqrt h f B1 eye B2 bs2 h1 Hs E1) as (bs1 & S1 & _).
    apply (IH h1 h'); [|eauto|exact H].
    apply (addVertexToHull_dcel sqrt eye h h1 Hd); [|exact E1].
    intros n En.
    destruct (so_block _ _ Hs f (B1 ++ eye :: B2) (or_introl eq_refl)) as (_ & Ho & Hvis & _).
    destruct (Ho eye) as (n' & En' & Hf); [apply in_app_iff; right; now left|].
    exists f. split; [congruence|exact Hvis].
  - rewrite (reads_nextVertexToAdd _ _ _ E0) in H. injection H as <-. eauto.
Qed.

Lemma compute_closed sqrt h h' :
  assigned h = VertexList.new -> faceHeap h = [] -> edgeHeap h = [] ->
  compute sqrt h = Ok tt h' -> dcel h'.
Proof.
  intros Ha Hf He H. unfold compute in H.
  apply bind_Ok_inv in H as ([] & h1 & E1 & H).
  pose proof (computeInitialHull_dcel sqrt h h1 Hf He E1) as D1.
  pose proof (computeInitialHull_sorted sqrt h h1 Ha Hf E1) as S1.
  rewrite bind_gets in H.
  apply bind_Ok_inv in H as ([] & h2 & E2 & H).
  destruct (growLoop_closed sqrt _ h1 h2 D1 S1 E2) as [D2 _].
  apply bind_Ok_inv in H as ([] & h3 & E3 & H).
  apply reindexFaces_inv in E3 as ->.
  unfold cleanup, VertexList_clear, bind, modify in H. injection H as <-.
  apply (mesh_dcel h2); [|exact D2]. now destruct h2.
Qed.

(** ** The assigned list and the faces: the operations one by one *)

Lemma outsidePair_sorted : sorted outsidePair [(0, [0; 1])]%nat.
Proof.
  split.
  - split.
    + constructor; [intros [H|[]]; discriminate|]. constructor; [intros []|constructor].
    + cbn. eexists. repeat split. eexists. repeat split.
    + reflexivity.
    + reflexivity.
  - constructor; [intros []|constructor].
  - intros f Bl [[= <- <-]|[]]. split; [discriminate|]. split; [|split].
    + intros v [<-|[<-|[]]]; eexists; split; reflexivity.
    + reflexivity.
    + eexists. split; reflexivity.
  - intros [|f] fa E Hn; [exfalso; apply Hn; now left|]. destruct f; discriminate.
Qed.

(** X20: on a hull whose assigned list is in blocks, [addVertexToFace] returns
    for a vertex that is in no block and a visible face: the vertex stands in
    front of the block of the face, or makes a new block at the end of the
    list when the face had none; it is the [outside] vertex of the face and
    the face is its [face]; the other faces, the faces of the other vertices,
    the points, the mesh and the unassigned list are as before. *)
Theorem addVertexToFace_blocks (h : hull) (bs : list (nat * list nat)) (f : nat)
  (fa : Face.t) (v : nat) (n : VertexNode.t) :
  sorted h bs -> faceHeap h !! f = Some fa -> Face.mark fa = Visible ->
  ~ In v (flat bs) -> vertices h !! v = Some n ->
  exists h', addVertexToFace v f h = Ok tt h' /\ sorted h' (give f v bs) /\
    tags h' = <[v := (VertexNode.point n, Some f)]> (tags h) /\
    faceHeap h' = <[f := Face.set_outside (Some v) fa]> (faceHeap h) /\
    tolerance h' = tolerance h /\ faces h' = faces h /\ newFaces h' = newFaces h /\
    edgeHeap h' = edgeHeap h /\ unassigned h' = unassigned h /\
    (forall w, ~ In w (flat bs) -> w <> v -> vertices h' !! w = vertices h !! w).
Proof. exact (addVertexToFace_step h bs f fa v n). Qed.

(** X20, witness: vertex 2 joins vertices 0 and 1 outside face 0. *)
Lemma addVertexToFace_blocks_witness :
  exists h', addVertexToFace 2 0 outsidePair = Ok tt h' /\
             sorted h' [(0, [2; 0; 1])]%nat.
Proof.
  destruct (addVertexToFace_blocks outsidePair [(0, [0; 1])]%nat 0%nat
              (Face.set_outside (Some 0%nat) Face.new) 2%nat (VertexNode.new (P 0 1 1)))
    as (h' & H1 & H2 & _).
  - exact outsidePair_sorted.
  - reflexivity.
  - reflexivity.
  - intros [H|[H|[]]]; discriminate.
  - reflexivity.
  - exists h'. split; [exact H1|exact H2].
Defined.

(** X21: on a hull whose assigned list is in blocks, [removeVertexFromFace]
    returns for a vertex of the block of its face: the vertex leaves the block
    and the list, the face points at the first vertex that is left in its
    block, or at none when the block is empty, and the other blocks, the mesh
    and the unassigned list are as before. *)
Theorem removeVertexFromFace_blocks (h : hull) (bs1 : list (nat * list nat)) (f : nat)
  (B1 : list nat) (v : nat) (B2 : list nat) (bs2 : list (nat * list nat)) :
  sorted h (bs1 ++ (f, B1 ++ v :: B2) :: bs2) ->
  exists h' fa,
    removeVertexFromFace v (Some f) h = Ok tt h' /\
    sorted h' (bs1 ++ block f (B1 ++ B2) ++ bs2) /\
    faceHeap h !! f = Some fa /\
    core h' = core (set_faceHeap
                      (<[f := Face.set_outside (hd_or (B1 ++ B2) None) fa]> (faceHeap h)) h) /\
    unassigned h' = unassigned h /\
    (forall w, ~ In w (flat bs1 ++ (B1 ++ B2) ++ flat bs2) ->
               vertices h' !! w = vertices h !! w).
Proof. exact (removeVertexFromFace_step h bs1 f B1 v B2 bs2). Qed.

(** X21, witness: vertex 0 leaves; face 0 then points at vertex 1. *)
Lemma removeVertexFromFace_blocks_witness :
  exists h', removeVertexFromFace 0 (Some 0%nat) outsidePair = Ok tt h' /\
             sorted h' [(0, [1])]%nat.
Proof.
  destruct (removeVertexFromFace_blocks outsidePair [] 0%nat [] 0%nat [1]%nat []
              outsidePair_sorted) as (h' & fa & H1 & H2 & _).
  exists h'. split; [exact H1|exact H2].
Defined.

Lemma outsidePair_ledgers : ledgers outsidePair [(0, [0; 1])]%nat [].
Proof.
  split; [exact outsidePair_sorted| |intros w []].
  split; [constructor|exact I|reflexivity|reflexivity].
Qed.

(** X22: on a hull whose two lists are in order, [deleteFaceVertices] without
    an absorbing face returns: the block of the face, if it has one, leaves
    the assigned list and stands at the end of the unassigned list, its
    vertices linked in the order they had; the face has no [outside] vertex
    any more; the rest of the hull, the faces and points of the vertices
    among it, is as before. *)
Theorem deleteFaceVertices_moves (h : hull) (bs : list (nat * list nat)) (U : list nat)
  (f : nat) (fa : Face.t) :
  ledgers h bs U -> faceHeap h !! f = Some fa ->
  exists h',
    deleteFaceVertices f None h = Ok tt h' /\
    ledgers h' (without f bs) (U ++ outsideOf f bs) /\
    core h' = core (set_faceHeap (<[f := Face.set_outside None fa]> (faceHeap h)) h).
Proof. exact (deleteFaceVertices_step h bs U f fa). Qed.

(** X22, witness: the two vertices outside face 0 become the unassigned
    list. *)
Lemma deleteFaceVertices_moves_witness :
  exists h', deleteFaceVertices 0 None outsidePair = Ok tt h' /\
             ledgers h' [] [0; 1]%nat.
Proof.
  destruct (deleteFaceVertices_moves outsidePair [(0, [0; 1])]%nat [] 0%nat
              (Face.set_outside (Some 0%nat) Face.new) outsidePair_ledgers eq_refl)
    as (h' & H1 & H2 & _).
  exists h'. split; [exact H1|exact H2].
Defined.

(** X23: one round of the build on a hull whose assigned list is in blocks
    and whose mesh is closed: the vertex that [nextVertexToAdd] returns is a
    vertex of the assigned list, and when [addVertexToHull] returns for it,
    the assigned list is in blocks again, that vertex is no longer in it, no
    vertex has come into it, and the mesh is closed again. *)
Theorem addVertexToHull_round (sqrt : Q -> Q) (h : hull) (bs : list (nat * list nat))
  (eye : nat) (h' : hull) :
  sorted h bs -> dcel h ->
  nextVertexToAdd h = Ok (Some eye) h ->
  addVertexToHull sqrt eye h = Ok tt h' ->
  In eye (flat bs) /\ dcel h' /\
  exists bs', sorted h' bs' /\
              forall w, In w (flat bs') -> In w (flat bs) /\ w <> eye.
Proof.
  intros Hs Hd Hn H.
  destruct (nextVertexToAdd_block h bs eye h Hs Hn) as (_ & f & B1 & B2 & bs2 & ->).
  destruct (addVertexToHull_sorted sqrt h f B1 eye B2 bs2 h' Hs H) as (bs' & S' & I').
  pose proof (ho_nodup _ _ _ (so_holds _ _ Hs)) as Hnd. rewrite flat_cons in Hnd |- *.
  rewrite <- app_assoc in Hnd |- *. cbn [app] in Hnd |- *.
  split; [apply in_app_iff; right; now left|]. split.
  - apply (addVertexToHull_dcel sqrt eye h h' Hd); [|exact H].
    intros n En.
    destruct (so_block _ _ Hs f (B1 ++ eye :: B2) (or_introl eq_refl)) as (_ & Ho & Hvis & _).
    destruct (Ho eye) as (n' & En' & Hf); [apply in_app_iff; right; now left|].
    exists f. split; [congruence|exact Hvis].
  - exists bs'. split; [exact S'|]. intros w Hw. specialize (I' w Hw).
    apply nodup_app in Hnd as (_ & Hnd & Hnd2).
    apply List.NoDup_cons_iff in Hnd as [Hnd _].
    apply in_app_iff in I' as [Hi|Hi].
    + split; [apply in_app_iff; now left|]. intros ->. apply (Hnd2 eye Hi). now left.
    + split; [apply in_app_iff; right; now right|]. intros ->. contradiction.
Qed.

(** X23, witness: the cube with its initial tetrahedron; the round adds
    corner 5. *)
Lemma addVertexToHull_round_witness :
  exists bs, sorted cubeStart bs /\ In 5%nat (flat bs) /\
             dcel (final (addVertexToHull Qsqrt 5 cubeStart)).
Proof.
  assert (H0 : thrown (computeInitialHull Qsqrt (prepared cube new)) = None)
    by (vm_compute; reflexivity).
  assert (H1 : thrown (addVertexToHull Qsqrt 5 cubeStart) = None)
    by (vm_compute; reflexivity).
  assert (Hn : nextVertexToAdd cubeStart = Ok (Some 5%nat) cubeStart)
    by (vm_compute; reflexivity).
  assert (Hd : dcel cubeStart) by (apply dcelb_sound; vm_compute; reflexivity).
  destruct (computeInitialHull_sorted Qsqrt (prepared cube new) cubeStart eq_refl eq_refl
              (run_final (computeInitialHull Qsqrt) (prepared cube new) H0)) as (bs & Hs).
  exists bs. split; [exact Hs|].
  destruct (addVertexToHull_round Qsqrt cubeStart bs 5%nat
              (final (addVertexToHull Qsqrt 5 cubeStart)) Hs Hd Hn
              (run_final (addVertexToHull Qsqrt 5) cubeStart H1)) as (Hi & Hd' & _).
  split; [exact Hi|exact Hd'].
Defined.

(** ** The face list *)

Ltac by_census :=
  intros;
  match goal with
  | |- census _ = census ?h =>
      unfold census; destruct h; cbn; rewrite ?length_insert; reflexivity
  end.

Lemma census_listed h h' : census h' = census h -> listed h -> listed h'.
Proof. unfold census, listed. intros [= -> ->]. auto. Qed.

Lemma Face_create_census sqrt a b c h f h' :
  Face_create sqrt a b c h = Ok f h' ->
  f = length (faceHeap h) /\ faces h' = faces h /\
  length (faceHeap h') = S (length (faceHeap h)).
Proof.
  intros H. apply Face_create_Ok in H. cbv zeta in H.
  destruct H as (-> & fa & _ & _ & _ & ->). split; [reflexivity|].
  destruct h; cbn. split; [reflexivity|]. rewrite length_app. cbn. lia.
Qed.

Lemma listed_push h f h1 :
  listed h -> f = length (faceHeap h) -> faces h1 = faces h ->
  length (faceHeap h1) = S (length (faceHeap h)) ->
  listed (set_faces (faces h1 ++ [f]) h1).
Proof.
  unfold listed. intros Hl -> Hf Hn.
  replace (faces (set_faces (faces h1 ++ [length (faceHeap h)]) h1))
    with (faces h1 ++ [length (faceHeap h)]) by now destruct h1.
  replace (faceHeap (set_faces (faces h1 ++ [length (faceHeap h)]) h1))
    with (faceHeap h1) by now destruct h1.
  rewrite Hn, Hf, Hl, seq_S. reflexivity.
Qed.

Lemma addAdjoiningFace_listed sqrt eye e h r h' :
  listed h -> addAdjoiningFace sqrt eye e h = Ok r h' -> listed h'.
Proof.
  intros Hl H. unfold addAdjoiningFace in H.
  inv_read H vt Evt. inv_read H vh Evh. inv_read H vt' Evt'.
  apply bind_Ok_inv in H as (f & h1 & E1 & H).
  apply Face_create_census in E1 as (Hf & Hfs & Hn).
  apply bind_Ok_inv in H as (u & h2 & E2 & H). injection E2 as _ <-.
  pose proof (listed_push h f h1 Hl Hf Hfs Hn) as L2.
  inv_read H e1 Ee1. inv_read H e2 Ee2. inv_read H hh Ehh.
  apply bind_Ok_inv in H as (u3 & h3 & E3 & H).
  assert (census h3 = census (set_faces (faces h1 ++ [f]) h1)) as C3.
  { apply (steady_Ok census) in E3; [exact E3|apply steady_setTwin; by_census]. }
  apply (reads_Face_getEdge f 0) in H as ->.
  exact (census_listed _ _ C3 L2).
Qed.

Lemma foldM_keeps {A B} (P : hull -> Prop) (f : B -> A -> M B) (l : list A) :
  (forall b a h r h', P h -> f b a h = Ok r h' -> P h') ->
  forall b h r h', P h -> foldM f l b h = Ok r h' -> P h'.
Proof.
  intros Hf. induction l as [|a l IH]; intros b h r h' HP H; cbn [foldM] in H.
  - injection H as _ <-. exact HP.
  - apply bind_Ok_inv in H as (b' & h1 & E1 & H).
    exact (IH b' h1 r h' (Hf _ _ _ _ _ HP E1) H).
Qed.

Lemma addNewFaces_listed sqrt eye hz h h' :
  listed h -> addNewFaces sqrt eye hz h = Ok tt h' -> listed h'.
Proof.
  intros Hl H. unfold addNewFaces in H.
  apply bind_Ok_inv in H as (u & h0 & E0 & H). injection E0 as _ <-.
  apply bind_Ok_inv in H as (r & h1 & E1 & H).
  assert (listed h1) as L1.
  { revert E1. apply foldM_keeps; [|apply (census_listed h); [by_census|exact Hl]].
    intros acc e hA rA hB HA HE.
    apply bind_Ok_inv in HE as (side & hC & EC & HE).
    apply (addAdjoiningFace_listed sqrt eye e hA side hC HA) in EC.
    apply bind_Ok_inv in HE as (fse & hD & ED & HE).
    assert (census hD = census hC) as CD.
    { destruct (fst acc).
      - apply bind_Ok_inv in ED as (u1 & hE & EE & ED). injection ED as _ <-.
        apply (steady_Ok census) in EE; [exact EE|apply steady_joinNext; by_census].
      - injection ED as _ <-. reflexivity. }
    inv_read HE se Ese. inv_read HE hs Ehs.
    apply bind_Ok_inv in HE as (u2 & hF & EF & HE). injection EF as _ <-.
    injection HE as _ <-.
    apply (census_listed hD); [by_census|]. exact (census_listed _ _ CD EC). }
  apply (census_listed h1); [|exact L1].
  apply (steady_Ok census) in H; [exact H|apply steady_joinNext; by_census].
Qed.

Lemma addVertexToHull_listed sqrt eye h h' :
  listed h -> addVertexToHull sqrt eye h = Ok tt h' -> listed h'.
Proof.
  intros Hl H. unfold addVertexToHull in H.
  apply bind_Ok_inv in H as (u0 & h0 & E0 & H). injection E0 as _ <-.
  inv_read H ev Eev.
  apply bind_Ok_inv in H as (u1 & h1 & E1 & H).
  apply (steady_Ok census) in E1; [|apply steady_removeVertexFromFace; by_census].
  inv_read H ev' Eev'. inv_read H eyeFace Eface. inv_read H n En.
  apply bind_Ok_inv in H as (hz & h2 & E2 & H).
  apply (steady_Ok census) in E2; [|apply steady_computeHorizon; by_census].
  apply bind_Ok_inv in H as ([] & h3 & E3 & H).
  inv_read H nf Enf.
  apply (steady_Ok census) in H; [|apply steady_resolveUnassignedPoints; by_census].
  apply (census_listed h3); [exact H|].
  apply (addNewFaces_listed sqrt eye hz h2 h3); [|exact E3].
  apply (census_listed h1); [exact E2|].
  apply (census_listed _ _ E1).
  apply (census_listed h); [by_census|exact Hl].
Qed.

Lemma growLoop_listed sqrt : forall fuel h h',
  listed h -> growLoop sqrt fuel h = Ok tt h' -> listed h'.
Proof.
  induction fuel as [|fuel IH]; intros h h' Hl H; [discriminate|].
  cbn [growLoop] in H.
  apply bind_Ok_inv in H as (vertex & h0 & E0 & H).
  apply reads_nextVertexToAdd in E0 as ->.
  destruct vertex as [eye|].
  - apply bind_Ok_inv in H as ([] & h1 & E1 & H).
    exact (IH h1 h' (addVertexToHull_listed sqrt eye h h1 Hl E1) H).
  - injection H as <-. exact Hl.
Qed.

Lemma buildTetrahedron_census sqrt s h fs h' :
  buildTetrahedron sqrt s h = Ok fs h' ->
  faces h' = faces h /\ fs = seq (length (faceHeap h)) 4 /\
  length (faceHeap h') = (length (faceHeap h) + 4)%nat.
Proof.
  intros H. unfold buildTetrahedron in H. cbv zeta in H.
  inv_read H p3 E3.
  assert (forall a0 b0 c0 a1 b1 c1 a2 b2 c2 a3 b3 c3 (k : nat -> nat -> nat -> nat -> M unit),
            (forall f0 f1 f2 f3, steady census (k f0 f1 f2 f3)) ->
            (let* f0 := Face_create sqrt a0 b0 c0 in
             let* f1 := Face_create sqrt a1 b1 c1 in
             let* f2 := Face_create sqrt a2 b2 c2 in
             let* f3 := Face_create sqrt a3 b3 c3 in
             k f0 f1 f2 f3 ;; ret [f0; f1; f2; f3]) h = Ok fs h' ->
            faces h' = faces h /\ fs = seq (length (faceHeap h)) 4 /\
            length (faceHeap h') = (length (faceHeap h) + 4)%nat) as Hgen.
  { intros a0 b0 c0 a1 b1 c1 a2 b2 c2 a3 b3 c3 k Hk H0.
    apply bind_Ok_inv in H0 as (f0 & h0 & C0 & H0).
    apply Face_create_census in C0 as (-> & F0 & N0).
    apply bind_Ok_inv in H0 as (f1 & h1 & C1 & H0).
    apply Face_create_census in C1 as (-> & F1 & N1).
    apply bind_Ok_inv in H0 as (f2 & h2 & C2 & H0).
    apply Face_create_census in C2 as (-> & F2 & N2).
    apply bind_Ok_inv in H0 as (f3 & h3 & C3 & H0).
    apply Face_create_census in C3 as (-> & F3 & N3).
    apply bind_Ok_inv in H0 as (u & h4 & C4 & H0). injection H0 as <- <-.
    apply (steady_Ok census _ _ _ _ (Hk _ _ _ _)) in C4. unfold census in C4.
    injection C4 as C4 C5. split; [congruence|]. split.
    + cbn [seq]. now rewrite N2, N1, N0.
    + rewrite C5, N3, N2, N1, N0. lia. }
  assert (forall fs0 a i b j, steady census (joinFaces fs0 a i b j)) as Hj
    by (intros; apply steady_joinFaces; by_census).
  destruct (Num.ltb _ _); revert H; apply Hgen; intros f0 f1 f2 f3;
    apply steady_forM; intros i; (apply steady_bind; [apply Hj|intros _; apply Hj]).
Qed.

Lemma computeInitialHull_listed sqrt h h' :
  listed h -> computeInitialHull sqrt h = Ok tt h' -> listed h'.
Proof.
  intros Hl H. unfold computeInitialHull in H.
  apply bind_Ok_inv in H as (s & h1 & E1 & H).
  apply initialSimplex_effect in E1 as (q & ->).
  apply bind_Ok_inv in H as (fs & h2 & E2 & H).
  apply buildTetrahedron_census in E2 as (F2 & -> & N2).
  apply bind_Ok_inv in H as (u & h3 & E3 & H). injection E3 as _ <-.
  rewrite bind_gets in H.
  assert (L3 : listed (set_faces (faces h2 ++ seq (length (faceHeap (set_tolerance q h))) 4) h2)).
  { unfold listed in *.
    replace (faces (set_faces (faces h2 ++ seq (length (faceHeap (set_tolerance q h))) 4) h2))
      with (faces h2 ++ seq (length (faceHeap (set_tolerance q h))) 4) by now destruct h2.
    replace (faceHeap (set_faces (faces h2 ++ seq (length (faceHeap (set_tolerance q h))) 4) h2))
      with (faceHeap h2) by now destruct h2.
    rewrite N2, F2.
    replace (faces (set_tolerance q h)) with (faces h) by now destruct h.
    replace (faceHeap (set_tolerance q h)) with (faceHeap h) by now destruct h.
    rewrite Hl, seq_app. reflexivity. }
  apply (steady_Ok census) in H.
  - exact (census_listed _ h' H L3).
  - apply steady_forM. intros i.
    destruct (_ && _); [|apply steady_ret].
    apply steady_assignInitial; by_census.
Qed.

Lemma compute_listed sqrt h h' :
  listed h -> compute sqrt h = Ok tt h' ->
  List.NoDup (faces h') /\ forall f, In f (faces h') <-> visible h' f.
Proof.
  intros Hl H. unfold compute in H.
  apply bind_Ok_inv in H as ([] & h1 & E1 & H).
  apply (computeInitialHull_listed sqrt h h1 Hl) in E1.
  rewrite bind_gets in H.
  apply bind_Ok_inv in H as ([] & h2 & E2 & H).
  apply (growLoop_listed sqrt _ h1 h2 E1) in E2.
  apply bind_Ok_inv in H as ([] & h3 & E3 & H).
  apply reindexFaces_inv in E3 as ->.
  unfold cleanup, VertexList_clear, bind, modify in H.
  assert (faces h' = List.filter (visibleb h2) (faces h2) /\ faceHeap h' = faceHeap h2)
    as [Hfs HF] by (injection H as <-; now destruct h2).
  split; [rewrite Hfs, E2; apply List.NoDup_filter, List.seq_NoDup|].
  intros f. rewrite Hfs, filter_In, visibleb_true, E2, in_seq.
  unfold visible, fmark. rewrite HF. split; [tauto|]. intros Hv. split; [|exact Hv].
  destruct (faceHeap h2 !! f) as [fa|] eqn:E; [|discriminate].
  apply lookup_lt_Some in E. lia.
Qed.

(** X16: the face list of a hull that [setFromPoints] has built holds the
    live faces of the build and nothing else: a face is in [this.faces]
    exactly when it has been created during the build and is marked
    [Visible], and no face is in the list twice. *)
Theorem setFromPoints_faces_visible (sqrt : Q -> Q) (points : list Vector3.t) (h : hull) :
  reportOf (snd (setFromPoints sqrt points h)) = Built ->
  List.NoDup (faces (final (snd (setFromPoints sqrt points h)))) /\
  forall f, In f (faces (final (snd (setFromPoints sqrt points h)))) <->
            visible (final (snd (setFromPoints sqrt points h))) f.
Proof.
  rewrite setFromPoints_prepared. intros Hb.
  destruct (compute sqrt (prepared points h)) as [[] h'|e h'] eqn:E; [|discriminate].
  cbn [final]. exact (compute_listed sqrt (prepared points h) h' eq_refl E).
Qed.

(** X16, witness: the twelve faces of the cube. *)
Lemma setFromPoints_faces_visible_witness :
  reportOf (snd (setFromPoints Qsqrt cube new)) = Built /\
  visible (final (snd (setFromPoints Qsqrt cube new))) 16.
Proof.
  assert (Hb : reportOf (snd (setFromPoints Qsqrt cube new)) = Built)
    by (vm_compute; reflexivity).
  assert (Hf : existsb (Nat.eqb 16) (faces (final (snd (setFromPoints Qsqrt cube new)))) = true)
    by (vm_compute; reflexivity).
  split; [exact Hb|].
  exact (proj1 (proj2 (setFromPoints_faces_visible Qsqrt cube new Hb) 16%nat)
           (In_checked 16%nat (faces (final (snd (setFromPoints Qsqrt cube new)))) Hf)).
Defined.

(** X19: in every hull that [setFromPoints] builds on a hull whose assigned
    list is empty (a new hull, or one that an earlier build has left), the
    faces of [this.faces] form a closed triangle mesh: every half-edge of a
    listed face has a twin, whose twin it is, and the twin lies on a listed
    face too; and every half-edge lies on a cycle of three half-edges of one
    face linked by [next]. *)
Theorem setFromPoints_closed (sqrt : Q -> Q) (points : list Vector3.t) (h : hull) :
  assigned h = VertexList.new ->
  reportOf (snd (setFromPoints sqrt points h)) = Built ->
  (forall e he,
     edgeHeap (final (snd (setFromPoints sqrt points h))) !! e = Some he ->
     In (HalfEdge.face he) (faces (final (snd (setFromPoints sqrt points h)))) ->
     exists t ht,
       HalfEdge.twin he = Some t /\
       edgeHeap (final (snd (setFromPoints sqrt points h))) !! t = Some ht /\
       HalfEdge.twin ht = Some e /\
       In (HalfEdge.face ht) (faces (final (snd (setFromPoints sqrt points h))))) /\
  triangles (final (snd (setFromPoints sqrt points h))).
Proof.
  intros Ha. rewrite setFromPoints_prepared. intros Hb.
  destruct (compute sqrt (prepared points h)) as [[] h'|e h'] eqn:E; [|discriminate].
  cbn [final].
  assert (dcel h') as D by (apply (compute_closed sqrt (prepared points h) h'); auto).
  destruct (compute_listed sqrt (prepared points h) h' eq_refl E) as [_ Hl].
  split; [|exact (proj2 (dcel_closed h' D))].
  intros e0 he He Hin. apply Hl in Hin.
  destruct (proj2 D e0 he He Hin) as (t & ht & Ht & Eht & Htt & Hvt).
  exists t, ht. split; [exact Ht|]. split; [exact Eht|]. split; [exact Htt|].
  apply Hl. exact Hvt.
Qed.

(** X19, witness: the cube, built on a new hull. *)
Lemma setFromPoints_closed_witness :
  assigned new = VertexList.new /\
  reportOf (snd (setFromPoints Qsqrt cube new)) = Built /\
  triangles (final (snd (setFromPoints Qsqrt cube new))).
Proof.
  assert (Hb : reportOf (snd (setFromPoints Qsqrt cube new)) = Built)
    by (vm_compute; reflexivity).
  split; [reflexivity|]. split; [exact Hb|].
  exact (proj2 (setFromPoints_closed Qsqrt cube new eq_refl Hb)).
Defined.


(** ** Coincident points *)

Lemma coincident_no_v2 sqrt h :
  coincident (map VertexNode.point (vertices h)) ->
  exists h', initialSimplex sqrt h = Throw TypeError h' /\ untouched h h'.
Proof.
  intros Hco. destruct (vertices h) as [|v vs] eqn:Hv.
  - exists h. split; [now apply initialSimplex_empty | apply untouched_refl].
  - destruct (initialSimplex_run sqrt h v vs Hv)
      as (mn & mx & ex & v0 & v1 & n0 & n1 & E1 & E2 & E3 & E4 & _ & Hrun).
    cbv zeta in *. rewrite Hv in *.
    exists (set_tolerance (toleranceOf mn mx) h).
    split; [|apply untouched_tolerance]. rewrite Hrun. clear Hrun.
    rewrite findV2_blind; [reflexivity|].
    intros w Hw. rewrite segment_degenerate_veq; [reflexivity|].
    apply Hco; apply in_map; eapply lookup_In; eassumption.
Qed.


Lemma fourFold_coincident : coincident fourFold.
Proof.
  intros p q Hp Hq. unfold fourFold in Hp, Hq. simpl in Hp, Hq.
  destruct Hp as [<-|[<-|[<-|[<-|[]]]]]; destruct Hq as [<-|[<-|[<-|[<-|[]]]]];
    repeat split; reflexivity.
Qed.



(** ** The vertices of a face lie outside it *)

Lemma outward_refl h : outward h h.
Proof.
  split; [reflexivity|]. split.
  - intros f fa E. eauto.
  - intros v n E. exists n. auto.
Qed.

Lemma outward_trans h1 h2 h3 : outward h1 h2 -> outward h2 h3 -> outward h1 h3.
Proof.
  intros (T1 & P1 & V1) (T2 & P2 & V2). split; [congruence|]. split.
  - intros f fa E. destruct (P1 f fa E) as (fa2 & E2 & N2 & C2).
    destruct (P2 f fa2 E2) as (fa3 & E3 & N3 & C3).
    exists fa3. split; [exact E3|]. split; congruence.
  - intros v n3 E3. destruct (V2 v n3 E3) as (n2 & E2 & Q2 & F2).
    destruct (V1 v n2 E2) as (n1 & E1 & Q1 & F1).
    exists n1. split; [exact E1|]. split; [congruence|].
    destruct F2 as [F2|F2]; [|now right].
    destruct F1 as [F1|(f & fa2 & F1 & Ef & Hd)]; [left; congruence|].
    right. destruct (P2 f fa2 Ef) as (fa3 & Ef3 & N3 & C3).
    exists f, fa3. split; [congruence|]. split; [exact Ef3|].
    unfold Face.distanceToPoint in *. rewrite N3, C3, Q2, T2. exact Hd.
Qed.

Lemma far_outward h h' : far h -> outward h h' -> far h'.
Proof.
  intros [Ht Hf] (T & Pl & V). split; [now rewrite T|].
  intros v n' f E F. destruct (V v n' E) as (n & En & Q0 & [F0|(g & fa' & F0 & Eg & Hd)]).
  - destruct (Hf v n f En) as (fa & Efa & Hd); [congruence|].
    destruct (Pl f fa Efa) as (fa' & Efa' & N' & C').
    exists fa'. split; [exact Efa'|].
    unfold Face.distanceToPoint in *. rewrite N', C', Q0, T. exact Hd.
  - assert (g = f) as -> by congruence. eauto.
Qed.

Lemma outward_core h h' : core h' = core h -> outward h h'.
Proof.
  intros C. apply core_inv in C as (T & _ & _ & F & _ & G).
  split; [exact T|]. split.
  - intros f fa E. rewrite F. eauto.
  - intros v n' E.
    assert (tags h' !! v = Some (VertexNode.point n', VertexNode.face n')) as Et
      by (unfold tags; rewrite list_lookup_fmap, E; reflexivity).
    rewrite G in Et. unfold tags in Et. rewrite list_lookup_fmap in Et.
    destruct (vertices h !! v) as [n|]; [|discriminate]. cbn in Et.
    exists n. split; [reflexivity|]. split; [congruence|left; congruence].
Qed.

Lemma outwards_reads {A} (c : M A) : reads c -> outwards c.
Proof. intros Hc h a h' H. rewrite (Hc _ _ _ H). apply outward_refl. Qed.

Lemma outwards_bind {A B} (c : M A) (k : A -> M B) :
  outwards c -> (forall a, outwards (k a)) -> outwards (bind c k).
Proof.
  intros Hc Hk h b h' H. apply bind_Ok_inv in H as (a & h0 & E1 & E2).
  exact (outward_trans _ _ _ (Hc _ _ _ E1) (Hk _ _ _ _ E2)).
Qed.

Lemma outwards_fixes {A} (c : M A) : fixes core c -> outwards c.
Proof. intros Hc h a h' H. apply outward_core. exact (Hc _ _ _ H). Qed.

Lemma core_list_assigned l h : core (lset assignedL l h) = core h.
Proof. now destruct h. Qed.
Lemma core_list_unassigned l h : core (lset unassignedL l h) = core h.
Proof. now destruct h. Qed.

Lemma core_vertex v n n' h :
  vertices h !! v = Some n ->
  VertexNode.point n' = VertexNode.point n -> VertexNode.face n' = VertexNode.face n ->
  core (set_vertices (<[v := n']> (vertices h)) h) = core h.
Proof. exact (core_insert h v n n'). Qed.

Lemma outwards_steady {A} (c : M A) : steady core c -> outwards c.
Proof. intros Hc h a h' H. apply outward_core. exact (steady_Ok core c h a h' Hc H). Qed.

Lemma outwards_modVertex v g :
  (forall n, VertexNode.point (g n) = VertexNode.point n /\
             VertexNode.face (g n) = VertexNode.face n) ->
  outwards (modVertex v g).
Proof.
  intros Hg. apply outwards_steady.
  exact (still_modVertex core core_vertex v g Hg).
Qed.

Lemma outwards_modFace f g :
  (forall x, Face.normal (g x) = Face.normal x /\ Face.constant (g x) = Face.constant x) ->
  outwards (modFace f g).
Proof.
  intros Hg h a h' H. apply modFace_inv in H as (x & Ex & ->).
  assert (f < length (faceHeap h))%nat as Hlt by (eapply lookup_lt_Some; eauto).
  split; [now destruct h|]. rewrite faceHeap_set_faceHeap. split.
  - intros f0 fa E. destruct (Nat.eq_dec f0 f) as [->|Hne].
    + rewrite list_lookup_insert_eq by exact Hlt. exists (g x).
      assert (fa = x) as -> by congruence. split; [reflexivity|apply Hg].
    + rewrite list_lookup_insert_ne by congruence. eauto.
  - intros v n' E. rewrite vertices_set_faceHeap in E. exists n'. auto.
Qed.

Lemma outward_mesh h h' :
  tolerance h' = tolerance h -> vertices h' = vertices h -> faceHeap h' = faceHeap h ->
  outward h h'.
Proof.
  intros T V F. split; [exact T|]. rewrite F, V. split.
  - intros f fa E. eauto.
  - intros v n E. exists n. auto.
Qed.

Lemma outwards_modEdge e g : outwards (modEdge e g).
Proof.
  intros h a h' H. apply modEdge_inv in H as (x & _ & ->).
  apply outward_mesh; now destruct h.
Qed.

Lemma outwards_modEdgeAt o g : outwards (modEdgeAt o g).
Proof.
  unfold modEdgeAt. apply outwards_bind; [apply outwards_reads, reads_deref|].
  intros e. apply outwards_modEdge.
Qed.

Lemma outwards_modify (g : hull -> hull) :
  (forall h, outward h (g h)) -> outwards (modify g).
Proof. intros Hg h a h' [= _ <-]. apply Hg. Qed.

Lemma outward_set_faces x h : outward h (set_faces x h).
Proof. apply outward_mesh; now destruct h. Qed.

Lemma outward_set_newFaces x h : outward h (set_newFaces x h).
Proof. apply outward_mesh; now destruct h. Qed.

Lemma outwards_forM {A} (l : list A) (f : A -> M unit) :
  (forall a, outwards (f a)) -> outwards (forM l f).
Proof.
  intros Hf. induction l as [|a l IH]; cbn [forM].
  - apply outwards_reads, reads_ret.
  - apply outwards_bind; [apply Hf | intros _; exact IH].
Qed.

Lemma outwards_foldM {A B} (f : B -> A -> M B) (l : list A) :
  (forall b a, outwards (f b a)) -> forall b, outwards (foldM f l b).
Proof.
  intros Hf. induction l as [|a l IH]; intros b; cbn [foldM].
  - apply outwards_reads, reads_ret.
  - apply outwards_bind; [apply Hf | intros b'; apply IH].
Qed.

(** A new face leaves the planes of the faces that exist as they are. *)
Lemma outwards_Face_create sqrt a b c : outwards (Face_create sqrt a b c).
Proof.
  intros h f h' H. apply Face_create_Ok in H. cbv zeta in H.
  destruct H as (_ & fa & _ & _ & _ & ->).
  split; [now destruct h|]. split.
  - intros g x E. exists x. split; [|auto].
    rewrite faceHeap_set_faceHeap. rewrite lookup_app_l by (eapply lookup_lt_Some; eauto).
    now destruct h.
  - intros v n E. exists n. split; [now destruct h|]. auto.
Qed.

Ltac outwards_step :=
  repeat first
    [ assumption
    | apply outwards_reads; solve [reads_step]
    | apply outwards_modFace; intros x; destruct x; split; reflexivity
    | apply outwards_modVertex; intros x; destruct x; split; reflexivity
    | apply outwards_modEdge | apply outwards_modEdgeAt
    | apply outwards_modify; intros ?;
        solve [apply outward_set_faces | apply outward_set_newFaces]
    | apply outwards_forM; intros ?
    | apply outwards_foldM; intros ? ?
    | match goal with
      | H : forall _, outwards _ |- _ => apply H
      | H : forall _ _, outwards _ |- _ => apply H
      | H : forall _ _ _, outwards _ |- _ => apply H
      | H : forall _ _ _ _, outwards _ |- _ => apply H
      | H : forall _ _ _ _ _, outwards _ |- _ => apply H
      | |- outwards (match ?o with _ => _ end) => destruct o
      | |- outwards (if ?b then _ else _) => destruct b
      end
    | apply outwards_bind; [|intros ?] ].

Lemma outwards_setTwin e o : outwards (HalfEdge_setTwin e o).
Proof. unfold HalfEdge_setTwin. outwards_step. Qed.

Lemma outwards_joinFaces fs a i b j : outwards (joinFaces fs a i b j).
Proof. pose proof outwards_setTwin as H1. unfold joinFaces. outwards_step. Qed.

Lemma outwards_buildTetrahedron sqrt s : outwards (buildTetrahedron sqrt s).
Proof.
  pose proof (outwards_Face_create sqrt) as H1. pose proof outwards_joinFaces as H2.
  unfold buildTetrahedron. cbv zeta. outwards_step.
Qed.

Lemma outwards_addAdjoiningFace sqrt v e : outwards (addAdjoiningFace sqrt v e).
Proof.
  pose proof (outwards_Face_create sqrt) as H1. pose proof outwards_setTwin as H2.
  unfold addAdjoiningFace. outwards_step.
Qed.

Lemma outwards_joinNext a b : outwards (joinNext a b).
Proof. pose proof outwards_setTwin as H2. unfold joinNext. outwards_step. Qed.

Lemma outwards_addNewFaces sqrt v hz : outwards (addNewFaces sqrt v hz).
Proof.
  pose proof (outwards_addAdjoiningFace sqrt) as H1. pose proof outwards_joinNext as H2.
  unfold addNewFaces. outwards_step.
Qed.

(** The operations on the two lists write links only. *)
Lemma outwards_append_assigned v : outwards (VertexList_append assignedL v).
Proof. exact (outwards_steady _ (still_append core assignedL core_list_assigned core_vertex v)). Qed.
Lemma outwards_insertBefore_assigned t v : outwards (VertexList_insertBefore assignedL t v).
Proof.
  exact (outwards_steady _ (still_insertBefore core assignedL core_list_assigned core_vertex t v)).
Qed.
Lemma outwards_remove_assigned v : outwards (VertexList_remove assignedL v).
Proof. exact (outwards_steady _ (still_remove core assignedL core_list_assigned core_vertex v)). Qed.
Lemma outwards_removeSubList_assigned a b : outwards (VertexList_removeSubList assignedL a b).
Proof.
  exact (outwards_steady _
           (still_removeSubList core assignedL core_list_assigned core_vertex a b)).
Qed.
Lemma outwards_appendChain_unassigned v : outwards (VertexList_appendChain unassignedL v).
Proof.
  exact (outwards_steady _
           (still_appendChain core unassignedL core_list_unassigned core_vertex v)).
Qed.
Lemma outwards_clear_unassigned : outwards (VertexList_clear unassignedL).
Proof. exact (outwards_steady _ (still_clear core unassignedL core_list_unassigned)). Qed.

Lemma outwards_lastOfFace f : forall fuel v, outwards (lastOfFace fuel f v).
Proof.
  induction fuel as [|fuel IH]; intros v; cbn [lastOfFace]; [intros h a h' H; discriminate|].
  outwards_step.
Qed.

Lemma outwards_removeVertexFromFace v o : outwards (removeVertexFromFace v o).
Proof.
  pose proof outwards_remove_assigned as H1. unfold removeVertexFromFace. outwards_step.
Qed.

Lemma outwards_removeAllVerticesFromFace f : outwards (removeAllVerticesFromFace f).
Proof.
  pose proof outwards_removeSubList_assigned as H1. pose proof (outwards_lastOfFace f) as H2.
  unfold removeAllVerticesFromFace. outwards_step.
Qed.

Lemma outwards_deleteFaceVertices f : outwards (deleteFaceVertices f None).
Proof.
  pose proof outwards_appendChain_unassigned as H1.
  pose proof outwards_removeAllVerticesFromFace as H2.
  unfold deleteFaceVertices. outwards_step.
Qed.

Lemma outwards_horizonLoop rec eye :
  (forall c f hz, outwards (rec c f hz)) ->
  forall fuel e c hz, outwards (horizonLoop rec fuel eye e c hz).
Proof.
  intros Hrec. induction fuel as [|fuel IH]; intros e c hz; cbn [horizonLoop];
    [intros h a h' H; discriminate|].
  outwards_step.
Qed.

Lemma outwards_computeHorizon eye :
  forall fuel c f hz, outwards (computeHorizon fuel eye c f hz).
Proof.
  pose proof outwards_deleteFaceVertices as H1.
  induction fuel as [|fuel IH]; intros c f hz; cbn [computeHorizon];
    [intros h a h' H; discriminate|].
  apply outwards_bind; [apply H1|intros _].
  apply outwards_bind; [outwards_step|intros _].
  apply outwards_bind; [outwards_step|intros st].
  apply outwards_bind; [outwards_step|intros n].
  apply outwards_horizonLoop. intros c' f' hz'. apply IH.
Qed.

(** A vertex is given to a face that it lies outside of. *)
Lemma addVertexToFace_outward v f h h' n fa :
  vertices h !! v = Some n -> faceHeap h !! f = Some fa ->
  tolerance h < Face.distanceToPoint fa (VertexNode.point n) ->
  addVertexToFace v f h = Ok tt h' -> outward h h'.
Proof.
  intros En Efa Hd H. unfold addVertexToFace in H.
  apply bind_Ok_inv in H as (u & h1 & E1 & H).
  apply modVertex_inv in E1 as (n1 & En1 & ->).
  assert (n1 = n) as -> by congruence.
  apply (outward_trans _ (set_vertices (<[v := VertexNode.set_face (Some f) n]> (vertices h)) h)).
  - split; [now destruct h|]. split.
    + intros g x E. exists x. split; [now destruct h|auto].
    + intros w n' E. rewrite vertices_set_vertices in E.
      destruct (Nat.eq_dec w v) as [->|Hne].
      * rewrite list_lookup_insert_eq in E by (eapply lookup_lt_Some; eauto).
        injection E as <-. exists n. split; [exact En|]. split; [now destruct n|].
        right. exists f, fa. split; [now destruct n|]. split; [now destruct h|].
        replace (VertexNode.point (VertexNode.set_face (Some f) n)) with (VertexNode.point n)
          by now destruct n.
        now destruct h.
      * rewrite list_lookup_insert_ne in E by congruence. exists n'. auto.
  - revert H. generalize (set_vertices (<[v := VertexNode.set_face (Some f) n]> (vertices h)) h).
    intros h1 H.
    assert (outwards (let* fa := getFace f in
                      match Face.outside fa with
                      | None => VertexList_append assignedL v
                      | Some o => VertexList_insertBefore assignedL o v
                      end ;; modFace f (Face.set_outside (Some v)))) as Ho.
    { pose proof outwards_append_assigned as H1.
      pose proof outwards_insertBefore_assigned as H2. outwards_step. }
    exact (Ho _ _ _ H).
Qed.

(** The face that a scan of faces returns is farther from the point than
    the distance [t] that the scan starts from. *)
Definition seen (h : hull) (p : Vector3.t) (t : Q) (mf : option nat) : Prop :=
  forall f, mf = Some f ->
    exists fa, faceHeap h !! f = Some fa /\ t < Face.distanceToPoint fa p.

Lemma scanNewFaces_seen t fs : forall p md mf h r h',
  t <= md -> seen h p t mf ->
  scanNewFaces fs p md mf h = Ok r h' -> seen h p t r.
Proof.
  induction fs as [|f fs IH]; intros p md mf h r h' Ht Hs H; cbn [scanNewFaces] in H.
  - injection H as <- <-. exact Hs.
  - inv_read H fa Efa. apply getFace_inv in Efa as [Efa _].
    destruct (Mark_eqb (Face.mark fa) Visible).
    + inv_read H tol Etol.
      destruct (Num.gtb (Face.distanceToPoint fa p) md) eqn:Eg.
      * apply gtb_true in Eg.
        assert (seen h p t (Some f)) as Hs'.
        { intros g [= <-]. exists fa. split; [exact Efa|lra]. }
        destruct (Num.gtb _ (1000 * tol)).
        -- injection H as <- <-. exact Hs'.
        -- eapply IH in H; [exact H|lra|exact Hs'].
      * destruct (Num.gtb _ (1000 * tol)).
        -- injection H as <- <-. exact Hs.
        -- exact (IH _ _ _ _ _ _ Ht Hs H).
    + exact (IH _ _ _ _ _ _ Ht Hs H).
Qed.

Lemma outwards_resolveLoop fs : forall fuel v, outwards (resolveLoop fuel fs v).
Proof.
  induction fuel as [|fuel IH]; intros v h a h' H; cbn [resolveLoop] in H; [discriminate|].
  inv_read H n En. apply getVertex_inv in En as [En _].
  inv_read H tol Etol. injection Etol as <-.
  apply bind_Ok_inv in H as (mf & h0 & E0 & H).
  pose proof E0 as E0'. apply scanNewFaces_inv in E0' as [-> _].
  apply (scanNewFaces_seen (tolerance h)) in E0; [|apply Qle_refl|intros f; discriminate].
  apply bind_Ok_inv in H as ([] & h1 & E1 & H).
  assert (outward h h1) as O1.
  { destruct mf as [f|].
    - destruct (E0 f eq_refl) as (fa & Efa & Hd).
      exact (addVertexToFace_outward v f h h1 n fa En Efa Hd E1).
    - unfold ret in E1. assert (h1 = h) as -> by congruence. apply outward_refl. }
  destruct (VertexNode.next n) as [w|].
  - exact (outward_trans _ _ _ O1 (IH w _ _ _ H)).
  - unfold ret in H. assert (h' = h1) as -> by congruence. exact O1.
Qed.

Lemma outwards_resolveUnassignedPoints fs : outwards (resolveUnassignedPoints fs).
Proof.
  pose proof (outwards_resolveLoop fs) as H1. unfold resolveUnassignedPoints. outwards_step.
Qed.

Lemma outwards_addVertexToHull sqrt eye : outwards (addVertexToHull sqrt eye).
Proof.
  pose proof outwards_clear_unassigned as H1.
  pose proof outwards_removeVertexFromFace as H2.
  pose proof outwards_computeHorizon as H3.
  pose proof (outwards_addNewFaces sqrt) as H4.
  pose proof outwards_resolveUnassignedPoints as H5.
  unfold addVertexToHull. outwards_step.
Qed.

(** A fold that only reads keeps what each of its steps keeps. *)
Lemma foldM_reads_inv {A B} (f : B -> A -> M B) (I : B -> Prop) h :
  (forall b a b' h', I b -> f b a h = Ok b' h' -> h' = h /\ I b') ->
  forall l b r h', I b -> foldM f l b h = Ok r h' -> h' = h /\ I r.
Proof.
  intros Hf. induction l as [|a l IH]; intros b r h' Hb H; cbn [foldM] in H.
  - injection H as <- <-. auto.
  - apply bind_Ok_inv in H as (b' & h1 & E1 & H).
    destruct (Hf _ _ _ _ Hb E1) as [-> Hb']. exact (IH _ _ _ Hb' H).
Qed.

(** The first assignment of the vertices to the faces of the tetrahedron. *)
Lemma outwards_assignInitial v : outwards (assignInitial v).
Proof.
  intros h a h' H. unfold assignInitial in H.
  inv_read H p Ep. unfold pointOf in Ep. inv_read Ep n En.
  apply getVertex_inv in En as [En _]. injection Ep as <-.
  inv_read H tol Etol. injection Etol as <-.
  apply bind_Ok_inv in H as (r & h0 & E0 & H).
  apply (foldM_reads_inv _
           (fun acc => tolerance h <= fst acc /\
                       seen h (VertexNode.point n) (tolerance h) (snd acc))) in E0
    as (-> & _ & Hs).
  - destruct a. destruct (snd r) as [f|].
    + destruct (Hs f eq_refl) as (fa & Efa & Hd).
      exact (addVertexToFace_outward v f h h' n fa En Efa Hd H).
    + unfold ret in H. assert (h' = h) as -> by congruence. apply outward_refl.
  - intros acc j acc' h1 [Ht Hs] E.
    inv_read E fs Efs. inv_read E f Ef. inv_read E fa Efa.
    apply getFace_inv in Efa as [Efa _]. injection E as <- <-.
    split; [reflexivity|].
    destruct (Num.gtb _ (fst acc)) eqn:Eg; [|auto].
    apply gtb_true in Eg. cbn [fst snd]. split; [lra|].
    intros g [= <-]. exists fa. split; [exact Efa|lra].
  - split; [apply Qle_refl|intros f; discriminate].
Qed.

(** The tolerance that [computeExtremes] sets is not negative. *)
Lemma max_nonneg a b : 0 <= a -> 0 <= b -> 0 <= Num.max a b.
Proof. intros Ha Hb. unfold Num.max. now destruct (Num.gtb b a). Qed.

Lemma toleranceOf_nonneg mn mx : 0 <= toleranceOf mn mx.
Proof.
  unfold toleranceOf, Num.abs.
  pose proof (Qabs_nonneg (Vector3.x mn)). pose proof (Qabs_nonneg (Vector3.x mx)).
  pose proof (Qabs_nonneg (Vector3.y mn)). pose proof (Qabs_nonneg (Vector3.y mx)).
  pose proof (Qabs_nonneg (Vector3.z mn)). pose proof (Qabs_nonneg (Vector3.z mx)).
  pose proof (max_nonneg _ _ H H0). pose proof (max_nonneg _ _ H1 H2).
  pose proof (max_nonneg _ _ H3 H4).
  apply Qmult_le_0_compat; [|lra].
  apply Qmult_le_0_compat; [lra|]. unfold Num.EPSILON, Qle. cbn [Qnum Qden]. lia.
Qed.

Lemma initialSimplex_tolerance sqrt h s h' :
  initialSimplex sqrt h = Ok s h' -> exists mn mx, h' = set_tolerance (toleranceOf mn mx) h.
Proof.
  intros H. destruct (vertices h) as [|v vs] eqn:Hv.
  - rewrite initialSimplex_empty in H by assumption. discriminate.
  - destruct (initialSimplex_run sqrt h v vs Hv)
      as (mn & mx & ex & v0 & v1 & n0 & n1 & _ & _ & _ & _ & _ & Hrun).
    cbv zeta in Hrun. rewrite Hrun in H.
    destruct (findV2 _ _ _ _ _ _ _); [|discriminate].
    destruct (_ !! _); [|discriminate]. cbv zeta in H.
    destruct (findV3 _ _ _ _ _ _ _ _); [|discriminate].
    injection H as _ <-. eauto.
Qed.

(** After [computeInitialHull] on new vertices, each vertex that has a face
    lies outside it. *)
Lemma computeInitialHull_far sqrt h h' :
  (forall n, In n (vertices h) -> VertexNode.face n = None) ->
  computeInitialHull sqrt h = Ok tt h' -> far h'.
Proof.
  intros Hn H. unfold computeInitialHull in H.
  apply bind_Ok_inv in H as (s & h1 & E1 & H).
  apply initialSimplex_tolerance in E1 as (mn & mx & ->).
  assert (far (set_tolerance (toleranceOf mn mx) h)) as F1.
  { split; [apply toleranceOf_nonneg|]. intros v n f E F.
    replace (vertices (set_tolerance (toleranceOf mn mx) h)) with (vertices h) in E
      by now destruct h.
    apply lookup_In in E. apply Hn in E. congruence. }
  apply (far_outward _ _ F1). revert H. generalize (set_tolerance (toleranceOf mn mx) h).
  intros h1 H.
  apply bind_Ok_inv in H as (fs & h2 & E2 & H).
  apply outwards_buildTetrahedron in E2.
  apply bind_Ok_inv in H as (u & h3 & E3 & H).
  apply (outwards_modify _ (fun h => outward_set_faces _ h)) in E3.
  rewrite bind_gets in H.
  apply outwards_forM in H.
  - exact (outward_trans _ _ _ E2 (outward_trans _ _ _ E3 H)).
  - intros i. destruct (_ && _); [apply outwards_assignInitial|apply outwards_reads, reads_ret].
Qed.

(** In the states that the build reaches, the assigned list is in blocks and
    its vertices lie outside their faces. *)
Lemma reached_ledger sqrt h : reached sqrt h -> far h /\ exists bs, sorted h bs.
Proof.
  induction 1 as [h h' Ha Hf Hn H | h eye h' Hr [Hfar (bs & Hs)] Hnx H].
  - split; [exact (computeInitialHull_far sqrt h h' Hn H)|].
    exact (computeInitialHull_sorted sqrt h h' Ha Hf H).
  - split.
    + exact (far_outward _ _ Hfar (outwards_addVertexToHull sqrt eye _ _ _ H)).
    + destruct (nextVertexToAdd_block h bs eye h Hs Hnx) as (_ & f & B1 & B2 & bs2 & ->).
      destruct (addVertexToHull_sorted sqrt h f B1 eye B2 bs2 h' Hs H) as (bs' & S' & _).
      eauto.
Qed.

(** Such is the state in which [setFromPoints] enters the loop, on a hull
    whose assigned list is empty. *)
Lemma prepared_reached sqrt points h h' :
  assigned h = VertexList.new ->
  computeInitialHull sqrt (prepared points h) = Ok tt h' -> reached sqrt h'.
Proof.
  intros Ha H.
  apply (reached_initial sqrt (prepared points h) h'); [exact Ha|reflexivity| |exact H].
  intros n Hn. unfold prepared in Hn. cbn [vertices] in Hn.
  apply in_map_iff in Hn as (p & <- & _). reflexivity.
Qed.

(** The first block of the assigned list is the outside set of the face of
    its first vertex. *)
Lemma sorted_first h bs first :
  sorted h bs -> VertexList.first (assigned h) = Some first ->
  exists f Bl bs2 n fa,
    bs = (f, first :: Bl) :: bs2 /\
    vertices h !! first = Some n /\ VertexNode.face n = Some f /\
    faceHeap h !! f = Some fa /\ Face.outside fa = Some first /\
    outsideRun (vertices h) f first (first :: Bl).
Proof.
  intros Hs H. pose proof Hs as [Hh Hf Hb Hfr]. unfold VertexList.first in H.
  replace (VertexList.head (assigned h)) with (hd_or (flat bs) None) in H
    by (symmetry; exact (ho_head _ _ _ Hh)).
  destruct bs as [|[f Bl] bs2]; [discriminate|].
  destruct (Hb f Bl (or_introl eq_refl)) as (Hnil & Ho & _ & fa & Efa & Eo).
  destruct Bl as [|first' Bl]; [congruence|]. rewrite flat_cons in H. cbn [app hd_or] in H, Eo.
  injection H as ->.
  destruct (Ho first (or_introl eq_refl)) as (n & En & Hn).
  exists f, Bl, bs2, n, fa. repeat split; try assumption.
  exact (sorted_run h [] f first Bl bs2 Hs).
Qed.

(** In a state that the build reaches, the scan of [nextVertexToAdd] finds a
    vertex in the first block of the assigned list. *)
Lemma reached_next (sqrt : Q -> Q) (h : hull) (first : nat) :
  reached sqrt h -> VertexList.first (assigned h) = Some first ->
  exists n eyeFace fa l eye,
    vertices h !! first = Some n /\ VertexNode.face n = Some eyeFace /\
    faceHeap h !! eyeFace = Some fa /\ Face.outside fa = Some first /\
    outsideRun (vertices h) eyeFace first l /\
    nextVertexToAdd h = Ok (Some eye) h /\ In eye l /\
    (forall u, In u l -> distanceOf (vertices h) fa u <= distanceOf (vertices h) fa eye).
Proof.
  intros Hr Hfirst. destruct (reached_ledger sqrt h Hr) as [[Htol Hfar] (bs & Hs)].
  destruct (sorted_first h bs first Hs Hfirst)
    as (f & Bl & bs2 & n & fa & -> & En & Hn & Efa & Eo & Hrun).
  destruct (so_block _ _ Hs f (first :: Bl) (or_introl eq_refl)) as (_ & Ho & _).
  assert (Hsee : forall u, In u (first :: Bl) -> tolerance h < distanceOf (vertices h) fa u).
  { intros u Hu. destruct (Ho u Hu) as (nu & Eu & Hfu).
    destruct (Hfar u nu f Eu Hfu) as (fa' & Efa' & Hd).
    assert (fa' = fa) as -> by congruence.
    unfold distanceOf. rewrite Eu. exact Hd. }
  destruct (farthest_in_run h first f first n fa (first :: Bl) Hfirst En Hn Efa Eo Hrun
              Htol Hsee) as (eye & Hnx & Hin & Hmax).
  exists n, f, fa, (first :: Bl), eye. repeat split; assumption.
Qed.





(** ** What a build takes from the hull it is run on *)

Lemma commutes_ret g {A} (a : A) : commutes g (ret a).
Proof. intros h. reflexivity. Qed.

Lemma commutes_throw g {A} e : commutes g (@throw A e).
Proof. intros h. reflexivity. Qed.

Lemma commutes_deref g {A} (o : option A) : commutes g (deref o).
Proof. intros h. destruct o; reflexivity. Qed.

Lemma commutes_gets g {A} (f : hull -> A) :
  (forall h, f (g h) = f h) -> commutes g (gets f).
Proof. intros Hf h. unfold gets, lift. now rewrite Hf. Qed.

Lemma commutes_modify g (m : hull -> hull) :
  (forall h, m (g h) = g (m h)) -> commutes g (modify m).
Proof. intros Hm h. unfold modify, lift. now rewrite Hm. Qed.

Lemma commutes_bind g {A B} (c : M A) (k : A -> M B) :
  commutes g c -> (forall a, commutes g (k a)) -> commutes g (bind c k).
Proof.
  intros Hc Hk h. unfold bind. rewrite Hc. destruct (c h); cbn [lift]; [apply Hk|reflexivity].
Qed.

Lemma commutes_forM g {A} (l : list A) (f : A -> M unit) :
  (forall a, commutes g (f a)) -> commutes g (forM l f).
Proof.
  intros Hf. induction l as [|a l IH]; cbn [forM].
  - apply commutes_ret.
  - apply commutes_bind; [apply Hf | intros _; exact IH].
Qed.

Lemma commutes_foldM g {A B} (f : B -> A -> M B) (l : list A) :
  (forall b a, commutes g (f b a)) -> forall b, commutes g (foldM f l b).
Proof.
  intros Hf. induction l as [|a l IH]; intros b; cbn [foldM].
  - apply commutes_ret.
  - apply commutes_bind; [apply Hf | intros b'; apply IH].
Qed.

Ltac spare_side :=
  intros;
  try match goal with Hg : spare _ |- _ => destruct Hg end;
  repeat match goal with h : hull |- _ => destruct h end;
  reflexivity.

Ltac comm_step :=
  repeat first
    [ assumption
    | apply commutes_ret | apply commutes_throw | apply commutes_deref
    | apply commutes_gets; solve [spare_side]
    | apply commutes_modify; solve [spare_side]
    | apply commutes_forM; intros ?
    | apply commutes_foldM; intros ? ?
    | match goal with
      | H : forall _, commutes _ _ |- _ => apply H
      | H : forall _ _, commutes _ _ |- _ => apply H
      | H : forall _ _ _, commutes _ _ |- _ => apply H
      | H : forall _ _ _ _, commutes _ _ |- _ => apply H
      | H : forall _ _ _ _ _, commutes _ _ |- _ => apply H
      | |- commutes _ (match ?o with _ => _ end) => destruct o
      | |- commutes _ (if ?b then _ else _) => destruct b
      end
    | apply commutes_bind; [|intros ?] ].

Section Spare.

Variable g : hull -> hull.
Hypothesis Hg : spare g.

Lemma commutes_getVertex v : commutes g (getVertex v).
Proof. unfold getVertex. comm_step. Qed.
Lemma commutes_getFace f : commutes g (getFace f).
Proof. unfold getFace. comm_step. Qed.
Lemma commutes_getEdge e : commutes g (getEdge e).
Proof. unfold getEdge. comm_step. Qed.
Lemma commutes_modVertex v k : commutes g (modVertex v k).
Proof. pose proof commutes_getVertex. unfold modVertex. comm_step. Qed.
Lemma commutes_modFace v k : commutes g (modFace v k).
Proof. pose proof commutes_getFace. unfold modFace. comm_step. Qed.
Lemma commutes_modEdge v k : commutes g (modEdge v k).
Proof. pose proof commutes_getEdge. unfold modEdge. comm_step. Qed.
Lemma commutes_modVertexAt o k : commutes g (modVertexAt o k).
Proof. pose proof commutes_modVertex. unfold modVertexAt. comm_step. Qed.
Lemma commutes_modEdgeAt o k : commutes g (modEdgeAt o k).
Proof. pose proof commutes_modEdge. unfold modEdgeAt. comm_step. Qed.
Lemma commutes_allocFace : commutes g allocFace.
Proof. intros h. destruct Hg, h; reflexivity. Qed.
Lemma commutes_allocEdge v f : commutes g (allocEdge v f).
Proof. intros h. destruct Hg, h; reflexivity. Qed.
Lemma commutes_pointOf v : commutes g (pointOf v).
Proof. pose proof commutes_getVertex. unfold pointOf. comm_step. Qed.
Lemma commutes_head e : commutes g (HalfEdge_head e).
Proof. pose proof commutes_getEdge. unfold HalfEdge_head. comm_step. Qed.
Lemma commutes_tail e : commutes g (HalfEdge_tail e).
Proof. pose proof commutes_getEdge. unfold HalfEdge_tail. comm_step. Qed.
Lemma commutes_setTwin e o : commutes g (HalfEdge_setTwin e o).
Proof.
  pose proof commutes_modEdge. pose proof commutes_modEdgeAt.
  unfold HalfEdge_setTwin. comm_step.
Qed.
Lemma commutes_walkNext : forall n o, commutes g (walkNext n o).
Proof.
  pose proof commutes_getEdge.
  induction n as [|n IH]; intros o; cbn [walkNext]; comm_step.
Qed.
Lemma commutes_walkPrev : forall n o, commutes g (walkPrev n o).
Proof.
  pose proof commutes_getEdge.
  induction n as [|n IH]; intros o; cbn [walkPrev]; comm_step.
Qed.
Lemma commutes_Face_getEdge f i : commutes g (Face_getEdge f i).
Proof.
  pose proof commutes_getFace. pose proof commutes_walkNext. pose proof commutes_walkPrev.
  unfold Face_getEdge. comm_step.
Qed.
Lemma commutes_Face_compute sqrt f : commutes g (Face_compute sqrt f).
Proof.
  pose proof commutes_getFace. pose proof commutes_getEdge. pose proof commutes_head.
  pose proof commutes_tail. pose proof commutes_pointOf. pose proof commutes_modFace.
  unfold Face_compute. comm_step.
Qed.
Lemma commutes_Face_create sqrt a b c : commutes g (Face_create sqrt a b c).
Proof.
  pose proof commutes_allocFace. pose proof commutes_allocEdge. pose proof commutes_modEdge.
  pose proof commutes_modFace. pose proof (commutes_Face_compute sqrt).
  unfold Face_create. comm_step.
Qed.
Lemma commutes_joinFaces fs a i b j : commutes g (joinFaces fs a i b j).
Proof.
  pose proof commutes_Face_getEdge. pose proof commutes_setTwin.
  unfold joinFaces. comm_step.
Qed.
Lemma commutes_buildTetrahedron sqrt s : commutes g (buildTetrahedron sqrt s).
Proof.
  pose proof (commutes_Face_create sqrt). pose proof commutes_joinFaces.
  pose proof commutes_pointOf.
  unfold buildTetrahedron. cbv zeta. comm_step.
Qed.

(** The assigned list. *)
Lemma commutes_append v : commutes g (VertexList_append assignedL v).
Proof.
  pose proof commutes_modVertex. pose proof commutes_modVertexAt.
  unfold VertexList_append, setHead, setTail. comm_step.
Qed.
Lemma commutes_insertBefore t v : commutes g (VertexList_insertBefore assignedL t v).
Proof.
  pose proof commutes_modVertex. pose proof commutes_getVertex.
  unfold VertexList_insertBefore, setHead, setTail. comm_step.
Qed.
Lemma commutes_remove v : commutes g (VertexList_remove assignedL v).
Proof.
  pose proof commutes_modVertex. pose proof commutes_getVertex.
  unfold VertexList_remove, setHead, setTail. comm_step.
Qed.
Lemma commutes_removeSubList a b : commutes g (VertexList_removeSubList assignedL a b).
Proof.
  pose proof commutes_modVertex. pose proof commutes_getVertex.
  unfold VertexList_removeSubList, setHead, setTail. comm_step.
Qed.
Lemma commutes_addVertexToFace v f : commutes g (addVertexToFace v f).
Proof.
  pose proof commutes_modVertex. pose proof commutes_getFace. pose proof commutes_modFace.
  pose proof commutes_append. pose proof commutes_insertBefore.
  unfold addVertexToFace. comm_step.
Qed.
Lemma commutes_removeVertexFromFace v o : commutes g (removeVertexFromFace v o).
Proof.
  pose proof commutes_getVertex. pose proof commutes_getFace. pose proof commutes_modFace.
  pose proof commutes_remove.
  unfold removeVertexFromFace. comm_step.
Qed.
Lemma commutes_lastOfFace f : forall fuel v, commutes g (lastOfFace fuel f v).
Proof.
  pose proof commutes_getVertex.
  induction fuel as [|fuel IH]; intros v; cbn [lastOfFace]; comm_step.
Qed.
Lemma commutes_removeAllVerticesFromFace f : commutes g (removeAllVerticesFromFace f).
Proof.
  pose proof commutes_getFace. pose proof commutes_modFace. pose proof commutes_modVertex.
  pose proof commutes_removeSubList. pose proof (commutes_lastOfFace f).
  unfold removeAllVerticesFromFace. comm_step.
Qed.

(** The choice of the simplex and the first assignment. *)
Lemma commutes_computeExtremes : commutes g computeExtremes.
Proof. pose proof commutes_pointOf. unfold computeExtremes. comm_step. Qed.
Lemma commutes_pickAxis ex : commutes g (pickAxis ex).
Proof. pose proof commutes_pointOf. unfold pickAxis. comm_step. Qed.
Lemma commutes_initialSimplex sqrt : commutes g (initialSimplex sqrt).
Proof.
  pose proof commutes_pointOf. pose proof commutes_computeExtremes.
  pose proof commutes_pickAxis.
  unfold initialSimplex. cbv zeta. comm_step.
Qed.
Lemma commutes_assignInitial v : commutes g (assignInitial v).
Proof.
  pose proof commutes_pointOf. pose proof commutes_getFace.
  pose proof commutes_addVertexToFace.
  unfold assignInitial. cbv zeta. comm_step.
Qed.
Lemma commutes_computeInitialHull sqrt : commutes g (computeInitialHull sqrt).
Proof.
  pose proof (commutes_initialSimplex sqrt). pose proof (commutes_buildTetrahedron sqrt).
  pose proof commutes_assignInitial.
  unfold computeInitialHull. comm_step.
Qed.
Lemma commutes_farthestOfFace f :
  forall fuel v md ev, commutes g (farthestOfFace fuel f v md ev).
Proof.
  pose proof commutes_getVertex. pose proof commutes_getFace.
  induction fuel as [|fuel IH]; intros v md ev; cbn [farthestOfFace]; cbv zeta; comm_step.
Qed.
Lemma commutes_nextVertexToAdd : commutes g nextVertexToAdd.
Proof.
  pose proof commutes_getVertex. pose proof commutes_getFace.
  pose proof commutes_farthestOfFace.
  unfold nextVertexToAdd. comm_step.
Qed.
Lemma commutes_reindexFaces : commutes g reindexFaces.
Proof. pose proof commutes_getFace. unfold reindexFaces. comm_step. Qed.

End Spare.

(** The list of new faces is not read while the horizon is computed. *)
Section SpareNewFaces.

Variable x : list nat.
Let g := set_newFaces x.

Lemma new_spare : spare g.
Proof. constructor. Qed.

Lemma commutes_clear_unassigned : commutes g (VertexList_clear unassignedL).
Proof. unfold VertexList_clear. comm_step. Qed.
Lemma commutes_lastOfChain : forall fuel v, commutes g (lastOfChain fuel v).
Proof.
  pose proof (commutes_getVertex g new_spare).
  induction fuel as [|fuel IH]; intros v; cbn [lastOfChain]; comm_step.
Qed.
Lemma commutes_appendChain v : commutes g (VertexList_appendChain unassignedL v).
Proof.
  pose proof (commutes_modVertex g new_spare). pose proof (commutes_modVertexAt g new_spare).
  pose proof commutes_lastOfChain.
  unfold VertexList_appendChain, setHead, setTail. comm_step.
Qed.
Lemma commutes_deleteFaceVertices f : commutes g (deleteFaceVertices f None).
Proof.
  pose proof (commutes_removeAllVerticesFromFace g new_spare).
  pose proof commutes_appendChain.
  unfold deleteFaceVertices. comm_step.
Qed.
Lemma commutes_horizonLoop rec eye :
  (forall c f hz, commutes g (rec c f hz)) ->
  forall fuel e c hz, commutes g (horizonLoop rec fuel eye e c hz).
Proof.
  intros Hrec. pose proof (commutes_getEdge g new_spare).
  pose proof (commutes_getFace g new_spare).
  induction fuel as [|fuel IH]; intros e c hz; cbn [horizonLoop]; cbv zeta; comm_step.
Qed.
Lemma commutes_computeHorizon eye :
  forall fuel c f hz, commutes g (computeHorizon fuel eye c f hz).
Proof.
  pose proof commutes_deleteFaceVertices as H1.
  pose proof (commutes_modFace g new_spare) as H2.
  pose proof (commutes_Face_getEdge g new_spare) as H3.
  pose proof (commutes_getEdge g new_spare) as H4.
  induction fuel as [|fuel IH]; intros c f hz; cbn [computeHorizon]; [apply commutes_throw|].
  apply commutes_bind; [apply H1|intros _].
  apply commutes_bind; [apply H2|intros _].
  apply commutes_bind; [comm_step|intros st].
  apply commutes_bind; [comm_step|intros n].
  apply commutes_horizonLoop. intros c' f' hz'. apply IH.
Qed.

End SpareNewFaces.

Lemma settles_commutes g {A} (c : M A) : commutes g c -> settles g c.
Proof. intros Hc h. right. apply Hc. Qed.

Lemma settles_absorbs g {A B} (c : M A) (k : A -> M B) :
  (forall h, c (g h) = c h) -> settles g (bind c k).
Proof. intros Hc h. left. unfold bind. now rewrite Hc. Qed.

Lemma settles_bind g {A B} (c : M A) (k : A -> M B) :
  settles g c -> (forall a, settles g (k a)) -> settles g (bind c k).
Proof.
  intros Hc Hk h. unfold bind. destruct (Hc h) as [E|E]; rewrite E; [now left|].
  destruct (c h) as [a h0|e h0]; cbn [lift]; [apply Hk|now right].
Qed.

(** [addVertexToHull] empties the unassigned list before it reads it, and
    the list of new faces when the new faces are made. *)
Lemma settles_addVertexToHull sqrt g eye : spare g -> settles g (addVertexToHull sqrt eye).
Proof.
  intros [x|u]; unfold addVertexToHull.
  - pose proof (new_spare x) as Hg.
    apply settles_bind; [apply settles_commutes, commutes_clear_unassigned|intros _].
    apply settles_bind; [apply settles_commutes, (commutes_getVertex _ Hg)|intros ev].
    apply settles_bind;
      [apply settles_commutes, (commutes_removeVertexFromFace _ Hg)|intros _].
    apply settles_bind; [apply settles_commutes, (commutes_getVertex _ Hg)|intros ev'].
    apply settles_bind; [apply settles_commutes, commutes_deref|intros eyeFace].
    apply settles_bind; [apply settles_commutes, commutes_gets; spare_side|intros n].
    apply settles_bind; [apply settles_commutes, commutes_computeHorizon|intros horizon].
    apply settles_absorbs. intros h. unfold addNewFaces, bind at 1 3, modify.
    now destruct h.
  - apply settles_absorbs. intros h. unfold VertexList_clear, modify. now destruct h.
Qed.

Lemma settles_growLoop sqrt g : spare g -> forall fuel, settles g (growLoop sqrt fuel).
Proof.
  intros Hg. induction fuel as [|fuel IH]; cbn [growLoop].
  - apply settles_commutes, commutes_throw.
  - apply settles_bind; [apply settles_commutes, (commutes_nextVertexToAdd _ Hg)|].
    intros [v|]; [|apply settles_commutes, commutes_ret].
    apply settles_bind; [apply settles_addVertexToHull, Hg|intros _; exact IH].
Qed.

Lemma settles_compute sqrt g : spare g -> settles g (compute sqrt).
Proof.
  intros Hg. unfold compute.
  apply settles_bind; [apply settles_commutes, (commutes_computeInitialHull _ Hg)|intros _].
  apply settles_bind; [apply settles_commutes, commutes_gets; spare_side|intros n].
  apply settles_bind; [apply settles_growLoop, Hg|intros _].
  apply settles_bind; [apply settles_commutes, (commutes_reindexFaces _ Hg)|intros _].
  destruct Hg as [x|u]; unfold cleanup.
  - apply settles_bind; [apply settles_commutes; unfold VertexList_clear; comm_step|intros _].
    apply settles_bind; [apply settles_commutes; unfold VertexList_clear; comm_step|intros _].
    intros h. left. unfold modify. now destruct h.
  - apply settles_bind; [apply settles_commutes; unfold VertexList_clear; comm_step|intros _].
    apply settles_absorbs. intros h. unfold VertexList_clear, modify. now destruct h.
Qed.

(** ** First found *)

(** The scan finds the first of the entries with the greatest key. *)
Lemma scanBest_step {A} (key : nat -> A -> option Q) (start : Q) :
  forall (l pre : list A) best r,
    start <= best ->
    match r with
    | None => best = start /\
              forall j y q, pre !! j = Some y -> key j y = Some q -> q <= start
    | Some (i, x) =>
        pre !! i = Some x /\ key i x = Some best /\ start < best /\
        (forall j y q, pre !! j = Some y -> key j y = Some q -> q <= best) /\
        (forall j y q, (j < i)%nat -> pre !! j = Some y -> key j y = Some q -> q < best)
    end ->
    firstBest key start (pre ++ l) (scanBest key l (length pre) best r).
Proof.
  induction l as [|x l IH]; intros pre best r Hs Hr; cbn [scanBest].
  - rewrite app_nil_r. destruct r as [[i y]|]; cbn [firstBest].
    + destruct Hr as (E & K & Hlt & Hall & Hbefore).
      split; [exact E|]. split; [|eauto]. exists y, best. auto.
    + exact (proj2 Hr).
  - replace (pre ++ x :: l) with ((pre ++ [x]) ++ l) by (rewrite <- app_assoc; reflexivity).
    replace (S (length pre)) with (length (pre ++ [x])) by (rewrite length_app; cbn; lia).
    assert (Hlook : forall j y, (pre ++ [x]) !! j = Some y ->
                      pre !! j = Some y \/ (j = length pre /\ y = x)).
    { intros j y E. apply lookup_app_Some in E as [E|[Hj E]]; [now left|right].
      destruct (j - length pre)%nat as [|k] eqn:Ek; [|discriminate].
      injection E as <-. split; [lia|reflexivity]. }
    destruct (Num.nan_gtb (key (length pre) x) best) eqn:Eg.
    + destruct (key (length pre) x) as [d|] eqn:Ek; [|discriminate].
      cbn [Num.nan_gtb] in Eg. apply gtb_true in Eg.
      change (default 0 (Some d)) with d.
      assert (Hpre : forall j y q, pre !! j = Some y -> key j y = Some q -> q <= best).
      { destruct r as [[i y]|].
        - exact (proj1 (proj2 (proj2 (proj2 Hr)))).
        - destruct Hr as [-> Hr]. exact Hr. }
      apply IH; [lra|].
      split; [rewrite lookup_app_r by lia; now rewrite Nat.sub_diag|].
      split; [exact Ek|]. split; [lra|]. split.
      * intros j y q E K. destruct (Hlook j y E) as [E'|[-> ->]].
        -- pose proof (Hpre j y q E' K). lra.
        -- assert (q = d) as -> by congruence. apply Qle_refl.
      * intros j y q Hj E K. destruct (Hlook j y E) as [E'|[-> ->]]; [|lia].
        pose proof (Hpre j y q E' K). lra.
    + assert (Hx : forall q, key (length pre) x = Some q -> q <= best).
      { intros q K. rewrite K in Eg. cbn [Num.nan_gtb] in Eg. now apply gtb_false in Eg. }
      apply IH; [exact Hs|].
      destruct r as [[i y]|].
      * destruct Hr as (E & K & Hlt & Hall & Hbefore).
        split; [apply lookup_app_l_Some; exact E|]. split; [exact K|]. split; [exact Hlt|].
        split.
        -- intros j z q E' K'. destruct (Hlook j z E') as [E''|[-> ->]]; eauto.
        -- intros j z q Hj E' K'. destruct (Hlook j z E') as [E''|[-> ->]]; [eauto|].
           apply lookup_lt_Some in E. lia.
      * destruct Hr as [-> Hr]. split; [reflexivity|].
        intros j z q E' K'. destruct (Hlook j z E') as [E''|[-> ->]]; eauto.
Qed.

Lemma scanBest_firstBest {A} (key : nat -> A -> option Q) (start : Q) (l : list A) :
  firstBest key start l (scanBest key l 0 start None).
Proof.
  apply (scanBest_step key start l [] start None); [apply Qle_refl|].
  split; [reflexivity|]. intros j y q E. discriminate.
Qed.

(** What the scan finds is the only thing that can be found. *)
Lemma firstBest_unique {A} (key : nat -> A -> option Q) start (l : list A) r r' :
  firstBest key start l r -> firstBest key start l r' -> r = r'.
Proof.
  destruct r as [[i x]|], r' as [[i' x']|]; cbn [firstBest]; intros H H'.
  - destruct H as (E & (x0 & d0 & E0 & K0 & Hall & Hbef) & _).
    destruct H' as (E' & (x1 & d1 & E1 & K1 & Hall' & Hbef') & _).
    assert (i = i') as <-.
    { destruct (Nat.lt_trichotomy i i') as [Hlt|[Heq|Hgt]]; [|exact Heq|].
      - pose proof (Hbef' i x0 d0 Hlt E0 K0). pose proof (Hall i' x1 d1 E1 K1). lra.
      - pose proof (Hbef i' x1 d1 Hgt E1 K1). pose proof (Hall' i x0 d0 E0 K0). lra. }
    congruence.
  - destruct H as (E & _ & d & K & Hd). pose proof (H' i x d E K). lra.
  - destruct H' as (E & _ & d & K & Hd). pose proof (H i' x' d E K). lra.
  - reflexivity.
Qed.

(** Each search of the build is such a scan. *)
Lemma findV2_scan line3 v0 v1 vs : forall i md v2 rr,
  v2 = fst <$> rr ->
  findV2 line3 v0 v1 vs i md v2 = fst <$> scanBest (segmentKey line3 v0 v1) vs i md rr.
Proof.
  induction vs as [|v vs IH]; intros i md v2 rr Hr; cbn [findV2 scanBest]; [exact Hr|].
  assert (K : segmentKey line3 v0 v1 i v =
              if negb (i =? v0)%nat && negb (i =? v1)%nat
              then distanceToSegmentSq line3 (VertexNode.point v) else None) by reflexivity.
  rewrite K. clear K. destruct (negb (i =? v0)%nat && negb (i =? v1)%nat).
  - cbv zeta. destruct (Num.nan_gtb _ md); [now apply IH|now apply IH].
  - cbn [Num.nan_gtb]. now apply IH.
Qed.

Lemma findV3_scan plane v0 v1 v2 vs : forall i md v3 rr,
  v3 = fst <$> rr ->
  findV3 plane v0 v1 v2 vs i md v3 = fst <$> scanBest (planeKey plane v0 v1 v2) vs i md rr.
Proof.
  induction vs as [|v vs IH]; intros i md v3 rr Hr; cbn [findV3 scanBest]; [exact Hr|].
  assert (K : planeKey plane v0 v1 v2 i v =
              if negb (i =? v0)%nat && negb (i =? v1)%nat && negb (i =? v2)%nat
              then Some (Num.abs (Plane.distanceToPoint plane (VertexNode.point v)))
              else None) by reflexivity.
  rewrite K. clear K.
  destruct (negb (i =? v0)%nat && negb (i =? v1)%nat && negb (i =? v2)%nat).
  - cbv zeta. cbn [Num.nan_gtb]. destruct (Num.gtb _ md); [now apply IH|now apply IH].
  - cbn [Num.nan_gtb]. now apply IH.
Qed.

Lemma pickFarthest_scan vs fa l : forall i md ev rr,
  ev = snd <$> rr ->
  pickFarthest vs fa l md ev = snd <$> scanBest (vertexKey vs fa) l i md rr.
Proof.
  induction l as [|u l IH]; intros i md ev rr Hr; cbn [pickFarthest scanBest]; [exact Hr|].
  assert (K : vertexKey vs fa i u = Some (distanceOf vs fa u)) by reflexivity.
  rewrite K. clear K. cbn [Num.nan_gtb].
  destruct (Num.gtb _ md); [now apply IH|now apply IH].
Qed.

Lemma pickStep_scan vs ex l : forall i acc rr,
  snd acc = default 0%nat (snd <$> rr) ->
  snd (fold_left (pickStep vs ex) l acc)
  = default 0%nat (snd <$> scanBest (axisKey vs ex) l i (fst acc) rr).
Proof.
  induction l as [|a l IH]; intros i acc rr Hr; cbn [fold_left scanBest]; [exact Hr|].
  assert (K : axisKey vs ex i a = Some (separation vs ex a)) by reflexivity.
  rewrite K. clear K. unfold pickStep at 2. cbn [Num.nan_gtb].
  destruct (Num.gtb _ (fst acc)).
  - rewrite (IH (S i) _ (Some (i, a))); reflexivity.
  - now apply IH.
Qed.

Lemma gtb_opp a b : Num.gtb (- a) (- b) = Num.ltb a b.
Proof.
  unfold Num.ltb. destruct (Num.gtb b a) eqn:E.
  - apply gtb_true in E. apply gtb_true. lra.
  - apply gtb_false in E. apply gtb_false. lra.
Qed.

(** The scan of [computeExtremes], axis by axis. *)
Lemma scanExtremes_scan j (Hj : (j < 3)%nat) vs : forall i mn mx rmin rmax,
  length (snd mn) = 3%nat -> length (snd mx) = 3%nat ->
  snd mn !! j = Some (default 0%nat (fst <$> rmin)) ->
  snd mx !! j = Some (default 0%nat (fst <$> rmax)) ->
  let r := scanExtremes vs i mn mx in
  snd (fst r) !! j =
    Some (default 0%nat
            (fst <$> scanBest (againstAxis j) vs i (- Vector3.getComponent (fst mn) j) rmin)) /\
  snd (snd r) !! j =
    Some (default 0%nat
            (fst <$> scanBest (alongAxis j) vs i (Vector3.getComponent (fst mx) j) rmax)).
Proof.
  induction vs as [|v vs IH]; intros i mn mx rmin rmax Ln Lx Hn Hx;
    cbn [scanExtremes scanBest]; [split; assumption|].
  cbv zeta.
  destruct (updateMin_handle i (VertexNode.point v) mn j Hj Ln) as [Ln' Hn'].
  destruct (updateMax_handle i (VertexNode.point v) mx j Hj Lx) as [Lx' Hx'].
  pose proof (updateMin_component i (VertexNode.point v) mn j Hj) as Cn.
  pose proof (updateMax_component i (VertexNode.point v) mx j Hj) as Cx.
  assert (K1 : againstAxis j i v = Some (- Vector3.getComponent (VertexNode.point v) j))
    by reflexivity.
  assert (K2 : alongAxis j i v = Some (Vector3.getComponent (VertexNode.point v) j))
    by reflexivity.
  rewrite K1, K2. clear K1 K2. cbn [Num.nan_gtb].
  rewrite gtb_opp.
  change (default 0 (Some (- Vector3.getComponent (VertexNode.point v) j)))
    with (- Vector3.getComponent (VertexNode.point v) j).
  change (default 0 (Some (Vector3.getComponent (VertexNode.point v) j)))
    with (Vector3.getComponent (VertexNode.point v) j).
  destruct (Num.ltb (Vector3.getComponent (VertexNode.point v) j)
                    (Vector3.getComponent (fst mn) j));
    destruct (Num.gtb (Vector3.getComponent (VertexNode.point v) j)
                      (Vector3.getComponent (fst mx) j));
    [ pose proof (IH (S i) _ _ (Some (i, v)) (Some (i, v)) Ln' Lx' Hn' Hx') as IH'
    | pose proof (IH (S i) _ _ (Some (i, v)) rmax Ln' Lx' Hn' (eq_trans Hx' Hx)) as IH'
    | pose proof (IH (S i) _ _ rmin (Some (i, v)) Ln' Lx' (eq_trans Hn' Hn) Hx') as IH'
    | pose proof (IH (S i) _ _ rmin rmax Ln' Lx' (eq_trans Hn' Hn) (eq_trans Hx' Hx)) as IH' ];
    cbv zeta in IH'; rewrite Cn, Cx in IH'; exact IH'.
Qed.

(** The scan of the four faces of the tetrahedron for one vertex. *)
Lemma assignInitial_scan p h : forall k i acc rr r' h',
  snd acc = snd <$> rr ->
  foldM (fun (acc : Q * option nat) (j : nat) =>
      let* fs := gets faces in
      let* f := deref (fs !! j) in
      let* fa := getFace f in
      let distance := Face.distanceToPoint fa p in
      ret (if Num.gtb distance (fst acc) then (distance, Some f) else acc))
    (seq i k) acc h = Ok r' h' ->
  h' = h /\ length (take k (drop i (faces h))) = k /\
  snd r' = snd <$> scanBest (faceKey h p) (take k (drop i (faces h))) i (fst acc) rr.
Proof.
  induction k as [|k IH]; intros i acc rr r' h' Hr H; cbn [seq foldM] in H.
  - injection H as <- <-. rewrite take_0. auto.
  - apply bind_Ok_inv in H as (acc1 & h1 & E1 & H).
    inv_read E1 fs Efs. injection Efs as <-.
    inv_read E1 f Ef. apply deref_inv in Ef as [Ef _].
    inv_read E1 fa Efa. apply getFace_inv in Efa as [Efa _]. injection E1 as <- <-.
    rewrite (drop_S _ _ _ Ef). cbn [take scanBest length].
    assert (K : faceKey h p i f = Some (Face.distanceToPoint fa p))
      by (unfold faceKey; now rewrite Efa).
    rewrite K. cbn [Num.nan_gtb].
    change (default 0 (Some (Face.distanceToPoint fa p))) with (Face.distanceToPoint fa p).
    destruct (Num.gtb (Face.distanceToPoint fa p) (fst acc)).
    + destruct (IH (S i) (Face.distanceToPoint fa p, Some f) (Some (i, f)) r' h' eq_refl H)
        as (-> & L & R).
      cbn [fst] in R. auto.
    + destruct (IH (S i) _ rr r' h' Hr H) as (-> & L & R). auto.
Qed.

(** The scan of the new faces for one vertex stops early when a face is
    found from which the vertex is farther than a thousand tolerances. *)
Lemma scanNewFaces_scan p h fs : forall i md mf rr r h',
  md <= 1000 * tolerance h -> mf = snd <$> rr ->
  scanNewFaces fs p md mf h = Ok r h' ->
  h' = h /\
  exists fs1 rest,
    fs = fs1 ++ rest /\
    r = snd <$> scanBest (visibleKey h p) fs1 i md rr /\
    (rest = [] \/
     exists f fa, r = Some f /\ last fs1 = Some f /\ faceHeap h !! f = Some fa /\
                  1000 * tolerance h < Face.distanceToPoint fa p).
Proof.
  induction fs as [|f fs IH]; intros i md mf rr r h' Hmd Hr H; cbn [scanNewFaces] in H.
  - injection H as <- <-. split; [reflexivity|]. exists [], []. auto.
  - inv_read H fa Efa. apply getFace_inv in Efa as [Efa _].
    assert (K : visibleKey h p i f =
                if Mark_eqb (Face.mark fa) Visible
                then Some (Face.distanceToPoint fa p) else None)
      by (unfold visibleKey; now rewrite Efa).
    destruct (Mark_eqb (Face.mark fa) Visible) eqn:Em.
    + inv_read H tol Etol. injection Etol as <-. cbv zeta in H.
      destruct (Num.gtb (Face.distanceToPoint fa p) md) eqn:Eg.
      * destruct (Num.gtb (Face.distanceToPoint fa p) (1000 * tolerance h)) eqn:Ex.
        -- injection H as <- <-. split; [reflexivity|]. exists [f], fs.
           split; [reflexivity|]. cbn [scanBest]. rewrite K. cbn [Num.nan_gtb]. rewrite Eg.
           split; [reflexivity|]. right. exists f, fa.
           apply gtb_true in Ex. auto.
        -- apply gtb_false in Ex.
           destruct (IH (S i) (Face.distanceToPoint fa p) (Some f) (Some (i, f)) r h' Ex
                       eq_refl H)
             as (-> & fs1 & rest & -> & R & X).
           split; [reflexivity|]. exists (f :: fs1), rest. split; [reflexivity|].
           cbn [scanBest]. rewrite K. cbn [Num.nan_gtb]. rewrite Eg.
           split; [exact R|].
           destruct X as [X|(g & ga & X1 & X2 & X3)]; [now left|right].
           exists g, ga. split; [exact X1|]. split; [|exact X3].
           destruct fs1; [discriminate|exact X2].
      * destruct (Num.gtb md (1000 * tolerance h)) eqn:Ex;
          [apply gtb_true in Ex; lra|].
        destruct (IH (S i) _ _ rr r h' Hmd Hr H) as (-> & fs1 & rest & -> & R & X).
        split; [reflexivity|]. exists (f :: fs1), rest. split; [reflexivity|].
        cbn [scanBest]. rewrite K. cbn [Num.nan_gtb]. rewrite Eg.
        split; [exact R|].
        destruct X as [X|(g & ga & X1 & X2 & X3)]; [now left|right].
        exists g, ga. split; [exact X1|]. split; [|exact X3].
        destruct fs1; [discriminate|exact X2].
    + destruct (IH (S i) _ _ rr r h' Hmd Hr H) as (-> & fs1 & rest & -> & R & X).
      split; [reflexivity|]. exists (f :: fs1), rest. split; [reflexivity|].
      cbn [scanBest]. rewrite K. cbn [Num.nan_gtb].
      split; [exact R|].
      destruct X as [X|(g & ga & X1 & X2 & X3)]; [now left|right].
      exists g, ga. split; [exact X1|]. split; [|exact X3].
      destruct fs1; [discriminate|exact X2].
Qed.

Lemma pickAxis_scan h ex : forall l i acc rr r' h',
  snd acc = default 0%nat (snd <$> rr) ->
  foldM (fun (acc : Q * nat) (i : nat) =>
      let* vmax := deref (ex_max ex !! i) in
      let* vmin := deref (ex_min ex !! i) in
      let* pmax := pointOf vmax in
      let* pmin := pointOf vmin in
      let distance := Vector3.getComponent pmax i - Vector3.getComponent pmin i in
      ret (if Num.gtb distance (fst acc) then (distance, i) else acc))
    l acc h = Ok r' h' ->
  h' = h /\
  snd r' = default 0%nat (snd <$> scanBest (axisKey (vertices h) ex) l i (fst acc) rr).
Proof.
  induction l as [|a l IH]; intros i acc rr r' h' Hr H; cbn [foldM] in H.
  - injection H as <- <-. auto.
  - apply bind_Ok_inv in H as (acc1 & h1 & E1 & H).
    inv_read E1 vmax Emax. apply deref_inv in Emax as [Emax _].
    inv_read E1 vmin Emin. apply deref_inv in Emin as [Emin _].
    inv_read E1 pmax Epmax. unfold pointOf in Epmax. inv_read Epmax nmax Enmax.
    apply getVertex_inv in Enmax as [Enmax _]. injection Epmax as <-.
    inv_read E1 pmin Epmin. unfold pointOf in Epmin. inv_read Epmin nmin Enmin.
    apply getVertex_inv in Enmin as [Enmin _]. injection Epmin as <-.
    injection E1 as <- <-.
    assert (K : axisKey (vertices h) ex i a =
                Some (Vector3.getComponent (VertexNode.point nmax) a
                      - Vector3.getComponent (VertexNode.point nmin) a)).
    { unfold axisKey, separation, coord. now rewrite Emax, Emin, Enmax, Enmin. }
    cbn [scanBest]. rewrite K. cbn [Num.nan_gtb].
    change (default 0 (Some ?q)) with q.
    destruct (Num.gtb _ (fst acc)).
    + exact (IH (S i) (_, a) (Some (i, a)) r' h' eq_refl H).
    + exact (IH (S i) acc rr r' h' Hr H).
Qed.

(** *** The rule of each search *)

Lemma foremost_of_firstBest {A} (key : nat -> A -> option Q) (l : list A) x0 d0 r :
  l !! 0%nat = Some x0 -> key 0%nat x0 = Some d0 ->
  firstBest key d0 l r -> foremost key l (default 0%nat (fst <$> r)).
Proof.
  intros E0 K0 H. destruct r as [[i x]|]; cbn [firstBest] in H.
  - exact (proj1 (proj2 H)).
  - exists x0, d0. split; [exact E0|]. split; [exact K0|]. split; [exact H|].
    intros j y q Hj. cbn in Hj. lia.
Qed.

Lemma computeExtremes_first h ex h' j :
  computeExtremes h = Ok ex h' -> (j < 3)%nat ->
  exists kmin kmax,
    ex_min ex !! j = Some kmin /\ ex_max ex !! j = Some kmax /\
    foremost (againstAxis j) (vertices h) kmin /\
    foremost (alongAxis j) (vertices h) kmax.
Proof.
  intros H Hj. destruct (vertices h) as [|v vs] eqn:Hv.
  - exfalso. unfold computeExtremes, bind, gets, pointOf, getVertex, bind, gets, deref in H.
    rewrite Hv in H. discriminate.
  - rewrite (computeExtremes_ok h v vs Hv) in H. cbv zeta in H. injection H as <- _.
    cbn [ex_min ex_max].
    destruct (scanExtremes_scan j Hj (v :: vs) 0%nat (VertexNode.point v, [0; 0; 0]%nat)
                (VertexNode.point v, [0; 0; 0]%nat) None None eq_refl eq_refl) as [Hmin Hmax].
    + destruct j as [|[|[|j]]]; [reflexivity..|lia].
    + destruct j as [|[|[|j]]]; [reflexivity..|lia].
    + cbn [fst] in Hmin, Hmax. eexists _, _. split; [exact Hmin|]. split; [exact Hmax|].
      split.
      * apply (foremost_of_firstBest _ _ v (- Vector3.getComponent (VertexNode.point v) j));
          [reflexivity..|apply scanBest_firstBest].
      * apply (foremost_of_firstBest _ _ v (Vector3.getComponent (VertexNode.point v) j));
          [reflexivity..|apply scanBest_firstBest].
Qed.

Lemma pickAxis_first h ex i h' :
  pickAxis ex h = Ok i h' ->
  exists r, firstBest (axisKey (vertices h) ex) 0 axes r /\ i = default 0%nat (snd <$> r).
Proof.
  intros H. unfold pickAxis in H. apply bind_Ok_inv in H as (r' & h1 & E & H).
  injection H as <- _.
  destruct (pickAxis_scan h ex axes 0%nat (0, 0%nat) None r' h1 eq_refl E) as [_ R].
  eexists. split; [apply scanBest_firstBest|exact R].
Qed.

Lemma findV2_first line3 v0 v1 vs :
  exists r, firstBest (segmentKey line3 v0 v1) 0 vs r /\
            findV2 line3 v0 v1 vs 0 0 None = fst <$> r.
Proof.
  eexists. split; [apply scanBest_firstBest|]. now apply findV2_scan.
Qed.

Lemma findV3_first plane v0 v1 v2 vs :
  exists r, firstBest (planeKey plane v0 v1 v2) (-1) vs r /\
            findV3 plane v0 v1 v2 vs 0 (-1) None = fst <$> r.
Proof.
  eexists. split; [apply scanBest_firstBest|]. now apply findV3_scan.
Qed.

Lemma assignInitial_first v h h' :
  assignInitial v h = Ok tt h' ->
  exists n r,
    vertices h !! v = Some n /\
    firstBest (faceKey h (VertexNode.point n)) (tolerance h) (take 4 (faces h)) r /\
    match r with
    | Some (_, f) => addVertexToFace v f h = Ok tt h'
    | None => h' = h
    end.
Proof.
  intros H. unfold assignInitial in H.
  inv_read H p Ep. unfold pointOf in Ep. inv_read Ep n En.
  apply getVertex_inv in En as [En _]. injection Ep as <-.
  inv_read H tol Etol. injection Etol as <-.
  apply bind_Ok_inv in H as (r' & h0 & E0 & H).
  destruct (assignInitial_scan (VertexNode.point n) h 4 0%nat (tolerance h, None) None
              r' h0 eq_refl E0) as (-> & _ & R).
  rewrite drop_0 in R. cbn [fst] in R.
  exists n, (scanBest (faceKey h (VertexNode.point n)) (take 4 (faces h)) 0 (tolerance h) None).
  split; [exact En|]. split; [apply scanBest_firstBest|].
  rewrite R in H. destruct (scanBest _ _ _ _ _) as [[i f]|]; cbn in H.
  - exact H.
  - unfold ret in H. congruence.
Qed.

Lemma nextVertexToAdd_first h first n eyeFace fa start l :
  VertexList.first (assigned h) = Some first ->
  vertices h !! first = Some n -> VertexNode.face n = Some eyeFace ->
  faceHeap h !! eyeFace = Some fa -> Face.outside fa = Some start ->
  outsideRun (vertices h) eyeFace start l ->
  exists r, firstBest (vertexKey (vertices h) fa) 0 l r /\
            nextVertexToAdd h = Ok (snd <$> r) h.
Proof.
  intros Hfirst Hn Hface Hfa Hout Hrun.
  eexists. split; [apply scanBest_firstBest|].
  unfold nextVertexToAdd.
  rewrite (bind_Ok (gets assigned) _ h (assigned h) h eq_refl). rewrite Hfirst.
  rewrite (bind_Ok _ _ _ _ _ (getVertex_Ok h first n Hn)). rewrite Hface.
  rewrite (bind_Ok _ _ _ _ _ (deref_Some eyeFace h)).
  rewrite (bind_Ok _ _ _ _ _ (getFace_Ok h eyeFace fa Hfa)).
  rewrite (bind_Ok (gets (fun h => length (vertices h))) _ h (length (vertices h)) h eq_refl).
  rewrite Hout.
  rewrite (farthestOfFace_run h eyeFace fa Hfa start l Hrun).
  2:{ pose proof (outsideRun_length _ _ _ _ Hrun). lia. }
  now rewrite (pickFarthest_scan (vertices h) fa l 0%nat 0 None None eq_refl).
Qed.

Lemma scanNewFaces_first fs p h mf h' :
  0 <= tolerance h ->
  scanNewFaces fs p (tolerance h) None h = Ok mf h' ->
  h' = h /\
  exists fs1 rest r,
    fs = fs1 ++ rest /\
    firstBest (visibleKey h p) (tolerance h) fs1 r /\ mf = snd <$> r /\
    (rest = [] \/
     exists f fa, mf = Some f /\ last fs1 = Some f /\ faceHeap h !! f = Some fa /\
                  1000 * tolerance h < Face.distanceToPoint fa p).
Proof.
  intros Ht H.
  destruct (scanNewFaces_scan p h fs 0%nat (tolerance h) None None mf h') as
    (-> & fs1 & rest & -> & R & X); [lra|reflexivity|exact H|].
  split; [reflexivity|]. exists fs1, rest. eexists.
  split; [reflexivity|]. split; [apply scanBest_firstBest|]. split; [exact R|exact X].
Qed.

(** *** The hull that the build is run on *)

Lemma mould_spare g h : spare g -> mould (g h) = mould h.
Proof. intros [x|u]; now destruct h. Qed.

Lemma alike_refl {A} (o : outcome A) : alike o o.
Proof. destruct o; split; reflexivity. Qed.

Lemma alike_sym {A} (o1 o2 : outcome A) : alike o1 o2 -> alike o2 o1.
Proof. destruct o1, o2; cbn; intros H; try contradiction; destruct H; split; congruence. Qed.

Lemma alike_trans {A} (o1 o2 o3 : outcome A) : alike o1 o2 -> alike o2 o3 -> alike o1 o3.
Proof.
  destruct o1, o2, o3; cbn; intros H1 H2; try contradiction;
    destruct H1, H2; split; congruence.
Qed.

Lemma settles_alike g {A} (c : M A) h : spare g -> settles g c -> alike (c (g h)) (c h).
Proof.
  intros Hg Hc. destruct (Hc h) as [E|E]; rewrite E; [apply alike_refl|].
  destruct (c h); cbn; (split; [reflexivity|now apply mould_spare]).
Qed.

Lemma prepared_receiver points h :
  assigned h = VertexList.new ->
  prepared points h =
  set_tolerance (tolerance h)
    (set_newFaces (newFaces h) (set_unassigned (unassigned h) (prepared points new))).
Proof. intros Ha. destruct h. cbn in Ha. subst. reflexivity. Qed.

(** The build on a hull whose assigned list is empty runs as on a new
    hull. *)
Lemma compute_receiver sqrt points h :
  points <> [] -> assigned h = VertexList.new ->
  alike (compute sqrt (prepared points h)) (compute sqrt (prepared points new)).
Proof.
  intros Hp Ha. rewrite (prepared_receiver points h Ha).
  rewrite compute_any_tolerance.
  - apply (alike_trans _ (compute sqrt (set_unassigned (unassigned h) (prepared points new)))).
    + apply settles_alike; [constructor|apply settles_compute; constructor].
    + apply settles_alike; [constructor|apply settles_compute; constructor].
  - cbn. destruct points; [congruence|discriminate].
Qed.

Lemma clean_mould h h' : clean h -> clean h' -> mould h = mould h' -> h = h'.
Proof.
  intros (A1 & U1 & N1) (A2 & U2 & N2) H. unfold mould in H.
  destruct h, h'. cbn in *. congruence.
Qed.





(** ** The loop of the build *)

Lemma growLoop_reached sqrt : forall fuel h h',
  reached sqrt h -> growLoop sqrt fuel h = Ok tt h' ->
  reached sqrt h' /\ VertexList.isEmpty (assigned h') = true.
Proof.
  induction fuel as [|fuel IH]; intros h h' Hr H; [discriminate|]. cbn [growLoop] in H.
  apply bind_Ok_inv in H as (vertex & h0 & E0 & H).
  pose proof (reads_nextVertexToAdd _ _ _ E0) as ->.
  destruct vertex as [eye|].
  - apply bind_Ok_inv in H as ([] & h1 & E1 & H).
    apply (IH h1 h'); [|exact H]. exact (reached_vertex sqrt h eye h1 Hr E0 E1).
  - unfold ret in H. assert (h' = h) as -> by congruence. split; [exact Hr|].
    destruct (VertexList.first (assigned h)) as [first|] eqn:Ef.
    + destruct (reached_next sqrt h first Hr Ef)
        as (n & f & fa & l & eye & _ & _ & _ & _ & _ & Hn & _).
      congruence.
    + unfold VertexList.isEmpty. unfold VertexList.first in Ef. now rewrite Ef.
Qed.

Lemma cubeStart_reached : reached Qsqrt cubeStart.
Proof.
  assert (H0 : thrown (computeInitialHull Qsqrt (prepared cube new)) = None)
    by (vm_compute; reflexivity).
  apply (prepared_reached Qsqrt cube new cubeStart eq_refl).
  exact (run_final (computeInitialHull Qsqrt) (prepared cube new) H0).
Qed.

(** X24: the loop of [compute] does not stop while a vertex is left to add.
    Started in a state that the build reaches, it returns only in another
    such state, and with the assigned list empty: as long as the list holds
    a vertex, [nextVertexToAdd] finds one to go on with. *)
Theorem growLoop_drains (sqrt : Q -> Q) (fuel : nat) (h h' : hull) :
  reached sqrt h -> growLoop sqrt fuel h = Ok tt h' ->
  reached sqrt h' /\ VertexList.isEmpty (assigned h') = true.
Proof. exact (growLoop_reached sqrt fuel h h'). Qed.

(** X24, witness: the loop on the cube with its initial tetrahedron. *)
Lemma growLoop_drains_witness :
  reached Qsqrt cubeStart /\
  VertexList.isEmpty (assigned (final (growLoop Qsqrt 9 cubeStart))) = true.
Proof.
  assert (H1 : thrown (growLoop Qsqrt 9 cubeStart) = None) by (vm_compute; reflexivity).
  split; [exact cubeStart_reached|].
  exact (proj2 (growLoop_drains Qsqrt 9 cubeStart (final (growLoop Qsqrt 9 cubeStart))
                  cubeStart_reached (run_final (growLoop Qsqrt 9) cubeStart H1))).
Defined.

(** X25: in every state that the build reaches, the tolerance is not
    negative, and each vertex that has been given to a face lies outside it:
    farther from the plane of that face than the tolerance.  The planes of
    the faces and the tolerance are never written again, and a vertex is
    given to a face only after its distance has been compared with the
    tolerance. *)
Theorem reached_outside (sqrt : Q -> Q) (h : hull) :
  reached sqrt h ->
  0 <= tolerance h /\
  forall v n f, vertices h !! v = Some n -> VertexNode.face n = Some f ->
    exists fa, faceHeap h !! f = Some fa /\
               tolerance h < Face.distanceToPoint fa (VertexNode.point n).
Proof. intros Hr. exact (proj1 (reached_ledger sqrt h Hr)). Qed.

(** X25, witness: the cube with its initial tetrahedron. *)
Lemma reached_outside_witness :
  reached Qsqrt cubeStart /\ 0 <= tolerance cubeStart.
Proof.
  split; [exact cubeStart_reached|].
  exact (proj1 (reached_outside Qsqrt cubeStart cubeStart_reached)).
Defined.

End Props.
